(** * The position/hierarchy engine of the todo-list server

    A shallow embedding of the SQLite-backed engine (the server-side
    [db.js]: [compactPositionsTx], [deleteTodo], [updateTodoPositions],
    [createTodo], [updateTodo], [deleteList]) and of the shallow validation
    that the route [PATCH /api/todos/positions] of [server/routes.js] runs
    before it calls the engine; the functions of [db.js] on settings and
    lists and the bootstrap of [getDb]; [classifyDbError], [withRetries] and
    the replies of the routes; and the fallback of the client ([src/db.js])
    on its arrays in memory.

    The [todos] table is a finite map from the primary key [id] to the other
    columns; statements are functions on the store; a transaction body is a
    computation in a state-and-exception monad, and [transaction] is the
    commit-or-rollback wrapper of better-sqlite3. For the failures of the
    driver itself (a database that is busy or full) the calls of the engine
    are also written as the statements they run, one of which can fail. *)

From stdpp Require Import gmap strings list fin_maps sorting.
From Stdlib Require Import ZArith Lia DecimalString.

Open Scope Z_scope.

(** ** Numbers

    A JavaScript number that reaches the [position] column is an integer or
    one of the two infinities ([JSON.parse "1e999"] is [Infinity]); [NaN] is
    what [Number(undefined)] and [Number("abc")] give, and SQLite binds it as
    NULL. Finite numbers with a fractional part are outside the model. *)

Inductive num : Type :=
  | NegInf
  | Int (z : Z)
  | PosInf.

Inductive jsnum : Type :=
  | NaN
  | Num (n : num).

Global Instance num_eq_dec : EqDecision num.
Proof. solve_decision. Defined.

Global Instance jsnum_eq_dec : EqDecision jsnum.
Proof. solve_decision. Defined.

(** The numeric order of JavaScript and of SQLite's ORDER BY, through the
    pair (class, value). *)
Definition num_class (n : num) : Z :=
  match n with NegInf => -1 | Int _ => 0 | PosInf => 1 end.

Definition num_val (n : num) : Z :=
  match n with Int z => z | _ => 0 end.

Definition num_lt (a b : num) : Prop :=
  num_class a < num_class b ∨ (num_class a = num_class b ∧ num_val a < num_val b).

Definition num_le (a b : num) : Prop :=
  num_class a < num_class b ∨ (num_class a = num_class b ∧ num_val a ≤ num_val b).

Global Instance num_lt_dec : RelDecision num_lt.
Proof. intros a b. unfold num_lt. apply _. Defined.

Global Instance num_le_dec : RelDecision num_le.
Proof. intros a b. unfold num_le. apply _. Defined.

(** [x + 1] on a number that is not NaN. *)
Definition num_succ (n : num) : num :=
  match n with Int z => Int (z + 1) | other => other end.

Definition num_max (a b : num) : num := if decide (num_le a b) then b else a.

(** ** Rows and the store *)

Record Todo : Type := mkTodo {
  text : string;
  completed : bool;
  isEmpty : bool;
  parentId : option Z;
  isIndented : bool;
  position : num;
  listId : Z
}.

Record ListRow : Type := mkListRow {
  name : string;
  created_at : Z;
  updated_at : Z
}.

Record Settings : Type := mkSettings {
  title : string;
  dark_mode : bool;
  current_list_id : option Z
}.

Record Store : Type := mkStore {
  todos : gmap Z Todo;
  lists : gmap Z ListRow;
  settings : Settings
}.

Global Instance Todo_eq_dec : EqDecision Todo.
Proof. solve_decision. Defined.

Definition setPosition (p : num) (t : Todo) : Todo :=
  mkTodo (text t) (completed t) (isEmpty t) (parentId t) (isIndented t) p (listId t).

Definition setParent (pid : option Z) (t : Todo) : Todo :=
  mkTodo (text t) (completed t) (isEmpty t) pid (isIndented t) (position t) (listId t).

Definition setIndented (b : bool) (t : Todo) : Todo :=
  mkTodo (text t) (completed t) (isEmpty t) (parentId t) b (position t) (listId t).

Definition setText (v : string) (t : Todo) : Todo :=
  mkTodo v (completed t) (isEmpty t) (parentId t) (isIndented t) (position t) (listId t).

Definition setCompleted (b : bool) (t : Todo) : Todo :=
  mkTodo (text t) b (isEmpty t) (parentId t) (isIndented t) (position t) (listId t).

Definition setIsEmpty (b : bool) (t : Todo) : Todo :=
  mkTodo (text t) (completed t) b (parentId t) (isIndented t) (position t) (listId t).

Definition setTodos (d : gmap Z Todo) (s : Store) : Store :=
  mkStore d (lists s) (settings s).

(** A row as a SELECT returns it: the key and the columns. *)
Abbreviation TodoRow := (Z * Todo)%type.

(** ** Errors, outcomes, transactions *)

Inductive Error : Type :=
  | TodoNotFound               (* 'Todo not found' *)
  | FirstTodoNotFound          (* 'First todo not found' *)
  | TodoIdNotFound (id : Z)    (* `Todo ${id} not found` *)
  | UpdatesSameList            (* 'All updates must be within the same list' *)
  | OwnParent                  (* 'A todo cannot be its own parent' *)
  | ParentIdNotFound (pid : Z) (* `Parent ${pid} not found` *)
  | ParentSameList             (* 'Parent must be in the same list' *)
  | ParentCycle                (* 'Parent cycle detected' *)
  | ParentTodoNotFound         (* 'Parent todo not found' *)
  | CannotIndentFirst          (* 'Cannot indent the first item in the list' *)
  | ParentSelf                 (* 'Cannot set parent to self' *)
  | CyclicParent               (* 'Cannot create cyclic parent relationship' *)
  | ListNotFound               (* 'List not found' *)
  | SqliteConstraint           (* a FOREIGN KEY or NOT NULL constraint failed *)
  | ArrayEmpty                 (* 400 'Array must not be empty' *)
  | DuplicateId (id : Z)       (* 400 `Duplicate id in payload: ${id}` *)
  | DuplicatePosition (pos : Z)(* 400 `Duplicate position in payload: ${pos}` *).

(** [Diverge] is a loop (or a recursive query) that has not ended within the
    given number of rounds. *)
Inductive outcome (A : Type) : Type :=
  | Ret (a : A)
  | Throw (e : Error)
  | Diverge.

Arguments Ret {A} a.
Arguments Throw {A} e.
Arguments Diverge {A}.

Definition Txn (A : Type) : Type := Store → outcome A * Store.

Definition ret {A} (a : A) : Txn A := λ s, (Ret a, s).

Definition throw {A} (e : Error) : Txn A := λ s, (Throw e, s).

Definition diverge {A} : Txn A := λ s, (Diverge, s).

Definition bind {A B} (m : Txn A) (k : A → Txn B) : Txn B :=
  λ s, match m s with
       | (Ret a, s') => k a s'
       | (Throw e, s') => (Throw e, s')
       | (Diverge, s') => (Diverge, s')
       end.

Notation "'let!' x ':=' m 'in' k" := (bind m (λ x, k))
  (at level 10, x binder, m at level 100, k at level 200).

Notation "m ';;' k" := (bind m (λ _, k))
  (at level 100, k at level 200, right associativity).

Definition gets {A} (f : Store → A) : Txn A := λ s, (Ret (f s), s).

Definition modifyTodos (f : gmap Z Todo → gmap Z Todo) : Txn unit :=
  λ s, (Ret tt, setTodos (f (todos s)) s).

(** [expect o e]: the value of [o], or throw [e] (the [if (!row) throw]
    idiom). *)
Definition expect {A} (o : option A) (e : Error) : Txn A :=
  match o with Some a => ret a | None => throw e end.

Definition guard (b : bool) (e : Error) : Txn unit :=
  if b then throw e else ret tt.

(** [d.transaction(fn)]: commit when [fn] returns, roll back to the state at
    BEGIN when it throws. *)
Definition transaction {A} (body : Txn A) : Txn A :=
  λ s, match body s with
       | (Ret a, s') => (Ret a, s')
       | (Throw e, _) => (Throw e, s)
       | (Diverge, _) => (Diverge, s)
       end.

(** [withTxn(fn)] wraps [fn] in a transaction on the process-wide handle. *)
Definition withTxn {A} (fn : Txn A) : Txn A := transaction fn.

(** ** Statements on the [todos] table *)

(** SELECT ... FROM todos WHERE id=? *)
Definition selectTodo (id : Z) : Txn (option Todo) := gets (λ s, todos s !! id).

(** ORDER BY position ASC, id ASC *)
Definition keyLe (a b : TodoRow) : Prop :=
  num_lt (position a.2) (position b.2) ∨ (position a.2 = position b.2 ∧ a.1 ≤ b.1).

Global Instance keyLe_dec : RelDecision keyLe.
Proof. intros a b. unfold keyLe. apply _. Defined.

Definition inList (L : Z) (r : TodoRow) : Prop := listId r.2 = L.

Global Instance inList_dec L r : Decision (inList L r).
Proof. unfold inList. apply _. Defined.

(** SELECT ... FROM todos WHERE list_id=? ORDER BY position ASC, id ASC *)
Definition selectListOrdered (L : Z) (d : gmap Z Todo) : list TodoRow :=
  merge_sort keyLe (filter (inList L) (map_to_list d)).

(** UPDATE todos SET position=? WHERE id=? *)
Definition updatePosition (pos : num) (id : Z) (d : gmap Z Todo) : gmap Z Todo :=
  alter (setPosition pos) id d.

(** The loop [for (const r of rows) upd.run(pos++, r.id)]. *)
Fixpoint renumber (pos : Z) (rows : list Z) (d : gmap Z Todo) : gmap Z Todo :=
  match rows with
  | [] => d
  | id :: rest => renumber (pos + 1) rest (updatePosition (Int pos) id d)
  end.

Definition compactPositions (L : Z) (d : gmap Z Todo) : gmap Z Todo :=
  renumber 1 (selectListOrdered L d).*1 d.

Definition compactPositionsTx (L : Z) : Txn unit :=
  modifyTodos (compactPositions L).

(** The positions of a list, read in the order of the compaction query. *)
Definition positionsOf (L : Z) (d : gmap Z Todo) : list num :=
  (λ r : TodoRow, position r.2) <$> selectListOrdered L d.

(** Invariant I1 for one list: the positions are 1, 2, ..., N. *)
Definition contiguous (L : Z) (d : gmap Z Todo) : Prop :=
  positionsOf L d = Int <$> seqZ 1 (Z.of_nat (length (positionsOf L d))).

Global Instance contiguous_dec L d : Decision (contiguous L d).
Proof. unfold contiguous. apply _. Defined.

(** Every column but [position]. *)
Definition otherColumns (t : Todo) : Todo := setPosition (Int 0) t.

(** The rows of a list after renumbering them from [pos] in the given
    order. *)
Definition numbered (pos : Z) (rows : list TodoRow) : list TodoRow :=
  imap (λ k r, (r.1, setPosition (Int (pos + Z.of_nat k)) r.2)) rows.

(** What the compaction query reads of a list: for each of its rows the id
    and the position. *)
Definition posKeyLe (a b : Z * num) : Prop :=
  num_lt a.2 b.2 ∨ (a.2 = b.2 ∧ a.1 ≤ b.1).

Global Instance posKeyLe_dec : RelDecision posKeyLe.
Proof. intros a b. unfold posKeyLe. apply _. Defined.

Definition posIn (L : Z) (t : Todo) : option num :=
  if decide (listId t = L) then Some (position t) else None.

Definition listView (L : Z) (d : gmap Z Todo) : gmap Z num := omap (posIn L) d.

Definition sortedPositions (v : gmap Z num) : list num :=
  (merge_sort posKeyLe (map_to_list v)).*2.

(** ** deleteTodo *)

(** SELECT t.id FROM todos t WHERE t.parent_id = p, on the index
    [idx_todos_parent]: the rows of one parent come in the order of their
    rowid. *)
Definition childrenOf (d : gmap Z Todo) (p : Z) : list Z :=
  merge_sort Z.le (map_to_list (filter (λ r : TodoRow, parentId r.2 = Some p) d)).*1.

(** WITH RECURSIVE cte(id) AS (SELECT ? UNION ALL
      SELECT t.id FROM todos t JOIN cte ON t.parent_id = cte.id)
    by iteration of the working table: the rows of one round are the
    children of the rows of the round before, and the query ends at the
    first empty round. UNION ALL removes no duplicate, so on a parent cycle
    through the start no round is empty. *)
Fixpoint cteRows (fuel : nat) (d : gmap Z Todo) (work : list Z) : option (list Z) :=
  match work with
  | [] => Some []
  | _ :: _ =>
      match fuel with
      | O => None
      | S fuel' => (work ++.) <$> cteRows fuel' d (work ≫= childrenOf d)
      end
  end.

Definition runQuery {A} (q : Store → option A) : Txn A :=
  λ s, match q s with Some a => (Ret a, s) | None => (Diverge, s) end.

(** ... SELECT id FROM cte WHERE id != ? *)
Definition selectDescendants (fuel : nat) (tid : Z) : Txn (list Z) :=
  runQuery (λ s, filter (λ i, i ≠ tid) <$> cteRows fuel (todos s) [tid]).

(** parent_id REFERENCES todos(id) ON DELETE SET NULL *)
Definition fkSetNull (gone : list Z) (t : Todo) : Todo :=
  match parentId t with
  | Some p => if decide (p ∈ gone) then setParent None t else t
  | None => t
  end.

(** DELETE FROM todos WHERE id IN (ids), with the foreign-key action on the
    rows that referenced a deleted row. *)
Definition deleteRows (ids : list Z) (d : gmap Z Todo) : gmap Z Todo :=
  let gone := filter (λ i, is_Some (d !! i)) ids in
  fkSetNull gone <$> filter (λ r : TodoRow, r.1 ∉ ids) d.

(** UPDATE todos SET parent_id=NULL, is_indented=0 WHERE id=? *)
Definition lifted (t : Todo) : Todo := setIndented false (setParent None t).

Definition liftRow (id : Z) (d : gmap Z Todo) : gmap Z Todo :=
  alter lifted id d.

Record DeleteResult : Type := mkDeleteResult {
  deletedIds : list Z;
  cascaded : bool;
  del_listId : Z;
  liftedIds : list Z
}.

(** [opts && hasOwnProperty(opts, 'cascade') ? !!opts.cascade : true] *)
Definition cascadeOf (opts : option bool) : bool := default true opts.

Definition deleteTodo (fuel : nat) (id : Z) (opts : option bool) : Txn DeleteResult :=
  let tid := id in
  let cascadeFlag := cascadeOf opts in
  transaction (
    let! target := selectTodo tid in
    let! target := expect target TodoNotFound in
    let L := listId target in
    let! descendants := selectDescendants fuel tid in
    let! deleted :=
      (if cascadeFlag then
         let! rows := runQuery (λ s, cteRows fuel (todos s) [tid]) in
         modifyTodos (deleteRows rows) ;;
         ret (tid :: descendants)
       else
         modifyTodos (λ d, foldl (λ d did, liftRow did d) d descendants) ;;
         modifyTodos (deleteRows [tid]) ;;
         ret [tid]) in
    compactPositionsTx L ;;
    ret (mkDeleteResult deleted cascadeFlag L (if cascadeFlag then [] else descendants))).

(** ** updateTodoPositions *)

Record Update : Type := mkUpdate {
  upd_id : Z;
  upd_position : Z;
  upd_parentId : option Z
}.

(** The JavaScript [Map] [proposed]: entries in insertion order; [set] on a
    key that is present replaces the value in place. *)
Definition Proposed : Type := list (Z * (Z * option Z)).

Fixpoint mapSet (k : Z) (v : Z * option Z) (m : Proposed) : Proposed :=
  match m with
  | [] => [(k, v)]
  | (k', v') :: m' => if decide (k' = k) then (k, v) :: m' else (k', v') :: mapSet k v m'
  end.

Fixpoint mapGet (k : Z) (m : Proposed) : option (Z * option Z) :=
  match m with
  | [] => None
  | (k', v') :: m' => if decide (k' = k) then Some v' else mapGet k m'
  end.

Definition liftOutcome {A} (o : outcome A) : Txn A := λ s, (o, s).

Fixpoint buildProposed (L : Z) (rows : list Update) (proposed : Proposed) : Txn Proposed :=
  match rows with
  | [] => ret proposed
  | r :: rest =>
      let id := upd_id r in
      let pos := upd_position r in
      let! meta := selectTodo id in
      let! meta := expect meta (TodoIdNotFound id) in
      guard (bool_decide (listId meta ≠ L)) UpdatesSameList ;;
      let pid := upd_parentId r in
      guard (bool_decide (pid = Some id)) OwnParent ;;
      buildProposed L rest (mapSet id (pos, pid) proposed)
  end.

(** The entry that the loop stores for a row of the batch, and the map that
    the loop builds. *)
Definition entryOf (r : Update) : Z * (Z * option Z) :=
  (upd_id r, (upd_position r, upd_parentId r)).

Definition proposedOf (rows : list Update) (acc : Proposed) : Proposed :=
  foldl (λ m r, mapSet (upd_id r) (upd_position r, upd_parentId r) m) acc rows.

(** A row of the batch that passes the first loop: its item is in the list
    and it is not its own parent. *)
Definition entryOk (d : gmap Z Todo) (L : Z) (r : Update) : Prop :=
  (∃ t, d !! upd_id r = Some t ∧ listId t = L) ∧ upd_parentId r ≠ Some (upd_id r).

Global Instance entryOk_dec (d : gmap Z Todo) (L : Z) (r : Update) :
  Decision (entryOk d L r).
Proof.
  unfold entryOk. destruct (d !! upd_id r) as [t|] eqn:Ht.
  - destruct (decide (listId t = L)) as [HL|HL].
    + destruct (decide (upd_parentId r = Some (upd_id r))) as [Hs|Hs].
      * right. by intros [_ ?].
      * left. eauto.
    + right. intros [(t' & [= <-] & ?) _]. done.
  - right. by intros [(t' & ? & _) _].
Defined.

(** An entry whose parent, if any, is an item of the list. *)
Definition parentOk (d : gmap Z Todo) (L : Z) (e : Z * (Z * option Z)) : Prop :=
  ∀ p, e.2.2 = Some p → ∃ meta, d !! p = Some meta ∧ listId meta = L.

(** Helper to get current or proposed parent *)
Definition getParent (proposed : Proposed) (d : gmap Z Todo) (id : Z) : option Z :=
  match mapGet id proposed with
  | Some p => p.2
  | None => match d !! id with Some rec => parentId rec | None => None end
  end.

(** [while (cur != null) { if (seen.has(cur)) throw ...; seen.add(cur);
    cur = getParent(cur) }] *)
Fixpoint cycleCheck (fuel : nat) (parent : Z → option Z) (seen : list Z) (cur : option Z)
  : outcome unit :=
  match cur with
  | None => Ret tt
  | Some c =>
      if decide (c ∈ seen) then Throw ParentCycle
      else match fuel with
           | O => Diverge
           | S fuel' => cycleCheck fuel' parent (c :: seen) (parent c)
           end
  end.

Fixpoint validateProposed (fuel : nat) (L : Z) (d : gmap Z Todo) (proposed : Proposed)
    (entries : Proposed) : outcome unit :=
  match entries with
  | [] => Ret tt
  | (id, (_, pid)) :: rest =>
      match pid with
      | None => validateProposed fuel L d proposed rest
      | Some p =>
          match d !! p with
          | None => Throw (ParentIdNotFound p)
          | Some meta =>
              if bool_decide (listId meta ≠ L) then Throw ParentSameList
              else match cycleCheck fuel (getParent proposed d) [id] (Some p) with
                   | Ret _ => validateProposed fuel L d proposed rest
                   | Throw e => Throw e
                   | Diverge => Diverge
                   end
          end
      end
  end.

(** The outcome of the cycle check for one entry. *)
Definition entryCheck (fuel : nat) (d : gmap Z Todo) (proposed : Proposed)
    (e : Z * (Z * option Z)) : outcome unit :=
  match e.2.2 with
  | Some p => cycleCheck fuel (getParent proposed d) [e.1] (Some p)
  | None => Ret tt
  end.

(** UPDATE todos SET position=?, parent_id=?, is_indented=? WHERE id=? *)
Definition placed (pos : Z) (pid : option Z) (t : Todo) : Todo :=
  setIndented (bool_decide (pid ≠ None)) (setParent pid (setPosition (Int pos) t)).

Definition updatePlacement (pos : Z) (pid : option Z) (id : Z) (d : gmap Z Todo)
  : gmap Z Todo :=
  alter (placed pos pid) id d.

Definition applyProposed (proposed : Proposed) (d : gmap Z Todo) : gmap Z Todo :=
  foldl (λ d e, updatePlacement e.2.1 e.2.2 e.1 d) d proposed.

Inductive BulkResult : Type :=
  | BulkNothing                              (* the [[]] of an empty batch *)
  | BulkDone (count : nat) (L : Z)           (* { success, count, listId } *).

Definition updateTodoPositions (fuel : nat) (updates : list Update) : Txn BulkResult :=
  match updates with
  | [] => ret BulkNothing
  | r0 :: _ =>
      withTxn (
        let rows := updates in
        let! first := selectTodo (upd_id r0) in
        let! first := expect first FirstTodoNotFound in
        let L := listId first in
        let! proposed := buildProposed L rows [] in
        let! d := gets todos in
        liftOutcome (validateProposed fuel L d proposed proposed) ;;
        modifyTodos (applyProposed proposed) ;;
        compactPositionsTx L ;;
        ret (BulkDone (length rows) L))
  end.

(** *** The route PATCH /api/todos/positions *)

(** The loop over the body keeping the sets [ids] and [positions]. *)
Fixpoint shallowCheck (body : list Update) (ids positions : list Z) : option Error :=
  match body with
  | [] => None
  | row :: rest =>
      if decide (upd_id row ∈ ids) then Some (DuplicateId (upd_id row))
      else if decide (upd_position row ∈ positions)
           then Some (DuplicatePosition (upd_position row))
           else shallowCheck rest (upd_id row :: ids) (upd_position row :: positions)
  end.

(** [body.find(r => Number(r.position) === 1)] *)
Definition findTop (body : list Update) : option Update :=
  snd <$> list_find (λ r, upd_position r = 1) body.

Definition patchTodosPositions (fuel : nat) (body : list Update) : Txn BulkResult :=
  match body with
  | [] => throw ArrayEmpty
  | _ :: _ =>
      match shallowCheck body [] [] with
      | Some e => throw e
      | None =>
          match findTop body with
          | Some top =>
              if bool_decide (upd_parentId top ≠ None) then throw CannotIndentFirst
              else updateTodoPositions fuel body
          | None => updateTodoPositions fuel body
          end
      end
  end.

(** ** createTodo *)

(** A JSON value in a numeric field, as far as [Number(v)] tells them apart:
    [null] (which [Number] turns into 0) or a value whose [Number] is given. *)
Inductive jsval : Type :=
  | JNull
  | JNumber (n : jsnum).

(** [Number(v)] of a field that may be absent ([Number(undefined)] is NaN). *)
Definition toNumber (v : option jsval) : jsnum :=
  match v with
  | None => NaN
  | Some JNull => Num (Int 0)
  | Some (JNumber n) => n
  end.

Record CreatePayload : Type := mkCreatePayload {
  new_listId : option Z;        (* [None]: absent, or [Number] of it is NaN *)
  new_text : option string;
  new_completed : bool;         (* truthiness of [payload.completed] *)
  new_isEmpty : bool;           (* truthiness of [payload.isEmpty] *)
  new_parentId : option Z;      (* [None]: absent or null *)
  new_position : option jsval
}.

(** A text is the sequence of the bytes of its UTF-8 encoding. The white
    space and the line terminators that [String.prototype.trim] removes are
    U+0009 to U+000D and U+0020 (one byte), U+00A0 (two bytes), and U+1680,
    U+2000 to U+200A, U+2028, U+2029, U+202F, U+205F, U+3000 and U+FEFF
    (three bytes). *)
Definition isSpace (c : Ascii.ascii) : bool :=
  let n := Ascii.nat_of_ascii c in
  bool_decide (n = 32 ∨ (9 ≤ n ∧ n ≤ 13))%nat.

Definition isSpace2 (c1 c2 : Ascii.ascii) : bool :=
  let n1 := Ascii.nat_of_ascii c1 in
  let n2 := Ascii.nat_of_ascii c2 in
  bool_decide (n1 = 194 ∧ n2 = 160)%nat.

Definition isSpace3 (c1 c2 c3 : Ascii.ascii) : bool :=
  let n1 := Ascii.nat_of_ascii c1 in
  let n2 := Ascii.nat_of_ascii c2 in
  let n3 := Ascii.nat_of_ascii c3 in
  bool_decide ((n1 = 225 ∧ n2 = 154 ∧ n3 = 128)
               ∨ (n1 = 226 ∧ n2 = 128
                  ∧ ((128 ≤ n3 ∧ n3 ≤ 138) ∨ n3 = 168 ∨ n3 = 169 ∨ n3 = 175))
               ∨ (n1 = 226 ∧ n2 = 129 ∧ n3 = 159)
               ∨ (n1 = 227 ∧ n2 = 128 ∧ n3 = 128)
               ∨ (n1 = 239 ∧ n2 = 187 ∧ n3 = 191))%nat.

(** [text.trim() === '']: every character of the text is white space. *)
Fixpoint isBlank (s : string) : bool :=
  match s with
  | EmptyString => true
  | String c1 rest1 =>
      if isSpace c1 then isBlank rest1
      else
        match rest1 with
        | EmptyString => false
        | String c2 rest2 =>
            if isSpace2 c1 c2 then isBlank rest2
            else
              match rest2 with
              | EmptyString => false
              | String c3 rest3 => isSpace3 c1 c2 c3 && isBlank rest3
              end
        end
  end.

(** SELECT COALESCE(MAX(position), 0) FROM todos WHERE list_id=? *)
Definition selectMaxPos (L : Z) (d : gmap Z Todo) : num :=
  match positionsOf L d with
  | [] => Int 0
  | p :: ps => foldr num_max p ps
  end.

(** [let position = Number(payload?.position);
     if (!position || position <= 0) position = Number(row.maxPos) + 1] *)
Definition resolvePosition (position : jsnum) (maxPos : num) : num :=
  match position with
  | NaN => num_succ maxPos
  | Num n =>
      if bool_decide (n = Int 0) || bool_decide (num_le n (Int 0)) then num_succ maxPos
      else n
  end.

(** The rowid SQLite gives to a new row of a table with an INTEGER PRIMARY
    KEY: one more than the largest in use, 1 in an empty table. *)
Definition nextRowid (d : gmap Z Todo) : Z :=
  match (map_to_list d).*1 with
  | [] => 1
  | k :: ks => foldr Z.max k ks + 1
  end.

(** [let listId = Number(payload?.listId); if (!listId) { listId =
    Number(s.current_list_id) || 1 }] *)
Definition resolveListId (supplied cur : option Z) : Z :=
  let current := match cur with Some c => if decide (c = 0) then 1 else c | None => 1 end in
  match supplied with
  | Some l => if decide (l = 0) then current else l
  | None => current
  end.

(** The block [if (parentId != null) { ... }] of [createTodo]. *)
Definition checkNewParent (L : Z) (pid : option Z) : Txn unit :=
  match pid with
  | Some p =>
      let! prow := selectTodo p in
      let! prow := expect prow ParentTodoNotFound in
      guard (bool_decide (listId prow ≠ L)) ParentSameList
  | None => ret tt
  end.

Definition createTodo (payload : CreatePayload) : Txn TodoRow :=
  transaction (
    let! cur := gets (λ s, current_list_id (settings s)) in
    let L := resolveListId (new_listId payload) cur in
    let txt := default EmptyString (new_text payload) in
    let done := new_completed payload in
    let empty := if new_isEmpty payload then true else isBlank txt in
    let pid := new_parentId payload in
    checkNewParent L pid ;;
    let indented := bool_decide (pid ≠ None) in
    let! d := gets todos in
    let pos := resolvePosition (toNumber (new_position payload)) (selectMaxPos L d) in
    guard (bool_decide (pid ≠ None) && bool_decide (pos = Int 1)) CannotIndentFirst ;;
    let! known := gets (λ s, lists s !! L) in
    let! _ := expect known SqliteConstraint in
    let id := nextRowid d in
    let row := mkTodo txt done empty pid indented pos L in
    modifyTodos (insert id row) ;;
    let! sel := selectTodo id in
    match sel with
    | Some t => ret (id, t)
    | None => throw TodoNotFound
    end).

(** ** updateTodo *)

Record Patch : Type := mkPatch {
  p_text : option string;
  p_completed : option bool;
  p_isEmpty : option bool;
  p_parentId : option (option Z);   (* present: null or an id *)
  p_isIndented : option bool;
  p_position : option jsval;
  p_listId : option Z               (* not an allowed field *)
}.

(** The cycle guard: [let cur = pr; while (cur && cur.parent_id != null) {
    if (cur.parent_id == tid) throw ...; cur = SELECT ... WHERE id = cur.parent_id }] *)
Fixpoint ancestorWalk (fuel : nat) (d : gmap Z Todo) (tid : Z) (cur : option Todo)
  : outcome unit :=
  match cur with
  | None => Ret tt
  | Some c =>
      match parentId c with
      | None => Ret tt
      | Some p =>
          if decide (p = tid) then Throw CyclicParent
          else match fuel with
               | O => Diverge
               | S fuel' => ancestorWalk fuel' d tid (d !! p)
               end
      end
  end.

(** The block [if (targetParentId != null) { ... }] of [updateTodo]: the
    parent must exist and be in the same list, and the cycle guard. *)
Definition checkParent (fuel : nat) (tid : Z) (row : Todo) (targetParentId : option Z)
  : Txn unit :=
  match targetParentId with
  | Some tp =>
      guard (bool_decide (tp = tid)) ParentSelf ;;
      let! pr := selectTodo tp in
      let! pr := expect pr ParentTodoNotFound in
      guard (bool_decide (listId pr ≠ listId row)) ParentSameList ;;
      let! d := gets todos in
      liftOutcome (ancestorWalk fuel d tid (Some pr))
  | None => ret tt
  end.

Definition applyOpt {A} (o : option A) (f : A → Todo → Todo) (t : Todo) : Todo :=
  match o with Some v => f v t | None => t end.

Definition updateTodo (fuel : nat) (id : Z) (p : Patch) : Txn TodoRow :=
  let tid := id in
  transaction (
    let! row := selectTodo tid in
    let! row := expect row TodoNotFound in
    let targetParentId := match p_parentId p with Some v => v | None => parentId row end in
    let targetPosition :=
      match p_position p with Some v => toNumber (Some v) | None => Num (position row) end in
    checkParent fuel tid row targetParentId ;;
    guard (bool_decide (targetParentId ≠ None) && bool_decide (targetPosition = Num (Int 1)))
          CannotIndentFirst ;;
    (* the SET clause, one optional column at a time *)
    let setIndent : option bool :=
      match p_parentId p, p_isIndented p with
      | None, None => None
      | _, _ => Some (bool_decide (targetParentId ≠ None))
      end in
    let setPos : option jsnum :=
      match p_position p with
      | Some JNull => None
      | Some (JNumber n) => Some n
      | None => None
      end in
    let nothing :=
      bool_decide (p_text p = None) && bool_decide (p_completed p = None)
      && bool_decide (p_isEmpty p = None) && bool_decide (p_parentId p = None)
      && bool_decide (setIndent = None) && bool_decide (setPos = None) in
    if nothing then
      let! sel := selectTodo tid in
      match sel with Some t => ret (tid, t) | None => throw TodoNotFound end
    else
      (* a NaN position is bound as NULL: NOT NULL constraint failed *)
      guard (bool_decide (setPos = Some NaN)) SqliteConstraint ;;
      modifyTodos (alter (λ t,
        applyOpt setPos (λ n t, match n with Num n => setPosition n t | NaN => t end)
          (applyOpt setIndent setIndented
            (applyOpt (p_parentId p) setParent
              (applyOpt (p_isEmpty p) setIsEmpty
                (applyOpt (p_completed p) setCompleted
                  (applyOpt (p_text p) setText t)))))) tid) ;;
      let! sel := selectTodo tid in
      match sel with Some t => ret (tid, t) | None => throw TodoNotFound end).

(** The row that the UPDATE of [updateTodo] writes for a patch, given the
    target parent. *)
Definition patched (p : Patch) (target : option Z) (t : Todo) : Todo :=
  applyOpt (match p_position p with
            | Some (JNumber n) => Some n
            | _ => None
            end)
    (λ n t, match n with Num n => setPosition n t | NaN => t end)
    (applyOpt (match p_parentId p, p_isIndented p with
               | None, None => None
               | _, _ => Some (bool_decide (target ≠ None))
               end) setIndented
      (applyOpt (p_parentId p) setParent
        (applyOpt (p_isEmpty p) setIsEmpty
          (applyOpt (p_completed p) setCompleted
            (applyOpt (p_text p) setText t))))).

(** ** deleteList *)

(** SELECT id FROM lists ORDER BY id LIMIT 1 *)
Definition selectFirstList (ls : gmap Z ListRow) : option Z :=
  match (map_to_list ls).*1 with
  | [] => None
  | k :: ks => Some (foldr Z.min k ks)
  end.

(** DELETE FROM lists WHERE id=?, with the foreign-key actions: the todos of
    the list go with it (ON DELETE CASCADE), and [current_list_id] is set to
    NULL when it named the list (ON DELETE SET NULL). *)
Definition deleteListRow (lid : Z) (s : Store) : Store :=
  let gone := (map_to_list (filter (λ r : TodoRow, listId r.2 = lid) (todos s))).*1 in
  mkStore (deleteRows gone (todos s))
          (delete lid (lists s))
          (mkSettings (title (settings s)) (dark_mode (settings s))
             (if bool_decide (current_list_id (settings s) = Some lid) then None
              else current_list_id (settings s))).

Definition setCurrentListId (v : option Z) (s : Store) : Store :=
  mkStore (todos s) (lists s) (mkSettings (title (settings s)) (dark_mode (settings s)) v).

(** The statement and its [info.changes]. *)
Definition deleteFromLists (lid : Z) : Txn nat :=
  λ s, match lists s !! lid with
       | Some _ => (Ret 1%nat, deleteListRow lid s)
       | None => (Ret 0%nat, s)
       end.

Definition deleteList (id : Z) : Txn unit :=
  let lid := id in
  transaction (
    let! changes := deleteFromLists lid in
    guard (bool_decide (changes = 0%nat)) ListNotFound ;;
    let! cur := gets (λ s, current_list_id (settings s)) in
    if bool_decide (cur = Some lid) then
      let! any := gets (λ s, selectFirstList (lists s)) in
      λ s, (Ret tt, setCurrentListId any s)
    else ret tt).

(** ** The public operations *)

Inductive Operation : Type :=
  | CreateTodo (payload : CreatePayload)
  | UpdateTodo (id : Z) (patch : Patch)
  | UpdateTodoPositions (updates : list Update)
  | PatchTodosPositions (body : list Update)     (* the route, then the engine *)
  | DeleteTodo (id : Z) (opts : option bool)
  | DeleteList (id : Z).

Inductive Response : Type :=
  | TodoResponse (row : TodoRow)
  | BulkResponse (r : BulkResult)
  | DeleteResponse (r : DeleteResult)
  | SuccessResponse.

Definition perform (fuel : nat) (op : Operation) : Txn Response :=
  match op with
  | CreateTodo payload => let! row := createTodo payload in ret (TodoResponse row)
  | UpdateTodo id patch => let! row := updateTodo fuel id patch in ret (TodoResponse row)
  | UpdateTodoPositions updates =>
      let! r := updateTodoPositions fuel updates in ret (BulkResponse r)
  | PatchTodosPositions body =>
      let! r := patchTodosPositions fuel body in ret (BulkResponse r)
  | DeleteTodo id opts => let! r := deleteTodo fuel id opts in ret (DeleteResponse r)
  | DeleteList id => deleteList id ;; ret SuccessResponse
  end.

(** ** The parent relation *)

Definition parentOf (d : gmap Z Todo) (id : Z) : option Z := d !! id ≫= parentId.

(** [n] steps along a partial successor function. *)
Fixpoint follow (g : Z → option Z) (n : nat) (x : Z) : option Z :=
  match n with
  | O => Some x
  | S n' => g x ≫= follow g n'
  end.

(** The [n]-th ancestor, when the chain of parents is that long. *)
Abbreviation nthParent d := (follow (parentOf d)).

(** Following [g] from [x] leads into a cycle. *)
Definition cycleFrom (g : Z → option Z) (x : Z) : Prop :=
  ∃ n m c, (0 < m)%nat ∧ follow g n x = Some c ∧ follow g m c = Some c.

(** [x] is a direct or transitive descendant of [tid]. *)
Definition descendantOf (d : gmap Z Todo) (tid x : Z) : Prop :=
  ∃ k, (0 < k)%nat ∧ nthParent d k x = Some tid.

(** Invariant I3, the parent graph is acyclic: from every item the chain of
    parents ends, which in a table of N rows it does within N steps. *)
Definition acyclic (d : gmap Z Todo) : Prop :=
  map_Forall (λ id _, nthParent d (S (size d)) id = None) d.

Global Instance acyclic_dec d : Decision (acyclic d).
Proof. unfold acyclic. apply _. Defined.

(** Invariant I2: a parent is an item of the same list. *)
Definition parentsInList (d : gmap Z Todo) : Prop :=
  map_Forall (λ _ t, match parentId t with
                     | Some p => ∃ tp, d !! p = Some tp ∧ listId tp = listId t
                     | None => True
                     end) d.

(** A run of calls that all return. *)
Fixpoint performAll (fuel : nat) (ops : list Operation) (s : Store) : option Store :=
  match ops with
  | [] => Some s
  | op :: rest =>
      match perform fuel op s with
      | (Ret _, s') => performAll fuel rest s'
      | _ => None
      end
  end.

(** A patch with none of the fields that [updateTodo] reads. *)
Definition noRecognizedField (p : Patch) : Prop :=
  p_text p = None ∧ p_completed p = None ∧ p_isEmpty p = None
  ∧ p_parentId p = None ∧ p_isIndented p = None ∧ p_position p = None.

(** Invariants I1 (for every list) and I2. *)
Definition consistent (s : Store) : Prop :=
  parentsInList (todos s) ∧ ∀ L, contiguous L (todos s).

(** The calls that leave the choice of positions to the engine: a creation
    whose position is absent, NaN, zero or negative, an update that sets no
    position, a bulk reposition, a deletion of an item. *)
Definition keepsOrder (op : Operation) : Prop :=
  match op with
  | CreateTodo payload =>
      toNumber (new_position payload) = NaN
      ∨ ∃ n, toNumber (new_position payload) = Num n ∧ num_le n (Int 0)
  | UpdateTodo _ p => ∀ n, p_position p ≠ Some (JNumber n)
  | UpdateTodoPositions _ => True
  | PatchTodosPositions _ => True
  | DeleteTodo _ _ => True
  | DeleteList _ => False
  end.

(** ** The batches that the route and the engine reject *)

(** The parent relation after the batch: the parent that the batch gives to
    an item, and for the items that are not in the batch the parent they
    have. *)
Definition mergedParent (d : gmap Z Todo) (body : list Update) (x : Z) : option Z :=
  match list_find (λ r, upd_id r = x) body with
  | Some (_, r) => upd_parentId r
  | None => parentOf d x
  end.

(** [x] is an item of the list of the first entry. *)
Definition inListOfFirst (d : gmap Z Todo) (body : list Update) (x : Z) : Prop :=
  ∃ r0 t0 t, head body = Some r0 ∧ d !! upd_id r0 = Some t0
             ∧ d !! x = Some t ∧ listId t = listId t0.

Definition rejected (d : gmap Z Todo) (body : list Update) : Prop :=
  body = []
  ∨ ¬ NoDup (upd_id <$> body)
  ∨ ¬ NoDup (upd_position <$> body)
  ∨ (∃ r, r ∈ body ∧ upd_position r = 1 ∧ upd_parentId r ≠ None)
  ∨ (∃ r, r ∈ body ∧ upd_parentId r = Some (upd_id r))
  ∨ (∃ r, r ∈ body ∧ ¬ inListOfFirst d body (upd_id r))
  ∨ (∃ r p, r ∈ body ∧ upd_parentId r = Some p ∧ ¬ inListOfFirst d body p)
  ∨ (∃ r, r ∈ body ∧ upd_parentId r ≠ None
          ∧ cycleFrom (mergedParent d body) (upd_id r)).

(** The five conditions of the claim, the last one as the claim has it: a
    cycle anywhere in the merged parent relation. *)
Definition rejectedAsClaimed (d : gmap Z Todo) (body : list Update) : Prop :=
  ¬ NoDup (upd_id <$> body)
  ∨ ¬ NoDup (upd_position <$> body)
  ∨ (∃ r, r ∈ body ∧ upd_parentId r = Some (upd_id r))
  ∨ (∃ r, r ∈ body ∧ ¬ inListOfFirst d body (upd_id r))
  ∨ (∃ r p, r ∈ body ∧ upd_parentId r = Some p ∧ ¬ inListOfFirst d body p)
  ∨ (∃ x, cycleFrom (mergedParent d body) x).

(** ** Concrete stores *)

Definition emptyStore : Store :=
  mkStore ∅ ∅ (mkSettings "My Todo List" false None).

(** One list, no item. *)
Definition freshStore : Store :=
  mkStore ∅ {[ 1 := mkListRow "My Todo List" 0 0 ]}
          (mkSettings "My Todo List" false (Some 1)).

Definition item (txt : string) (pid : option Z) (pos : Z) : Todo :=
  mkTodo txt false false pid (bool_decide (pid ≠ None)) (Int pos) 1.

Definition storeOf (rows : list (Z * Todo)) : Store :=
  mkStore (list_to_map rows) {[ 1 := mkListRow "My Todo List" 0 0 ]}
          (mkSettings "My Todo List" false (Some 1)).

Definition newItem (txt : string) : CreatePayload :=
  mkCreatePayload None (Some txt) false false None None.

Definition noFields : Patch := mkPatch None None None None None None None.

Definition onlyListId (l : Z) : Patch := mkPatch None None None None None None (Some l).

Definition reparent (pid : option Z) : Patch :=
  mkPatch None None None (Some pid) None None None.

(** B, indented under C, has come first after the deletion of A. *)
Definition firstIndented : Store :=
  storeOf [(2, item "B" (Some 3) 1); (3, item "C" None 2)].

(** A and B are each other's parent; C is a third item of the list. *)
Definition cyclicStore : Store :=
  storeOf [(1, item "A" (Some 2) 2); (2, item "B" (Some 1) 3); (3, item "C" None 1)].

Definition twoItems : Store :=
  storeOf [(1, item "A" None 1); (2, item "B" None 2)].

Definition threeItems : Store :=
  storeOf [(1, item "A" None 1); (2, item "B" (Some 1) 2); (3, item "C" None 3)].

(** ** Settings and lists

    The other exported functions of the server-side [db.js]. [Date.now()] is
    an argument [now]. *)

Definition modifySettings (f : Settings → Settings) : Txn unit :=
  λ s, (Ret tt, mkStore (todos s) (lists s) (f (settings s))).

Definition modifyLists (f : gmap Z ListRow → gmap Z ListRow) : Txn unit :=
  λ s, (Ret tt, mkStore (todos s) (f (lists s)) (settings s)).

(** SELECT title, dark_mode, current_list_id FROM settings WHERE id=1 *)
Definition getSettingsRow : Txn Settings := gets settings.

Definition setTitle (title : string) : Txn Settings :=
  transaction (
    modifySettings (λ v, mkSettings title (dark_mode v) (current_list_id v)) ;;
    gets settings).

(** [flag] is the truthiness of the argument. *)
Definition setDarkMode (flag : bool) : Txn Settings :=
  let v := flag in
  transaction (
    modifySettings (λ row, mkSettings (title row) v (current_list_id row)) ;;
    gets settings).

Definition getSettings : Txn Settings := getSettingsRow.

(** [row?.id ?? null] *)
Definition getCurrentListId : Txn (option Z) :=
  gets (λ s, current_list_id (settings s)).

Definition setCurrentList (id : Z) : Txn (option Z) :=
  let lid := id in
  transaction (
    let! found := gets (λ s, lists s !! lid) in
    let! _ := expect found ListNotFound in
    modifySettings (λ row, mkSettings (title row) (dark_mode row) (Some lid)) ;;
    gets (λ s, current_list_id (settings s))).

(** The order by [position] alone. *)
Definition positionLe (a b : TodoRow) : Prop := num_le (position a.2) (position b.2).

Global Instance positionLe_dec : RelDecision positionLe.
Proof. intros a b. unfold positionLe. apply _. Defined.

(** SELECT ... FROM todos WHERE list_id=? ORDER BY position ASC, on the
    index [idx_todos_list_pos] on (list_id, position): rows with equal
    positions come in the order of their rowid. *)
Definition listTodosForList (L : Z) : Txn (list TodoRow) :=
  gets (λ s, merge_sort keyLe (filter (inList L) (map_to_list (todos s)))).

(** SELECT id, name, created_at, updated_at FROM lists ORDER BY id *)
Definition idLe (a b : Z * ListRow) : Prop := a.1 ≤ b.1.

Global Instance idLe_dec : RelDecision idLe.
Proof. intros a b. unfold idLe. apply _. Defined.

Definition listLists : Txn (list (Z * ListRow)) :=
  gets (λ s, merge_sort idLe (map_to_list (lists s))).

(** The rowid of a new row of [lists]. *)
Definition nextListId (ls : gmap Z ListRow) : Z :=
  match (map_to_list ls).*1 with
  | [] => 1
  | k :: ks => foldr Z.max k ks + 1
  end.

(** [String(n || 'New List')] on a string. *)
Definition listName (n : string) : string :=
  if decide (n = EmptyString) then "New List" else n.

Definition createList (now : Z) (name : string) : Txn (option (Z * ListRow)) :=
  transaction (
    let n := name in
    let! id := gets (λ s, nextListId (lists s)) in
    modifyLists (insert id (mkListRow (listName n) now now)) ;;
    modifySettings (λ row, mkSettings (title row) (dark_mode row) (Some id)) ;;
    gets (λ s, (λ r, (id, r)) <$> lists s !! id)).

Definition renameList (now : Z) (id : Z) (name : string) : Txn (option (Z * ListRow)) :=
  let lid := id in
  let n := name in
  transaction (
    let! found := gets (λ s, lists s !! lid) in
    let! _ := expect found ListNotFound in
    modifyLists (alter (λ r, mkListRow n (created_at r) now) lid) ;;
    gets (λ s, (λ r, (lid, r)) <$> lists s !! lid)).

(** [getDb], the first call, on a database file that has the tables and
    columns of the current schema and its settings row: the CREATE ... IF NOT
    EXISTS statements, the migrations and the backfill of a NULL [list_id]
    change nothing there; what is left is the block that ensures that a list
    exists and that [current_list_id] is set. *)
Definition getDb (now : Z) (s : Store) : Store :=
  let listCount := size (lists s) in
  if decide (listCount = 0%nat) then
    let newId := nextListId (lists s) in
    setCurrentListId (Some newId)
      (mkStore (todos s) (<[newId := mkListRow "My Todo List" now now]> (lists s)) (settings s))
  else
    match current_list_id (settings s) with
    | None =>
        match selectFirstList (lists s) with
        | Some any => setCurrentListId (Some any) s
        | None => s
        end
    | Some _ => s
    end.

(** ** Every exported function of the server *)

Inductive Call : Type :=
  | Engine (op : Operation)
  | GetSettingsRow
  | SetTitle (title : string)
  | SetDarkMode (flag : bool)
  | GetSettings
  | GetCurrentListId
  | SetCurrentList (id : Z)
  | ListTodosForList (L : Z)
  | ListLists
  | CreateList (now : Z) (name : string)
  | RenameList (now : Z) (id : Z) (name : string).

(** The effect of a call on the store; the value it returns is dropped. *)
Definition call (fuel : nat) (c : Call) : Txn unit :=
  match c with
  | Engine op => perform fuel op ;; ret tt
  | GetSettingsRow => getSettingsRow ;; ret tt
  | SetTitle t => setTitle t ;; ret tt
  | SetDarkMode flag => setDarkMode flag ;; ret tt
  | GetSettings => getSettings ;; ret tt
  | GetCurrentListId => getCurrentListId ;; ret tt
  | SetCurrentList id => setCurrentList id ;; ret tt
  | ListTodosForList L => listTodosForList L ;; ret tt
  | ListLists => listLists ;; ret tt
  | CreateList now n => createList now n ;; ret tt
  | RenameList now id n => renameList now id n ;; ret tt
  end.

(** ** The other invariants of the store *)

(** Invariant I4: [isIndented] says whether the item has a parent. *)
Definition indentOk (d : gmap Z Todo) : Prop :=
  map_Forall (λ _ t, isIndented t = bool_decide (parentId t ≠ None)) d.

(** Invariant I6: the list of every item exists. *)
Definition listsExist (s : Store) : Prop :=
  map_Forall (λ _ t, is_Some (lists s !! listId t)) (todos s).

(** The current list, when there is one, exists. *)
Definition currentListOk (s : Store) : Prop :=
  ∀ l, current_list_id (settings s) = Some l → is_Some (lists s !! l).

(** What the foreign keys of the schema say, and that a parent is in the
    list of its child (I2). *)
Definition references (s : Store) : Prop :=
  parentsInList (todos s) ∧ listsExist s ∧ currentListOk s.

Global Instance parentsInList_dec (d : gmap Z Todo) : Decision (parentsInList d).
Proof.
  unfold parentsInList. apply map_Forall_dec. intros i t.
  destruct (parentId t) as [p|]; [|by left].
  destruct (d !! p) as [tp|] eqn:Hp.
  - destruct (decide (listId tp = listId t)) as [HL|HL].
    + left. eauto.
    + right. intros (tp' & [= <-] & ?). done.
  - right. by intros (tp' & ? & _).
Defined.

Global Instance indentOk_dec (d : gmap Z Todo) : Decision (indentOk d).
Proof. unfold indentOk. apply _. Defined.

Global Instance listsExist_dec (s : Store) : Decision (listsExist s).
Proof. unfold listsExist. apply _. Defined.

Global Instance currentListOk_dec (s : Store) : Decision (currentListOk s).
Proof.
  unfold currentListOk. destruct (current_list_id (settings s)) as [c|].
  - destruct (decide (is_Some (lists s !! c))) as [Hc|Hc].
    + left. by intros ? [= <-].
    + right. intros H. by apply Hc, H.
  - left. by intros ? [=].
Defined.

Global Instance references_dec (s : Store) : Decision (references s).
Proof. unfold references. apply _. Defined.

(** A row of the table after a call, against the store before: a row that
    was there is in the list it was in, and either has the parent and the
    indentation it had or an indentation that says whether it has a parent;
    a new row is in a list that exists, and its indentation says whether it
    has a parent. *)
Definition rowOk (s : Store) (i : Z) (t' : Todo) : Prop :=
  match todos s !! i with
  | Some t =>
      listId t' = listId t
      ∧ ((parentId t' = parentId t ∧ isIndented t' = isIndented t)
         ∨ isIndented t' = bool_decide (parentId t' ≠ None))
  | None =>
      is_Some (lists s !! listId t')
      ∧ isIndented t' = bool_decide (parentId t' ≠ None)
  end.

(** The columns of an item that only [updateTodo] writes, and its list. *)
Definition content (t : Todo) : string * bool * bool * Z :=
  (text t, completed t, isEmpty t, listId t).

(** Every chain of parents ends. *)
Definition chainsEnd (g : Z → option Z) : Prop := ∀ x, ∃ k, follow g k x = None.

(** [x] is its own ancestor. *)
Definition ownAncestor (d : gmap Z Todo) (x : Z) : Prop :=
  ∃ k, (0 < k)%nat ∧ nthParent d k x = Some x.

(** ** What createTodo makes of a payload *)

(** The list, the position and the row of the new item. *)
Definition newListId (payload : CreatePayload) (s : Store) : Z :=
  resolveListId (new_listId payload) (current_list_id (settings s)).

Definition newPosition (payload : CreatePayload) (s : Store) : num :=
  resolvePosition (toNumber (new_position payload))
    (selectMaxPos (newListId payload s) (todos s)).

Definition newRow (payload : CreatePayload) (s : Store) : Todo :=
  let txt := default EmptyString (new_text payload) in
  mkTodo txt (new_completed payload)
    (if new_isEmpty payload then true else isBlank txt)
    (new_parentId payload) (bool_decide (new_parentId payload ≠ None))
    (newPosition payload s) (newListId payload s).


(** ** The error handling of the routes

    [classifyDbError] and [withRetries] of [server/routes.js], and the
    [try]/[catch] that the routes put around a call of the engine. *)

(** What a [catch] gets: an [Error] object with its [name], its [message]
    and, for the errors of the SQLite driver, its [code]; or [undefined]. *)
Inductive Thrown : Type :=
  | ErrorObject (name message : string) (code : option string)
  | Undefined.

(** [String(n)], also in a template literal, for a safe integer [n] (see
    [safeInteger]): JavaScript prints these with all their digits; from
    1e21 on it prints an exponent. *)
Definition showZ (z : Z) : string := NilZero.string_of_int (Z.to_int z).

(** The messages of the errors, as the source has them. *)
Definition messageOf (e : Error) : string :=
  match e with
  | TodoNotFound => "Todo not found"
  | FirstTodoNotFound => "First todo not found"
  | TodoIdNotFound id => "Todo " +:+ showZ id +:+ " not found"
  | UpdatesSameList => "All updates must be within the same list"
  | OwnParent => "A todo cannot be its own parent"
  | ParentIdNotFound pid => "Parent " +:+ showZ pid +:+ " not found"
  | ParentSameList => "Parent must be in the same list"
  | ParentCycle => "Parent cycle detected"
  | ParentTodoNotFound => "Parent todo not found"
  | CannotIndentFirst => "Cannot indent the first item in the list"
  | ParentSelf => "Cannot set parent to self"
  | CyclicParent => "Cannot create cyclic parent relationship"
  | ListNotFound => "List not found"
  | SqliteConstraint => "FOREIGN KEY constraint failed"
  | ArrayEmpty => "Array must not be empty"
  | DuplicateId id => "Duplicate id in payload: " +:+ showZ id
  | DuplicatePosition pos => "Duplicate position in payload: " +:+ showZ pos
  end.

(** The object that the engine throws: [new Error(message)], or, for a
    violated constraint, the error of the driver, whose message has the
    words 'constraint failed' and whose code starts with SQLITE_CONSTRAINT_
    (shown here for a foreign key; 'NOT NULL constraint failed: ...' with
    SQLITE_CONSTRAINT_NOTNULL goes the same way through
    [classifyDbError]). *)
Definition thrownOf (e : Error) : Thrown :=
  match e with
  | SqliteConstraint =>
      ErrorObject "SqliteError" (messageOf e) (Some "SQLITE_CONSTRAINT_FOREIGNKEY")
  | _ => ErrorObject "Error" (messageOf e) None
  end.

(** A regular expression that is a literal in lower case, with the flag
    [i]: only the letters A-Z of the subject are folded. *)
Definition lowerAscii (c : Ascii.ascii) : Ascii.ascii :=
  let n := Ascii.nat_of_ascii c in
  if (65 <=? n)%nat && (n <=? 90)%nat then Ascii.ascii_of_nat (n + 32) else c.

Fixpoint lower (s : string) : string :=
  match s with
  | EmptyString => EmptyString
  | String c s' => String (lowerAscii c) (lower s')
  end.

Fixpoint contains (pat s : string) : bool :=
  String.prefix pat s
  || match s with
     | EmptyString => false
     | String _ s' => contains pat s'
     end.

(** [c] is one of the characters of [s]. *)
Fixpoint occurs (c : Ascii.ascii) (s : string) : bool :=
  match s with
  | EmptyString => false
  | String d s' => bool_decide (d = c) || occurs c s'
  end.

(** [/pat/i.test(s)] *)
Definition testI (pat s : string) : bool := contains pat (lower s).

(** [String(e && e.message ? e.message : e)]; the string of an [Error]
    object without a message is its name. *)
Definition msgOf (e : Thrown) : string :=
  match e with
  | ErrorObject name message _ => if decide (message = EmptyString) then name else message
  | Undefined => "undefined"
  end.

(** [e && e.code ? String(e.code) : ''] *)
Definition codeOf (e : Thrown) : string :=
  match e with
  | ErrorObject _ _ (Some code) => code
  | _ => EmptyString
  end.

Definition classifyDbError (e : Thrown) : Z * string :=
  let msg := msgOf e in
  let code := codeOf e in
  if bool_decide (code = "SQLITE_CONSTRAINT") || testI "constraint" msg then
    (409, "Constraint violation")
  else if bool_decide (code = "SQLITE_BUSY")
          || (testI "database is locked" msg || testI "busy" msg) then
    (503, "Database busy, please retry")
  else if testI "not found" msg then (404, msg)
  else (500, msg).

(** The end of an asynchronous call. *)
Inductive Result (A : Type) : Type :=
  | Returned (a : A)
  | Raised (e : Thrown)
  | Hangs.

Arguments Returned {A} a.
Arguments Raised {A} e.
Arguments Hangs {A}.

(** [withRetries(fn, { attempts, baseDelay })] for an integer [attempts]:
    the loop from round [i] with [rounds] rounds to go, on the state [s] of
    whatever [fn] works on; [slept] are the delays so far. The loop is left
    by its condition only when [attempts] is not positive; [lastErr] is
    [undefined] then. *)
Fixpoint retryLoop {St A} (fn : St → Result A * St) (attempts baseDelay : Z)
    (rounds : nat) (i : Z) (s : St) (slept : list Z) : Result A * St * list Z :=
  match rounds with
  | O => (Raised Undefined, s, slept)
  | S rounds' =>
      match fn s with
      | (Returned a, s') => (Returned a, s', slept)
      | (Raised e, s') =>
          let status := (classifyDbError e).1 in
          if bool_decide (status = 503) && bool_decide (i < attempts - 1) then
            let delay := baseDelay * 2 ^ i in
            retryLoop fn attempts baseDelay rounds' (i + 1) s' (slept ++ [delay])
          else (Raised e, s', slept)
      | (Hangs, s') => (Hangs, s', slept)
      end
  end.

Definition withRetries {St A} (fn : St → Result A * St) (attempts baseDelay : Z) (s : St)
    : Result A * St * list Z :=
  retryLoop fn attempts baseDelay (Z.to_nat attempts) 0 s [].

(** What [sendJson] sends: the status 200 with the result, or a status with
    an error message. *)
Inductive Reply (A : Type) : Type :=
  | Json200 (a : A)
  | JsonError (status : Z) (message : string).

Arguments Json200 {A} a.
Arguments JsonError {A} status message.

(** The reply to what the call ended in: [sendJson(res, 200, ...)] after
    the call, or [sendJson(res, status, ...)] in the [catch], with the
    status and the message of [classifyDbError]. There is no reply when the
    call does not end. *)
Definition replyOf {A} (r : Result A) : option (Reply A) :=
  match r with
  | Returned a => Some (Json200 a)
  | Raised e => Some (JsonError (classifyDbError e).1 (classifyDbError e).2)
  | Hangs => None
  end.

(** ** The engine on a driver that can fail

    A statement can fail for a reason that is not in the engine: the
    database is busy or full, the disk fails. To follow such a failure, a
    call of the engine is written as the statements that it runs one after
    the other; what lies between two statements is a computation on their
    results. The loops that write run one statement for each row, as in
    the source; a loop that only reads is one step, and a failure of one of
    its SELECTs is a failure of that step. *)

Inductive Prog (A : Type) : Type :=
  | Done (a : A)
  | Fail (e : Error)
  | Endless
  | Stmt {B : Type} (run : Store → B * Store) (next : B → Prog A).

Arguments Done {A} a.
Arguments Fail {A} e.
Arguments Endless {A}.
Arguments Stmt {A B} run next.

Fixpoint pbind {A B} (p : Prog A) (f : A → Prog B) : Prog B :=
  match p with
  | Done a => f a
  | Fail e => Fail e
  | Endless => Endless
  | Stmt run next => Stmt run (λ b, pbind (next b) f)
  end.

Notation "'do!' x ':=' p 'in' k" := (pbind p (λ x, k))
  (at level 10, x binder, p at level 100, k at level 200).

Notation "p ';;;' k" := (pbind p (λ _, k))
  (at level 100, k at level 200, right associativity).

(** A SELECT, and a statement that writes the [todos] table. *)
Definition read {B} (f : Store → B) : Prog B := Stmt (λ s, (f s, s)) Done.

Definition write (f : gmap Z Todo → gmap Z Todo) : Prog unit :=
  Stmt (λ s, (tt, setTodos (f (todos s)) s)) Done.

Definition demand {A} (o : option A) (e : Error) : Prog A :=
  match o with Some a => Done a | None => Fail e end.

Definition refuse (b : bool) (e : Error) : Prog unit :=
  if b then Fail e else Done tt.

Definition ofOutcome {A} (o : outcome A) : Prog A :=
  match o with Ret a => Done a | Throw e => Fail e | Diverge => Endless end.

(** The statements run by a driver that does not fail. *)
Fixpoint exec {A} (p : Prog A) : Txn A :=
  match p with
  | Done a => ret a
  | Fail e => throw e
  | Endless => diverge
  | Stmt run next => λ s, exec (next (run s).1) (run s).2
  end.

(** *** The functions of the engine, statement by statement *)

(** [compactPositionsTx]: the SELECT, then one UPDATE for each row. *)
Fixpoint renumberProg (pos : Z) (rows : list Z) : Prog unit :=
  match rows with
  | [] => Done tt
  | id :: rest => write (updatePosition (Int pos) id) ;;; renumberProg (pos + 1) rest
  end.

Definition compactPositionsProg (L : Z) : Prog unit :=
  do! rows := read (λ s, (selectListOrdered L (todos s)).*1) in
  renumberProg 1 rows.

(** [for (const did of descendants) lift.run(did)] *)
Fixpoint liftProg (descendants : list Z) : Prog unit :=
  match descendants with
  | [] => Done tt
  | did :: rest => write (liftRow did) ;;; liftProg rest
  end.

(** The body of the transaction of [deleteTodo]. The DELETE with the
    recursive query is one statement; [None] stands for a query that does
    not end. *)
Definition deleteTodoProg (fuel : nat) (id : Z) (opts : option bool) : Prog DeleteResult :=
  let tid := id in
  let cascadeFlag := cascadeOf opts in
  do! target := read (λ s, todos s !! tid) in
  do! target := demand target TodoNotFound in
  let L := listId target in
  do! descendants :=
    read (λ s, filter (λ i, i ≠ tid) <$> cteRows fuel (todos s) [tid]) in
  do! descendants := ofOutcome (from_option Ret Diverge descendants) in
  do! deleted :=
    (if cascadeFlag then
       do! ended :=
         Stmt (λ s, match cteRows fuel (todos s) [tid] with
                    | Some rows => (Some tt, setTodos (deleteRows rows (todos s)) s)
                    | None => (None, s)
                    end) Done in
       do! _ := ofOutcome (from_option Ret Diverge ended) in
       Done (tid :: descendants)
     else
       liftProg descendants ;;;
       write (deleteRows [tid]) ;;;
       Done [tid]) in
  compactPositionsProg L ;;;
  Done (mkDeleteResult deleted cascadeFlag L (if cascadeFlag then [] else descendants)).

(** [for (const [id, { position, parentId }] of proposed) updStmt.run(...)] *)
Fixpoint applyProposedProg (proposed : Proposed) : Prog unit :=
  match proposed with
  | [] => Done tt
  | e :: rest => write (updatePlacement e.2.1 e.2.2 e.1) ;;; applyProposedProg rest
  end.

(** The body of the transaction of [updateTodoPositions]. The two loops
    that validate only read; each is taken as one step. *)
Definition updateTodoPositionsProg (fuel : nat) (r0 : Update) (updates : list Update)
    : Prog BulkResult :=
  let rows := updates in
  do! first := read (λ s, todos s !! upd_id r0) in
  do! first := demand first FirstTodoNotFound in
  let L := listId first in
  do! built := read (λ s, (buildProposed L rows [] s).1) in
  do! proposed := ofOutcome built in
  do! checked := read (λ s, validateProposed fuel L (todos s) proposed proposed) in
  do! _ := ofOutcome checked in
  applyProposedProg proposed ;;;
  compactPositionsProg L ;;;
  Done (BulkDone (length rows) L).

(** [let listId = Number(payload?.listId); if (!listId) { const s =
    getSettings(); listId = Number(s.current_list_id) || 1 }]: the settings
    are read only when the payload has no list. *)
Definition resolveListProg (payload : CreatePayload) : Prog Z :=
  let fromSettings :=
    do! cur := read (λ s, current_list_id (settings s)) in
    Done (match cur with Some c => if decide (c = 0) then 1 else c | None => 1 end) in
  match new_listId payload with
  | Some l => if decide (l = 0) then fromSettings else Done l
  | None => fromSettings
  end.

(** The block [if (parentId != null) { ... }] of [createTodo]. *)
Definition checkNewParentProg (L : Z) (pid : option Z) : Prog unit :=
  match pid with
  | Some p =>
      do! prow := read (λ s, todos s !! p) in
      do! prow := demand prow ParentTodoNotFound in
      refuse (bool_decide (listId prow ≠ L)) ParentSameList
  | None => Done tt
  end.

(** [let position = Number(payload?.position); if (!position || position <=
    0) { ... SELECT COALESCE(MAX(position), 0) ... }]: the maximum is read
    only when the payload has no usable position. *)
Definition resolvePositionProg (payload : CreatePayload) (L : Z) : Prog num :=
  let fromMax :=
    do! maxPos := read (λ s, selectMaxPos L (todos s)) in
    Done (num_succ maxPos) in
  match toNumber (new_position payload) with
  | NaN => fromMax
  | Num n =>
      if bool_decide (n = Int 0) || bool_decide (num_le n (Int 0)) then fromMax
      else Done n
  end.

(** The body of the transaction of [createTodo]. The INSERT fails on the
    foreign key when the list does not exist. *)
Definition createTodoProg (payload : CreatePayload) : Prog TodoRow :=
  do! L := resolveListProg payload in
  let txt := default EmptyString (new_text payload) in
  let done := new_completed payload in
  let empty := if new_isEmpty payload then true else isBlank txt in
  let pid := new_parentId payload in
  checkNewParentProg L pid ;;;
  let indented := bool_decide (pid ≠ None) in
  do! pos := resolvePositionProg payload L in
  refuse (bool_decide (pid ≠ None) && bool_decide (pos = Int 1)) CannotIndentFirst ;;;
  let row := mkTodo txt done empty pid indented pos L in
  do! inserted :=
    Stmt (λ s, match lists s !! L with
               | Some _ =>
                   let id := nextRowid (todos s) in
                   (Some id, setTodos (<[id := row]> (todos s)) s)
               | None => (None, s)
               end) Done in
  do! id := demand inserted SqliteConstraint in
  do! sel := read (λ s, todos s !! id) in
  match sel with
  | Some t => Done (id, t)
  | None => Fail TodoNotFound
  end.

(** The block [if (targetParentId != null) { ... }] of [updateTodo]. The
    walk up the ancestors only reads; it is taken as one step. *)
Definition checkParentProg (fuel : nat) (tid : Z) (row : Todo) (targetParentId : option Z)
    : Prog unit :=
  match targetParentId with
  | Some tp =>
      refuse (bool_decide (tp = tid)) ParentSelf ;;;
      do! pr := read (λ s, todos s !! tp) in
      do! pr := demand pr ParentTodoNotFound in
      refuse (bool_decide (listId pr ≠ listId row)) ParentSameList ;;;
      do! walk := read (λ s, ancestorWalk fuel (todos s) tid (Some pr)) in
      ofOutcome walk
  | None => Done tt
  end.

(** [SELECT ... FROM todos WHERE id=?] for the row to return. *)
Definition selectRowProg (tid : Z) : Prog TodoRow :=
  do! sel := read (λ s, todos s !! tid) in
  match sel with Some t => Done (tid, t) | None => Fail TodoNotFound end.

(** The body of the transaction of [updateTodo]. The UPDATE fails on NOT
    NULL when the position is NaN. *)
Definition updateTodoProg (fuel : nat) (id : Z) (p : Patch) : Prog TodoRow :=
  let tid := id in
  do! row := read (λ s, todos s !! tid) in
  do! row := demand row TodoNotFound in
  let targetParentId := match p_parentId p with Some v => v | None => parentId row end in
  let targetPosition :=
    match p_position p with Some v => toNumber (Some v) | None => Num (position row) end in
  checkParentProg fuel tid row targetParentId ;;;
  refuse (bool_decide (targetParentId ≠ None) && bool_decide (targetPosition = Num (Int 1)))
         CannotIndentFirst ;;;
  let setIndent : option bool :=
    match p_parentId p, p_isIndented p with
    | None, None => None
    | _, _ => Some (bool_decide (targetParentId ≠ None))
    end in
  let setPos : option jsnum :=
    match p_position p with
    | Some JNull => None
    | Some (JNumber n) => Some n
    | None => None
    end in
  let nothing :=
    bool_decide (p_text p = None) && bool_decide (p_completed p = None)
    && bool_decide (p_isEmpty p = None) && bool_decide (p_parentId p = None)
    && bool_decide (setIndent = None) && bool_decide (setPos = None) in
  if nothing then selectRowProg tid
  else
    do! updated :=
      Stmt (λ s,
        if bool_decide (setPos = Some NaN) then (None, s)
        else
          (Some tt,
           setTodos (alter (λ t,
             applyOpt setPos (λ n t, match n with Num n => setPosition n t | NaN => t end)
               (applyOpt setIndent setIndented
                 (applyOpt (p_parentId p) setParent
                   (applyOpt (p_isEmpty p) setIsEmpty
                     (applyOpt (p_completed p) setCompleted
                       (applyOpt (p_text p) setText t)))))) tid (todos s)) s)) Done in
    do! _ := demand updated SqliteConstraint in
    selectRowProg tid.

(** The body of the transaction of [deleteList]. *)
Definition deleteListProg (id : Z) : Prog unit :=
  let lid := id in
  do! changes :=
    Stmt (λ s, match lists s !! lid with
               | Some _ => (1%nat, deleteListRow lid s)
               | None => (0%nat, s)
               end) Done in
  refuse (bool_decide (changes = 0%nat)) ListNotFound ;;;
  do! cur := read (λ s, current_list_id (settings s)) in
  if bool_decide (cur = Some lid) then
    do! any := read (λ s, selectFirstList (lists s)) in
    Stmt (λ s, (tt, setCurrentListId any s)) Done
  else Done tt.

(** *** The failure *)

(** What a call of the engine ends in, as the routes see it. *)
Definition resultOf {A} (o : outcome A) : Result A :=
  match o with
  | Ret a => Returned a
  | Throw e => Raised (thrownOf e)
  | Diverge => Hangs
  end.

(** The statements on a driver that fails at one statement of the call:
    [Some k] when statement number [k], counted from 0, raises [err] instead
    of running, [None] when no statement fails. The count that is left goes
    on to the statements that follow. *)
Fixpoint execFaulty {A} (err : Thrown) (p : Prog A) (k : option nat) (s : Store)
    : Result A * Store * option nat :=
  match p with
  | Done a => (Returned a, s, k)
  | Fail e => (Raised (thrownOf e), s, k)
  | Endless => (Hangs, s, k)
  | Stmt run next =>
      match k with
      | Some O => (Raised err, s, None)
      | _ => execFaulty err (next (run s).1) (pred <$> k) (run s).2
      end
  end.

(** [d.transaction(fn)] on such a driver: BEGIN, the body, COMMIT; when any
    of them raises, what the body has written is rolled back. *)
Definition transactionFaulty {A} (err : Thrown) (body : Prog A) (k : option nat)
    (s : Store) : Result A * Store * option nat :=
  match k with
  | Some O => (Raised err, s, None)
  | _ =>
      match execFaulty err body (pred <$> k) s with
      | (Returned a, s', k') =>
          match k' with
          | Some O => (Raised err, s, None)
          | _ => (Returned a, s', pred <$> k')
          end
      | (Raised e, _, k') => (Raised e, s, k')
      | (Hangs, _, k') => (Hangs, s, k')
      end
  end.

Definition createTodoFaulty (err : Thrown) (payload : CreatePayload) :=
  transactionFaulty err (createTodoProg payload).

Definition updateTodoFaulty (err : Thrown) (fuel : nat) (id : Z) (p : Patch) :=
  transactionFaulty err (updateTodoProg fuel id p).

(** [if (!Array.isArray(updates) || updates.length === 0) return []] comes
    before the transaction. *)
Definition updateTodoPositionsFaulty (err : Thrown) (fuel : nat) (updates : list Update)
    (k : option nat) (s : Store) : Result BulkResult * Store * option nat :=
  match updates with
  | [] => (Returned BulkNothing, s, k)
  | r0 :: _ => transactionFaulty err (updateTodoPositionsProg fuel r0 updates) k s
  end.

Definition deleteTodoFaulty (err : Thrown) (fuel : nat) (id : Z) (opts : option bool) :=
  transactionFaulty err (deleteTodoProg fuel id opts).

Definition deleteListFaulty (err : Thrown) (id : Z) :=
  transactionFaulty err (deleteListProg id).

(** The check of the route PATCH /api/todos/positions, then the engine. *)
Definition patchTodosPositionsFaulty (err : Thrown) (fuel : nat) (body : list Update)
    (k : option nat) (s : Store) : Result BulkResult * Store * option nat :=
  match body with
  | [] => (Raised (thrownOf ArrayEmpty), s, k)
  | _ :: _ =>
      match shallowCheck body [] [] with
      | Some e => (Raised (thrownOf e), s, k)
      | None =>
          match findTop body with
          | Some top =>
              if bool_decide (upd_parentId top ≠ None)
              then (Raised (thrownOf CannotIndentFirst), s, k)
              else updateTodoPositionsFaulty err fuel body k s
          | None => updateTodoPositionsFaulty err fuel body k s
          end
      end
  end.

Definition mapResult {A B} (f : A → B) (x : Result A * Store * option nat)
    : Result B * Store * option nat :=
  (match x.1.1 with
   | Returned a => Returned (f a)
   | Raised e => Raised e
   | Hangs => Hangs
   end, x.1.2, x.2).

Definition performFaulty (err : Thrown) (fuel : nat) (op : Operation) (k : option nat)
    (s : Store) : Result Response * Store * option nat :=
  match op with
  | CreateTodo payload => mapResult TodoResponse (createTodoFaulty err payload k s)
  | UpdateTodo id patch => mapResult TodoResponse (updateTodoFaulty err fuel id patch k s)
  | UpdateTodoPositions updates =>
      mapResult BulkResponse (updateTodoPositionsFaulty err fuel updates k s)
  | PatchTodosPositions body =>
      mapResult BulkResponse (patchTodosPositionsFaulty err fuel body k s)
  | DeleteTodo id opts => mapResult DeleteResponse (deleteTodoFaulty err fuel id opts k s)
  | DeleteList id => mapResult (λ _, SuccessResponse) (deleteListFaulty err id k s)
  end.

(** *** The routes on such a driver *)

(** [try { const x = await withRetries(() => Promise.resolve(mod.f(...)));
    return sendJson(res, 200, ...) } catch (e) { const { status, message } =
    classifyDbError(e); return sendJson(res, status, ...) }], with the
    default options of [withRetries]. Call number [i] of the request runs on
    a driver that fails at the statement [sched !! i], if there is one.
    There is no reply when the call does not end. *)
Definition viaRetries {A} (call : option nat → Store → Result A * Store * option nat)
    (sched : list (option nat)) (s : Store) : option (Reply A) * Store * list Z :=
  let fn := λ st : Store * list (option nat),
              let x := call (default None (head st.2)) st.1 in
              (x.1.1, (x.1.2, tail st.2)) in
  let y := withRetries fn 3 50 (s, sched) in
  (replyOf y.1.1, y.1.2.1, y.2).

(** The test [status === 503] of [withRetries] on what a call ended in. *)
Definition busy {A} (r : Result A) : bool :=
  match r with
  | Raised e => bool_decide ((classifyDbError e).1 = 503)
  | _ => false
  end.

(** [Number.isSafeInteger]: on these integers [showZ] is the string that
    JavaScript makes of the number. *)
Definition safeInteger (z : Z) : Prop := - 2 ^ 53 < z < 2 ^ 53.

Definition safeRow (u : Update) : Prop :=
  safeInteger (upd_id u) ∧ safeInteger (upd_position u)
  ∧ from_option safeInteger True (upd_parentId u).

(** PATCH /api/todos/positions on a body that is an array of objects with
    numbers: the shallow validation answers with 400 itself. *)
Definition patchPositionsRoute (err : Thrown) (fuel : nat) (body : list Update)
    (sched : list (option nat)) (s : Store) : option (Reply BulkResult) * Store * list Z :=
  match body with
  | [] => (Some (JsonError 400 "Array must not be empty"), s, [])
  | _ :: _ =>
      match shallowCheck body [] [] with
      | Some e => (Some (JsonError 400 (messageOf e)), s, [])
      | None =>
          match findTop body with
          | Some top =>
              if bool_decide (upd_parentId top ≠ None)
              then (Some (JsonError 400 "Cannot indent the first item in the list"), s, [])
              else viaRetries (updateTodoPositionsFaulty err fuel body) sched s
          | None => viaRetries (updateTodoPositionsFaulty err fuel body) sched s
          end
      end
  end.

(** The error that the driver raises when the database is locked. *)
Definition busyError : Thrown :=
  ErrorObject "SqliteError" "database is locked" (Some "SQLITE_BUSY").

(** The error that the driver raises when the disk is full. *)
Definition diskFull : Thrown :=
  ErrorObject "SqliteError" "database or disk is full" (Some "SQLITE_FULL").

(** A function that throws a busy error of the driver on its first two
    calls and returns on the third; the state counts the calls. *)
Definition busyTwice : nat → Result nat * nat :=
  λ n, if decide (n < 2)%nat
       then (Raised (ErrorObject "SqliteError" "database is locked" (Some "SQLITE_BUSY")), S n)
       else (Returned n, S n).

(** ** The fallback of the client

    The client ([src/db.js]) keeps the arrays [todos] and [lists] and
    [currentListId] in memory; when a request to the API fails, the [catch]
    branch of a function works on them. The objects of [todos] have the
    fields of a row; an object is named by its index in the array. *)

Record Local : Type := mkLocal {
  localTodos : list TodoRow;
  localLists : list (Z * ListRow);
  currentListId : Z
}.

Definition todosOf (L : Z) (arr : list TodoRow) : list TodoRow := filter (inList L) arr.

(** [Array.prototype.sort] is stable: objects that the comparator does not
    tell apart stay in the order of the array. *)
Fixpoint insertBy {A} (le : relation A) `{!RelDecision le} (x : A) (l : list A) : list A :=
  match l with
  | [] => [x]
  | y :: l' => if decide (le x y) then x :: y :: l' else y :: insertBy le x l'
  end.

Definition stableSort {A} (le : relation A) `{!RelDecision le} (l : list A) : list A :=
  foldr (insertBy le) [] l.

(** The comparator [(a, b) => (a.position || 0) - (b.position || 0)] on the
    objects at two indexes; [|| 0] changes nothing on a position that is a
    number other than NaN. *)
Definition byPosition (a b : nat * TodoRow) : Prop := positionLe a.2 b.2.

Global Instance byPosition_dec : RelDecision byPosition.
Proof. intros a b. unfold byPosition. apply _. Defined.

(** The order in which [compactPositions] numbers the objects of a list: by
    position, and by index among the objects with the same position. *)
Definition numberedBefore (a b : nat * TodoRow) : Prop :=
  num_lt (position a.2.2) (position b.2.2)
  ∨ (position a.2.2 = position b.2.2 ∧ (a.1 ≤ b.1)%nat).

(** [let idx = 1; for (const t of listTodos) { t.position = idx++ }] on
    the objects at the indexes [rows]. *)
Fixpoint renumberAt (idx : Z) (rows : list nat) (arr : list TodoRow) : list TodoRow :=
  match rows with
  | [] => arr
  | i :: rest =>
      renumberAt (idx + 1) rest (alter (λ t : TodoRow, (t.1, setPosition (Int idx) t.2)) i arr)
  end.

(** [compactPositions(listId)] of the client. *)
Definition compactPositionsLocal (L : Z) (arr : list TodoRow) : list TodoRow :=
  let listTodos :=
    stableSort byPosition (filter (λ it : nat * TodoRow, inList L it.2) (imap pair arr)) in
  renumberAt 1 listTodos.*1 arr.

(** The positions of the objects of a list are 1, 2, ..., N in some order:
    they are numbers from 1 to the number of the objects of the list, and no
    two objects have the same. *)
Definition contiguousLocal (L : Z) (arr : list TodoRow) : Prop :=
  (∀ i t, arr !! i = Some t → listId t.2 = L →
     ∃ k, position t.2 = Int k ∧ 1 ≤ k ≤ Z.of_nat (length (todosOf L arr)))
  ∧ (∀ i j ti tj, arr !! i = Some ti → arr !! j = Some tj →
       listId ti.2 = L → listId tj.2 = L → i ≠ j → position ti.2 ≠ position tj.2).

(** [if (!result.includes(cid)) { result.push(cid); queue.push(cid) }] *)
Definition pushNew (acc : list Z * list Z) (cid : Z) : list Z * list Z :=
  if decide (cid ∈ acc.1) then acc else (acc.1 ++ [cid], acc.2 ++ [cid]).

(** The loop of [collectDescendants]: [while (queue.length) { ... }]. *)
Fixpoint collectLoop (fuel : nat) (arr : list TodoRow) (result queue : list Z)
    : option (list Z) :=
  match queue with
  | [] => Some result
  | pid :: rest =>
      match fuel with
      | O => None
      | S fuel' =>
          let children := (filter (λ t : TodoRow, parentId t.2 = Some pid) arr).*1 in
          let acc := foldl pushNew (result, rest) children in
          collectLoop fuel' arr acc.1 acc.2
      end
  end.

Definition collectDescendants (fuel : nat) (arr : list TodoRow) (parentIds : list Z)
    : option (list Z) :=
  collectLoop fuel arr [] parentIds.

(** [c] is the id of an object whose parent is [p]. *)
Definition childIn (arr : list TodoRow) (p c : Z) : Prop :=
  ∃ t, t ∈ arr ∧ parentId t.2 = Some p ∧ t.1 = c.

(** [x] is reached from [p] through one or more links from parent to
    child. *)
Inductive reaches (arr : list TodoRow) : Z → Z → Prop :=
  | reaches_child p c : childIn arr p c → reaches arr p c
  | reaches_step p c x : childIn arr p c → reaches arr c x → reaches arr p x.


Definition notFound (what : string) : Thrown := ErrorObject "Error" what None.


(** The [catch] branches of the functions on lists. *)
Definition setCurrentListIdFallback (id : Z) (st : Local) : Result Z * Local :=
  if decide (id ∈ (localLists st).*1) then
    (Returned id, mkLocal (localTodos st) (localLists st) id)
  else (Raised (notFound "List not found"), st).

(** [(lists.reduce((m, l) => Math.max(m, l.id || 0), 0) || 0) + 1] *)
Definition newLocalListId (ls : list (Z * ListRow)) : Z :=
  foldl (λ m l, Z.max m l.1) 0 ls + 1.

Definition createListFallback (now : Z) (name : string) (st : Local)
    : Result (Z * ListRow) * Local :=
  let newId := newLocalListId (localLists st) in
  let list :=
    (newId,
     mkListRow (if decide (name = EmptyString) then "List " +:+ showZ newId else name)
       now now) in
  (Returned list, mkLocal (localTodos st) (localLists st ++ [list]) newId).

Definition renameListFallback (now : Z) (id : Z) (name : string) (st : Local)
    : Result (Z * ListRow) * Local :=
  match list_find (λ l : Z * ListRow, l.1 = id) (localLists st) with
  | None => (Raised (notFound "List not found"), st)
  | Some (i, l) =>
      let l' := (l.1, mkListRow name (created_at l.2) now) in
      (Returned l', mkLocal (localTodos st) (<[i := l']> (localLists st)) (currentListId st))
  end.

Definition deleteListFallback (now : Z) (id : Z) (st : Local) : Result Z * Local :=
  if decide (id ∈ (localLists st).*1) then
    let arr := filter (λ t : TodoRow, listId t.2 ≠ id) (localTodos st) in
    let ls := filter (λ l : Z * ListRow, l.1 ≠ id) (localLists st) in
    let ls :=
      match ls with
      | [] => [(1, mkListRow "My Todo List" now now)]
      | _ :: _ => ls
      end in
    match ls with
    | first :: _ =>
        let cur := first.1 in
        (Returned cur, mkLocal (compactPositionsLocal cur arr) ls cur)
    | [] => (Raised Undefined, st)     (* not reached: [lists[0]] is there *)
    end
  else (Raised (notFound "List not found"), st).

(** The calls on lists, and the state that the fallback of a call leaves,
    whether it returns or throws. *)
Inductive ListCall : Type :=
  | SetCurrentListIdFallback (id : Z)
  | CreateListFallback (now : Z) (name : string)
  | RenameListFallback (now id : Z) (name : string)
  | DeleteListFallback (now id : Z).

Definition afterListCall (c : ListCall) (st : Local) : Local :=
  match c with
  | SetCurrentListIdFallback id => (setCurrentListIdFallback id st).2
  | CreateListFallback now name => (createListFallback now name st).2
  | RenameListFallback now id name => (renameListFallback now id name st).2
  | DeleteListFallback now id => (deleteListFallback now id st).2
  end.

(** No two lists have the same id, and the current list is one of them. *)
Definition listsOk (st : Local) : Prop :=
  NoDup (localLists st).*1 ∧ currentListId st ∈ (localLists st).*1.

(** * Properties *)

(** ** The order of the compaction query *)

Section order.

Lemma num_trichotomy (a b : num) : num_lt a b ∨ a = b ∨ num_lt b a.
Proof.
  unfold num_lt; destruct a as [|x|], b as [|y|]; simpl; try (left; lia);
    try (right; left; reflexivity); try (right; right; lia).
  destruct (Z.lt_trichotomy x y) as [?|[->|?]];
    [left; lia | right; left; reflexivity | right; right; lia].
Qed.

Lemma num_lt_irrefl (a : num) : ¬ num_lt a a.
Proof. unfold num_lt; lia. Qed.

Lemma num_lt_trans (a b c : num) : num_lt a b → num_lt b c → num_lt a c.
Proof. unfold num_lt; lia. Qed.

Lemma num_lt_asym (a b : num) : num_lt a b → ¬ num_lt b a.
Proof. unfold num_lt; lia. Qed.

Lemma num_lt_Int (x y : Z) : num_lt (Int x) (Int y) ↔ x < y.
Proof. unfold num_lt; simpl; lia. Qed.

Lemma num_le_lt_eq (a b : num) : num_le a b ↔ num_lt a b ∨ a = b.
Proof.
  split.
  - destruct (num_trichotomy a b) as [?|[?|Hba]]; [tauto..|].
    unfold num_le, num_lt in *; lia.
  - intros [H| ->]; unfold num_le, num_lt in *; lia.
Qed.

Global Instance keyLe_total : Total keyLe.
Proof.
  intros a b. unfold keyLe.
  destruct (num_trichotomy (position a.2) (position b.2)) as [?|[Heq|?]]; [tauto| |tauto].
  rewrite Heq. destruct (Z.le_ge_cases a.1 b.1); [left|right]; right; split; auto; lia.
Qed.

Global Instance keyLe_trans : Transitive keyLe.
Proof.
  intros a b c [Hab|[Hab Hab']] [Hbc|[Hbc Hbc']]; unfold keyLe.
  - left. eapply num_lt_trans; eassumption.
  - left. rewrite <- Hbc. assumption.
  - left. rewrite Hab. assumption.
  - right. split; [congruence | lia].
Qed.

Lemma keyLe_antisym_key (a b : TodoRow) : keyLe a b → keyLe b a → a.1 = b.1.
Proof.
  intros [Hab|[Hab Hab']] [Hba|[Hba Hba']].
  - exfalso. eapply num_lt_asym; eassumption.
  - exfalso. rewrite Hba in Hab. eapply num_lt_irrefl; eassumption.
  - exfalso. rewrite Hab in Hba. eapply num_lt_irrefl; eassumption.
  - lia.
Qed.

End order.

(** ** Rows of one list, in query order *)

Section select.
Context (L : Z) (d : gmap Z Todo).

Lemma selectListOrdered_perm :
  selectListOrdered L d ≡ₚ filter (inList L) (map_to_list d).
Proof. apply merge_sort_Permutation. Qed.

Lemma elem_of_selectListOrdered (r : TodoRow) :
  r ∈ selectListOrdered L d ↔ d !! r.1 = Some r.2 ∧ listId r.2 = L.
Proof.
  rewrite selectListOrdered_perm, list_elem_of_filter.
  destruct r as [id t]. rewrite (elem_of_map_to_list d id t). unfold inList; simpl. tauto.
Qed.

Lemma selectListOrdered_sorted : StronglySorted keyLe (selectListOrdered L d).
Proof. apply StronglySorted_merge_sort; apply _. Qed.

Lemma selectListOrdered_NoDup : NoDup (selectListOrdered L d).*1.
Proof.
  rewrite selectListOrdered_perm.
  apply (sublist_NoDup _ (map_to_list d).*1);
    [apply NoDup_fst_map_to_list | apply fmap_sublist, sublist_filter].
Qed.

Lemma selectListOrdered_lookup (k : nat) (r : TodoRow) :
  selectListOrdered L d !! k = Some r → d !! r.1 = Some r.2 ∧ listId r.2 = L.
Proof. intros H. apply elem_of_selectListOrdered, list_elem_of_lookup. eauto. Qed.

End select.

(** ** Compaction *)

Section renumber.

Lemma renumber_lookup_notin (rows : list Z) (pos : Z) (d : gmap Z Todo) (id : Z) :
  id ∉ rows → renumber pos rows d !! id = d !! id.
Proof.
  revert pos d. induction rows as [|r rows IH]; intros pos d Hid; simpl; [done|].
  apply not_elem_of_cons in Hid as [Hne Hid].
  rewrite IH by done. unfold updatePosition. by rewrite lookup_alter_ne.
Qed.

Lemma renumber_lookup_in (rows : list Z) (pos : Z) (d : gmap Z Todo) (k : nat) (id : Z) :
  NoDup rows → rows !! k = Some id →
  renumber pos rows d !! id = setPosition (Int (pos + Z.of_nat k)) <$> d !! id.
Proof.
  revert pos d k. induction rows as [|r rows IH]; intros pos d k Hnd Hk; [done|].
  apply NoDup_cons in Hnd as [Hr Hnd]. destruct k as [|k]; simpl in *.
  - injection Hk as ->. rewrite renumber_lookup_notin by done.
    unfold updatePosition. rewrite lookup_alter_eq. by rewrite Z.add_0_r.
  - rewrite (IH _ _ k) by done.
    assert (r ≠ id) by (intros ->; apply Hr; eapply list_elem_of_lookup_2; eauto).
    unfold updatePosition. rewrite lookup_alter_ne by done.
    by replace (pos + 1 + Z.of_nat k) with (pos + Z.pos (Pos.of_succ_nat k)) by lia.
Qed.

Lemma renumber_otherColumns (rows : list Z) (pos : Z) (d : gmap Z Todo) :
  otherColumns <$> renumber pos rows d = otherColumns <$> d.
Proof.
  revert pos d. induction rows as [|r rows IH]; intros pos d; simpl; [done|].
  rewrite IH. apply map_eq; intros i. rewrite !lookup_fmap. unfold updatePosition.
  destruct (decide (r = i)) as [->|Hne].
  - rewrite lookup_alter_eq. by destruct (d !! i).
  - by rewrite lookup_alter_ne.
Qed.

Lemma numbered_fst (pos : Z) (rows : list TodoRow) : (numbered pos rows).*1 = rows.*1.
Proof.
  unfold numbered. rewrite fmap_imap.
  rewrite <- (imap_const fst rows). by apply imap_ext.
Qed.

Lemma numbered_sorted (pos : Z) (rows : list TodoRow) :
  StronglySorted keyLe (numbered pos rows).
Proof.
  revert pos. induction rows as [|r rows IH]; intros pos; [constructor|].
  unfold numbered. rewrite imap_cons. constructor.
  - specialize (IH (pos + 1)). unfold numbered in IH.
    erewrite imap_ext; [exact IH|].
    intros k x _. simpl. do 3 f_equal. lia.
  - apply Forall_forall. intros x (k & y & -> & _)%elem_of_lookup_imap.
    left. simpl. apply num_lt_Int. lia.
Qed.

Lemma numbered_positions (pos : Z) (rows : list TodoRow) :
  (λ r : TodoRow, position r.2) <$> numbered pos rows
  = Int <$> seqZ pos (Z.of_nat (length rows)).
Proof.
  apply list_eq; intros k. unfold numbered.
  rewrite !list_lookup_fmap, list_lookup_imap.
  destruct (rows !! k) as [r|] eqn:Hk; rewrite ?Hk; simpl.
  - rewrite lookup_seqZ_lt by (apply lookup_lt_Some in Hk; lia). done.
  - rewrite lookup_seqZ_ge by (apply lookup_ge_None in Hk; lia). done.
Qed.

End renumber.

Section compaction.
Context (L : Z) (d : gmap Z Todo).

Lemma compactPositions_lookup_in (k : nat) (r : TodoRow) :
  selectListOrdered L d !! k = Some r →
  compactPositions L d !! r.1 = Some (setPosition (Int (1 + Z.of_nat k)) r.2).
Proof.
  intros Hk. unfold compactPositions.
  rewrite (renumber_lookup_in _ _ _ k).
  - apply selectListOrdered_lookup in Hk as [-> _]. done.
  - apply selectListOrdered_NoDup.
  - by rewrite list_lookup_fmap, Hk.
Qed.

Lemma compactPositions_lookup_other (id : Z) :
  (∀ t, d !! id = Some t → listId t ≠ L) →
  compactPositions L d !! id = d !! id.
Proof.
  intros Hid. unfold compactPositions. apply renumber_lookup_notin.
  intros [[i t] [-> Hin]]%list_elem_of_fmap.
  apply elem_of_selectListOrdered in Hin as [Hd HL]. by apply (Hid t).
Qed.

Lemma compactPositions_otherColumns :
  otherColumns <$> compactPositions L d = otherColumns <$> d.
Proof. apply renumber_otherColumns. Qed.

Lemma compactPositions_rows (r : TodoRow) :
  compactPositions L d !! r.1 = Some r.2 ∧ listId r.2 = L
  ↔ r ∈ numbered 1 (selectListOrdered L d).
Proof.
  unfold numbered. rewrite elem_of_lookup_imap. split.
  - intros [Hr HL].
    destruct (decide (r.1 ∈ (selectListOrdered L d).*1)) as [Hin|Hout].
    + apply list_elem_of_fmap in Hin as [r0 [Heq [k Hk]%list_elem_of_lookup]].
      exists k, r0. split; [|done].
      pose proof (compactPositions_lookup_in k r0 Hk) as Hc.
      rewrite <- Heq, Hr in Hc. injection Hc as Hc.
      destruct r as [i t]; simpl in *. by subst.
    + exfalso. apply Hout. apply list_elem_of_fmap. exists r. split; [done|].
      apply elem_of_selectListOrdered. split; [|done].
      rewrite <- Hr. symmetry. apply renumber_lookup_notin. done.
  - intros (k & r0 & -> & Hk). simpl.
    split; [by apply compactPositions_lookup_in|].
    by apply selectListOrdered_lookup in Hk as [_ ?].
Qed.

(** The compaction query run again after the compaction returns the same
    rows in the same order, numbered 1, 2, ... *)
Lemma selectListOrdered_compactPositions :
  selectListOrdered L (compactPositions L d) = numbered 1 (selectListOrdered L d).
Proof.
  symmetry. apply (StronglySorted_unique_strong keyLe).
  - intros x1 x2 H1 H2 H12 H21.
    apply compactPositions_rows in H1 as [H1 _].
    apply elem_of_selectListOrdered in H2 as [H2 _].
    pose proof (keyLe_antisym_key _ _ H12 H21) as Hk.
    destruct x1, x2; simpl in *; subst. congruence.
  - apply numbered_sorted.
  - apply selectListOrdered_sorted.
  - apply NoDup_Permutation.
    + apply (NoDup_fmap_1 fst). rewrite numbered_fst. apply selectListOrdered_NoDup.
    + apply (NoDup_fmap_1 fst), selectListOrdered_NoDup.
    + intros r. rewrite <- compactPositions_rows. by rewrite elem_of_selectListOrdered.
Qed.

Lemma positionsOf_compactPositions :
  positionsOf L (compactPositions L d)
  = Int <$> seqZ 1 (Z.of_nat (length (selectListOrdered L d))).
Proof.
  unfold positionsOf. rewrite selectListOrdered_compactPositions.
  apply numbered_positions.
Qed.

Lemma contiguous_compactPositions : contiguous L (compactPositions L d).
Proof.
  unfold contiguous. rewrite positionsOf_compactPositions.
  by rewrite length_fmap, length_seqZ, Nat2Z.id.
Qed.

End compaction.

Lemma otherColumns_listId (t t' : Todo) :
  otherColumns t' = otherColumns t → listId t' = listId t.
Proof. unfold otherColumns, setPosition. by injection 1. Qed.

Lemma otherColumns_lookup (d d' : gmap Z Todo) (id : Z) :
  otherColumns <$> d' = otherColumns <$> d →
  otherColumns <$> d' !! id = otherColumns <$> d !! id.
Proof. intros H. by rewrite <- !lookup_fmap, H. Qed.

Lemma compactPositions_other_lists (L : Z) (d : gmap Z Todo) :
  filter (λ r : TodoRow, listId r.2 ≠ L) (compactPositions L d)
  = filter (λ r : TodoRow, listId r.2 ≠ L) d.
Proof.
  apply map_eq; intros i. rewrite !map_lookup_filter.
  pose proof (otherColumns_lookup _ _ i (compactPositions_otherColumns L d)) as Hi.
  destruct (d !! i) as [t|] eqn:Hd; simpl in *.
  - destruct (decide (listId t = L)) as [HL|HL].
    + destruct (compactPositions L d !! i) as [t'|]; [|done]. simpl in *.
      assert (otherColumns t' = otherColumns t) as Ho by congruence.
      apply otherColumns_listId in Ho.
      rewrite !option_guard_False; simpl; congruence.
    + rewrite compactPositions_lookup_other; [by rewrite Hd|].
      intros ? Ht. rewrite Hd in Ht. by injection Ht as <-.
  - rewrite compactPositions_lookup_other; [by rewrite Hd|].
    intros ? Ht. by rewrite Hd in Ht.
Qed.

(** C8. The compaction helper leaves every row in place and changes no column
    other than [position]; rows of other lists are untouched; the rows of the
    list, taken in the order (position ascending, id ascending), keep that
    order and receive the positions 1, 2, ..., N. *)
Theorem compactPositionsTx_spec (L : Z) (s : Store) :
  let rows := selectListOrdered L (todos s) in
  let s' := (compactPositionsTx L s).2 in
  (compactPositionsTx L s).1 = Ret tt
  ∧ lists s' = lists s ∧ settings s' = settings s
  ∧ otherColumns <$> todos s' = otherColumns <$> todos s
  ∧ filter (λ r : TodoRow, listId r.2 ≠ L) (todos s')
    = filter (λ r : TodoRow, listId r.2 ≠ L) (todos s)
  ∧ StronglySorted keyLe rows
  ∧ rows ≡ₚ filter (inList L) (map_to_list (todos s))
  ∧ selectListOrdered L (todos s') = numbered 1 rows
  ∧ positionsOf L (todos s') = Int <$> seqZ 1 (Z.of_nat (length rows)).
Proof.
  simpl. repeat split.
  - apply compactPositions_otherColumns.
  - apply compactPositions_other_lists.
  - apply selectListOrdered_sorted.
  - apply selectListOrdered_perm.
  - apply selectListOrdered_compactPositions.
  - apply positionsOf_compactPositions.
Qed.

(** ** Transactions *)

Section monad.
Context {A B : Type}.

Lemma bind_Ret (m : Txn A) (k : A → Txn B) (s s'' : Store) (b : B) :
  bind m k s = (Ret b, s'') ↔ ∃ a s', m s = (Ret a, s') ∧ k a s' = (Ret b, s'').
Proof.
  unfold bind. destruct (m s) as [[a| |] s'] eqn:Hm; split.
  - eauto.
  - by intros (? & ? & [= <- <-] & ?).
  - done.
  - by intros (? & ? & ? & ?).
  - done.
  - by intros (? & ? & ? & ?).
Qed.

Lemma transaction_Ret (body : Txn A) (s s' : Store) (a : A) :
  transaction body s = (Ret a, s') ↔ body s = (Ret a, s').
Proof. unfold transaction. destruct (body s) as [[?| |] ?]; split; congruence. Qed.

(** A transaction that throws leaves the store as it was at BEGIN, whatever
    its body had written. *)
Lemma transaction_rollback (body : Txn A) (s s' : Store) (e : Error) :
  transaction body s = (Throw e, s') → s' = s.
Proof. unfold transaction. destruct (body s) as [[?| |] ?]; congruence. Qed.

Lemma transaction_Diverge (body : Txn A) (s s' : Store) :
  transaction body s = (Diverge, s') → s' = s.
Proof. unfold transaction. destruct (body s) as [[?| |] ?]; congruence. Qed.

Lemma bind_ret_Throw (m : Txn A) (f : A → B) (s s' : Store) (e : Error) :
  bind m (λ a, ret (f a)) s = (Throw e, s') → m s = (Throw e, s').
Proof. unfold bind, ret. destruct (m s) as [[?| |] ?]; congruence. Qed.

End monad.

(** ** Following a successful run *)

Section inversion.
Context {A : Type}.

Lemma ret_Ret (a b : A) (s s' : Store) : ret a s = (Ret b, s') → b = a ∧ s' = s.
Proof. unfold ret. by intros [= -> ->]. Qed.

Lemma gets_Ret (f : Store → A) (b : A) (s s' : Store) :
  gets f s = (Ret b, s') → b = f s ∧ s' = s.
Proof. unfold gets. by intros [= <- <-]. Qed.

Lemma expect_Ret (o : option A) (e : Error) (a : A) (s s' : Store) :
  expect o e s = (Ret a, s') → o = Some a ∧ s' = s.
Proof. destruct o; unfold expect, ret, throw; [by intros [= -> ->] | done]. Qed.

Lemma liftOutcome_Ret (o : outcome A) (a : A) (s s' : Store) :
  liftOutcome o s = (Ret a, s') → o = Ret a ∧ s' = s.
Proof. unfold liftOutcome. by intros [= -> ->]. Qed.

Lemma runQuery_Ret (q : Store → option A) (a : A) (s s' : Store) :
  runQuery q s = (Ret a, s') → q s = Some a ∧ s' = s.
Proof. unfold runQuery. destruct (q s); [by intros [= -> ->] | done]. Qed.

Lemma throw_Ret (e : Error) (a : A) (s s' : Store) : throw e s = (Ret a, s') → False.
Proof. done. Qed.

End inversion.

Lemma guard_Ret (b : bool) (e : Error) (u : unit) (s s' : Store) :
  guard b e s = (Ret u, s') → b = false ∧ s' = s.
Proof. destruct b; unfold guard, ret, throw; [done | by intros [= _ ->]]. Qed.

Lemma modifyTodos_Ret (f : gmap Z Todo → gmap Z Todo) (u : unit) (s s' : Store) :
  modifyTodos f s = (Ret u, s') → s' = setTodos (f (todos s)) s.
Proof. unfold modifyTodos. by intros [= _ <-]. Qed.

Lemma selectTodo_Ret (id : Z) (o : option Todo) (s s' : Store) :
  selectTodo id s = (Ret o, s') → o = todos s !! id ∧ s' = s.
Proof. apply (gets_Ret (λ s, todos s !! id)). Qed.

(** Decompose the hypotheses that say that a transaction body returned. *)
Ltac txn_step :=
  match goal with
  | H : transaction _ _ = (Ret _, _) |- _ => apply (proj1 (transaction_Ret _ _ _ _)) in H
  | H : withTxn _ _ = (Ret _, _) |- _ => apply (proj1 (transaction_Ret _ _ _ _)) in H
  | H : bind _ _ _ = (Ret _, _) |- _ =>
      let a := fresh "a" in let s := fresh "s" in
      apply (proj1 (bind_Ret _ _ _ _ _)) in H as (a & s & ? & H)
  | H : selectTodo _ _ = (Ret _, _) |- _ => apply selectTodo_Ret in H as [? ?]
  | H : ret _ _ = (Ret _, _) |- _ => apply ret_Ret in H as [? ?]
  | H : gets _ _ = (Ret _, _) |- _ => apply gets_Ret in H as [? ?]
  | H : expect _ _ _ = (Ret _, _) |- _ => apply expect_Ret in H as [? ?]
  | H : guard _ _ _ = (Ret _, _) |- _ => apply guard_Ret in H as [? ?]
  | H : liftOutcome _ _ = (Ret _, _) |- _ => apply liftOutcome_Ret in H as [? ?]
  | H : runQuery _ _ = (Ret _, _) |- _ => apply runQuery_Ret in H as [? ?]
  | H : modifyTodos _ _ = (Ret _, _) |- _ => apply modifyTodos_Ret in H
  | H : throw _ _ = (Ret _, _) |- _ => by apply throw_Ret in H
  end.

Ltac txn_inv := repeat (txn_step; subst).

(** ** updateTodo *)

Section updateTodo.
Context (fuel : nat) (id : Z) (p : Patch).

Lemma patched_listId (target : option Z) (t : Todo) :
  listId (patched p target t) = listId t.
Proof.
  unfold patched, applyOpt.
  repeat (case_match; simpl; try done).
Qed.

Lemma patched_parentId (t : Todo) :
  parentId (patched p (match p_parentId p with Some v => v | None => parentId t end) t)
  = match p_parentId p with Some v => v | None => parentId t end.
Proof.
  unfold patched, applyOpt.
  repeat (case_match; simpl; try done).
Qed.

Lemma patched_position (target : option Z) (t : Todo) :
  (∀ n, p_position p ≠ Some (JNumber n)) → position (patched p target t) = position t.
Proof.
  intros Hpos. unfold patched, applyOpt.
  destruct (p_position p) as [[|n]|]; [|by destruct (Hpos n)|];
    repeat (case_match; simpl; try done).
Qed.

Lemma checkParent_Ret (t : Todo) (target : option Z) (u : unit) (s s' : Store) :
  checkParent fuel id t target s = (Ret u, s') →
  s' = s
  ∧ ∀ tp, target = Some tp →
      tp ≠ id
      ∧ (∃ pr, todos s !! tp = Some pr ∧ listId pr = listId t
               ∧ ancestorWalk fuel (todos s) id (Some pr) = Ret tt).
Proof.
  unfold checkParent. destruct target as [tp|]; intros H; txn_inv; [|done].
  split; [done|]. intros ? [= <-].
  repeat case_bool_decide; try done.
  destruct u. eauto.
Qed.

(** What a call that returns has done: nothing, or one UPDATE of the row,
    and the row it returns is the row of [id] afterwards. *)
Lemma updateTodo_Ret (s s' : Store) (row : TodoRow) :
  updateTodo fuel id p s = (Ret row, s') →
  ∃ t, todos s !! id = Some t
    ∧ row.1 = id ∧ todos s' !! id = Some row.2
    ∧ lists s' = lists s ∧ settings s' = settings s
    ∧ (todos s' = todos s
       ∨ todos s' = alter (patched p (match p_parentId p with
                                    | Some v => v
                                    | None => parentId t
                                    end)) id (todos s))
    ∧ ∀ tp, match p_parentId p with Some v => v | None => parentId t end = Some tp →
        tp ≠ id ∧ ∃ pr, todos s !! tp = Some pr ∧ listId pr = listId t.
Proof.
  unfold updateTodo. intros H. txn_inv.
  rename a0 into t. exists t. split; [done|].
  match goal with H : checkParent _ _ _ _ _ = _ |- _ =>
    apply checkParent_Ret in H as [-> Hcheck] end.
  assert (∀ tp, match p_parentId p with Some v => v | None => parentId t end = Some tp →
            tp ≠ id ∧ ∃ pr, todos s !! tp = Some pr ∧ listId pr = listId t) as Hvalid.
  { intros tp Htp. destruct (Hcheck tp Htp) as (? & pr & ? & ? & _). eauto. }
  destruct (_ && _ && _ && _ && _ && _) in H.
  - txn_inv. destruct (todos s !! id) as [t'|] eqn:Ht; [|done].
    txn_inv. simpl. rewrite Ht. eauto 10.
  - txn_inv. simpl in *.
    match goal with H : context [alter ?f id (todos s)] |- _ =>
      destruct (alter f id (todos s) !! id) as [t'|] eqn:Ht; [|done] end.
    txn_inv. simpl. rewrite Ht. split; [done|]. split; [done|].
    split; [done|]. split; [done|]. split; [right; done|done].
Qed.

End updateTodo.

(** C9. Whatever the patch, and whether the call returns, throws or does not
    end, [updateTodo] leaves the [listId] of every item as it was; a [listId]
    field in the patch is not read. The row that a successful call returns
    is the row of [id], with the [listId] it had before. *)
Theorem updateTodo_keeps_listId (fuel : nat) (id : Z) (p : Patch) (s : Store) :
  let r := updateTodo fuel id p s in
  (∀ i, listId <$> todos r.2 !! i = listId <$> todos s !! i)
  ∧ match r.1 with
    | Ret row => row.1 = id ∧ Some (listId row.2) = listId <$> todos s !! id
    | _ => True
    end.
Proof.
  simpl. destruct (updateTodo fuel id p s) as [[row| |] s'] eqn:H; simpl.
  - apply updateTodo_Ret in H as (t & Ht & Hid & Hrow & _ & _ & Hd & _).
    assert (∀ i, listId <$> todos s' !! i = listId <$> todos s !! i) as Hall.
    { intros i. destruct Hd as [-> | ->]; [done|].
      destruct (decide (id = i)) as [<-|Hne].
      - rewrite lookup_alter_eq, Ht. simpl. by rewrite patched_listId.
      - by rewrite lookup_alter_ne. }
    split; [done|]. split; [done|].
    specialize (Hall id). rewrite Hrow in Hall. done.
  - apply transaction_rollback in H as ->. done.
  - apply transaction_Diverge in H as ->. done.
Qed.

(** ** createTodo *)

Lemma resolvePosition_missing (v : jsnum) (maxPos : num) :
  v = NaN ∨ (∃ n, v = Num n ∧ num_le n (Int 0)) →
  resolvePosition v maxPos = num_succ maxPos.
Proof.
  intros [-> | (n & -> & Hn)]; simpl; [done|].
  rewrite (bool_decide_eq_true_2 (num_le n (Int 0))) by done.
  by rewrite orb_true_r.
Qed.

Lemma checkNewParent_Ret (L : Z) (pid : option Z) (u : unit) (s s' : Store) :
  checkNewParent L pid s = (Ret u, s') →
  s' = s ∧ ∀ p, pid = Some p → ∃ prow, todos s !! p = Some prow ∧ listId prow = L.
Proof.
  unfold checkNewParent. destruct pid as [p|]; intros H; txn_inv; [|done].
  split; [done|]. intros ? [= <-]. eexists. split; [done|].
  case_bool_decide; [done|]. by destruct (decide (listId a0 = L)).
Qed.



(** ** Chains of parents *)

Section follow.
Context (g : Z → option Z).

Lemma follow_S_r (n : nat) (x : Z) : follow g (S n) x = follow g n x ≫= g.
Proof.
  revert x. induction n as [|n IH]; intros x.
  - simpl. by destruct (g x).
  - change (follow g (S (S n)) x) with (g x ≫= follow g (S n)).
    change (follow g (S n) x) with (g x ≫= follow g n).
    destruct (g x) as [y|]; simpl; [apply IH|done].
Qed.

Lemma follow_1 (x : Z) : follow g 1 x = g x.
Proof. simpl. by destruct (g x). Qed.

Lemma follow_add (n m : nat) (x : Z) :
  follow g (n + m) x = follow g n x ≫= follow g m.
Proof.
  revert x. induction n as [|n IH]; intros x; [done|].
  simpl. destruct (g x) as [y|]; simpl; [apply IH|done].
Qed.

Lemma follow_None_le (n m : nat) (x : Z) :
  follow g n x = None → (n ≤ m)%nat → follow g m x = None.
Proof.
  intros Hn Hle. replace m with (n + (m - n))%nat by lia.
  by rewrite follow_add, Hn.
Qed.

(** A point that comes back to itself has successors of every order. *)
Lemma follow_periodic (n : nat) (x : Z) :
  (0 < n)%nat → follow g n x = Some x → ∀ m, follow g m x ≠ None.
Proof.
  intros Hn Hx m. induction (lt_wf m) as [m _ IH].
  destruct (decide (m < n)%nat) as [Hlt|Hge].
  - intros Hm. rewrite (follow_None_le m n) in Hx by (done || lia). done.
  - replace m with (n + (m - n))%nat by lia. rewrite follow_add, Hx. simpl.
    apply IH. lia.
Qed.

End follow.

Section chains.
Context (d : gmap Z Todo).

Lemma nthParent_S (n : nat) (x : Z) :
  nthParent d (S n) x = parentOf d x ≫= nthParent d n.
Proof. done. Qed.

Lemma acyclic_chain_ends (x : Z) : acyclic d → nthParent d (S (size d)) x = None.
Proof.
  intros Hd. destruct (d !! x) as [t|] eqn:Hx.
  - by apply (Hd x t).
  - simpl. unfold parentOf. by rewrite Hx.
Qed.

Lemma acyclic_not_own_ancestor (n : nat) (x : Z) :
  acyclic d → (0 < n)%nat → nthParent d n x ≠ Some x.
Proof.
  intros Hd Hn Hx.
  by apply (follow_periodic (parentOf d) n x Hn Hx (S (size d))), acyclic_chain_ends.
Qed.

(** The cycle guard of [updateTodo] returns when the chain of parents above
    the new parent ends, and does not pass through the item. *)
Lemma ancestorWalk_returns (tid : Z) (n fuel : nat) (p : Z) :
  nthParent d (S n) p = None →
  (∀ k, nthParent d (S k) p ≠ Some tid) →
  (n ≤ fuel)%nat →
  ancestorWalk fuel d tid (d !! p) = Ret tt.
Proof.
  revert fuel p. induction n as [|n IH]; intros fuel p Hend Hnot Hfuel.
  - simpl in Hend. unfold parentOf in Hend.
    destruct fuel; simpl; destruct (d !! p) as [c|]; simpl in *; try done;
      destruct (parentId c); done.
  - destruct fuel as [|fuel]; [lia|]. simpl.
    destruct (d !! p) as [c|] eqn:Hp; [|done].
    destruct (parentId c) as [q|] eqn:Hq; [|done].
    assert (parentOf d p = Some q) as Hpq by (unfold parentOf; by rewrite Hp).
    rewrite nthParent_S, Hpq in Hend.
    destruct (decide (q = tid)) as [->|Hne].
    { destruct (Hnot O). simpl. rewrite Hpq. done. }
    apply IH; [done| |lia].
    intros k Hk. apply (Hnot (S k)). by rewrite nthParent_S, Hpq.
Qed.

(** In a store whose parent graph is acyclic the walk ends within as many
    rounds as the table has rows, whatever item it looks for. *)
Lemma ancestorWalk_ends (tid : Z) (fuel : nat) (p : Z) :
  acyclic d → (size d ≤ fuel)%nat →
  ancestorWalk fuel d tid (d !! p) ≠ Diverge.
Proof.
  intros Hd. pose proof (acyclic_chain_ends p Hd) as Hend.
  revert Hend. generalize (size d) as n. intros n. revert fuel p.
  induction n as [|n IH]; intros fuel p Hend Hfuel.
  - simpl in Hend. unfold parentOf in Hend.
    destruct fuel; simpl; destruct (d !! p) as [c|]; simpl in *; try done;
      destruct (parentId c); done.
  - simpl in Hend. unfold parentOf in Hend.
    destruct fuel as [|fuel]; [lia|]. simpl.
    destruct (d !! p) as [c|] eqn:Hp; [|done]. simpl in *.
    destruct (parentId c) as [q|] eqn:Hq; [|done]. simpl in *.
    destruct (decide (q = tid)); [done|]. apply IH; [done|lia].
Qed.

End chains.

(** ** updateTodo on an unchanged parent *)

Section unchanged.
Context (fuel : nat) (id : Z) (s : Store) (t : Todo).
Context (Hrow : todos s !! id = Some t).
Context (Hacyclic : acyclic (todos s)).
Context (Hfuel : (size (todos s) ≤ fuel)%nat).

Lemma parent_not_self (tp : Z) : parentId t = Some tp → tp ≠ id.
Proof.
  intros Htp ->. apply (acyclic_not_own_ancestor (todos s) 1 id Hacyclic); [lia|].
  simpl. unfold parentOf. by rewrite Hrow; simpl; rewrite Htp.
Qed.

Lemma parent_chain_avoids (tp : Z) (k : nat) :
  parentId t = Some tp → nthParent (todos s) (S k) tp ≠ Some id.
Proof.
  intros Htp Hk.
  apply (acyclic_not_own_ancestor (todos s) (S (S k)) id Hacyclic); [lia|].
  assert (parentOf (todos s) id = Some tp) as Hp by (unfold parentOf; by rewrite Hrow).
  by rewrite nthParent_S, Hp.
Qed.

Lemma checkParent_current :
  (∀ tp, parentId t = Some tp →
     ∃ pr, todos s !! tp = Some pr ∧ listId pr = listId t) →
  checkParent fuel id t (parentId t) s = (Ret tt, s).
Proof.
  intros Hparent. unfold checkParent.
  destruct (parentId t) as [tp|] eqn:Htp; [|done].
  destruct (Hparent tp eq_refl) as (pr & Hpr & Hlist).
  unfold bind, guard, selectTodo, gets, expect, liftOutcome, ret.
  rewrite (bool_decide_eq_false_2 (tp = id)) by by apply parent_not_self.
  rewrite Hpr. rewrite (bool_decide_eq_false_2 (listId pr ≠ listId t)) by tauto.
  rewrite <- Hpr.
  rewrite (ancestorWalk_returns (todos s) id (size (todos s))); [done| | |done].
  - by apply acyclic_chain_ends.
  - intros k. by apply parent_chain_avoids.
Qed.

End unchanged.

(** C7, amended. For an existing item whose current parent is null, or is an
    item of the same list while the item is not at position 1, in a store
    with an acyclic parent graph, [updateTodo] with a patch that has none of
    the fields text, completed, isEmpty, parentId, isIndented, position
    returns the current row and leaves the store as it was. *)
Theorem updateTodo_no_field_noop (fuel : nat) (id : Z) (p : Patch) (s : Store) (t : Todo) :
  noRecognizedField p →
  todos s !! id = Some t →
  acyclic (todos s) →
  (size (todos s) ≤ fuel)%nat →
  (∀ tp, parentId t = Some tp →
     position t ≠ Int 1 ∧ ∃ pr, todos s !! tp = Some pr ∧ listId pr = listId t) →
  updateTodo fuel id p s = (Ret (id, t), s).
Proof.
  intros (Htext & Hdone & Hempty & Hpid & Hind & Hpos) Hrow Hacyclic Hfuel Hparent.
  unfold updateTodo. rewrite Htext, Hdone, Hempty, Hpid, Hind, Hpos.
  unfold transaction, bind at 1 2 3. unfold selectTodo at 1, gets, expect.
  rewrite Hrow. unfold ret at 1.
  rewrite (checkParent_current fuel id s t Hrow Hacyclic Hfuel) by (intros; by apply Hparent).
  unfold bind, guard, selectTodo, gets.
  assert (bool_decide (parentId t ≠ None) && bool_decide (Num (position t) = Num (Int 1))
          = false) as ->.
  { destruct (parentId t) as [tp|] eqn:Htp.
    - destruct (Hparent tp eq_refl) as [Hne _].
      rewrite (bool_decide_eq_false_2 (Num (position t) = Num (Int 1))) by congruence.
      apply andb_false_r.
    - by rewrite (bool_decide_eq_false_2 (None ≠ None)) by tauto. }
  simpl. by rewrite Hrow.
Qed.

(** ** Acyclic means that no item is its own ancestor *)

Section pigeonhole.
Context (g : Z → option Z) (dom : list Z).
Context (Hdom : ∀ x y, g x = Some y → x ∈ dom).
Context (Hacyclic : ∀ x n, (0 < n)%nat → follow g n x ≠ Some x).

(** Distinct points that all lead to [x] leave room for at most
    [length dom - length seen] more steps from [x]. *)
Lemma follow_bounded (n : nat) (seen : list Z) (x : Z) :
  NoDup seen →
  (∀ y, y ∈ seen → y ∈ dom) →
  (∀ y, y ∈ seen → ∃ k, (0 < k)%nat ∧ follow g k y = Some x) →
  (length dom < n + length seen)%nat →
  follow g n x = None.
Proof.
  revert seen x. induction n as [|n IH]; intros seen x Hnd Hsub Hlead Hlen.
  - exfalso. assert (length seen ≤ length dom)%nat; [|lia].
    by apply submseteq_length, NoDup_submseteq.
  - simpl. destruct (g x) as [x'|] eqn:Hx; [|done]. simpl.
    apply (IH (x :: seen)).
    + apply NoDup_cons. split; [|done]. intros Hin.
      destruct (Hlead x Hin) as (k & Hk & Hkx). by apply (Hacyclic x k).
    + intros y [->|Hy]%elem_of_cons; [by eapply Hdom|by apply Hsub].
    + intros y [->|Hy]%elem_of_cons.
      * exists 1%nat. split; [lia|]. by rewrite follow_1.
      * destruct (Hlead y Hy) as (k & Hk & Hky). exists (S k). split; [lia|].
        by rewrite follow_S_r, Hky.
    + simpl. lia.
Qed.

End pigeonhole.

(** The parent graph is acyclic, as [acyclic] has it (every chain of parents
    ends within as many steps as the table has rows), exactly when no item
    is its own ancestor. *)
Lemma acyclic_iff (d : gmap Z Todo) :
  acyclic d ↔ ∀ x n, (0 < n)%nat → nthParent d n x ≠ Some x.
Proof.
  split.
  - intros Hd x n Hn. by apply acyclic_not_own_ancestor.
  - intros Hd x t _.
    apply (follow_bounded (parentOf d) (map_to_list d).*1) with (seen := []).
    + intros y z Hy. unfold parentOf in Hy. destruct (d !! y) as [ty|] eqn:Hty; [|done].
      apply list_elem_of_fmap. exists (y, ty). split; [done|]. by apply elem_of_map_to_list.
    + done.
    + constructor.
    + by intros ? ?%elem_of_nil.
    + by intros ? ?%elem_of_nil.
    + rewrite length_fmap, length_map_to_list. simpl. lia.
Qed.

(** A call whose cycle guard does not end does not end. *)
Lemma updateTodo_Diverge (fuel : nat) (id : Z) (p : Patch) (s : Store) (t : Todo)
    (tp : Z) (pr : Todo) :
  todos s !! id = Some t →
  p_parentId p = Some (Some tp) →
  tp ≠ id →
  todos s !! tp = Some pr →
  listId pr = listId t →
  ancestorWalk fuel (todos s) id (Some pr) = Diverge →
  updateTodo fuel id p s = (Diverge, s).
Proof.
  intros Hrow Hpid Hne Hpr Hlist Hwalk.
  unfold updateTodo. rewrite Hpid.
  unfold transaction, bind at 1 2 3. unfold selectTodo at 1, gets, expect.
  rewrite Hrow. unfold ret at 1.
  unfold checkParent, bind, guard, selectTodo, gets, expect, liftOutcome, ret.
  rewrite (bool_decide_eq_false_2 (tp = id)) by done.
  rewrite Hpr. rewrite (bool_decide_eq_false_2 (listId pr ≠ listId t)) by tauto.
  by rewrite Hwalk.
Qed.

(** C3. In the store where A and B are each other's parent, the cycle guard
    of [updateTodo(3, {parentId: 1})] has not ended after any number of
    rounds: it walks from A to B and back without meeting item 3 or a row
    without parent. *)
Theorem updateTodo_walk_never_ends (fuel : nat) :
  updateTodo fuel 3 (reparent (Some 1)) cyclicStore = (Diverge, cyclicStore).
Proof.
  assert (todos cyclicStore !! 1 = Some (item "A" (Some 2) 2)) as H1 by reflexivity.
  assert (todos cyclicStore !! 2 = Some (item "B" (Some 1) 3)) as H2 by reflexivity.
  assert (todos cyclicStore !! 3 = Some (item "C" None 1)) as H3 by reflexivity.
  assert (∀ n, ancestorWalk n (todos cyclicStore) 3 (Some (item "A" (Some 2) 2)) = Diverge
             ∧ ancestorWalk n (todos cyclicStore) 3 (Some (item "B" (Some 1) 3)) = Diverge)
    as Hwalk.
  { induction n as [|n [IHa IHb]]; [done|]. split.
    - cbn [ancestorWalk item parentId]. rewrite decide_False by done. by rewrite H2.
    - cbn [ancestorWalk item parentId]. rewrite decide_False by done. by rewrite H1. }
  apply (updateTodo_Diverge fuel 3 (reparent (Some 1)) cyclicStore
           (item "C" None 1) 1 (item "A" (Some 2) 2) H3 eq_refl); [done|exact H1|done|].
  apply Hwalk.
Qed.

(** ** The recursive query of deleteTodo *)

Section cte.
Context (d : gmap Z Todo).

Lemma elem_of_childrenOf (p x : Z) : x ∈ childrenOf d p ↔ parentOf d x = Some p.
Proof.
  unfold childrenOf, parentOf. rewrite merge_sort_Permutation, list_elem_of_fmap. split.
  - intros [[i t] [-> Hin]]. apply elem_of_map_to_list, map_lookup_filter_Some in Hin.
    destruct Hin as [Hi Hp]. simpl in *. by rewrite Hi.
  - destruct (d !! x) as [t|] eqn:Hx; [|done]. simpl. intros Hp.
    exists (x, t). split; [done|].
    apply elem_of_map_to_list, map_lookup_filter_Some. done.
Qed.

Lemma elem_of_children (work : list Z) (x : Z) :
  x ∈ work ≫= childrenOf d ↔ ∃ w, w ∈ work ∧ parentOf d x = Some w.
Proof.
  rewrite list_elem_of_bind. split.
  - intros (w & Hx & Hw). exists w. by rewrite <- elem_of_childrenOf.
  - intros (w & Hw & Hx). exists w. by rewrite elem_of_childrenOf.
Qed.

(** The rows of the query are the start rows and everything below them. *)
Lemma cteRows_elem (fuel : nat) (work rows : list Z) (x : Z) :
  cteRows fuel d work = Some rows →
  x ∈ rows ↔ ∃ k w, w ∈ work ∧ nthParent d k x = Some w.
Proof.
  revert work rows. induction fuel as [|fuel IH]; intros work rows H.
  - destruct work; [|done]. injection H as <-. split; [by intros ?%elem_of_nil|].
    by intros (? & ? & ?%elem_of_nil & _).
  - destruct work as [|w0 work'] eqn:Hwork.
    { injection H as <-. split; [by intros ?%elem_of_nil|].
      by intros (? & ? & ?%elem_of_nil & _). }
    rewrite <- Hwork in *.
    assert (∃ rest, cteRows fuel d (work ≫= childrenOf d) = Some rest
                    ∧ rows = work ++ rest) as (rest & Hrest & ->).
    { rewrite Hwork in H. cbn [cteRows] in H. rewrite <- Hwork in H.
      destruct (cteRows fuel d _) as [rest|]; [|done].
      injection H as <-. eauto. }
    clear Hwork.
    rewrite elem_of_app, (IH _ _ Hrest). split.
    + intros [Hx | (k & w' & Hw' & Hk)].
      * exists O, x. done.
      * apply elem_of_children in Hw' as (w & Hw & Hp).
        exists (S k), w. split; [done|]. by rewrite follow_S_r, Hk.
    + intros (k & w & Hw & Hk). destruct k as [|k].
      * injection Hk as ->. by left.
      * right. rewrite follow_S_r in Hk.
        destruct (nthParent d k x) as [w'|] eqn:Hk'; [|done]. simpl in Hk.
        exists k, w'. split; [|done]. apply elem_of_children. eauto.
Qed.

(** The query ends when nothing lies [n] levels below the start rows. *)
Lemma cteRows_ends (n fuel : nat) (work : list Z) :
  (∀ w x, w ∈ work → nthParent d n x ≠ Some w) →
  (n ≤ fuel)%nat →
  is_Some (cteRows fuel d work).
Proof.
  revert fuel work. induction n as [|n IH]; intros fuel work Hbelow Hfuel.
  - destruct work as [|w work]; [by destruct fuel|].
    destruct (Hbelow w w); [left|done].
  - destruct fuel as [|fuel]; [lia|].
    destruct work as [|w0 work'] eqn:Hwork; [done|]. rewrite <- Hwork in *.
    destruct (IH fuel (work ≫= childrenOf d)) as [rest Hrest]; [|lia|].
    + intros w' x (w & Hw & Hp)%elem_of_children Hx.
      apply (Hbelow w x Hw). by rewrite follow_S_r, Hx.
    + rewrite Hwork. cbn [cteRows]. rewrite <- Hwork, Hrest. done.
Qed.

Lemma cteRows_acyclic (fuel : nat) (tid : Z) :
  acyclic d → (size d < fuel)%nat → is_Some (cteRows fuel d [tid]).
Proof.
  intros Hd Hfuel. apply (cteRows_ends (S (size d))); [|lia].
  intros w x _. by rewrite acyclic_chain_ends.
Qed.

Lemma cteRows_descendants (fuel : nat) (tid : Z) (rows : list Z) (x : Z) :
  acyclic d →
  cteRows fuel d [tid] = Some rows →
  x ∈ filter (λ i, i ≠ tid) rows ↔ descendantOf d tid x.
Proof.
  intros Hd Hrows. rewrite list_elem_of_filter, (cteRows_elem _ _ _ _ Hrows).
  unfold descendantOf. split.
  - intros [Hne (k & w & ->%list_elem_of_singleton & Hk)].
    exists k. split; [|done]. destruct k; [|lia]. by injection Hk.
  - intros (k & Hk & Hx). split.
    + intros ->. by apply (acyclic_not_own_ancestor d k tid Hd Hk).
    + exists k, tid. split; [apply list_elem_of_singleton|]; done.
Qed.

End cte.

(** ** deleteTodo *)

Section deleteTodo.
Context (fuel : nat) (id : Z) (opts : option bool) (s : Store).

(** What a call does once the target is found and the query has ended. *)
Lemma deleteTodo_eval (t : Todo) (rows : list Z) :
  todos s !! id = Some t →
  cteRows fuel (todos s) [id] = Some rows →
  deleteTodo fuel id opts s =
    let desc := filter (λ i, i ≠ id) rows in
    if cascadeOf opts then
      (Ret (mkDeleteResult (id :: desc) true (listId t) []),
       setTodos (compactPositions (listId t) (deleteRows rows (todos s))) s)
    else
      (Ret (mkDeleteResult [id] false (listId t) desc),
       setTodos (compactPositions (listId t)
                   (deleteRows [id] (foldl (λ d did, liftRow did d) (todos s) desc))) s).
Proof.
  intros Ht Hrows.
  unfold deleteTodo, selectDescendants, compactPositionsTx, transaction, bind,
    selectTodo, gets, expect, runQuery, modifyTodos, ret.
  rewrite Ht. cbv beta iota. rewrite Hrows. cbv beta iota.
  destruct (cascadeOf opts); cbv beta iota; simpl; [by rewrite Hrows|done].
Qed.

Lemma deleteTodo_Ret (r : DeleteResult) (s' : Store) :
  deleteTodo fuel id opts s = (Ret r, s') →
  ∃ t rows, todos s !! id = Some t ∧ cteRows fuel (todos s) [id] = Some rows.
Proof.
  intros H. destruct (todos s !! id) as [t|] eqn:Ht.
  - destruct (cteRows fuel (todos s) [id]) as [rows|] eqn:Hrows; [eauto|].
    exfalso. revert H.
    unfold deleteTodo, selectDescendants, transaction, bind, selectTodo, gets, expect,
      runQuery, ret.
    rewrite Ht. cbv beta iota. by rewrite Hrows.
  - exfalso. revert H.
    unfold deleteTodo, transaction, bind, selectTodo, gets, expect, throw.
    by rewrite Ht.
Qed.

End deleteTodo.

Section lifting.

Lemma lift_lookup (desc : list Z) (d : gmap Z Todo) (x : Z) :
  foldl (λ d did, liftRow did d) d desc !! x
  = (if decide (x ∈ desc) then lifted else (λ t, t)) <$> d !! x.
Proof.
  revert d. induction desc as [|y desc IH]; intros d; simpl.
  - by destruct (d !! x).
  - rewrite IH. unfold liftRow. destruct (decide (y = x)) as [->|Hne].
    + rewrite lookup_alter_eq. rewrite (decide_True (P := x ∈ x :: desc)) by left.
      destruct (d !! x) as [t|]; [|done]. simpl. by destruct (decide (x ∈ desc)).
    + rewrite lookup_alter_ne by done.
      destruct (decide (x ∈ desc)) as [Hin|Hout].
      * by rewrite decide_True by by right.
      * rewrite decide_False; [done|]. intros [?|?]%elem_of_cons; congruence.
Qed.

Lemma deleteRows_lookup (ids : list Z) (d : gmap Z Todo) (x : Z) :
  deleteRows ids d !! x
  = if decide (x ∈ ids) then None
    else fkSetNull (filter (λ i, is_Some (d !! i)) ids) <$> d !! x.
Proof.
  unfold deleteRows. rewrite lookup_fmap, map_lookup_filter.
  destruct (d !! x) as [t|]; simpl; [|by destruct (decide (x ∈ ids))].
  destruct (decide (x ∈ ids)).
  - by rewrite option_guard_False by tauto.
  - by rewrite option_guard_True.
Qed.

Lemma fkSetNull_other (gone : list Z) (t : Todo) :
  (∀ p, parentId t = Some p → p ∉ gone) → fkSetNull gone t = t.
Proof.
  unfold fkSetNull. destruct (parentId t) as [p|]; [|done].
  intros H. by rewrite decide_False by by apply H.
Qed.

Lemma fkSetNull_otherColumns (gone : list Z) (t : Todo) :
  position (fkSetNull gone t) = position t ∧ listId (fkSetNull gone t) = listId t
  ∧ text (fkSetNull gone t) = text t ∧ completed (fkSetNull gone t) = completed t
  ∧ isEmpty (fkSetNull gone t) = isEmpty t ∧ isIndented (fkSetNull gone t) = isIndented t.
Proof. unfold fkSetNull. destruct (parentId t); [case_decide|]; done. Qed.

End lifting.

(** ** Concrete runs *)

Lemma updateTodo_no_field_noop_witness :
  noRecognizedField (onlyListId 2)
  ∧ todos threeItems !! 2 = Some (item "B" (Some 1) 2)
  ∧ updateTodo 4 2 (onlyListId 2) threeItems = (Ret (2, item "B" (Some 1) 2), threeItems).
Proof.
  split; [by repeat split|]. split; [reflexivity|].
  apply (updateTodo_no_field_noop 4 2 (onlyListId 2) threeItems (item "B" (Some 1) 2)).
  - by repeat split.
  - reflexivity.
  - apply (bool_decide_unpack _). vm_compute. exact I.
  - vm_compute. lia.
  - intros tp [= <-]. split; [discriminate|]. by exists (item "A" None 1).
Defined.

(** C7, as stated, fails: create A, B, C, put B under C, delete A. B is now
    first and indented, and [updateTodo] on B with an empty patch throws. *)
Lemma updateTodo_no_field_rejected :
  performAll 4 [CreateTodo (newItem "A"); CreateTodo (newItem "B");
                CreateTodo (newItem "C"); UpdateTodo 2 (reparent (Some 3));
                DeleteTodo 1 None] freshStore = Some firstIndented
  ∧ todos firstIndented !! 2 = Some (item "B" (Some 3) 1)
  ∧ noRecognizedField noFields
  ∧ updateTodo 4 2 noFields firstIndented = (Throw CannotIndentFirst, firstIndented).
Proof. split; [|split; [|split]]; try (vm_compute; reflexivity). by repeat split. Qed.



(** C2. The batch [{id: 2, position: 2, parentId: 1}, {id: 1, position: 3,
    parentId: null}] on the list A (position 1), B (position 2) passes the
    check of the route, which looks for an entry numbered 1, and the engine
    applies it: after the compaction B is first and has A as parent. *)
Theorem patchTodosPositions_indents_first :
  patchTodosPositions 4 [mkUpdate 2 2 (Some 1); mkUpdate 1 3 None] twoItems
  = (Ret (BulkDone 2 1), storeOf [(1, item "A" None 2); (2, item "B" (Some 1) 1)]).
Proof. vm_compute. reflexivity. Qed.

(** C1, as stated, fails: a supplied position is stored as it is, and no
    compaction follows a creation or an update. *)
Lemma createTodo_leaves_gap :
  ∃ s', createTodo (mkCreatePayload None (Some "x") false false None
                      (Some (JNumber (Num (Int 5))))) freshStore
        = (Ret (1, mkTodo "x" false false None false (Int 5) 1), s')
      ∧ positionsOf 1 (todos s') = [Int 5]
      ∧ ¬ contiguous 1 (todos s').
Proof.
  eexists. split; [vm_compute; reflexivity|]. split; [vm_compute; reflexivity|].
  apply (bool_decide_eq_false_1 _). vm_compute. reflexivity.
Qed.

(** ** Positions of a list as a function of its ids and positions *)

Section view.

Global Instance posKeyLe_total : Total posKeyLe.
Proof.
  intros a b. unfold posKeyLe.
  destruct (num_trichotomy a.2 b.2) as [?|[Heq|?]]; [tauto| |tauto].
  rewrite Heq. destruct (Z.le_ge_cases a.1 b.1); [left|right]; right; split; auto; lia.
Qed.

Global Instance posKeyLe_trans : Transitive posKeyLe.
Proof.
  intros a b c [Hab|[Hab Hab']] [Hbc|[Hbc Hbc']]; unfold posKeyLe.
  - left. eapply num_lt_trans; eassumption.
  - left. rewrite <- Hbc. assumption.
  - left. rewrite Hab. assumption.
  - right. split; [congruence | lia].
Qed.

Global Instance posKeyLe_antisym : AntiSymm (=) posKeyLe.
Proof.
  intros [i p] [j q] [Hab|[Hab Hab']] [Hba|[Hba Hba']]; simpl in *.
  - exfalso. eapply num_lt_asym; eassumption.
  - exfalso. subst. eapply num_lt_irrefl; eassumption.
  - exfalso. subst. eapply num_lt_irrefl; eassumption.
  - f_equal; [lia|done].
Qed.

Lemma lookup_listView (L : Z) (d : gmap Z Todo) (i : Z) (p : num) :
  listView L d !! i = Some p ↔ ∃ t, d !! i = Some t ∧ listId t = L ∧ position t = p.
Proof.
  unfold listView. rewrite lookup_omap_Some. unfold posIn. split.
  - intros (t & Hp & Ht). case_decide; [|done]. injection Hp as <-. eauto.
  - intros (t & Ht & HL & Hp). exists t. by rewrite decide_True, Hp.
Qed.

Lemma selectListOrdered_view (L : Z) (d : gmap Z Todo) :
  (λ r : TodoRow, (r.1, position r.2)) <$> selectListOrdered L d
  = merge_sort posKeyLe (map_to_list (listView L d)).
Proof.
  apply (StronglySorted_unique posKeyLe).
  - apply (StronglySorted_fmap _ keyLe); [by intros x y|].
    apply selectListOrdered_sorted.
  - apply StronglySorted_merge_sort; apply _.
  - apply NoDup_Permutation.
    + apply (NoDup_fmap_1 fst). rewrite <- list_fmap_compose.
      apply selectListOrdered_NoDup.
    + rewrite merge_sort_Permutation. apply NoDup_map_to_list.
    + intros [i p]. rewrite merge_sort_Permutation, elem_of_map_to_list, lookup_listView.
      rewrite list_elem_of_fmap. split.
      * intros ([j t] & [= -> ->] & [Hd HL]%elem_of_selectListOrdered). eauto.
      * intros (t & Hd & HL & <-). exists (i, t). split; [done|].
        by apply elem_of_selectListOrdered.
Qed.

Lemma positionsOf_view (L : Z) (d : gmap Z Todo) :
  positionsOf L d = sortedPositions (listView L d).
Proof.
  unfold positionsOf, sortedPositions. rewrite <- selectListOrdered_view.
  by rewrite <- list_fmap_compose.
Qed.

(** Two tables that agree on the ids and positions of a list have the same
    positions for it. *)
Lemma contiguous_view (L : Z) (d d' : gmap Z Todo) :
  listView L d' = listView L d → contiguous L d → contiguous L d'.
Proof. unfold contiguous. rewrite !positionsOf_view. by intros ->. Qed.

Lemma sortedPositions_insert (v : gmap Z num) (i : Z) (p : num) :
  v !! i = None →
  (∀ q, q ∈ sortedPositions v → num_lt q p) →
  sortedPositions (<[i:=p]> v) = sortedPositions v ++ [p].
Proof.
  intros Hi Hp. unfold sortedPositions.
  assert (merge_sort posKeyLe (map_to_list (<[i:=p]> v))
          = merge_sort posKeyLe (map_to_list v) ++ [(i, p)]) as ->.
  { apply (StronglySorted_unique posKeyLe).
    - apply StronglySorted_merge_sort; apply _.
    - apply StronglySorted_app. split; [|split].
      + intros x1 x2 Hx1 ->%list_elem_of_singleton. left. simpl.
        apply Hp. unfold sortedPositions. apply list_elem_of_fmap. by exists x1.
      + apply StronglySorted_merge_sort; apply _.
      + repeat constructor.
    - rewrite !merge_sort_Permutation, map_to_list_insert by done.
      apply Permutation_cons_append. }
  by rewrite fmap_app.
Qed.

Lemma num_max_Int (x y : Z) : num_max (Int x) (Int y) = Int (Z.max x y).
Proof.
  unfold num_max. case_decide as H; unfold num_le in H; simpl in H; f_equal; lia.
Qed.

Lemma foldr_num_max_below (x : Z) (l : list Z) :
  (∀ y, y ∈ l → y ≤ x) → foldr num_max (Int x) (Int <$> l) = Int x.
Proof.
  induction l as [|y l IH]; intros Hl; [done|]. rewrite fmap_cons. cbn [foldr].
  rewrite IH by (intros; apply Hl; by right).
  rewrite num_max_Int. f_equal. pose proof (Hl y ltac:(left)). lia.
Qed.

(** On a list whose positions are 1..N the maximum is N (0 when empty). *)
Lemma selectMaxPos_contiguous (L : Z) (d : gmap Z Todo) :
  contiguous L d → selectMaxPos L d = Int (Z.of_nat (length (positionsOf L d))).
Proof.
  unfold contiguous, selectMaxPos. generalize (length (positionsOf L d)) as n.
  intros n ->. destruct n as [|n]; [done|].
  rewrite seqZ_cons by lia. simpl fmap at 1. cbv iota.
  replace (Z.pred (Z.of_nat (S n))) with (Z.of_nat n) by lia.
  destruct n as [|n]; [done|].
  rewrite seqZ_S, fmap_app, foldr_app. simpl foldr at 2.
  rewrite num_max_Int, foldr_num_max_below.
  - f_equal. lia.
  - intros y Hy%elem_of_seqZ. lia.
Qed.

End view.

(** ** Preservation of the invariants I1 and I2 *)

Section frames.

Lemma listView_ext (L : Z) (d d' : gmap Z Todo) :
  (∀ i, d' !! i ≫= posIn L = d !! i ≫= posIn L) → listView L d' = listView L d.
Proof. intros H. apply map_eq. intros i. unfold listView. by rewrite !lookup_omap. Qed.

Lemma posIn_columns (L : Z) (t t' : Todo) :
  position t' = position t → listId t' = listId t → posIn L t' = posIn L t.
Proof. unfold posIn. by intros -> ->. Qed.

Lemma posIn_other (L : Z) (t : Todo) : listId t ≠ L → posIn L t = None.
Proof. unfold posIn. intros. by rewrite decide_False. Qed.

(** Invariant I2 after a change: the rows that stay keep their list, and
    every parent in the new table is present there and is either the parent
    that the row had or a row of the old table in the list of the row. *)
Lemma parentsInList_update (d d' : gmap Z Todo) :
  parentsInList d →
  (∀ i t t', d !! i = Some t → d' !! i = Some t' → listId t' = listId t) →
  (∀ i t' p, d' !! i = Some t' → parentId t' = Some p →
     is_Some (d' !! p)
     ∧ ((∃ t, d !! i = Some t ∧ parentId t = Some p)
        ∨ (∃ tp, d !! p = Some tp ∧ listId tp = listId t'))) →
  parentsInList d'.
Proof.
  intros Hd Hlist Hparent i t' Hi. destruct (parentId t') as [p|] eqn:Hp; [|done].
  destruct (Hparent i t' p Hi Hp) as [[tp' Htp'] Hold]. exists tp'. split; [done|].
  destruct Hold as [(t & Ht & Htp)|(tp & Htp & HL)].
  - pose proof (Hd i t Ht) as Hit. simpl in Hit. rewrite Htp in Hit.
    destruct Hit as (tp & Hp' & HL).
    rewrite (Hlist p tp tp'), (Hlist i t t') by done. done.
  - by rewrite (Hlist p tp tp').
Qed.

Lemma foldr_Zmax_ge (x : Z) (l : list Z) (k : Z) : k ∈ x :: l → k ≤ foldr Z.max x l.
Proof.
  induction l as [|y l IH]; simpl.
  - intros ->%list_elem_of_singleton. lia.
  - intros [->|[->|Hk]%elem_of_cons]%elem_of_cons.
    + etrans; [apply IH; left|]. lia.
    + lia.
    + etrans; [apply IH; by right|]. lia.
Qed.

(** The rowid of a new row is not in use. *)
Lemma nextRowid_fresh (d : gmap Z Todo) : d !! nextRowid d = None.
Proof.
  destruct (d !! nextRowid d) as [t|] eqn:Ht; [|done]. exfalso.
  assert (nextRowid d ∈ (map_to_list d).*1) as Hin.
  { apply list_elem_of_fmap. exists (nextRowid d, t). split; [done|].
    by apply elem_of_map_to_list. }
  unfold nextRowid in *. destruct ((map_to_list d).*1) as [|k ks]; [by apply elem_of_nil in Hin|].
  apply foldr_Zmax_ge in Hin. lia.
Qed.

End frames.

Section createTodo.
Context (payload : CreatePayload) (s s' : Store) (row : TodoRow).

Lemma createTodo_Ret :
  createTodo payload s = (Ret row, s') →
  row.1 = nextRowid (todos s)
  ∧ todos s' = <[row.1 := row.2]> (todos s)
  ∧ lists s' = lists s ∧ settings s' = settings s
  ∧ parentId row.2 = new_parentId payload
  ∧ position row.2
    = resolvePosition (toNumber (new_position payload))
        (selectMaxPos (listId row.2) (todos s))
  ∧ is_Some (lists s !! listId row.2)
  ∧ ∀ p, new_parentId payload = Some p →
      ∃ prow, todos s !! p = Some prow ∧ listId prow = listId row.2.
Proof.
  unfold createTodo. intros H. txn_inv.
  match goal with H : checkNewParent _ _ _ = _ |- _ =>
    apply checkNewParent_Ret in H as [-> Hp] end.
  simpl in H. rewrite lookup_insert_eq in H. txn_inv. simpl.
  repeat split; try done.
Qed.

End createTodo.

Lemma createTodo_consistent (payload : CreatePayload) (s s' : Store) (row : TodoRow) :
  consistent s →
  keepsOrder (CreateTodo payload) →
  createTodo payload s = (Ret row, s') →
  consistent s'.
Proof.
  intros [HI2 HI1] Hpos H.
  apply createTodo_Ret in H as (Hid & Hd & _ & _ & Hpid & Hp & _ & Hparent).
  destruct row as [id t]. simpl in *. subst id.
  pose proof (nextRowid_fresh (todos s)) as Hfresh.
  set (id := nextRowid (todos s)) in *.
  rewrite (resolvePosition_missing _ _ Hpos) in Hp.
  pose proof (HI1 (listId t)) as HL.
  rewrite (selectMaxPos_contiguous _ _ HL) in Hp. simpl in Hp.
  split.
  - rewrite Hd. apply (parentsInList_update (todos s)); [done| |].
    + intros i t0 t' Ht0. destruct (decide (id = i)) as [<-|Hne]; [congruence|].
      rewrite lookup_insert_ne by done. congruence.
    + intros i t' p Hi Hpar.
      assert (is_Some (todos s !! p) →
              is_Some (<[id:=t]> (todos s) !! p)) as Hsome.
      { intros Hs. rewrite lookup_insert_ne; [done|]. intros <-.
        rewrite Hfresh in Hs. by destruct Hs. }
      destruct (decide (id = i)) as [<-|Hne].
      * rewrite lookup_insert_eq in Hi. injection Hi as <-.
        rewrite Hpid in Hpar. destruct (Hparent p Hpar) as (prow & Hprow & HLp).
        split; [apply Hsome; eauto|]. right. eauto.
      * rewrite lookup_insert_ne in Hi by done. split; [|left; eauto].
        apply Hsome. pose proof (HI2 i t' Hi) as Hit. simpl in Hit.
        rewrite Hpar in Hit. destruct Hit as (tp & ? & _). eauto.
  - intros L. rewrite Hd. destruct (decide (listId t = L)) as [<-|Hne].
    + unfold contiguous in *. rewrite positionsOf_view in *.
      unfold listView in *. rewrite (omap_insert_Some _ _ _ _ (position t)).
      2:{ unfold posIn. by rewrite decide_True. }
      rewrite sortedPositions_insert.
      * rewrite length_app, HL, Hp. simpl.
        rewrite length_fmap, length_seqZ, Nat2Z.id.
        replace (length (sortedPositions (omap (posIn (listId t)) (todos s))) + 1)%nat
          with (S (length (sortedPositions (omap (posIn (listId t)) (todos s))))) by lia.
        rewrite seqZ_S, fmap_app. simpl. do 3 f_equal. lia.
      * by rewrite lookup_omap, Hfresh.
      * rewrite HL, Hp. intros q (k & -> & Hk%elem_of_seqZ)%list_elem_of_fmap.
        apply num_lt_Int. lia.
    + apply (contiguous_view L (todos s)); [|done].
      unfold listView. rewrite omap_insert_None by by apply posIn_other.
      apply delete_id. by rewrite lookup_omap, Hfresh.
Qed.

Lemma updateTodo_consistent (fuel : nat) (id : Z) (p : Patch) (s s' : Store) (row : TodoRow) :
  consistent s →
  keepsOrder (UpdateTodo id p) →
  updateTodo fuel id p s = (Ret row, s') →
  consistent s'.
Proof.
  intros [HI2 HI1] Hpos H.
  apply updateTodo_Ret in H as (t & Ht & _ & _ & _ & _ & [Hd|Hd] & Hvalid);
    unfold consistent; rewrite Hd; [done|].
  set (target := match p_parentId p with Some v => v | None => parentId t end) in *.
  split.
  - apply (parentsInList_update (todos s)); [done| |].
    + intros i t0 t' Ht0. destruct (decide (id = i)) as [<-|Hne].
      * rewrite lookup_alter_eq, Ht. intros [= <-]. rewrite patched_listId. congruence.
      * rewrite lookup_alter_ne by done. congruence.
    + intros i t' q Hi Hq.
      assert (∀ x, is_Some (todos s !! x) →
                   is_Some (alter (patched p target) id (todos s) !! x)) as Hsome.
      { intros x. rewrite lookup_alter. case_decide; [subst; rewrite fmap_is_Some|]; done. }
      destruct (decide (id = i)) as [<-|Hne].
      * rewrite lookup_alter_eq, Ht in Hi. injection Hi as <-.
        unfold target in Hq. rewrite patched_parentId in Hq.
        destruct (Hvalid q Hq) as (_ & pr & Hpr & HL).
        split; [apply Hsome; eauto|]. right. exists pr. by rewrite patched_listId.
      * rewrite lookup_alter_ne in Hi by done. split; [|left; eauto].
        apply Hsome. pose proof (HI2 i t' Hi) as Hit. simpl in Hit.
        rewrite Hq in Hit. destruct Hit as (tp & ? & _). eauto.
  - intros L. apply (contiguous_view L (todos s)); [|done].
    apply listView_ext. intros i. destruct (decide (id = i)) as [<-|Hne].
    + rewrite lookup_alter_eq, Ht. simpl.
      apply posIn_columns; [by apply patched_position | apply patched_listId].
    + by rewrite lookup_alter_ne.
Qed.

(** ** updateTodoPositions *)

Section proposed.

Lemma elem_of_mapSet (k : Z) (v : Z * option Z) (m : Proposed) (e : Z * (Z * option Z)) :
  e ∈ mapSet k v m → e = (k, v) ∨ e ∈ m.
Proof.
  induction m as [|[k' v'] m IH]; simpl.
  - intros ->%list_elem_of_singleton. by left.
  - case_decide.
    + intros [->|?]%elem_of_cons; [by left|]. right. by right.
    + intros [->|?]%elem_of_cons; [right; left|].
      destruct IH as [?|?]; [done|by left|]. right. by right.
Qed.

Lemma elem_of_proposedOf (rows : list Update) (acc : Proposed) (e : Z * (Z * option Z)) :
  e ∈ proposedOf rows acc → e ∈ acc ∨ ∃ r, r ∈ rows ∧ e = entryOf r.
Proof.
  revert acc. induction rows as [|r rows IH]; intros acc; simpl; [by left|].
  intros [[->|?]%elem_of_mapSet|(r' & ? & ?)]%IH.
  - right. exists r. split; [left|done].
  - by left.
  - right. exists r'. split; [by right|done].
Qed.

Lemma mapSet_fresh (k : Z) (v : Z * option Z) (m : Proposed) :
  k ∉ m.*1 → mapSet k v m = m ++ [(k, v)].
Proof.
  induction m as [|[k' v'] m IH]; [done|]. simpl.
  intros [Hne Hk]%not_elem_of_cons. rewrite decide_False by done. by rewrite IH.
Qed.

(** A batch without duplicate ids is stored entry by entry, in order. *)
Lemma proposedOf_NoDup (rows : list Update) (acc : Proposed) :
  NoDup (acc.*1 ++ (upd_id <$> rows)) →
  proposedOf rows acc = acc ++ (entryOf <$> rows).
Proof.
  revert acc. induction rows as [|r rows IH]; intros acc Hnd; simpl.
  - by rewrite app_nil_r.
  - rewrite mapSet_fresh.
    + rewrite IH; [by rewrite <- app_assoc|].
      rewrite fmap_app. simpl. rewrite <- app_assoc. done.
    + apply NoDup_app in Hnd as (_ & Hnd & _). intros Hin. apply (Hnd _ Hin). left.
Qed.

Lemma mapGet_Some (k : Z) (m : Proposed) (v : Z * option Z) :
  mapGet k m = Some v → (k, v) ∈ m.
Proof.
  induction m as [|[k' v'] m IH]; [done|]. simpl. case_decide.
  - intros [= ->]. subst. left.
  - intros ?. right. auto.
Qed.

Lemma mapGet_None (k : Z) (m : Proposed) : mapGet k m = None ↔ k ∉ m.*1.
Proof.
  induction m as [|[k' v'] m IH]; simpl.
  - split; [intros _ ?%elem_of_nil|]; done.
  - rewrite not_elem_of_cons. case_decide as Hk.
    + split; [done|]. by intros [? _].
    + rewrite IH. split; [by split; [congruence|]|by intros [_ ?]].
Qed.

Lemma mapGet_NoDup (k : Z) (v : Z * option Z) (m : Proposed) :
  NoDup m.*1 → (k, v) ∈ m → mapGet k m = Some v.
Proof.
  induction m as [|[k' v'] m IH]; [by intros _ ?%elem_of_nil|]. simpl.
  intros [Hk Hnd]%NoDup_cons [[= -> ->]|Hin]%elem_of_cons.
  - by rewrite decide_True.
  - rewrite decide_False; [auto|]. intros ->. apply Hk.
    apply list_elem_of_fmap. by exists (k, v).
Qed.

End proposed.

Section buildProposed.
Context (L : Z) (s : Store).

Lemma buildProposed_ok (rows : list Update) (acc : Proposed) :
  Forall (entryOk (todos s) L) rows →
  buildProposed L rows acc s = (Ret (proposedOf rows acc), s).
Proof.
  revert acc. induction rows as [|r rows IH]; intros acc Hrows; [done|].
  apply Forall_cons in Hrows as [[(t & Ht & HL) Hself] Hrows].
  simpl. unfold bind, selectTodo, gets, expect, guard, ret. rewrite Ht.
  rewrite (bool_decide_eq_false_2 (listId t ≠ L)) by tauto.
  rewrite (bool_decide_eq_false_2 (upd_parentId r = _)) by done.
  by apply IH.
Qed.

Lemma buildProposed_fail (rows : list Update) (acc : Proposed) :
  Exists (λ r, ¬ entryOk (todos s) L r) rows →
  ∃ e, buildProposed L rows acc s = (Throw e, s).
Proof.
  revert acc. induction rows as [|r rows IH]; intros acc Hrows; [by apply Exists_nil in Hrows|].
  simpl. unfold bind, selectTodo, gets, expect, guard, ret, throw.
  destruct (todos s !! upd_id r) as [t|] eqn:Ht; [|eauto].
  case_bool_decide as HL; [eauto|].
  case_bool_decide as Hself; [eauto|].
  apply Exists_cons in Hrows as [Hr|Hrows]; [|by apply IH].
  destruct Hr. split; [|done]. exists t. split; [done|]. by destruct (decide (listId t = L)).
Qed.

Lemma buildProposed_Ret (rows : list Update) (acc proposed : Proposed) (s' : Store) :
  buildProposed L rows acc s = (Ret proposed, s') →
  s' = s ∧ proposed = proposedOf rows acc ∧ Forall (entryOk (todos s) L) rows.
Proof.
  intros H. destruct (decide (Forall (entryOk (todos s) L) rows)) as [Hok|Hbad].
  - rewrite (buildProposed_ok rows acc Hok) in H. by injection H as <- <-.
  - apply not_Forall_Exists in Hbad; [|apply _].
    destruct (buildProposed_fail rows acc Hbad) as [e He]. congruence.
Qed.

End buildProposed.

(** ** The cycle check of updateTodoPositions *)

Section cycleCheck.
Context (g : Z → option Z).

(** A chain that leads into a cycle never ends. *)
Lemma cycleFrom_endless (x : Z) (k : nat) : cycleFrom g x → follow g k x ≠ None.
Proof.
  intros (n & m & c & Hm & Hn & Hc) Hk.
  destruct (decide (k ≤ n)%nat) as [Hle|Hgt].
  - by rewrite (follow_None_le g k n x Hk Hle) in Hn.
  - replace k with (n + (k - n))%nat in Hk by lia.
    rewrite follow_add, Hn in Hk. simpl in Hk.
    by apply (follow_periodic g m c Hm Hc (k - n)).
Qed.

Lemma cycleCheck_error (fuel : nat) (seen : list Z) (cur : option Z) (e : Error) :
  cycleCheck fuel g seen cur = Throw e → e = ParentCycle.
Proof.
  revert seen cur. induction fuel as [|fuel IH]; intros seen [c|]; simpl; try done;
    case_decide; try done; try by intros [= <-]. apply IH.
Qed.

(** When the check throws, every item seen so far leads to an item that
    comes back to itself. *)
Lemma cycleCheck_Throw (fuel : nat) (seen : list Z) (cur : option Z) (e : Error) :
  (∀ x, x ∈ seen → ∃ k, (0 < k)%nat ∧ follow g k x = cur) →
  cycleCheck fuel g seen cur = Throw e →
  ∃ c m, (0 < m)%nat ∧ follow g m c = Some c
         ∧ ∀ x, x ∈ seen → ∃ k, follow g k x = Some c.
Proof.
  revert seen cur. induction fuel as [|fuel IH]; intros seen [c|] Hseen; simpl; try done.
  - case_decide as Hc; [|done]. intros _.
    destruct (Hseen c Hc) as (m & Hm & Hcc). exists c, m. split; [done|]. split; [done|].
    intros x Hx. destruct (Hseen x Hx) as (k & _ & Hk). eauto.
  - case_decide as Hc.
    + intros _. destruct (Hseen c Hc) as (m & Hm & Hcc). exists c, m.
      split; [done|]. split; [done|].
      intros x Hx. destruct (Hseen x Hx) as (k & _ & Hk). eauto.
    + intros H. apply IH in H as (c' & m & Hm & Hc' & Hall).
      * exists c', m. split; [done|]. split; [done|]. intros x Hx. apply Hall. by right.
      * intros x [->|Hx]%elem_of_cons.
        -- exists 1%nat. split; [lia|]. apply follow_1.
        -- destruct (Hseen x Hx) as (k & Hk & Hkx). exists (S k). split; [lia|].
           by rewrite follow_S_r, Hkx.
Qed.

(** When the check returns, the chain of every item seen so far ends. *)
Lemma cycleCheck_Ret (fuel : nat) (seen : list Z) (cur : option Z) :
  (∀ x, x ∈ seen → ∃ k, (0 < k)%nat ∧ follow g k x = cur) →
  cycleCheck fuel g seen cur = Ret tt →
  ∀ x, x ∈ seen → ∃ k, follow g k x = None.
Proof.
  revert seen cur. induction fuel as [|fuel IH]; intros seen [c|] Hseen; simpl; try done.
  - by case_decide.
  - intros _ x Hx. destruct (Hseen x Hx) as (k & _ & Hk). eauto.
  - case_decide as Hc; [done|]. intros H x Hx.
    apply (IH (c :: seen) (g c)); [|done|by right].
    intros y [->|Hy]%elem_of_cons.
    + exists 1%nat. split; [lia|]. apply follow_1.
    + destruct (Hseen y Hy) as (k & Hk & Hky). exists (S k). split; [lia|].
      by rewrite follow_S_r, Hky.
  - intros _ x Hx. destruct (Hseen x Hx) as (k & _ & Hk). eauto.
Qed.

(** The check ends: the items seen are distinct items that have a parent,
    and there are only so many. *)
Lemma cycleCheck_ends (dom : list Z) (fuel : nat) (seen : list Z) (cur : option Z) :
  (∀ x y, g x = Some y → x ∈ dom) →
  NoDup seen →
  (∀ x, x ∈ seen → x ∈ dom) →
  (length dom < fuel + length seen)%nat →
  cycleCheck fuel g seen cur ≠ Diverge.
Proof.
  intros Hdom. revert seen cur.
  induction fuel as [|fuel IH]; intros seen [c|] Hnd Hseen Hlen; simpl; try done.
  - case_decide; [done|]. exfalso.
    assert (length seen ≤ length dom)%nat; [|lia].
    by apply submseteq_length, NoDup_submseteq.
  - case_decide as Hc; [done|].
    destruct (g c) as [c'|] eqn:Hgc; [|by destruct fuel].
    apply IH.
    + by apply NoDup_cons.
    + intros x [->|Hx]%elem_of_cons; [by eapply Hdom|by apply Hseen].
    + simpl. lia.
Qed.

End cycleCheck.

Lemma follow_ext (g g' : Z → option Z) (n : nat) (x : Z) :
  (∀ y, g y = g' y) → follow g n x = follow g' n x.
Proof.
  intros Hg. revert x. induction n as [|n IH]; intros x; [done|].
  simpl. rewrite Hg. destruct (g' x); [apply IH|done].
Qed.

Lemma cycleFrom_ext (g g' : Z → option Z) (x : Z) :
  (∀ y, g y = g' y) → cycleFrom g x → cycleFrom g' x.
Proof.
  intros Hg (n & m & c & Hm & Hn & Hc). exists n, m, c.
  by rewrite <- !(follow_ext g g' _ _ Hg).
Qed.

Section validateProposed.
Context (fuel : nat) (L : Z) (d : gmap Z Todo) (proposed : Proposed).

Lemma validateProposed_Ret (entries : Proposed) :
  validateProposed fuel L d proposed entries = Ret tt →
  Forall (λ e, parentOk d L e ∧ entryCheck fuel d proposed e = Ret tt) entries.
Proof.
  induction entries as [|[id [pos pid]] entries IH]; [constructor|]. simpl.
  destruct pid as [p|].
  - destruct (d !! p) as [meta|] eqn:Hp; [|done].
    case_bool_decide as HL; [done|].
    destruct (cycleCheck _ _ _ _) as [[]| |] eqn:Hc; try done.
    intros H. constructor; [|by apply IH]. split; [|done].
    intros ? [= <-]. exists meta. split; [done|]. by destruct (decide (listId meta = L)).
  - intros H. constructor; [|by apply IH]. split; [|done]. by intros ? [=].
Qed.

Lemma validateProposed_Throw (entries : Proposed) (err : Error) :
  validateProposed fuel L d proposed entries = Throw err →
  Exists (λ e, ¬ parentOk d L e ∨ entryCheck fuel d proposed e = Throw ParentCycle) entries.
Proof.
  induction entries as [|[id [pos pid]] entries IH]; [done|]. simpl.
  destruct pid as [p|]; [|intros ?; by apply Exists_cons_tl, IH].
  destruct (d !! p) as [meta|] eqn:Hp.
  - case_bool_decide as HL.
    + intros _. apply Exists_cons_hd. left. intros Hok.
      destruct (Hok p eq_refl) as (meta' & Hmeta & HL'). simpl in *. congruence.
    + destruct (cycleCheck _ _ _ _) as [[]|e|] eqn:Hc; try done.
      * intros ?. by apply Exists_cons_tl, IH.
      * intros _. apply Exists_cons_hd. right. unfold entryCheck. simpl.
        by rewrite Hc, (cycleCheck_error _ _ _ _ _ Hc).
  - intros _. apply Exists_cons_hd. left. intros Hok.
    destruct (Hok p eq_refl) as (meta' & Hmeta & _). simpl in *. congruence.
Qed.

Lemma validateProposed_Diverge (entries : Proposed) :
  validateProposed fuel L d proposed entries = Diverge →
  Exists (λ e, entryCheck fuel d proposed e = Diverge) entries.
Proof.
  induction entries as [|[id [pos pid]] entries IH]; [done|]. simpl.
  destruct pid as [p|]; [|intros ?; by apply Exists_cons_tl, IH].
  destruct (d !! p) as [meta|] eqn:Hp; [|done].
  case_bool_decide as HL; [done|].
  destruct (cycleCheck _ _ _ _) as [[]|e|] eqn:Hc; try done.
  - intros ?. by apply Exists_cons_tl, IH.
  - intros _. apply Exists_cons_hd. unfold entryCheck. simpl. by rewrite Hc.
Qed.

End validateProposed.

Section applyProposed.

Lemma placed_placed (pos pos' : Z) (pid pid' : option Z) (t : Todo) :
  placed pos pid (placed pos' pid' t) = placed pos pid t.
Proof. done. Qed.

Lemma applyProposed_snoc (proposed : Proposed) (e : Z * (Z * option Z)) (d : gmap Z Todo) :
  applyProposed (proposed ++ [e]) d
  = updatePlacement e.2.1 e.2.2 e.1 (applyProposed proposed d).
Proof. unfold applyProposed. by rewrite foldl_app. Qed.

(** After the loop of UPDATEs a row is as it was, or it has the position and
    the parent of one of the entries for its id. *)
Lemma applyProposed_lookup (proposed : Proposed) (d : gmap Z Todo) (i : Z) :
  ((i ∉ proposed.*1) ∧ applyProposed proposed d !! i = d !! i)
  ∨ ∃ pos pid, (i, (pos, pid)) ∈ proposed
               ∧ applyProposed proposed d !! i = placed pos pid <$> d !! i.
Proof.
  induction proposed as [|[k [pos pid]] proposed IH] using rev_ind.
  - left. split; [by intros ?%elem_of_nil|done].
  - rewrite applyProposed_snoc. simpl. unfold updatePlacement.
    destruct (decide (k = i)) as [->|Hne].
    + right. exists pos, pid. split; [apply elem_of_app; right; left|].
      rewrite lookup_alter_eq.
      destruct IH as [[_ ->]|(pos' & pid' & _ & ->)]; [done|].
      by destruct (d !! i).
    + rewrite lookup_alter_ne by done.
      destruct IH as [[Hi ->]|(pos' & pid' & Hin & ->)].
      * left. split; [|done]. rewrite fmap_app. simpl.
        intros [?|?%list_elem_of_singleton]%elem_of_app; done.
      * right. exists pos', pid'. split; [apply elem_of_app; by left|done].
Qed.

End applyProposed.

Section updateTodoPositions.
Context (fuel : nat) (updates : list Update) (s : Store).

(** What a call on a batch that is not empty has done when it returns. *)
Lemma updateTodoPositions_Ret (r : BulkResult) (s' : Store) :
  updates ≠ [] →
  updateTodoPositions fuel updates s = (Ret r, s') →
  ∃ r0 t0,
    head updates = Some r0 ∧ todos s !! upd_id r0 = Some t0
    ∧ Forall (entryOk (todos s) (listId t0)) updates
    ∧ validateProposed fuel (listId t0) (todos s) (proposedOf updates [])
        (proposedOf updates []) = Ret tt
    ∧ r = BulkDone (length updates) (listId t0)
    ∧ s' = setTodos (compactPositions (listId t0)
                       (applyProposed (proposedOf updates []) (todos s))) s.
Proof.
  intros Hne H. unfold updateTodoPositions in H.
  destruct updates as [|r0 rest]; [done|].
  txn_inv. rename a0 into t0.
  match goal with H : buildProposed _ _ _ _ = _ |- _ =>
    apply buildProposed_Ret in H as (-> & -> & Hok) end.
  unfold compactPositionsTx in *. txn_inv. destruct a3.
  exists r0, t0. repeat split; try done.
Qed.

End updateTodoPositions.

Section compaction_frames.
Context (L : Z) (d : gmap Z Todo).

Lemma compactPositions_row (i : Z) (t' : Todo) :
  compactPositions L d !! i = Some t' →
  ∃ t, d !! i = Some t ∧ otherColumns t' = otherColumns t.
Proof.
  intros Hi. pose proof (otherColumns_lookup _ _ i (compactPositions_otherColumns L d)) as H.
  rewrite Hi in H. destruct (d !! i) as [t|]; [|done]. exists t. split; [done|].
  simpl in H. congruence.
Qed.

Lemma compactPositions_dom (i : Z) :
  is_Some (d !! i) → is_Some (compactPositions L d !! i).
Proof.
  intros Hi. rewrite <- (fmap_is_Some otherColumns).
  rewrite (otherColumns_lookup _ _ i (compactPositions_otherColumns L d)).
  by rewrite fmap_is_Some.
Qed.

Lemma compactPositions_parentsInList :
  parentsInList d → parentsInList (compactPositions L d).
Proof.
  intros Hd. apply (parentsInList_update d); [done| |].
  - intros i t t' Ht Ht'. apply compactPositions_row in Ht' as (t0 & Ht0 & Hcols).
    rewrite Ht in Ht0. injection Ht0 as <-. by apply otherColumns_listId.
  - intros i t' p Ht' Hp. apply compactPositions_row in Ht' as (t & Ht & Hcols).
    assert (parentId t = Some p) as Htp.
    { rewrite <- Hp. unfold otherColumns, setPosition in Hcols. by injection Hcols. }
    split; [|left; eauto]. apply compactPositions_dom.
    pose proof (Hd i t Ht) as Hit. simpl in Hit. rewrite Htp in Hit.
    destruct Hit as (tp & ? & _). eauto.
Qed.

Lemma listView_compactPositions_other (L' : Z) :
  L' ≠ L → listView L' (compactPositions L d) = listView L' d.
Proof.
  intros Hne. apply listView_ext. intros i.
  destruct (d !! i) as [t|] eqn:Ht.
  - destruct (decide (listId t = L)) as [HL|HL].
    + destruct (compactPositions_dom i) as [t' Ht']; [by rewrite Ht|].
      rewrite Ht'. simpl. apply compactPositions_row in Ht' as (t0 & Ht0 & Hcols).
      rewrite Ht in Ht0. injection Ht0 as <-. apply otherColumns_listId in Hcols.
      rewrite !posIn_other by congruence. done.
    + rewrite compactPositions_lookup_other; [by rewrite Ht|].
      intros t0. rewrite Ht. by intros [= <-].
  - rewrite compactPositions_lookup_other; [by rewrite Ht|].
    intros t0. by rewrite Ht.
Qed.

End compaction_frames.

Lemma updateTodoPositions_consistent (fuel : nat) (updates : list Update) (s s' : Store)
    (r : BulkResult) :
  consistent s →
  updateTodoPositions fuel updates s = (Ret r, s') →
  consistent s'.
Proof.
  intros [HI2 HI1] H. destruct (decide (updates = [])) as [->|Hne].
  { simpl in H. apply ret_Ret in H as [_ ->]. done. }
  apply updateTodoPositions_Ret in H as (r0 & t0 & _ & _ & Hok & Hvalid & _ & ->); [|done].
  set (L := listId t0) in *. set (proposed := proposedOf updates []) in *.
  apply validateProposed_Ret in Hvalid.
  assert (∀ i pos pid, (i, (pos, pid)) ∈ proposed →
            (∃ t, todos s !! i = Some t ∧ listId t = L)
            ∧ ∀ p, pid = Some p → ∃ meta, todos s !! p = Some meta ∧ listId meta = L)
    as Hentries.
  { intros i pos pid Hin. split.
    - apply elem_of_proposedOf in Hin as [?%elem_of_nil|(r' & Hr' & Heq)]; [done|].
      rewrite Forall_forall in Hok. destruct (Hok r' Hr') as [Hex _].
      injection Heq as -> _ _. done.
    - rewrite Forall_forall in Hvalid. destruct (Hvalid _ Hin) as [Hp _]. exact Hp. }
  assert (∀ i, is_Some (todos s !! i) → is_Some (applyProposed proposed (todos s) !! i))
    as Hdom.
  { intros i Hi. destruct (applyProposed_lookup proposed (todos s) i)
      as [[_ ->]|(pos & pid & _ & ->)]; [done|]. by rewrite fmap_is_Some. }
  unfold consistent. simpl. split.
  - apply compactPositions_parentsInList.
    apply (parentsInList_update (todos s)); [done| |].
    + intros i t t' Ht. destruct (applyProposed_lookup proposed (todos s) i)
        as [[_ ->]|(pos & pid & _ & ->)]; rewrite Ht; [congruence|]. by intros [= <-].
    + intros i t' p. destruct (applyProposed_lookup proposed (todos s) i)
        as [[_ ->]|(pos & pid & Hin & ->)].
      * intros Ht' Hp. split; [|left; eauto]. apply Hdom.
        pose proof (HI2 i t' Ht') as Hit. simpl in Hit. rewrite Hp in Hit.
        destruct Hit as (tp & ? & _). eauto.
      * destruct (Hentries i pos pid Hin) as [(t & Ht & HL) Hparent].
        rewrite Ht. intros [= <-] Hp. simpl in Hp. subst pid.
        destruct (Hparent p eq_refl) as (meta & Hmeta & HLm).
        split; [apply Hdom; eauto|]. right. exists meta. split; [done|].
        simpl. congruence.
  - intros L'. destruct (decide (L' = L)) as [->|HL'].
    + apply contiguous_compactPositions.
    + apply (contiguous_view L' (todos s)); [|done].
      rewrite listView_compactPositions_other by done.
      apply listView_ext. intros i.
      destruct (applyProposed_lookup proposed (todos s) i)
        as [[_ ->]|(pos & pid & Hin & ->)]; [done|].
      destruct (Hentries i pos pid Hin) as [(t & Ht & HL) _]. rewrite Ht. simpl.
      rewrite !posIn_other; [done|congruence|simpl; congruence].
Qed.

Lemma patchTodosPositions_Ret (fuel : nat) (body : list Update) (s s' : Store)
    (r : BulkResult) :
  patchTodosPositions fuel body s = (Ret r, s') →
  body ≠ [] ∧ shallowCheck body [] [] = None
  ∧ (∀ top, findTop body = Some top → upd_parentId top = None)
  ∧ updateTodoPositions fuel body s = (Ret r, s').
Proof.
  unfold patchTodosPositions. destruct body as [|r0 rest] eqn:Hbody; [done|].
  rewrite <- Hbody. destruct (shallowCheck body [] []) as [e|]; [done|].
  destruct (findTop body) as [top|].
  - case_bool_decide as Htop; [done|]. intros H. repeat split; try done; [congruence|].
    intros ? [= <-]. by destruct (upd_parentId top).
  - intros H. repeat split; try done. congruence.
Qed.

Section delete_frames.
Context (d : gmap Z Todo).

Lemma deleteRows_row (ids : list Z) (i : Z) (t' : Todo) :
  deleteRows ids d !! i = Some t' →
  (i ∉ ids)
  ∧ ∃ t, d !! i = Some t
         ∧ t' = fkSetNull (filter (λ i, is_Some (d !! i)) ids) t.
Proof.
  rewrite deleteRows_lookup. case_decide; [done|].
  destruct (d !! i) as [t|]; [|done]. intros [= <-]. eauto.
Qed.

Lemma fkSetNull_parent (gone : list Z) (t : Todo) (p : Z) :
  parentId (fkSetNull gone t) = Some p → parentId t = Some p ∧ p ∉ gone.
Proof.
  unfold fkSetNull. destruct (parentId t) as [q|] eqn:Hq; [|by rewrite Hq].
  case_decide; [done|]. rewrite Hq. by intros [= <-].
Qed.

Lemma deleteRows_parentsInList (ids : list Z) :
  parentsInList d → parentsInList (deleteRows ids d).
Proof.
  intros Hd. apply (parentsInList_update d); [done| |].
  - intros i t t' Ht (_ & t0 & Ht0 & ->)%deleteRows_row.
    rewrite Ht in Ht0. injection Ht0 as <-. apply fkSetNull_otherColumns.
  - intros i t' p (Hi & t & Ht & ->)%deleteRows_row [Hp Hgone]%fkSetNull_parent.
    split; [|left; eauto].
    pose proof (Hd i t Ht) as Hit. simpl in Hit. rewrite Hp in Hit.
    destruct Hit as (tp & Htp & _).
    rewrite deleteRows_lookup, Htp. rewrite decide_False; [done|].
    intros Hin. apply Hgone, list_elem_of_filter. by rewrite Htp.
Qed.

Lemma listView_deleteRows (L' : Z) (ids : list Z) :
  (∀ i t, i ∈ ids → d !! i = Some t → listId t ≠ L') →
  listView L' (deleteRows ids d) = listView L' d.
Proof.
  intros Hids. apply listView_ext. intros i. rewrite deleteRows_lookup.
  destruct (d !! i) as [t|] eqn:Ht; [|by case_decide].
  case_decide as Hi; simpl.
  - by rewrite posIn_other by by eapply Hids.
  - apply posIn_columns; apply fkSetNull_otherColumns.
Qed.

Lemma lift_parentsInList (desc : list Z) :
  parentsInList d → parentsInList (foldl (λ d did, liftRow did d) d desc).
Proof.
  intros Hd. apply (parentsInList_update d); [done| |].
  - intros i t t' Ht. rewrite lift_lookup, Ht. simpl. intros [= <-].
    by destruct (decide (i ∈ desc)).
  - intros i t' p. rewrite lift_lookup.
    destruct (d !! i) as [t|] eqn:Ht; [|done]. simpl. intros [= <-].
    destruct (decide (i ∈ desc)); [done|]. intros Hp. split; [|left; eauto].
    pose proof (Hd i t Ht) as Hit. simpl in Hit. rewrite Hp in Hit.
    destruct Hit as (tp & Htp & _). by rewrite lift_lookup, Htp.
Qed.

Lemma listView_lift (L' : Z) (desc : list Z) :
  listView L' (foldl (λ d did, liftRow did d) d desc) = listView L' d.
Proof.
  apply listView_ext. intros i. rewrite lift_lookup.
  destruct (d !! i) as [t|]; [|done]. simpl. by destruct (decide (i ∈ desc)).
Qed.

(** Under I2 everything below an item is in the list of the item. *)
Lemma below_same_list (tid : Z) (t : Todo) (k : nat) (x : Z) :
  parentsInList d → d !! tid = Some t → nthParent d k x = Some tid →
  ∃ tx, d !! x = Some tx ∧ listId tx = listId t.
Proof.
  intros Hd Ht. revert x. induction k as [|k IH]; intros x.
  - intros [= ->]. eauto.
  - rewrite nthParent_S. destruct (parentOf d x) as [p|] eqn:Hpx; [|done]. simpl.
    intros Hk. unfold parentOf in Hpx.
    destruct (d !! x) as [tx|] eqn:Hx; [|done]. simpl in Hpx. rename Hpx into Hp.
    destruct (IH p Hk) as (tp & Htp & HL). exists tx. split; [done|].
    pose proof (Hd x tx Hx) as Hit. simpl in Hit. rewrite Hp in Hit.
    destruct Hit as (tp' & Htp' & HL'). congruence.
Qed.

End delete_frames.

Lemma deleteTodo_consistent (fuel : nat) (id : Z) (opts : option bool) (s s' : Store)
    (r : DeleteResult) :
  consistent s →
  deleteTodo fuel id opts s = (Ret r, s') →
  consistent s'.
Proof.
  intros [HI2 HI1] H.
  destruct (deleteTodo_Ret fuel id opts s r s' H) as (t & rows & Ht & Hrows).
  rewrite (deleteTodo_eval fuel id opts s t rows Ht Hrows) in H. simpl in H.
  set (L := listId t) in *.
  destruct (cascadeOf opts); injection H as _ <-; unfold consistent; simpl; split.
  - by apply compactPositions_parentsInList, deleteRows_parentsInList.
  - intros L'. destruct (decide (L' = L)) as [->|HL']; [apply contiguous_compactPositions|].
    apply (contiguous_view L' (todos s)); [|done].
    rewrite listView_compactPositions_other by done.
    apply listView_deleteRows. intros i ti Hi Hti.
    apply (cteRows_elem _ _ _ _ i Hrows) in Hi as (k & w & ->%list_elem_of_singleton & Hk).
    destruct (below_same_list (todos s) id t k i HI2 Ht Hk) as (tx & Htx & HL).
    fold L in HL. congruence.
  - by apply compactPositions_parentsInList, deleteRows_parentsInList, lift_parentsInList.
  - intros L'. destruct (decide (L' = L)) as [->|HL']; [apply contiguous_compactPositions|].
    apply (contiguous_view L' (todos s)); [|done].
    rewrite listView_compactPositions_other by done.
    rewrite listView_deleteRows; [apply listView_lift|].
    intros i ti ->%list_elem_of_singleton. rewrite lift_lookup, Ht. simpl.
    intros [= <-]. fold L. by destruct (decide (id ∈ _)).
Qed.

(** Every call that keeps the order and returns takes a consistent store to
    a consistent store. *)
Lemma perform_consistent (fuel : nat) (op : Operation) (s s' : Store) (r : Response) :
  consistent s →
  keepsOrder op →
  perform fuel op s = (Ret r, s') →
  consistent s'.
Proof.
  intros Hs Hop H. destruct op as [payload|id p|updates|body|id opts|id]; simpl in H;
    txn_inv; [| | | | |done].
  - by eapply createTodo_consistent.
  - by eapply updateTodo_consistent.
  - by eapply updateTodoPositions_consistent.
  - match goal with H : patchTodosPositions _ _ _ = _ |- _ =>
      apply patchTodosPositions_Ret in H as (_ & _ & _ & H) end.
    by eapply updateTodoPositions_consistent.
  - by eapply deleteTodo_consistent.
Qed.

(** C1, amended. From a store in which the positions of every list are
    1..N and every parent is in the list of its child, any sequence of
    successful createTodo calls that leave the position to the engine
    (absent, NaN, zero or negative), updateTodo calls that set no position,
    updateTodoPositions calls (direct or through the route) and deleteTodo
    calls leads to a store in which the positions of every list are again
    exactly 1, 2, ..., N. *)
Theorem positions_contiguous (fuel : nat) (ops : list Operation) (s s' : Store) :
  consistent s →
  Forall keepsOrder ops →
  performAll fuel ops s = Some s' →
  ∀ L, contiguous L (todos s').
Proof.
  intros Hs Hops H. cut (consistent s'); [by intros [_ ?]|].
  revert s Hs H. induction Hops as [|op ops Hop Hops IH]; intros s Hs H; simpl in H.
  - by injection H as <-.
  - destruct (perform fuel op s) as [[r| |] s1] eqn:Hop1; try done.
    apply (IH s1); [|done]. by eapply perform_consistent.
Qed.

(** ** The route PATCH /api/todos/positions *)

Section route.

Lemma shallowCheck_None (body : list Update) (ids positions : list Z) :
  shallowCheck body ids positions = None ↔
  NoDup (upd_id <$> body) ∧ (∀ r, r ∈ body → upd_id r ∉ ids)
  ∧ NoDup (upd_position <$> body) ∧ (∀ r, r ∈ body → upd_position r ∉ positions).
Proof.
  revert ids positions. induction body as [|row rest IH]; intros ids positions;
    cbn [shallowCheck].
  - split; [|done]. intros _. repeat split; try constructor; by intros ? ?%elem_of_nil.
  - rewrite !fmap_cons, !NoDup_cons. repeat case_decide.
    + split; [done|]. intros (_ & Hi & _). destruct (Hi row); [left|done].
    + split; [done|]. intros (_ & _ & _ & Hp). destruct (Hp row); [left|done].
    + rewrite IH. split.
      * intros (Hn1 & Hi & Hn2 & Hp). repeat split; try done.
        -- intros (r & Heq & Hr)%list_elem_of_fmap. apply (Hi r Hr). rewrite Heq. left.
        -- intros r [->|Hr]%elem_of_cons; [done|]. intros Hin. apply (Hi r Hr). by right.
        -- intros (r & Heq & Hr)%list_elem_of_fmap. apply (Hp r Hr). rewrite Heq. left.
        -- intros r [->|Hr]%elem_of_cons; [done|]. intros Hin. apply (Hp r Hr). by right.
      * intros ([Hi1 Hn1] & Hi & [Hp1 Hn2] & Hp). repeat split; try done.
        -- intros r Hr [Heq|Hin]%elem_of_cons.
           ++ apply Hi1, list_elem_of_fmap. eauto.
           ++ apply (Hi r); [by right|done].
        -- intros r Hr [Heq|Hin]%elem_of_cons.
           ++ apply Hp1, list_elem_of_fmap. eauto.
           ++ apply (Hp r); [by right|done].
Qed.

Lemma shallowCheck_NoDup (body : list Update) :
  shallowCheck body [] [] = None ↔
  NoDup (upd_id <$> body) ∧ NoDup (upd_position <$> body).
Proof.
  rewrite shallowCheck_None. split; [tauto|]. intros [? ?].
  repeat split; try done; by intros ? _ ?%elem_of_nil.
Qed.

Lemma NoDup_fmap_eq {A} (f : A → Z) (l : list A) (x y : A) :
  NoDup (f <$> l) → x ∈ l → y ∈ l → f x = f y → x = y.
Proof.
  intros Hnd [i Hi]%list_elem_of_lookup [j Hj]%list_elem_of_lookup Heq.
  assert (i = j) as ->; [|congruence].
  apply (NoDup_lookup (f <$> l) i j (f x)); [done| |];
    rewrite list_lookup_fmap; [by rewrite Hi|by rewrite Hj, Heq].
Qed.

Lemma findTop_Some (body : list Update) (top : Update) :
  findTop body = Some top → top ∈ body ∧ upd_position top = 1.
Proof.
  unfold findTop. destruct (list_find _ body) as [[i r]|] eqn:Hf; [|done].
  intros [= <-]. apply list_find_Some in Hf as (Hi & Hp & _).
  split; [by eapply list_elem_of_lookup_2|done].
Qed.

Lemma findTop_None (body : list Update) (r : Update) :
  findTop body = None → r ∈ body → upd_position r ≠ 1.
Proof.
  unfold findTop. destruct (list_find _ body) as [[i r']|] eqn:Hf; [done|].
  intros _ Hr. apply list_find_None in Hf. rewrite Forall_forall in Hf. by apply Hf.
Qed.

End route.

Section engine.
Context (fuel : nat) (s : Store).

(** The result of the engine on a batch whose first item exists and whose
    rows pass the first loop is decided by the second loop. *)
Lemma updateTodoPositions_eval (r0 : Update) (rest : list Update) (t0 : Todo) :
  todos s !! upd_id r0 = Some t0 →
  Forall (entryOk (todos s) (listId t0)) (r0 :: rest) →
  updateTodoPositions fuel (r0 :: rest) s =
    let proposed := proposedOf (r0 :: rest) [] in
    match validateProposed fuel (listId t0) (todos s) proposed proposed with
    | Ret _ =>
        (Ret (BulkDone (length (r0 :: rest)) (listId t0)),
         setTodos (compactPositions (listId t0) (applyProposed proposed (todos s))) s)
    | Throw e => (Throw e, s)
    | Diverge => (Diverge, s)
    end.
Proof.
  intros Ht0 Hok. unfold updateTodoPositions, withTxn, transaction.
  unfold bind at 1 2. unfold selectTodo at 1, gets at 1, expect at 1. rewrite Ht0.
  unfold ret at 1. unfold bind at 1.
  rewrite (buildProposed_ok (listId t0) s (r0 :: rest) [] Hok).
  unfold bind, gets, liftOutcome, modifyTodos, compactPositionsTx, ret.
  cbv zeta. by destruct (validateProposed _ _ _ _ _) as [[]| |].
Qed.

Lemma updateTodoPositions_first_missing (r0 : Update) (rest : list Update) :
  todos s !! upd_id r0 = None →
  updateTodoPositions fuel (r0 :: rest) s = (Throw FirstTodoNotFound, s).
Proof.
  intros Ht0. unfold updateTodoPositions, withTxn, transaction.
  unfold bind at 1 2. unfold selectTodo at 1, gets at 1, expect at 1. by rewrite Ht0.
Qed.

Lemma updateTodoPositions_bad_entry (r0 : Update) (rest : list Update) (t0 : Todo) :
  todos s !! upd_id r0 = Some t0 →
  Exists (λ r, ¬ entryOk (todos s) (listId t0) r) (r0 :: rest) →
  ∃ e, updateTodoPositions fuel (r0 :: rest) s = (Throw e, s).
Proof.
  intros Ht0 Hbad. unfold updateTodoPositions, withTxn, transaction.
  unfold bind at 1 2. unfold selectTodo at 1, gets at 1, expect at 1. rewrite Ht0.
  unfold ret at 1. unfold bind at 1.
  destruct (buildProposed_fail (listId t0) s (r0 :: rest) [] Hbad) as [e ->]. eauto.
Qed.

End engine.

Section merged.
Context (d : gmap Z Todo) (body : list Update).

Lemma mapGet_entries (rows : list Update) (x : Z) :
  mapGet x (entryOf <$> rows)
  = (λ ir : nat * Update, (upd_position ir.2, upd_parentId ir.2))
      <$> list_find (λ r, upd_id r = x) rows.
Proof.
  induction rows as [|r rows IH]; [done|]. rewrite fmap_cons.
  cbn [mapGet entryOf list_find]. case_decide as Hx.
  - done.
  - rewrite IH. by destruct (list_find _ rows) as [[i r']|].
Qed.

(** On a batch without duplicate ids the lookup of the engine is the merged
    parent relation. *)
Lemma getParent_merged (x : Z) :
  getParent (entryOf <$> body) d x = mergedParent d body x.
Proof.
  unfold getParent, mergedParent, parentOf. rewrite mapGet_entries.
  destruct (list_find _ body) as [[i r]|]; [done|]. simpl. by destruct (d !! x).
Qed.

Lemma mergedParent_entry (r : Update) :
  NoDup (upd_id <$> body) → r ∈ body →
  mergedParent d body (upd_id r) = upd_parentId r.
Proof.
  intros Hnd Hr. unfold mergedParent.
  destruct (list_find _ body) as [[i r']|] eqn:Hf.
  - apply list_find_Some in Hf as (Hi & Hid & _).
    by rewrite (NoDup_fmap_eq upd_id body r' r Hnd (list_elem_of_lookup_2 _ _ _ Hi) Hr Hid).
  - apply list_find_None in Hf. rewrite Forall_forall in Hf. by destruct (Hf r Hr).
Qed.

Lemma mergedParent_dom (L : Z) (x y : Z) :
  Forall (entryOk d L) body →
  mergedParent d body x = Some y → is_Some (d !! x).
Proof.
  intros Hok. unfold mergedParent, parentOf.
  destruct (list_find _ body) as [[i r]|] eqn:Hf.
  - apply list_find_Some in Hf as (Hi & <- & _). intros _.
    rewrite Forall_forall in Hok.
    destruct (Hok r (list_elem_of_lookup_2 _ _ _ Hi)) as [(t & -> & _) _]. eauto.
  - destruct (d !! x); [eauto|done].
Qed.

Lemma cycleCheck_merged_ext (n : nat) (seen : list Z) (cur : option Z) :
  cycleCheck n (getParent (entryOf <$> body) d) seen cur
  = cycleCheck n (mergedParent d body) seen cur.
Proof.
  revert seen cur. induction n as [|n IH]; intros seen [c|]; simpl; try done;
    case_decide; try done. by rewrite getParent_merged, IH.
Qed.

Context (fuel : nat) (L : Z).
Context (Hids : NoDup (upd_id <$> body)).

Lemma entryCheck_Throw (r : Update) :
  r ∈ body →
  entryCheck fuel d (entryOf <$> body) (entryOf r) = Throw ParentCycle →
  upd_parentId r ≠ None ∧ cycleFrom (mergedParent d body) (upd_id r).
Proof.
  intros Hr. unfold entryCheck. simpl. destruct (upd_parentId r) as [p|] eqn:Hp; [|done].
  rewrite cycleCheck_merged_ext. intros H. split; [done|].
  apply cycleCheck_Throw in H as (c & m & Hm & Hc & Hall).
  - destruct (Hall (upd_id r)) as [k Hk]; [left|]. by exists k, m, c.
  - intros x ->%list_elem_of_singleton. exists 1%nat. split; [lia|].
    by rewrite follow_1, mergedParent_entry, Hp.
Qed.

Lemma entryCheck_Ret (r : Update) :
  r ∈ body →
  entryCheck fuel d (entryOf <$> body) (entryOf r) = Ret tt →
  upd_parentId r ≠ None → ¬ cycleFrom (mergedParent d body) (upd_id r).
Proof.
  intros Hr. unfold entryCheck. simpl. destruct (upd_parentId r) as [p|] eqn:Hp; [|done].
  rewrite cycleCheck_merged_ext. intros H _ Hcycle.
  assert (∀ x, x ∈ [upd_id r] →
            ∃ k, (0 < k)%nat ∧ follow (mergedParent d body) k x = Some p) as Hseen.
  { intros x ->%list_elem_of_singleton. exists 1%nat. split; [lia|].
    by rewrite follow_1, mergedParent_entry, Hp. }
  destruct (cycleCheck_Ret _ _ _ _ Hseen H (upd_id r)) as [k Hk]; [left|].
  by apply (cycleFrom_endless _ _ k Hcycle).
Qed.

Context (Hfuel : (size d ≤ fuel)%nat).
Context (Hok : Forall (entryOk d L) body).

Lemma entryCheck_ends (r : Update) :
  r ∈ body → entryCheck fuel d (entryOf <$> body) (entryOf r) ≠ Diverge.
Proof.
  intros Hr. unfold entryCheck. simpl. destruct (upd_parentId r) as [p|]; [|done].
  rewrite cycleCheck_merged_ext.
  apply (cycleCheck_ends _ (map_to_list d).*1).
  - intros x y Hxy. apply (mergedParent_dom L) in Hxy as [t Ht]; [|done].
    apply list_elem_of_fmap. exists (x, t). split; [done|]. by apply elem_of_map_to_list.
  - apply NoDup_singleton.
  - intros x ->%list_elem_of_singleton. rewrite Forall_forall in Hok.
    destruct (Hok r Hr) as [(t & Ht & _) _].
    apply list_elem_of_fmap. exists (upd_id r, t). split; [done|].
    by apply elem_of_map_to_list.
  - rewrite length_fmap, length_map_to_list. simpl. lia.
Qed.

End merged.

Section rejects.
Context (fuel : nat) (s : Store).
Context (Hfuel : (size (todos s) ≤ fuel)%nat).

Lemma inListOfFirst_iff (r0 : Update) (rest : list Update) (t0 : Todo) (x : Z) :
  todos s !! upd_id r0 = Some t0 →
  inListOfFirst (todos s) (r0 :: rest) x
  ↔ ∃ t, todos s !! x = Some t ∧ listId t = listId t0.
Proof.
  intros Ht0. unfold inListOfFirst. simpl. split.
  - intros (r & t0' & t & [= <-] & Ht0' & Ht & HL). exists t. split; [done|]. congruence.
  - intros (t & Ht & HL). by exists r0, t0, t.
Qed.

(** Once the route has let a batch through, the engine decides. *)
Lemma engine_cases (r0 : Update) (rest : list Update) :
  let body := r0 :: rest in
  NoDup (upd_id <$> body) →
  NoDup (upd_position <$> body) →
  (∀ r, r ∈ body → upd_position r = 1 → upd_parentId r = None) →
  (rejected (todos s) body ∧ ∃ e, updateTodoPositions fuel body s = (Throw e, s))
  ∨ (¬ rejected (todos s) body
     ∧ ∃ L s', updateTodoPositions fuel body s = (Ret (BulkDone (length body) L), s')).
Proof.
  intros body Hids Hpos Htop. subst body.
  destruct (todos s !! upd_id r0) as [t0|] eqn:Ht0.
  2:{ left. split; [|exists FirstTodoNotFound; by apply updateTodoPositions_first_missing].
      do 5 right. left. exists r0. split; [left|].
      intros (r & t0 & t & [= <-] & Ht0' & _). congruence. }
  pose proof (inListOfFirst_iff r0 rest t0) as Hin.
  destruct (decide (Forall (entryOk (todos s) (listId t0)) (r0 :: rest))) as [Hok|Hbad].
  2:{ apply not_Forall_Exists in Hbad; [|apply _]. left.
      split; [|by apply (updateTodoPositions_bad_entry fuel s r0 rest t0)].
      apply Exists_exists in Hbad as (r & Hr & Hbad).
      destruct (decide (upd_parentId r = Some (upd_id r))) as [Hself|Hself].
      - do 4 right. left. eauto.
      - do 5 right. left. exists r. split; [done|]. rewrite Hin by done.
        intros Hex. by apply Hbad. }
  pose proof (updateTodoPositions_eval fuel s r0 rest t0 Ht0 Hok) as Hrun.
  cbv zeta in Hrun.
  assert (proposedOf (r0 :: rest) [] = entryOf <$> (r0 :: rest)) as Hproposed.
  { by rewrite proposedOf_NoDup. }
  rewrite Hproposed in Hrun.
  destruct (validateProposed fuel (listId t0) (todos s) (entryOf <$> (r0 :: rest))
              (entryOf <$> (r0 :: rest))) as [[]|e|] eqn:Hv.
  - right. split; [|eauto]. apply validateProposed_Ret in Hv.
    rewrite Forall_fmap, Forall_forall in Hv. rewrite Forall_forall in Hok.
    intros [Hrej|[Hrej|[Hrej|[Hrej|[Hrej|[Hrej|[Hrej|Hrej]]]]]]]; try done.
    + destruct Hrej as (r & Hr & H1 & Hp). by apply Hp, Htop.
    + destruct Hrej as (r & Hr & Hself). by destruct (Hok r Hr) as [_ ?].
    + destruct Hrej as (r & Hr & Hout). apply Hout. rewrite Hin by done.
      by destruct (Hok r Hr) as [? _].
    + destruct Hrej as (r & p & Hr & Hp & Hout). apply Hout. rewrite Hin by done.
      destruct (Hv r Hr) as [Hpar _]. by apply (Hpar p).
    + destruct Hrej as (r & Hr & Hp & Hcycle). destruct (Hv r Hr) as [_ Hcheck].
      by apply (entryCheck_Ret (todos s) (r0 :: rest) fuel Hids r Hr Hcheck Hp).
  - left. split; [|eauto]. apply validateProposed_Throw in Hv.
    apply Exists_fmap, Exists_exists in Hv as (r & Hr & [Hpar|Hcheck]).
    + do 6 right. left. destruct (upd_parentId r) as [p|] eqn:Hp.
      * exists r, p. split; [done|]. split; [done|]. rewrite Hin by done.
        intros Hex. apply Hpar. intros p' Hp'. simpl in Hp'.
        rewrite Hp in Hp'. by injection Hp' as <-.
      * destruct Hpar. intros p' Hp'. simpl in Hp'. congruence.
    + do 7 right. exists r. split; [done|].
      by apply (entryCheck_Throw (todos s) (r0 :: rest) fuel Hids r Hr).
  - exfalso. apply validateProposed_Diverge in Hv.
    apply Exists_fmap, Exists_exists in Hv as (r & Hr & Hcheck).
    by apply (entryCheck_ends (todos s) (r0 :: rest) fuel (listId t0) Hfuel Hok r Hr).
Qed.

Lemma patchTodosPositions_cons (r0 : Update) (rest : list Update) :
  patchTodosPositions fuel (r0 :: rest) s =
    match shallowCheck (r0 :: rest) [] [] with
    | Some e => (Throw e, s)
    | None =>
        match findTop (r0 :: rest) with
        | Some top =>
            if bool_decide (upd_parentId top ≠ None) then (Throw CannotIndentFirst, s)
            else updateTodoPositions fuel (r0 :: rest) s
        | None => updateTodoPositions fuel (r0 :: rest) s
        end
    end.
Proof.
  unfold patchTodosPositions. destruct (shallowCheck _ _ _); [done|].
  destruct (findTop _); [|done]. by case_bool_decide.
Qed.

Lemma patchTodosPositions_cases (body : list Update) :
  (rejected (todos s) body ∧ ∃ e, patchTodosPositions fuel body s = (Throw e, s))
  ∨ (¬ rejected (todos s) body
     ∧ ∃ L s', patchTodosPositions fuel body s = (Ret (BulkDone (length body) L), s')).
Proof.
  destruct body as [|r0 rest].
  { left. split; [by left|]. by exists ArrayEmpty. }
  rewrite patchTodosPositions_cons.
  destruct (shallowCheck (r0 :: rest) [] []) as [e|] eqn:Hsc.
  { left. split; [|eauto].
    destruct (decide (NoDup (upd_id <$> r0 :: rest))) as [Hids|Hids]; [|right; by left].
    do 2 right. left. intros Hpos.
    assert (shallowCheck (r0 :: rest) [] [] = None) by by apply shallowCheck_NoDup.
    congruence. }
  apply shallowCheck_NoDup in Hsc as [Hids Hpos].
  assert (∀ top, top ∈ r0 :: rest → upd_position top = 1 → upd_parentId top = None →
            ∀ r, r ∈ r0 :: rest → upd_position r = 1 → upd_parentId r = None) as Hone.
  { intros top Htop H1 Hp r Hr Hr1.
    by rewrite (NoDup_fmap_eq upd_position (r0 :: rest) r top Hpos Hr Htop) by congruence. }
  destruct (findTop (r0 :: rest)) as [top|] eqn:Hft.
  - apply findTop_Some in Hft as [Htop H1]. case_bool_decide as Hp.
    + left. split; [|eauto]. do 3 right. left. eauto.
    + apply engine_cases; try done. by apply (Hone top).
  - apply engine_cases; try done.
    intros r Hr Hr1. by destruct (findTop_None (r0 :: rest) r Hft Hr).
Qed.

End rejects.

(** C4, amended. With enough rounds for the cycle check (as many as the
    table has rows), the route and the engine together reject a batch
    exactly when it is empty, or has a duplicate id, or a duplicate
    position, or an entry numbered 1 with a parent, or an entry that is its
    own parent, or an item or a parent that does not exist or is not in the
    list of the first entry, or an entry with a parent from which the merged
    parent relation leads into a cycle; every other batch is applied. *)
Theorem patchTodosPositions_rejects (fuel : nat) (body : list Update) (s : Store) :
  (size (todos s) ≤ fuel)%nat →
  ((∃ e, patchTodosPositions fuel body s = (Throw e, s)) ↔ rejected (todos s) body)
  ∧ ((∃ L s', patchTodosPositions fuel body s = (Ret (BulkDone (length body) L), s'))
     ↔ ¬ rejected (todos s) body).
Proof.
  intros Hfuel.
  destruct (patchTodosPositions_cases fuel s Hfuel body)
    as [[Hrej [e He]]|[Hok (L & s' & Hrun)]].
  - split; split; try done; eauto.
    intros (L & s' & Hrun). congruence.
  - split; split; try done; eauto.
    intros [e He]. congruence.
Qed.

(** ** More concrete runs *)

Lemma positions_contiguous_witness :
  consistent freshStore
  ∧ Forall keepsOrder
      [CreateTodo (newItem "A"); CreateTodo (newItem "B"); CreateTodo (newItem "C");
       UpdateTodo 2 (reparent (Some 1));
       PatchTodosPositions [mkUpdate 3 1 None; mkUpdate 1 2 None; mkUpdate 2 3 (Some 1)];
       DeleteTodo 3 (Some false)]
  ∧ performAll 4
      [CreateTodo (newItem "A"); CreateTodo (newItem "B"); CreateTodo (newItem "C");
       UpdateTodo 2 (reparent (Some 1));
       PatchTodosPositions [mkUpdate 3 1 None; mkUpdate 1 2 None; mkUpdate 2 3 (Some 1)];
       DeleteTodo 3 (Some false)] freshStore
    = Some (storeOf [(1, item "A" None 1); (2, item "B" (Some 1) 2)])
  ∧ ∀ L, contiguous L (todos (storeOf [(1, item "A" None 1); (2, item "B" (Some 1) 2)])).
Proof.
  assert (consistent freshStore) as Hs.
  { split; [apply map_Forall_empty|]. intros L. reflexivity. }
  assert (Forall keepsOrder
            [CreateTodo (newItem "A"); CreateTodo (newItem "B"); CreateTodo (newItem "C");
             UpdateTodo 2 (reparent (Some 1));
             PatchTodosPositions
               [mkUpdate 3 1 None; mkUpdate 1 2 None; mkUpdate 2 3 (Some 1)];
             DeleteTodo 3 (Some false)]) as Hops.
  { repeat constructor; simpl; try done. }
  split; [exact Hs|]. split; [exact Hops|]. split; [vm_compute; reflexivity|].
  apply (positions_contiguous 4 _ freshStore _ Hs Hops).
  vm_compute. reflexivity.
Defined.

Lemma patchTodosPositions_rejects_witness :
  (size (todos twoItems) ≤ 4)%nat
  ∧ ((∃ e, patchTodosPositions 4 [mkUpdate 2 1 None; mkUpdate 1 2 (Some 2)] twoItems
           = (Throw e, twoItems))
     ↔ rejected (todos twoItems) [mkUpdate 2 1 None; mkUpdate 1 2 (Some 2)])
  ∧ ((∃ L s', patchTodosPositions 4 [mkUpdate 2 1 None; mkUpdate 1 2 (Some 2)] twoItems
              = (Ret (BulkDone (length [mkUpdate 2 1 None; mkUpdate 1 2 (Some 2)]) L), s'))
     ↔ ¬ rejected (todos twoItems) [mkUpdate 2 1 None; mkUpdate 1 2 (Some 2)]).
Proof.
  split; [vm_compute; lia|].
  apply (patchTodosPositions_rejects 4 [mkUpdate 2 1 None; mkUpdate 1 2 (Some 2)] twoItems).
  vm_compute. lia.
Defined.

(** A relation whose chains all end within [n] steps has no cycle. *)
Lemma no_cycle_bounded (g : Z → option Z) (n : nat) (x : Z) :
  (∀ y, follow g n y = None) → ¬ cycleFrom g x.
Proof. intros Hn Hx. by apply (cycleFrom_endless g x n Hx). Qed.

Lemma twoItems_lookup (x : Z) :
  todos twoItems !! x
  = if decide (x = 1) then Some (item "A" None 1)
    else if decide (x = 2) then Some (item "B" None 2) else None.
Proof.
  unfold twoItems, storeOf. cbn [todos list_to_map foldr fst snd curry].
  destruct (decide (x = 1)) as [->|H1]; [by rewrite lookup_insert_eq|].
  rewrite lookup_insert_ne by done.
  destruct (decide (x = 2)) as [->|H2]; [by rewrite lookup_insert_eq|].
  by rewrite lookup_insert_ne, lookup_empty.
Qed.

(** C4, as stated, fails in both directions. The batch that numbers B first
    and puts it under A meets none of the five conditions and is rejected
    (and so is the empty batch); and a batch that touches only C is applied
    in the store where A and B are each other's parent, although the merged
    parent relation has that cycle. *)
Lemma patchTodosPositions_claim_fails :
  (patchTodosPositions 4 [mkUpdate 2 1 (Some 1); mkUpdate 1 2 None] twoItems
   = (Throw CannotIndentFirst, twoItems)
   ∧ ¬ rejectedAsClaimed (todos twoItems) [mkUpdate 2 1 (Some 1); mkUpdate 1 2 None])
  ∧ (patchTodosPositions 4 [] twoItems = (Throw ArrayEmpty, twoItems)
     ∧ ¬ rejectedAsClaimed (todos twoItems) [])
  ∧ (patchTodosPositions 4 [mkUpdate 3 1 None] cyclicStore
     = (Ret (BulkDone 1 1), cyclicStore)
     ∧ rejectedAsClaimed (todos cyclicStore) [mkUpdate 3 1 None]).
Proof.
  split; [|split]; (split; [vm_compute; reflexivity|]).
  - intros [Hids|[Hpos|[Hself|[Hout|[Hout|[x Hcycle]]]]]].
    + apply Hids. apply (bool_decide_unpack _). vm_compute. exact I.
    + apply Hpos. apply (bool_decide_unpack _). vm_compute. exact I.
    + destruct Hself as (r & Hr & Hself).
      apply elem_of_cons in Hr as [->|Hr]; [done|].
      by apply list_elem_of_singleton in Hr as ->.
    + destruct Hout as (r & Hr & Hout). apply Hout.
      apply elem_of_cons in Hr as [->|Hr].
      * by exists (mkUpdate 2 1 (Some 1)), (item "B" None 2), (item "B" None 2).
      * apply list_elem_of_singleton in Hr as ->.
        by exists (mkUpdate 2 1 (Some 1)), (item "B" None 2), (item "A" None 1).
    + destruct Hout as (r & p & Hr & Hp & Hout). apply Hout.
      apply elem_of_cons in Hr as [->|Hr].
      * injection Hp as <-.
        by exists (mkUpdate 2 1 (Some 1)), (item "B" None 2), (item "A" None 1).
      * by apply list_elem_of_singleton in Hr as ->.
    + apply (no_cycle_bounded _ 2 x) in Hcycle; [done|].
      intros y. simpl. unfold mergedParent, parentOf. cbn [list_find].
      rewrite twoItems_lookup. repeat case_decide; subst; try done.
  - intros [Hids|[Hpos|[Hself|[Hout|[Hout|[x Hcycle]]]]]].
    + apply Hids. constructor.
    + apply Hpos. constructor.
    + by destruct Hself as (r & ?%elem_of_nil & _).
    + by destruct Hout as (r & ?%elem_of_nil & _).
    + by destruct Hout as (r & p & ?%elem_of_nil & _).
    + apply (no_cycle_bounded _ 1 x) in Hcycle; [done|].
      intros y. simpl. unfold mergedParent, parentOf. cbn [list_find].
      rewrite twoItems_lookup. repeat case_decide; subst; try done.
  - do 5 right. exists 1. exists 0%nat, 2%nat, 1. split; [lia|].
    split; vm_compute; reflexivity.
Qed.

(** * Further properties of the engine *)

(** ** Points that come back to themselves *)

Section periodic.
Context (g : Z → option Z).

Lemma follow_periodic_mul (n m : nat) (x : Z) :
  follow g n x = Some x → follow g (m * n) x = Some x.
Proof.
  intros Hx. induction m as [|m IH]; [done|].
  replace (S m * n)%nat with (n + m * n)%nat by lia.
  by rewrite follow_add, Hx.
Qed.

(** Everything on the way from a periodic point is periodic. *)
Lemma follow_periodic_image (n k : nat) (x t : Z) :
  follow g n x = Some x → follow g k x = Some t → follow g n t = Some t.
Proof.
  intros Hx Ht.
  assert (follow g (k + n) x = follow g n t) as <- by by rewrite follow_add, Ht.
  replace (k + n)%nat with (n + k)%nat by lia. by rewrite follow_add, Hx.
Qed.

(** A periodic point has predecessors of every order. *)
Lemma periodic_predecessors (n m : nat) (x : Z) :
  (0 < n)%nat → follow g n x = Some x → ∃ y, follow g m y = Some x.
Proof.
  intros Hn Hx.
  destruct (follow g (m * n - m) x) as [y|] eqn:Hy.
  - exists y.
    assert (follow g (m * n - m + m) x = follow g m y) as <- by by rewrite follow_add, Hy.
    replace (m * n - m + m)%nat with (m * n)%nat by nia.
    by apply follow_periodic_mul.
  - by destruct (follow_periodic g n x Hn Hx (m * n - m)%nat).
Qed.

Context (dom : list Z).
Context (Hdom : ∀ x y, g x = Some y → x ∈ dom).

(** A chain longer than the number of points that have a successor ends in
    a periodic point. *)
Lemma follow_long_periodic (n : nat) (seen : list Z) (x t : Z) :
  NoDup seen →
  (∀ y, y ∈ seen → y ∈ dom) →
  (∀ y, y ∈ seen → ∃ k, (0 < k)%nat ∧ follow g k y = Some x) →
  (length dom < n + length seen)%nat →
  follow g n x = Some t →
  ∃ k, (0 < k)%nat ∧ follow g k t = Some t.
Proof.
  revert seen x. induction n as [|n IH]; intros seen x Hnd Hsub Hlead Hlen Ht.
  - exfalso. assert (length seen ≤ length dom)%nat; [|lia].
    by apply submseteq_length, NoDup_submseteq.
  - destruct (decide (x ∈ seen)) as [Hin|Hout].
    + destruct (Hlead x Hin) as (k & Hk & Hx). exists k. split; [done|].
      by apply (follow_periodic_image k (S n) x t).
    + simpl in Ht. destruct (g x) as [x'|] eqn:Hx; [|done]. simpl in Ht.
      apply (IH (x :: seen) x'); [| | |simpl; lia|done].
      * by apply NoDup_cons.
      * intros y [->|Hy]%elem_of_cons; [by eapply Hdom|by apply Hsub].
      * intros y [->|Hy]%elem_of_cons.
        -- exists 1%nat. split; [lia|]. by rewrite follow_1.
        -- destruct (Hlead y Hy) as (k & Hk & Hky). exists (S k). split; [lia|].
           by rewrite follow_S_r, Hky.
Qed.

End periodic.

Lemma parentOf_dom (d : gmap Z Todo) (x y : Z) :
  parentOf d x = Some y → x ∈ (map_to_list d).*1.
Proof.
  unfold parentOf. destruct (d !! x) as [t|] eqn:Hx; [|done]. intros _.
  apply list_elem_of_fmap. exists (x, t). split; [done|]. by apply elem_of_map_to_list.
Qed.

(** An item that is not its own ancestor has nothing further below it than
    the table has rows. *)
Lemma ownAncestor_depth (d : gmap Z Todo) (tid x : Z) :
  ¬ ownAncestor d tid → nthParent d (S (size d)) x ≠ Some tid.
Proof.
  intros Htid Hx. apply Htid.
  apply (follow_long_periodic (parentOf d) (map_to_list d).*1 (parentOf_dom d)
           (S (size d)) [] x tid); try done.
  - constructor.
  - by intros ? ?%elem_of_nil.
  - by intros ? ?%elem_of_nil.
  - rewrite length_fmap, length_map_to_list. simpl. lia.
Qed.

(** ** The recursive query, without the assumption that the table is acyclic *)

Section cte_local.
Context (d : gmap Z Todo).

(** When the query has ended within [fuel] rounds, nothing lies [fuel]
    levels below the start rows. *)
Lemma cteRows_level (fuel : nat) (work rows : list Z) (w x : Z) :
  cteRows fuel d work = Some rows → w ∈ work → nthParent d fuel x ≠ Some w.
Proof.
  revert work rows w x. induction fuel as [|fuel IH]; intros work rows w x H Hw.
  - destruct work; [by apply elem_of_nil in Hw|done].
  - destruct work as [|w0 work'] eqn:Hwork; [by apply elem_of_nil in Hw|].
    rewrite <- Hwork in *. rewrite Hwork in H. cbn [cteRows] in H. rewrite <- Hwork in H.
    destruct (cteRows fuel d (work ≫= childrenOf d)) as [rest|] eqn:Hrest; [|done].
    rewrite follow_S_r. destruct (nthParent d fuel x) as [w'|] eqn:Hw'; [|done]. simpl.
    intros Hp. apply (IH _ _ w' x Hrest); [|done].
    apply elem_of_children. eauto.
Qed.

Lemma cteRows_ownAncestor (fuel : nat) (tid : Z) :
  ownAncestor d tid → cteRows fuel d [tid] = None.
Proof.
  intros (k & Hk & Htid).
  destruct (cteRows fuel d [tid]) as [rows|] eqn:Hrows; [|done]. exfalso.
  destruct (periodic_predecessors (parentOf d) k fuel tid Hk Htid) as [y Hy].
  by apply (cteRows_level fuel [tid] rows tid y Hrows); [left|].
Qed.

Lemma cteRows_returns (fuel : nat) (tid : Z) :
  ¬ ownAncestor d tid → (size d < fuel)%nat → is_Some (cteRows fuel d [tid]).
Proof.
  intros Htid Hfuel. apply (cteRows_ends d (S (size d))); [|lia].
  intros w x ->%list_elem_of_singleton. by apply ownAncestor_depth.
Qed.

Lemma cteRows_below (fuel : nat) (tid : Z) (rows : list Z) (x : Z) :
  ¬ ownAncestor d tid →
  cteRows fuel d [tid] = Some rows →
  x ∈ filter (λ i, i ≠ tid) rows ↔ descendantOf d tid x.
Proof.
  intros Htid Hrows. rewrite list_elem_of_filter, (cteRows_elem d _ _ _ _ Hrows).
  unfold descendantOf. split.
  - intros [Hne (k & w & ->%list_elem_of_singleton & Hk)].
    exists k. split; [|done]. destruct k; [|lia]. by injection Hk.
  - intros (k & Hk & Hx). split.
    + intros ->. apply Htid. by exists k.
    + exists k, tid. split; [apply list_elem_of_singleton|]; done.
Qed.

Lemma cteRows_rows (fuel : nat) (tid : Z) (rows : list Z) (x : Z) :
  ¬ ownAncestor d tid →
  cteRows fuel d [tid] = Some rows →
  x ∈ rows ↔ x = tid ∨ descendantOf d tid x.
Proof.
  intros Htid Hrows. rewrite <- (cteRows_below fuel tid rows x Htid Hrows).
  rewrite list_elem_of_filter. split.
  - intros Hx. destruct (decide (x = tid)); [by left|by right].
  - intros [->|[_ ?]]; [|done].
    apply (cteRows_elem d _ _ _ _ Hrows). exists O, tid. split; [left|done].
Qed.

End cte_local.

(** ** deleteTodo: which calls return *)

Section deleteTodo_runs.
Context (id : Z) (opts : option bool) (s : Store).

Lemma cteRows_None (d : gmap Z Todo) (fuel : nat) (work : list Z) :
  cteRows fuel d work = None → ∃ w x, w ∈ work ∧ nthParent d fuel x = Some w.
Proof.
  revert work. induction fuel as [|fuel IH]; intros work H.
  - destruct work as [|w0 work]; [done|]. exists w0, w0. split; [left|done].
  - destruct work as [|w0 work'] eqn:Hwork; [done|]. rewrite <- Hwork in *.
    rewrite Hwork in H. cbn [cteRows] in H. rewrite <- Hwork in H.
    destruct (cteRows fuel d (work ≫= childrenOf d)) as [rest|] eqn:Hrest; [done|].
    destruct (IH _ Hrest) as (w' & x & (w & Hw & Hp)%elem_of_children & Hx).
    exists w, x. split; [done|]. by rewrite follow_S_r, Hx.
Qed.

Lemma deleteTodo_missing (fuel : nat) :
  todos s !! id = None → deleteTodo fuel id opts s = (Throw TodoNotFound, s).
Proof.
  intros Hid. unfold deleteTodo, transaction, bind, selectTodo, gets, expect, throw.
  by rewrite Hid.
Qed.

Lemma deleteTodo_endless (fuel : nat) (t : Todo) :
  todos s !! id = Some t →
  cteRows fuel (todos s) [id] = None →
  deleteTodo fuel id opts s = (Diverge, s).
Proof.
  intros Ht Hrows.
  unfold deleteTodo, selectDescendants, transaction, bind, selectTodo, gets, expect,
    runQuery, ret.
  rewrite Ht. cbv beta iota. by rewrite Hrows.
Qed.

Lemma cteRows_decides (d : gmap Z Todo) (tid : Z) :
  ownAncestor d tid ∨ ¬ ownAncestor d tid.
Proof.
  destruct (cteRows (S (size d)) d [tid]) as [rows|] eqn:Hrows.
  - right. intros Htid. by rewrite (cteRows_ownAncestor d _ tid Htid) in Hrows.
  - left. apply cteRows_None in Hrows as (w & x & ->%list_elem_of_singleton & Hx).
    apply (follow_long_periodic (parentOf d) (map_to_list d).*1 (parentOf_dom d)
             (S (size d)) [] x tid); try done.
    + constructor.
    + by intros ? ?%elem_of_nil.
    + by intros ? ?%elem_of_nil.
    + rewrite length_fmap, length_map_to_list. simpl. lia.
Qed.

End deleteTodo_runs.

(** X1. [deleteTodo] returns (given enough rounds for the recursive query)
    exactly when the item exists and is not its own ancestor; it throws
    exactly when the item does not exist, the error is 'Todo not found' and
    the store is left as it was; and on an existing item that is its own
    ancestor the recursive query, which is a UNION ALL, never ends. *)
Theorem deleteTodo_outcome (id : Z) (opts : option bool) (s : Store) :
  ((∃ fuel r s', deleteTodo fuel id opts s = (Ret r, s'))
     ↔ is_Some (todos s !! id) ∧ ¬ ownAncestor (todos s) id)
  ∧ ((∃ fuel e s', deleteTodo fuel id opts s = (Throw e, s')) ↔ todos s !! id = None)
  ∧ (∀ fuel e s', deleteTodo fuel id opts s = (Throw e, s') → e = TodoNotFound ∧ s' = s)
  ∧ ((∀ fuel, deleteTodo fuel id opts s = (Diverge, s))
     ↔ is_Some (todos s !! id) ∧ ownAncestor (todos s) id).
Proof.
  destruct (todos s !! id) as [t|] eqn:Ht.
  - assert (∀ fuel e s', deleteTodo fuel id opts s ≠ (Throw e, s')) as Hthrow.
    { intros fuel e s' H.
      destruct (cteRows fuel (todos s) [id]) as [rows|] eqn:Hrows.
      - rewrite (deleteTodo_eval fuel id opts s t rows Ht Hrows) in H.
        simpl in H. by destruct (cascadeOf opts).
      - by rewrite (deleteTodo_endless id opts s fuel t Ht Hrows) in H. }
    destruct (cteRows_decides (todos s) id) as [Hown|Hown].
    + assert (∀ fuel, deleteTodo fuel id opts s = (Diverge, s)) as Hnever.
      { intros fuel. apply (deleteTodo_endless id opts s fuel t Ht).
        by apply cteRows_ownAncestor. }
      split; [|split; [|split]].
      * split; [|by intros [_ ?]]. intros (fuel & r & s' & H). by rewrite Hnever in H.
      * split; [|done]. intros (fuel & e & s' & H). by destruct (Hthrow fuel e s').
      * intros fuel e s' H. by destruct (Hthrow fuel e s').
      * split; [eauto|done].
    + destruct (cteRows_returns (todos s) (S (size (todos s))) id Hown) as [rows Hrows]; [lia|].
      pose proof (deleteTodo_eval (S (size (todos s))) id opts s t rows Ht Hrows) as Hrun.
      simpl in Hrun.
      split; [|split; [|split]].
      * split; [by eauto|]. intros _. exists (S (size (todos s))).
        destruct (cascadeOf opts); eauto.
      * split; [|done]. intros (fuel & e & s' & H). by destruct (Hthrow fuel e s').
      * intros fuel e s' H. by destruct (Hthrow fuel e s').
      * split; [|by intros [_ ?]]. intros Hnever.
        rewrite (Hnever (S (size (todos s)))) in Hrun. by destruct (cascadeOf opts).
  - pose proof (λ fuel, deleteTodo_missing id opts s fuel Ht) as Hrun.
    split; [|split; [|split]].
    + split; [|by intros [[? ?] _]]. intros (fuel & r & s' & H). by rewrite Hrun in H.
    + split; [done|]. intros _. exists O, TodoNotFound, s. apply Hrun.
    + intros fuel e s' H. rewrite Hrun in H. by injection H as <- <-.
    + split; [|by intros [[? ?] _]]. intros Hnever. specialize (Hnever O).
      by rewrite Hrun in Hnever.
Qed.

(** X2. [deleteTodo] with cascade (the default) on an existing item that is
    not its own ancestor returns; it deletes the item and all its direct and
    transitive descendants, and reports them as [deletedIds] with nothing
    lifted; every other row stays and keeps all its columns but [position];
    and the positions of the list of the item are 1, 2, ..., N afterwards. *)
Theorem deleteTodo_cascade (fuel : nat) (id : Z) (opts : option bool) (s : Store) (t : Todo) :
  todos s !! id = Some t →
  ¬ ownAncestor (todos s) id →
  (size (todos s) < fuel)%nat →
  cascadeOf opts = true →
  ∃ r s',
    deleteTodo fuel id opts s = (Ret r, s')
    ∧ cascaded r = true ∧ del_listId r = listId t ∧ liftedIds r = []
    ∧ head (deletedIds r) = Some id
    ∧ (∀ x, x ∈ deletedIds r ↔ x = id ∨ descendantOf (todos s) id x)
    ∧ (∀ x, x ∈ deletedIds r → todos s' !! x = None)
    ∧ (∀ x tx, x ∉ deletedIds r → todos s !! x = Some tx →
         ∃ tx', todos s' !! x = Some tx' ∧ otherColumns tx' = otherColumns tx)
    ∧ dom (todos s') ⊆ dom (todos s)
    ∧ lists s' = lists s ∧ settings s' = settings s
    ∧ contiguous (listId t) (todos s').
Proof.
  intros Ht Hown Hfuel Hopts.
  destruct (cteRows_returns (todos s) fuel id Hown Hfuel) as [rows Hrows].
  pose proof (deleteTodo_eval fuel id opts s t rows Ht Hrows) as Hrun.
  rewrite Hopts in Hrun. cbv zeta in Hrun.
  eexists _, _. split; [exact Hrun|]. cbn [cascaded del_listId liftedIds deletedIds].
  set (desc := filter (λ i, i ≠ id) rows).
  assert (∀ x, x ∈ id :: desc ↔ x = id ∨ descendantOf (todos s) id x) as Hdel.
  { intros x. rewrite elem_of_cons. unfold desc.
    by rewrite (cteRows_below (todos s) fuel id rows x Hown Hrows). }
  assert (∀ x, x ∈ id :: desc ↔ x ∈ rows) as Hsame.
  { intros x. by rewrite Hdel, (cteRows_rows (todos s) fuel id rows x Hown Hrows). }
  pose proof (compactPositions_otherColumns (listId t) (deleteRows rows (todos s))) as Hcols.
  repeat split; try done.
  - by apply Hdel.
  - by apply Hdel.
  - intros x Hx. simpl.
    pose proof (otherColumns_lookup _ _ x Hcols) as Hx'.
    rewrite deleteRows_lookup, decide_True in Hx' by by apply Hsame.
    by destruct (compactPositions _ _ !! x).
  - intros x tx Hx Htx. simpl.
    pose proof (otherColumns_lookup _ _ x Hcols) as Hx'.
    rewrite deleteRows_lookup, decide_False, Htx in Hx' by by rewrite <- Hsame.
    cbn [fmap option_fmap option_map] in Hx'. rewrite fkSetNull_other in Hx'.
    { destruct (compactPositions _ _ !! x) as [tx'|]; [|done].
      exists tx'. split; [done|]. simpl in Hx'. congruence. }
    intros p Hp [_ Hin]%list_elem_of_filter.
    apply Hx, Hsame. apply (cteRows_elem (todos s) _ _ _ _ Hrows).
    apply (cteRows_elem (todos s) _ _ _ p Hrows) in Hin as (k & w & Hw & Hk).
    exists (S k), w. split; [done|].
    assert (parentOf (todos s) x = Some p) as Hpx by (unfold parentOf; by rewrite Htx).
    by rewrite nthParent_S, Hpx.
  - intros x. rewrite !elem_of_dom. simpl.
    rewrite <- (fmap_is_Some otherColumns), (otherColumns_lookup _ _ x Hcols).
    rewrite fmap_is_Some, deleteRows_lookup. case_decide; [by intros [? ?]|].
    by rewrite fmap_is_Some.
  - apply contiguous_compactPositions.
Qed.

(** A, B under A, and C: deleting A with its descendants leaves C alone, at
    position 1. *)
Lemma deleteTodo_cascade_witness :
  todos threeItems !! 1 = Some (item "A" None 1)
  ∧ ¬ ownAncestor (todos threeItems) 1
  ∧ deleteTodo 4 1 None threeItems
    = (Ret (mkDeleteResult [1; 2] true 1 []), storeOf [(3, item "C" None 1)])
  ∧ ∃ r s',
      deleteTodo 4 1 None threeItems = (Ret r, s')
      ∧ cascaded r = true ∧ del_listId r = listId (item "A" None 1) ∧ liftedIds r = []
      ∧ head (deletedIds r) = Some 1
      ∧ (∀ x, x ∈ deletedIds r ↔ x = 1 ∨ descendantOf (todos threeItems) 1 x)
      ∧ (∀ x, x ∈ deletedIds r → todos s' !! x = None)
      ∧ (∀ x tx, x ∉ deletedIds r → todos threeItems !! x = Some tx →
           ∃ tx', todos s' !! x = Some tx' ∧ otherColumns tx' = otherColumns tx)
      ∧ dom (todos s') ⊆ dom (todos threeItems)
      ∧ lists s' = lists threeItems ∧ settings s' = settings threeItems
      ∧ contiguous (listId (item "A" None 1)) (todos s').
Proof.
  assert (¬ ownAncestor (todos threeItems) 1) as Hown.
  { intros Hown. by pose proof (cteRows_ownAncestor (todos threeItems) 4 1 Hown). }
  split; [reflexivity|]. split; [exact Hown|]. split; [vm_compute; reflexivity|].
  apply (deleteTodo_cascade 4 1 None threeItems (item "A" None 1)).
  - reflexivity.
  - exact Hown.
  - vm_compute. lia.
  - reflexivity.
Defined.

(** ** deleteTodo without cascade *)




(** ** updateTodo: the parent checks *)

(** X3. [updateTodo] never makes an item its own parent: whatever else the
    patch holds, a patch whose [parentId] is the id of the item is rejected
    with 'Cannot set parent to self' ('Todo not found' when there is no such
    item), and the store is left as it was. *)
Theorem updateTodo_rejects_self (fuel : nat) (id : Z) (s : Store)
    (txt : option string) (done empty ind : option bool) (pos : option jsval)
    (l : option Z) :
  updateTodo fuel id (mkPatch txt done empty (Some (Some id)) ind pos l) s
  = (Throw (match todos s !! id with Some _ => ParentSelf | None => TodoNotFound end), s).
Proof.
  unfold updateTodo, transaction, bind at 1 2 3. unfold selectTodo at 1, gets, expect.
  destruct (todos s !! id) as [t|]; [|done].
  unfold ret at 1. cbn [p_parentId]. unfold checkParent, bind, guard, throw.
  by rewrite bool_decide_eq_true_2.
Qed.

Lemma ancestorWalk_throws (d : gmap Z Todo) (tid : Z) (k fuel : nat) (p : Z) :
  nthParent d (S k) p = Some tid →
  (k ≤ fuel)%nat →
  ancestorWalk fuel d tid (d !! p) = Throw CyclicParent.
Proof.
  revert fuel p. induction k as [|k IH]; intros fuel p Hk Hfuel.
  - rewrite follow_1 in Hk. unfold parentOf in Hk.
    destruct (d !! p) as [c|]; [|done]. simpl in Hk.
    destruct fuel; simpl; rewrite Hk; by rewrite decide_True.
  - rewrite nthParent_S in Hk. unfold parentOf at 2 in Hk.
    destruct (d !! p) as [c|]; [|done]. simpl in Hk.
    destruct (parentId c) as [q|] eqn:Hq; [|done]. simpl in Hk.
    destruct fuel as [|fuel]; [lia|]. simpl. rewrite Hq.
    case_decide; [done|]. apply IH; [done|lia].
Qed.

(** X4. [updateTodo] does not put an item under one of its descendants:
    when the new parent is another item of the same list that has the item among
    its ancestors, [k + 1] levels up, the call (with [k] rounds or more for
    the walk) is rejected with 'Cannot create cyclic parent relationship',
    and the store is left as it was. *)
Theorem updateTodo_rejects_descendant (fuel : nat) (id tp : Z) (p : Patch) (s : Store)
    (t pr : Todo) (k : nat) :
  todos s !! id = Some t →
  p_parentId p = Some (Some tp) →
  tp ≠ id →
  todos s !! tp = Some pr →
  listId pr = listId t →
  nthParent (todos s) (S k) tp = Some id →
  (k ≤ fuel)%nat →
  updateTodo fuel id p s = (Throw CyclicParent, s).
Proof.
  intros Ht Hp Hne Hpr HL Hk Hfuel.
  unfold updateTodo. rewrite Hp.
  unfold transaction, bind at 1 2 3. unfold selectTodo at 1, gets, expect.
  rewrite Ht. unfold ret at 1.
  unfold checkParent, bind, guard, selectTodo, gets, expect, liftOutcome, ret.
  rewrite (bool_decide_eq_false_2 (tp = id)) by done.
  rewrite Hpr. rewrite (bool_decide_eq_false_2 (listId pr ≠ listId t)) by tauto.
  rewrite <- Hpr. by rewrite (ancestorWalk_throws (todos s) id k fuel tp Hk Hfuel).
Qed.

(** The scenario of the specification: B is under A; putting A under B is
    rejected. *)
Lemma updateTodo_rejects_descendant_witness :
  todos threeItems !! 1 = Some (item "A" None 1)
  ∧ todos threeItems !! 2 = Some (item "B" (Some 1) 2)
  ∧ nthParent (todos threeItems) 1 2 = Some 1
  ∧ updateTodo 4 1 (reparent (Some 2)) threeItems = (Throw CyclicParent, threeItems).
Proof.
  split; [reflexivity|]. split; [reflexivity|]. split; [reflexivity|].
  apply (updateTodo_rejects_descendant 4 1 2 (reparent (Some 2)) threeItems
           (item "A" None 1) (item "B" (Some 1) 2) 0).
  - reflexivity.
  - reflexivity.
  - lia.
  - reflexivity.
  - reflexivity.
  - reflexivity.
  - lia.
Defined.

(** ** updateTodo: what a successful call writes *)

Lemma alter_as_insert (d : gmap Z Todo) (f : Todo → Todo) (id : Z) (t : Todo) :
  d !! id = Some t → alter f id d = <[id := f t]> d.
Proof.
  intros Ht. apply map_eq. intros i. destruct (decide (id = i)) as [<-|Hne].
  - by rewrite lookup_alter_eq, lookup_insert_eq, Ht.
  - by rewrite lookup_alter_ne, lookup_insert_ne.
Qed.

(** X5. A call of [updateTodo] that returns has changed the row of the item
    and nothing else, and returns that row. A column whose field is in the
    patch has the value of the field, the others are as they were;
    [isIndented] is never taken from the patch: when the patch has a
    [parentId] or an [isIndented] field it is set to whether the item now
    has a parent; a [position] of null is ignored; [listId] stays. *)
Theorem updateTodo_writes (fuel : nat) (id : Z) (p : Patch) (s s' : Store) (row : TodoRow) :
  updateTodo fuel id p s = (Ret row, s') →
  ∃ t, todos s !! id = Some t
    ∧ row.1 = id
    ∧ todos s' = <[id := row.2]> (todos s)
    ∧ lists s' = lists s ∧ settings s' = settings s
    ∧ text row.2 = default (text t) (p_text p)
    ∧ completed row.2 = default (completed t) (p_completed p)
    ∧ isEmpty row.2 = default (isEmpty t) (p_isEmpty p)
    ∧ parentId row.2 = default (parentId t) (p_parentId p)
    ∧ isIndented row.2
      = match p_parentId p, p_isIndented p with
        | None, None => isIndented t
        | _, _ => bool_decide (parentId row.2 ≠ None)
        end
    ∧ position row.2
      = match p_position p with
        | Some (JNumber (Num n)) => n
        | _ => position t
        end
    ∧ listId row.2 = listId t.
Proof.
  unfold updateTodo. intros H. txn_inv.
  rename a0 into t. exists t. split; [done|].
  match goal with H : checkParent _ _ _ _ _ = _ |- _ =>
    apply checkParent_Ret in H as [-> _] end.
  destruct (_ && _ && _ && _ && _ && _) eqn:Hnothing in H.
  - txn_inv. destruct (todos s !! id) as [t'|] eqn:Ht; [|done].
    txn_inv. simpl.
    repeat (apply andb_prop in Hnothing as [Hnothing ?]).
    repeat match goal with
           | H : bool_decide _ = true |- _ => apply bool_decide_eq_true_1 in H
           end.
    repeat match goal with H : p_text p = _ |- _ => rewrite H | H : p_completed p = _ |- _ => rewrite H
           | H : p_isEmpty p = _ |- _ => rewrite H | H : p_parentId p = _ |- _ => rewrite H in * end.
    destruct (p_isIndented p); [done|].
    rewrite insert_id by done. assert (t' = t) as -> by congruence.
    destruct (p_position p) as [[|[|n]]|]; done.
  - txn_inv. simpl in *.
    match goal with H : bool_decide (_ = Some NaN) = false |- _ =>
      apply bool_decide_eq_false_1 in H; rename H into Hnan end.
    match goal with H : context [alter ?f id (todos s)] |- _ =>
      rewrite (alter_as_insert (todos s) f id t) in H by done end.
    rewrite lookup_insert_eq in H. txn_inv. simpl.
    clear Hnothing.
    unfold applyOpt.
    destruct (p_text p), (p_completed p), (p_isEmpty p), (p_parentId p) as [[?|]|],
      (p_isIndented p), (p_position p) as [[|[|n]]|]; simpl; repeat split; try done;
      try (by destruct Hnan); by destruct (parentId t).
Qed.

(** C gets a new text and goes under A; the [isIndented: false], the
    [position: null] and the [listId] of the patch are not stored. *)
Lemma updateTodo_writes_witness :
  let p := mkPatch (Some "c") None None (Some (Some 1)) (Some false) (Some JNull) (Some 9) in
  let row := (3, mkTodo "c" false false (Some 1) true (Int 3) 1) in
  let s' := storeOf [(1, item "A" None 1); (2, item "B" (Some 1) 2); row] in
  updateTodo 4 3 p threeItems = (Ret row, s')
  ∧ ∃ t, todos threeItems !! 3 = Some t
      ∧ row.1 = 3
      ∧ todos s' = <[3 := row.2]> (todos threeItems)
      ∧ lists s' = lists threeItems ∧ settings s' = settings threeItems
      ∧ text row.2 = default (text t) (p_text p)
      ∧ completed row.2 = default (completed t) (p_completed p)
      ∧ isEmpty row.2 = default (isEmpty t) (p_isEmpty p)
      ∧ parentId row.2 = default (parentId t) (p_parentId p)
      ∧ isIndented row.2
        = match p_parentId p, p_isIndented p with
          | None, None => isIndented t
          | _, _ => bool_decide (parentId row.2 ≠ None)
          end
      ∧ position row.2
        = match p_position p with
          | Some (JNumber (Num n)) => n
          | _ => position t
          end
      ∧ listId row.2 = listId t.
Proof.
  intros p row s'.
  assert (updateTodo 4 3 p threeItems = (Ret row, s')) as Hrun by (vm_compute; reflexivity).
  split; [exact Hrun|].
  exact (updateTodo_writes 4 3 p threeItems s' row Hrun).
Defined.

(** ** createTodo: which payloads are accepted *)

Lemma createTodo_eval (payload : CreatePayload) (s : Store) :
  createTodo payload s =
    let L := newListId payload s in
    let id := nextRowid (todos s) in
    let row := newRow payload s in
    let insertRow :=
      if bool_decide (new_parentId payload ≠ None) && bool_decide (newPosition payload s = Int 1)
      then (Throw CannotIndentFirst, s)
      else match lists s !! L with
           | Some _ => (Ret (id, row), setTodos (<[id := row]> (todos s)) s)
           | None => (Throw SqliteConstraint, s)
           end in
    match new_parentId payload with
    | Some p =>
        match todos s !! p with
        | Some prow =>
            if bool_decide (listId prow ≠ L) then (Throw ParentSameList, s) else insertRow
        | None => (Throw ParentTodoNotFound, s)
        end
    | None => insertRow
    end.
Proof.
  unfold createTodo, newRow, newPosition, newListId, checkNewParent, transaction, bind,
    selectTodo, gets, expect, guard, ret, throw, modifyTodos.
  cbv zeta.
  destruct (new_parentId payload) as [p|]; cbv beta iota.
  - destruct (todos s !! p) as [prow|]; cbv beta iota; [|done].
    destruct (bool_decide (listId prow ≠ _)); cbv beta iota; [done|].
    destruct (_ && _); cbv beta iota; [done|].
    destruct (lists s !! _); cbv beta iota; [|done].
    cbn [todos setTodos]. by rewrite lookup_insert_eq.
  - destruct (_ && _); cbv beta iota; [done|].
    destruct (lists s !! _); cbv beta iota; [|done].
    cbn [todos setTodos]. by rewrite lookup_insert_eq.
Qed.

Lemma createTodo_Ret_row (payload : CreatePayload) (s s' : Store) (row : TodoRow) :
  createTodo payload s = (Ret row, s') →
  row = (nextRowid (todos s), newRow payload s)
  ∧ s' = setTodos (<[nextRowid (todos s) := newRow payload s]> (todos s)) s
  ∧ is_Some (lists s !! newListId payload s).
Proof.
  rewrite createTodo_eval. cbv zeta.
  assert (∀ (b : bool) (o : outcome TodoRow * Store),
            (if b then (Throw CannotIndentFirst, s)
             else match lists s !! newListId payload s with
                  | Some _ => o
                  | None => (Throw SqliteConstraint, s)
                  end) = (Ret row, s') →
            o = (Ret row, s') ∧ is_Some (lists s !! newListId payload s)) as Hins.
  { intros [] o; [done|].
    destruct (lists s !! newListId payload s); [eauto|done]. }
  destruct (new_parentId payload) as [p|].
  - destruct (todos s !! p) as [prow|]; [|done]. case_bool_decide; [done|].
    intros [[= <- <-] ?]%Hins. by repeat split.
  - intros [[= <- <-] ?]%Hins. by repeat split.
Qed.


(** A text that is one no-break space, U+00A0, is blank: the row is stored
    as empty. *)
Lemma newRow_nbsp :
  isEmpty (newRow (newItem (String (Ascii.ascii_of_nat 194)
                              (String (Ascii.ascii_of_nat 160) EmptyString))) twoItems)
  = true.
Proof. reflexivity. Qed.

(** ** The listing of a list *)

Section listing.

Global Instance positionLe_total : Total positionLe.
Proof.
  intros a b. unfold positionLe. rewrite !num_le_lt_eq.
  destruct (num_trichotomy (position a.2) (position b.2)) as [?|[?|?]]; auto.
Qed.

Global Instance positionLe_trans : Transitive positionLe.
Proof. intros a b c. unfold positionLe, num_le. lia. Qed.

Lemma keyLe_positionLe (a b : TodoRow) : keyLe a b → positionLe a b.
Proof. unfold keyLe, positionLe. intros [H|[H _]]; apply num_le_lt_eq; auto. Qed.

Lemma num_le_antisym (a b : num) : num_le a b → num_le b a → a = b.
Proof.
  rewrite !num_le_lt_eq. intros [Hab| ->] [Hba|Heq]; try done.
  by destruct (num_lt_asym a b).
Qed.

Lemma NoDup_fmap_inj_on {A B} (f : A → B) (l : list A) (x y : A) :
  NoDup (f <$> l) → x ∈ l → y ∈ l → f x = f y → x = y.
Proof.
  intros Hnd [i Hi]%list_elem_of_lookup [j Hj]%list_elem_of_lookup Heq.
  assert (i = j) as ->; [|congruence].
  apply (NoDup_lookup (f <$> l) i j (f x)); [done| |];
    rewrite list_lookup_fmap; [by rewrite Hi|by rewrite Hj, Heq].
Qed.

Lemma contiguous_NoDup (L : Z) (d : gmap Z Todo) : contiguous L d → NoDup (positionsOf L d).
Proof.
  intros ->. apply NoDup_fmap_2; [by intros ?? [=]|]. apply NoDup_seqZ.
Qed.

(** The rows of a list come in the order of the compaction query. *)
Lemma listTodosForList_contiguous (L : Z) (s : Store) :
  contiguous L (todos s) →
  listTodosForList L s = (Ret (selectListOrdered L (todos s)), s).
Proof. done. Qed.

(** A new row whose position is above all the positions of its list comes
    last in the query. *)
Lemma selectListOrdered_insert_last (L : Z) (d : gmap Z Todo) (id : Z) (t : Todo) :
  d !! id = None →
  listId t = L →
  (∀ r, r ∈ selectListOrdered L d → num_lt (position r.2) (position t)) →
  selectListOrdered L (<[id := t]> d) = selectListOrdered L d ++ [(id, t)].
Proof.
  intros Hid HL Hlast.
  assert (∀ r, r ∈ selectListOrdered L d ++ [(id, t)]
               ↔ r ∈ selectListOrdered L (<[id := t]> d)) as Hsame.
  { intros [i ti]. rewrite elem_of_app, list_elem_of_singleton, !elem_of_selectListOrdered.
    simpl. destruct (decide (i = id)) as [->|Hne].
    - rewrite lookup_insert_eq, Hid. split.
      + intros [[? _]|[= ->]]; [done|]. done.
      + intros [[= ->] _]. by right.
    - rewrite lookup_insert_ne by done. split; [|by left].
      intros [?|[= ? _]]; done. }
  symmetry. apply (StronglySorted_unique_strong keyLe).
  - intros x1 x2 H1%Hsame H2 H12 H21.
    apply elem_of_selectListOrdered in H1 as [H1 _], H2 as [H2 _].
    pose proof (keyLe_antisym_key _ _ H12 H21) as Hk.
    destruct x1, x2; simpl in *; subst. congruence.
  - apply StronglySorted_app. split; [|split].
    + intros x1 x2 Hx1 ->%list_elem_of_singleton. left. by apply Hlast.
    + apply selectListOrdered_sorted.
    + repeat constructor.
  - apply selectListOrdered_sorted.
  - apply NoDup_Permutation; [| |exact Hsame].
    + apply (NoDup_fmap_1 fst). rewrite fmap_app. apply NoDup_app. split; [|split].
      * apply selectListOrdered_NoDup.
      * intros i ([j tj] & -> & [Hj _]%elem_of_selectListOrdered)%list_elem_of_fmap.
        simpl in *. intros ->%list_elem_of_singleton. congruence.
      * apply NoDup_singleton.
    + apply (NoDup_fmap_1 fst), selectListOrdered_NoDup.
Qed.

Lemma contiguous_positions (L : Z) (d : gmap Z Todo) (r : TodoRow) :
  contiguous L d → r ∈ selectListOrdered L d →
  ∃ k, position r.2 = Int k ∧ 1 ≤ k ≤ Z.of_nat (length (selectListOrdered L d)).
Proof.
  intros HL Hr.
  assert (position r.2 ∈ positionsOf L d) as Hin.
  { unfold positionsOf. apply list_elem_of_fmap. by exists r. }
  rewrite HL in Hin. apply list_elem_of_fmap in Hin as (k & -> & Hk%elem_of_seqZ).
  exists k. split; [done|]. unfold positionsOf in Hk. rewrite length_fmap in Hk. lia.
Qed.

End listing.

(** X7. A new item whose position is left to the engine (absent, NaN, zero
    or negative) goes to the end of its list: when the positions of the list
    were 1..N, the item gets position N + 1, the listing of the list
    afterwards is the listing before with the new row appended, and the
    positions are 1..N+1. *)
Theorem createTodo_appends (payload : CreatePayload) (s s' : Store) (row : TodoRow) :
  createTodo payload s = (Ret row, s') →
  keepsOrder (CreateTodo payload) →
  contiguous (listId row.2) (todos s) →
  ∃ before,
    listTodosForList (listId row.2) s = (Ret before, s)
    ∧ listTodosForList (listId row.2) s' = (Ret (before ++ [row]), s')
    ∧ position row.2 = Int (Z.of_nat (length before) + 1)
    ∧ contiguous (listId row.2) (todos s').
Proof.
  intros H Hpos HL.
  apply createTodo_Ret in H as (Hid & Hd & _ & _ & _ & Hp & _ & _).
  destruct row as [id t]. simpl in *. subst id.
  pose proof (nextRowid_fresh (todos s)) as Hfresh.
  set (id := nextRowid (todos s)) in *.
  rewrite (resolvePosition_missing _ _ Hpos), (selectMaxPos_contiguous _ _ HL) in Hp.
  unfold positionsOf in Hp. rewrite length_fmap in Hp. simpl in Hp.
  assert (selectListOrdered (listId t) (todos s')
          = selectListOrdered (listId t) (todos s) ++ [(id, t)]) as Hsel.
  { rewrite Hd. apply selectListOrdered_insert_last; [done|done|].
    intros r Hr. destruct (contiguous_positions _ _ r HL Hr) as (k & -> & Hk).
    rewrite Hp. apply num_lt_Int. lia. }
  assert (contiguous (listId t) (todos s')) as HL'.
  { unfold contiguous, positionsOf. rewrite Hsel, fmap_app, length_app, length_fmap.
    fold (positionsOf (listId t) (todos s)). rewrite HL. simpl.
    unfold positionsOf. rewrite !length_fmap.
    replace (length (selectListOrdered (listId t) (todos s)) + 1)%nat
      with (S (length (selectListOrdered (listId t) (todos s)))) by lia.
    rewrite seqZ_S, fmap_app. simpl. rewrite Hp. do 3 f_equal. lia. }
  exists (selectListOrdered (listId t) (todos s)).
  split; [by apply listTodosForList_contiguous|].
  split; [rewrite <- Hsel; by apply listTodosForList_contiguous|].
  split; [by rewrite Hp; f_equal; lia|done].
Qed.

Lemma createTodo_appends_witness :
  createTodo (newItem "C") twoItems
  = (Ret (3, item "C" None 3),
     storeOf [(1, item "A" None 1); (2, item "B" None 2); (3, item "C" None 3)])
  ∧ keepsOrder (CreateTodo (newItem "C"))
  ∧ contiguous 1 (todos twoItems)
  ∧ ∃ before,
      listTodosForList 1 twoItems = (Ret before, twoItems)
      ∧ listTodosForList 1
          (storeOf [(1, item "A" None 1); (2, item "B" None 2); (3, item "C" None 3)])
        = (Ret (before ++ [(3, item "C" None 3)]),
           storeOf [(1, item "A" None 1); (2, item "B" None 2); (3, item "C" None 3)])
      ∧ position (item "C" None 3) = Int (Z.of_nat (length before) + 1)
      ∧ contiguous 1
          (todos (storeOf [(1, item "A" None 1); (2, item "B" None 2); (3, item "C" None 3)])).
Proof.
  assert (createTodo (newItem "C") twoItems
          = (Ret (3, item "C" None 3),
             storeOf [(1, item "A" None 1); (2, item "B" None 2); (3, item "C" None 3)]))
    as Hrun by (vm_compute; reflexivity).
  assert (keepsOrder (CreateTodo (newItem "C"))) as Hpos by (by left).
  assert (contiguous 1 (todos twoItems)) as HL by (vm_compute; reflexivity).
  split; [exact Hrun|]. split; [exact Hpos|]. split; [exact HL|].
  exact (createTodo_appends (newItem "C") twoItems _ (3, item "C" None 3) Hrun Hpos HL).
Defined.

(** X8. In a list whose positions are 1..N a new item can always be put
    under an existing item of the list when its position is left to the
    engine: the call returns, the new row has that parent, counts as
    indented, and comes after its parent. *)
Theorem createTodo_under_parent (payload : CreatePayload) (s : Store) (p : Z) (prow : Todo) :
  new_parentId payload = Some p →
  todos s !! p = Some prow →
  listId prow = newListId payload s →
  is_Some (lists s !! newListId payload s) →
  contiguous (newListId payload s) (todos s) →
  keepsOrder (CreateTodo payload) →
  ∃ row s',
    createTodo payload s = (Ret row, s')
    ∧ todos s' !! row.1 = Some row.2
    ∧ parentId row.2 = Some p ∧ isIndented row.2 = true
    ∧ listId row.2 = listId prow
    ∧ num_lt (position prow) (position row.2).
Proof.
  intros Hp Hprow HLp [l Hl] HL Hpos.
  destruct (contiguous_positions _ _ (p, prow) HL) as (k & Hk & Hrange).
  { by apply elem_of_selectListOrdered. }
  simpl in Hk.
  assert (newPosition payload s
          = Int (Z.of_nat (length (selectListOrdered (newListId payload s) (todos s))) + 1))
    as Hnew.
  { unfold newPosition.
    rewrite (resolvePosition_missing _ _ Hpos), (selectMaxPos_contiguous _ _ HL).
    unfold positionsOf. by rewrite length_fmap. }
  rewrite createTodo_eval. cbv zeta. rewrite Hp, Hprow, Hl.
  rewrite (bool_decide_eq_false_2 (listId prow ≠ _)) by tauto.
  rewrite (bool_decide_eq_false_2 (newPosition payload s = Int 1)), andb_false_r.
  2:{ rewrite Hnew. intros [= ?]. lia. }
  eexists _, _. split; [done|]. cbn [fst snd todos setTodos].
  rewrite lookup_insert_eq. unfold newRow. cbn [parentId isIndented listId position].
  rewrite Hp, Hk, Hnew. repeat split; try done.
  apply num_lt_Int. lia.
Qed.

Lemma createTodo_under_parent_witness :
  new_parentId (mkCreatePayload None (Some "C") false false (Some 2) None) = Some 2
  ∧ todos twoItems !! 2 = Some (item "B" None 2)
  ∧ contiguous 1 (todos twoItems)
  ∧ ∃ row s',
      createTodo (mkCreatePayload None (Some "C") false false (Some 2) None) twoItems
      = (Ret row, s')
      ∧ todos s' !! row.1 = Some row.2
      ∧ parentId row.2 = Some 2 ∧ isIndented row.2 = true
      ∧ listId row.2 = listId (item "B" None 2)
      ∧ num_lt (position (item "B" None 2)) (position row.2).
Proof.
  split; [reflexivity|]. split; [reflexivity|]. split; [vm_compute; reflexivity|].
  apply (createTodo_under_parent (mkCreatePayload None (Some "C") false false (Some 2) None)
           twoItems 2 (item "B" None 2)).
  - reflexivity.
  - reflexivity.
  - reflexivity.
  - by eexists.
  - vm_compute. reflexivity.
  - by left.
Defined.

(** * Invariants of the store under every call *)

(** ** Chains of parents that end *)

Section chainsEnd.

Lemma chainsEnd_acyclic (d : gmap Z Todo) : acyclic d ↔ chainsEnd (parentOf d).
Proof.
  split.
  - intros Hd x. exists (S (size d)). by apply acyclic_chain_ends.
  - intros Hd. apply acyclic_iff. intros x n Hn Hx.
    destruct (Hd x) as [k Hk]. by apply (follow_periodic (parentOf d) n x Hn Hx k).
Qed.

(** Changing the successor of some points keeps all chains finite, when the
    chains from the changed points end and every other point keeps its
    successor or loses it. *)
Lemma chainsEnd_rewire (g g' : Z → option Z) (B : Z → Prop) `{∀ x, Decision (B x)} :
  chainsEnd g →
  (∀ x, ¬ B x → g' x = g x ∨ g' x = None) →
  (∀ b, B b → ∃ k, follow g' k b = None) →
  chainsEnd g'.
Proof.
  intros Hg Hsame Hb x. destruct (Hg x) as [k Hk]. revert x Hk.
  induction k as [|k IH]; intros x Hk; [done|].
  destruct (decide (B x)) as [HB|HB]; [by apply Hb|].
  destruct (Hsame x HB) as [Hx|Hx].
  - simpl in Hk. destruct (g x) as [y|] eqn:Hy.
    + destruct (IH y Hk) as [k' Hk']. exists (S k'). simpl. by rewrite Hx.
    + exists 1%nat. simpl. by rewrite Hx.
  - exists 1%nat. simpl. by rewrite Hx.
Qed.

(** Along a chain that does not meet [b], a function that differs only at
    [b] takes the same steps. *)
Lemma follow_avoid (g g' : Z → option Z) (b : Z) (n : nat) (x : Z) :
  (∀ y, y ≠ b → g' y = g y) →
  (∀ k, (k < n)%nat → follow g k x ≠ Some b) →
  follow g' n x = follow g n x.
Proof.
  intros Hsame. revert x. induction n as [|n IH]; intros x Havoid; [done|].
  assert (x ≠ b) as Hx by (intros ->; by apply (Havoid O); [lia|]).
  simpl. rewrite (Hsame x Hx). destruct (g x) as [y|] eqn:Hy; [|done]. simpl.
  apply IH. intros k Hk Hky. apply (Havoid (S k)); [lia|]. simpl. by rewrite Hy.
Qed.

End chainsEnd.

(** ** The walk of updateTodo, when it returns *)

Lemma ancestorWalk_Ret (d : gmap Z Todo) (tid : Z) (fuel : nat) (p : Z) :
  ancestorWalk fuel d tid (d !! p) = Ret tt →
  ∃ n, nthParent d (S n) p = None ∧ ∀ k, (k ≤ n)%nat → nthParent d (S k) p ≠ Some tid.
Proof.
  revert p. induction fuel as [|fuel IH]; intros p H;
    destruct (parentOf d p) as [q|] eqn:Hpq.
  - exfalso. unfold parentOf in Hpq. destruct (d !! p) as [c|]; [|done].
    simpl in H, Hpq. rewrite Hpq in H. by case_decide.
  - exists O. rewrite follow_1. split; [done|].
    intros k Hk. replace k with O by lia. by rewrite follow_1, Hpq.
  - unfold parentOf in Hpq. destruct (d !! p) as [c|] eqn:Hp; [|done].
    simpl in H, Hpq. rewrite Hpq in H. case_decide as Hne; [done|].
    apply IH in H as (n & Hend & Havoid).
    assert (parentOf d p = Some q) as Hpq' by (unfold parentOf; by rewrite Hp).
    exists (S n). split; [by rewrite nthParent_S, Hpq'|].
    intros [|k] Hk; rewrite nthParent_S, Hpq'; simpl; [congruence|].
    apply Havoid. lia.
  - exists O. rewrite follow_1. split; [done|].
    intros k Hk. replace k with O by lia. by rewrite follow_1, Hpq.
Qed.

(** ** What each call does to the parent relation *)

Section parents.

Lemma otherColumns_parentId (t t' : Todo) :
  otherColumns t' = otherColumns t → parentId t' = parentId t.
Proof. unfold otherColumns, setPosition. by injection 1. Qed.

Lemma otherColumns_isIndented (t t' : Todo) :
  otherColumns t' = otherColumns t → isIndented t' = isIndented t.
Proof. unfold otherColumns, setPosition. by injection 1. Qed.

Lemma parentOf_compactPositions (L : Z) (d : gmap Z Todo) (x : Z) :
  parentOf (compactPositions L d) x = parentOf d x.
Proof.
  unfold parentOf.
  pose proof (otherColumns_lookup _ _ x (compactPositions_otherColumns L d)) as Hx.
  destruct (compactPositions L d !! x) as [t'|], (d !! x) as [t|]; try done.
  simpl in *. apply otherColumns_parentId. congruence.
Qed.

Lemma chainsEnd_ext (g g' : Z → option Z) :
  (∀ x, g' x = g x) → chainsEnd g → chainsEnd g'.
Proof.
  intros Hsame Hg x. destruct (Hg x) as [k Hk]. exists k.
  by rewrite (follow_ext g' g k x Hsame).
Qed.

(** Removing edges keeps all chains finite. *)
Lemma chainsEnd_sub (g g' : Z → option Z) :
  (∀ x, g' x = g x ∨ g' x = None) → chainsEnd g → chainsEnd g'.
Proof.
  intros Hsub Hg. apply (chainsEnd_rewire g g' (λ _, False)); [done| |done].
  intros x _. apply Hsub.
Qed.

(** Under I2 a chain of parents stays inside the table. *)
Lemma follow_in_table (d : gmap Z Todo) (k : nat) (x y : Z) :
  parentsInList d → is_Some (d !! x) → nthParent d k x = Some y → is_Some (d !! y).
Proof.
  intros Hd Hx. revert y. induction k as [|k IH]; intros y.
  - by intros [= <-].
  - rewrite follow_S_r. destruct (nthParent d k x) as [z|]; [|done]. simpl.
    unfold parentOf. destruct (d !! z) as [tz|] eqn:Hz; [|done]. simpl. intros Hy.
    pose proof (Hd z tz Hz) as Hzy. simpl in Hzy. rewrite Hy in Hzy.
    destruct Hzy as (ty & -> & _). eauto.
Qed.

Lemma parentOf_deleteRows (ids : list Z) (d : gmap Z Todo) (x : Z) :
  parentOf (deleteRows ids d) x = parentOf d x ∨ parentOf (deleteRows ids d) x = None.
Proof.
  unfold parentOf. destruct (deleteRows ids d !! x) as [t'|] eqn:Hx; [|by right].
  apply deleteRows_row in Hx as (_ & t & -> & ->). simpl.
  unfold fkSetNull. destruct (parentId t) as [p|] eqn:Hp; [|by left].
  case_decide; [by right|by left].
Qed.

Lemma parentOf_lift (desc : list Z) (d : gmap Z Todo) (x : Z) :
  parentOf (foldl (λ d did, liftRow did d) d desc) x = parentOf d x
  ∨ parentOf (foldl (λ d did, liftRow did d) d desc) x = None.
Proof.
  unfold parentOf. rewrite lift_lookup. destruct (d !! x) as [t|]; [|by left].
  simpl. destruct (decide (x ∈ desc)); [by right|by left].
Qed.

End parents.

Section proposedKeys.

Lemma mapSet_keys (k : Z) (v : Z * option Z) (m : Proposed) (i : Z) :
  i ∈ (mapSet k v m).*1 ↔ i = k ∨ i ∈ m.*1.
Proof.
  induction m as [|[k' v'] m IH]; simpl.
  - rewrite list_elem_of_singleton. split; [by left|]. intros [?|?%elem_of_nil]; done.
  - case_decide as Hk; simpl; rewrite !elem_of_cons.
    + subst. tauto.
    + rewrite IH. tauto.
Qed.

Lemma mapSet_NoDup (k : Z) (v : Z * option Z) (m : Proposed) :
  NoDup m.*1 → NoDup (mapSet k v m).*1.
Proof.
  induction m as [|[k' v'] m IH]; simpl; [intros _; apply NoDup_singleton|].
  intros [Hk' Hnd]%NoDup_cons. case_decide as Hk; simpl.
  - subst. by apply NoDup_cons.
  - apply NoDup_cons. split; [|by apply IH].
    rewrite mapSet_keys. intros [?|?]; [congruence|done].
Qed.

Lemma proposedOf_keys_NoDup (rows : list Update) (acc : Proposed) :
  NoDup acc.*1 → NoDup (proposedOf rows acc).*1.
Proof.
  revert acc. induction rows as [|r rows IH]; intros acc Hacc; [done|].
  simpl. by apply IH, mapSet_NoDup.
Qed.

Lemma proposedOf_keys (rows : list Update) (acc : Proposed) (i : Z) :
  i ∈ (proposedOf rows acc).*1 ↔ i ∈ acc.*1 ∨ i ∈ upd_id <$> rows.
Proof.
  revert acc. induction rows as [|r rows IH]; intros acc; simpl.
  - split; [by left|]. intros [?|?%elem_of_nil]; done.
  - rewrite IH, mapSet_keys, elem_of_cons. tauto.
Qed.

(** The table after the loop of UPDATEs, row by row. *)
Lemma applyProposed_row (proposed : Proposed) (d : gmap Z Todo) (i : Z) :
  NoDup proposed.*1 →
  applyProposed proposed d !! i
  = match mapGet i proposed with
    | Some v => placed v.1 v.2 <$> d !! i
    | None => d !! i
    end.
Proof.
  intros Hnd.
  destruct (applyProposed_lookup proposed d i) as [[Hi ->]|(pos & pid & Hin & ->)].
  - by rewrite (proj2 (mapGet_None i proposed)).
  - by rewrite (mapGet_NoDup i (pos, pid) proposed Hnd Hin).
Qed.

End proposedKeys.

(** ** What a call that returns has done *)

Section returns.

Lemma modifySettings_Ret (f : Settings → Settings) (u : unit) (s s' : Store) :
  modifySettings f s = (Ret u, s') → s' = mkStore (todos s) (lists s) (f (settings s)).
Proof. unfold modifySettings. by intros [= _ <-]. Qed.

Lemma modifyLists_Ret (f : gmap Z ListRow → gmap Z ListRow) (u : unit) (s s' : Store) :
  modifyLists f s = (Ret u, s') → s' = mkStore (todos s) (f (lists s)) (settings s).
Proof. unfold modifyLists. by intros [= _ <-]. Qed.

(** [updateTodo]: as [updateTodo_Ret], with what the walk has checked. *)
Lemma updateTodo_Ret_walk (fuel : nat) (id : Z) (p : Patch) (s s' : Store) (row : TodoRow) :
  updateTodo fuel id p s = (Ret row, s') →
  ∃ t, todos s !! id = Some t
    ∧ lists s' = lists s ∧ settings s' = settings s
    ∧ (todos s' = todos s
       ∨ todos s' = alter (patched p (default (parentId t) (p_parentId p))) id (todos s))
    ∧ ∀ tp, default (parentId t) (p_parentId p) = Some tp →
        tp ≠ id
        ∧ (∃ pr, todos s !! tp = Some pr ∧ listId pr = listId t)
        ∧ ancestorWalk fuel (todos s) id (todos s !! tp) = Ret tt.
Proof.
  unfold updateTodo. intros H. txn_inv.
  rename a0 into t. exists t. split; [done|].
  match goal with H : checkParent _ _ _ _ _ = _ |- _ =>
    apply checkParent_Ret in H as [-> Hcheck] end.
  assert (∀ tp, default (parentId t) (p_parentId p) = Some tp →
            tp ≠ id
            ∧ (∃ pr, todos s !! tp = Some pr ∧ listId pr = listId t)
            ∧ ancestorWalk fuel (todos s) id (todos s !! tp) = Ret tt) as Hvalid.
  { intros tp Htp. destruct (Hcheck tp) as (? & pr & Hpr & ? & ?).
    { by destruct (p_parentId p). }
    rewrite Hpr. eauto. }
  destruct (_ && _ && _ && _ && _ && _) in H.
  - txn_inv. destruct (todos s !! id) as [t'|] eqn:Ht; [|done].
    txn_inv. simpl. eauto 10.
  - txn_inv. simpl in *.
    match goal with H : context [alter ?f id (todos s)] |- _ =>
      destruct (alter f id (todos s) !! id) as [t'|] eqn:Ht; [|done] end.
    txn_inv. simpl. split; [done|]. split; [done|]. split; [|done].
    right. reflexivity.
Qed.

Lemma deleteList_Ret (id : Z) (u : unit) (s s' : Store) :
  deleteList id s = (Ret u, s') →
  is_Some (lists s !! id) ∧ s' = deleteListRow id s.
Proof.
  unfold deleteList. intros H. txn_inv.
  unfold deleteFromLists in *.
  match goal with H : bool_decide (_ = 0%nat) = false |- _ =>
    apply bool_decide_eq_false_1 in H; rename H into Hchanges end.
  destruct (lists s !! id) as [l|] eqn:Hl.
  2:{ match goal with H : (_, s) = (Ret _, _) |- _ => injection H as Ha _ end.
      by destruct Hchanges. }
  match goal with H : (_, deleteListRow id s) = (Ret _, _) |- _ => injection H as <- <- end.
  split; [done|].
  assert (current_list_id (settings (deleteListRow id s)) ≠ Some id) as Hcur.
  { unfold deleteListRow. cbv zeta. cbn [settings current_list_id].
    destruct (decide (current_list_id (settings s) = Some id)) as [E|E];
      [by rewrite bool_decide_eq_true_2|by rewrite bool_decide_eq_false_2]. }
  rewrite (bool_decide_eq_false_2 _ Hcur) in H. by txn_inv.
Qed.

End returns.

Ltac store_inv :=
  repeat (first
    [ txn_step
    | match goal with
      | H : modifySettings _ _ = (Ret _, _) |- _ => apply modifySettings_Ret in H
      | H : modifyLists _ _ = (Ret _, _) |- _ => apply modifyLists_Ret in H
      end ]; subst).

(** The calls that are not calls of the engine leave the todos alone. *)
Lemma call_other_todos (fuel : nat) (c : Call) (s s' : Store) :
  (∀ op, c ≠ Engine op) → call fuel c s = (Ret tt, s') → todos s' = todos s.
Proof.
  intros Hc H. destruct c; simpl in H; try (by destruct (Hc op));
    unfold getSettingsRow, setTitle, setDarkMode, getSettings, getSettingsRow,
      getCurrentListId, setCurrentList, listTodosForList, listLists, createList,
      renameList in H; by store_inv.
Qed.

(** ** The parent graph stays acyclic (I3) *)

Section keeps_acyclic.

Lemma createTodo_chainsEnd (payload : CreatePayload) (s s' : Store) (row : TodoRow) :
  parentsInList (todos s) →
  chainsEnd (parentOf (todos s)) →
  createTodo payload s = (Ret row, s') →
  chainsEnd (parentOf (todos s')).
Proof.
  intros HI2 Hg H.
  apply createTodo_Ret in H as (Hid & Hd & _ & _ & Hpid & _ & _ & Hparent).
  destruct row as [id t]. simpl in *. subst id. rewrite Hd.
  pose proof (nextRowid_fresh (todos s)) as Hfresh.
  set (id := nextRowid (todos s)) in *.
  assert (∀ y, y ≠ id → parentOf (<[id:=t]> (todos s)) y = parentOf (todos s) y) as Hoff.
  { intros y Hy. unfold parentOf. by rewrite lookup_insert_ne. }
  assert (parentOf (<[id:=t]> (todos s)) id = new_parentId payload) as Hat.
  { unfold parentOf. by rewrite lookup_insert_eq. }
  apply (chainsEnd_rewire (parentOf (todos s)) _ (λ x, x = id)); [done| |].
  - intros x Hx. left. by apply Hoff.
  - intros b ->. destruct (new_parentId payload) as [p|] eqn:Hp.
    + destruct (Hparent p eq_refl) as (prow & Hprow & _).
      destruct (Hg p) as [k Hk]. exists (S k).
      change (parentOf (<[id:=t]> (todos s)) id ≫= follow (parentOf (<[id:=t]> (todos s))) k
              = None).
      rewrite Hat. simpl.
      rewrite (follow_avoid (parentOf (todos s)) _ id k p); [done|done|].
      intros j _ Hj.
      apply (follow_in_table (todos s) j p id HI2) in Hj; [|eauto].
      rewrite Hfresh in Hj. by destruct Hj.
    + exists 1%nat. by rewrite follow_1, Hat.
Qed.

Lemma updateTodo_chainsEnd (fuel : nat) (id : Z) (p : Patch) (s s' : Store) (row : TodoRow) :
  chainsEnd (parentOf (todos s)) →
  updateTodo fuel id p s = (Ret row, s') →
  chainsEnd (parentOf (todos s')).
Proof.
  intros Hg H.
  apply updateTodo_Ret_walk in H as (t & Ht & _ & _ & [-> | ->] & Hvalid); [done|].
  set (target := default (parentId t) (p_parentId p)) in *.
  set (d' := alter (patched p target) id (todos s)).
  assert (∀ y, y ≠ id → parentOf d' y = parentOf (todos s) y) as Hoff.
  { intros y Hy. unfold parentOf, d'. by rewrite lookup_alter_ne. }
  assert (parentOf d' id = target) as Hat.
  { unfold parentOf, d'. rewrite lookup_alter_eq, Ht. simpl. apply patched_parentId. }
  apply (chainsEnd_rewire (parentOf (todos s)) _ (λ x, x = id)); [done| |].
  - intros x Hx. left. by apply Hoff.
  - intros b ->. destruct target as [tp|] eqn:Htarget.
    + destruct (Hvalid tp eq_refl) as (Hne & _ & Hwalk).
      apply ancestorWalk_Ret in Hwalk as (n & Hend & Havoid).
      exists (S (S n)).
      change (parentOf d' id ≫= follow (parentOf d') (S n) = None).
      rewrite Hat. cbn [mbind option_bind].
      rewrite (follow_avoid (parentOf (todos s)) _ id (S n) tp); [done|done|].
      intros [|k] Hk; [by intros [= ?]|]. apply Havoid. lia.
    + exists 1%nat. by rewrite follow_1, Hat.
Qed.

Lemma updateTodoPositions_chainsEnd (fuel : nat) (updates : list Update) (s s' : Store)
    (r : BulkResult) :
  chainsEnd (parentOf (todos s)) →
  updateTodoPositions fuel updates s = (Ret r, s') →
  chainsEnd (parentOf (todos s')).
Proof.
  intros Hg H. destruct (decide (updates = [])) as [->|Hne].
  { simpl in H. by apply ret_Ret in H as [_ ->]. }
  apply updateTodoPositions_Ret in H as (r0 & t0 & _ & _ & Hok & Hvalid & _ & ->); [|done].
  set (L := listId t0) in *. set (proposed := proposedOf updates []) in *.
  apply validateProposed_Ret in Hvalid. rewrite Forall_forall in Hvalid.
  assert (NoDup proposed.*1) as Hnd by (apply proposedOf_keys_NoDup; constructor).
  cbn [todos setTodos].
  apply (chainsEnd_ext (getParent proposed (todos s))).
  { intros x. rewrite parentOf_compactPositions. unfold parentOf, getParent.
    rewrite applyProposed_row by done.
    destruct (mapGet x proposed) as [[pos pid]|] eqn:Hx; [|done].
    apply mapGet_Some in Hx.
    assert (x ∈ upd_id <$> updates) as Hin.
    { assert (x ∈ proposed.*1) as Hk by (apply list_elem_of_fmap; by exists (x, (pos, pid))).
      apply proposedOf_keys in Hk as [?%elem_of_nil|?]; done. }
    apply list_elem_of_fmap in Hin as (r' & -> & Hr').
    rewrite Forall_forall in Hok. destruct (Hok r' Hr') as [(t & -> & _) _]. done. }
  apply (chainsEnd_rewire (parentOf (todos s)) _ (λ x, x ∈ proposed.*1)); [done| |].
  - intros x Hx. left. unfold getParent, parentOf.
    by rewrite (proj2 (mapGet_None x proposed) Hx).
  - intros b ([b' [pos pid]] & -> & Hin)%list_elem_of_fmap. simpl.
    assert (getParent proposed (todos s) b' = pid) as Hat.
    { unfold getParent. by rewrite (mapGet_NoDup b' (pos, pid) proposed Hnd Hin). }
    destruct (Hvalid _ Hin) as [_ Hcheck]. unfold entryCheck in Hcheck. simpl in Hcheck.
    destruct pid as [p0|].
    + apply (cycleCheck_Ret (getParent proposed (todos s)) fuel [b'] (Some p0)); [|done|left].
      intros x ->%list_elem_of_singleton. exists 1%nat. split; [lia|].
      by rewrite follow_1.
    + exists 1%nat. by rewrite follow_1.
Qed.

Lemma deleteTodo_chainsEnd (fuel : nat) (id : Z) (opts : option bool) (s s' : Store)
    (r : DeleteResult) :
  chainsEnd (parentOf (todos s)) →
  deleteTodo fuel id opts s = (Ret r, s') →
  chainsEnd (parentOf (todos s')).
Proof.
  intros Hg H.
  destruct (deleteTodo_Ret fuel id opts s r s' H) as (t & rows & Ht & Hrows).
  rewrite (deleteTodo_eval fuel id opts s t rows Ht Hrows) in H. simpl in H.
  destruct (cascadeOf opts); injection H as _ <-; cbn [todos setTodos];
    apply (chainsEnd_ext _ _ (parentOf_compactPositions _ _)).
  - by apply (chainsEnd_sub _ _ (parentOf_deleteRows _ _)).
  - apply (chainsEnd_sub _ _ (parentOf_deleteRows _ _)).
    by apply (chainsEnd_sub _ _ (parentOf_lift _ _)).
Qed.

Lemma perform_chainsEnd (fuel : nat) (op : Operation) (s s' : Store) (r : Response) :
  parentsInList (todos s) →
  chainsEnd (parentOf (todos s)) →
  perform fuel op s = (Ret r, s') →
  chainsEnd (parentOf (todos s')).
Proof.
  intros HI2 Hg H. destruct op as [payload|id p|updates|body|id opts|id]; simpl in H; txn_inv.
  - by eapply createTodo_chainsEnd.
  - by eapply updateTodo_chainsEnd.
  - by eapply updateTodoPositions_chainsEnd.
  - match goal with H : patchTodosPositions _ _ _ = _ |- _ =>
      apply patchTodosPositions_Ret in H as (_ & _ & _ & H) end.
    by eapply updateTodoPositions_chainsEnd.
  - by eapply deleteTodo_chainsEnd.
  - match goal with H : deleteList _ _ = _ |- _ => apply deleteList_Ret in H as [_ ->] end.
    unfold deleteListRow. cbn [todos].
    by apply (chainsEnd_sub _ _ (parentOf_deleteRows _ _)).
Qed.

End keeps_acyclic.

(** X9. Invariant I3. From a store in which no item is its own ancestor and
    every parent is an item of the same list, every call of an exported
    function that returns leads to a store in which again no item is its own
    ancestor: [createTodo] and [updateTodo] with any position, the bulk
    update, both kinds of deletion, [deleteList] and the calls on settings
    and lists. *)
Theorem call_keeps_acyclic (fuel : nat) (c : Call) (s s' : Store) :
  parentsInList (todos s) →
  acyclic (todos s) →
  call fuel c s = (Ret tt, s') →
  acyclic (todos s').
Proof.
  intros HI2 Hd H.
  destruct c as [op| | | | | | | | | |];
    [|apply call_other_todos in H as ->; [done|by intros ? ?]..].
  simpl in H. txn_inv. apply chainsEnd_acyclic.
  eapply perform_chainsEnd; [done| |done]. by apply chainsEnd_acyclic.
Qed.

Lemma call_keeps_acyclic_witness :
  parentsInList (todos threeItems)
  ∧ acyclic (todos threeItems)
  ∧ call 4 (Engine (UpdateTodo 3 (reparent (Some 2)))) threeItems
    = (Ret tt, storeOf [(1, item "A" None 1); (2, item "B" (Some 1) 2);
                        (3, item "C" (Some 2) 3)])
  ∧ acyclic (todos (storeOf [(1, item "A" None 1); (2, item "B" (Some 1) 2);
                             (3, item "C" (Some 2) 3)])).
Proof.
  assert (parentsInList (todos threeItems)) as HI2.
  { apply (bool_decide_unpack _). vm_compute. exact I. }
  assert (acyclic (todos threeItems)) as Hd.
  { apply (bool_decide_unpack _). vm_compute. exact I. }
  assert (call 4 (Engine (UpdateTodo 3 (reparent (Some 2)))) threeItems
          = (Ret tt, storeOf [(1, item "A" None 1); (2, item "B" (Some 1) 2);
                              (3, item "C" (Some 2) 3)])) as Hrun.
  { vm_compute. reflexivity. }
  split; [exact HI2|]. split; [exact Hd|]. split; [exact Hrun|].
  exact (call_keeps_acyclic 4 _ threeItems _ HI2 Hd Hrun).
Defined.

(** ** Parents stay in the list of their children (I2) *)

Section keeps_parents.

Lemma createTodo_parentsInList (payload : CreatePayload) (s s' : Store) (row : TodoRow) :
  parentsInList (todos s) →
  createTodo payload s = (Ret row, s') →
  parentsInList (todos s').
Proof.
  intros HI2 H.
  apply createTodo_Ret in H as (Hid & Hd & _ & _ & Hpid & _ & _ & Hparent).
  destruct row as [id t]. simpl in *. subst id.
  pose proof (nextRowid_fresh (todos s)) as Hfresh.
  set (id := nextRowid (todos s)) in *.
  rewrite Hd. apply (parentsInList_update (todos s)); [done| |].
  - intros i t0 t' Ht0. destruct (decide (id = i)) as [<-|Hne]; [congruence|].
    rewrite lookup_insert_ne by done. congruence.
  - intros i t' p Hi Hpar.
    assert (is_Some (todos s !! p) → is_Some (<[id:=t]> (todos s) !! p)) as Hsome.
    { intros Hs. rewrite lookup_insert_ne; [done|]. intros <-.
      rewrite Hfresh in Hs. by destruct Hs. }
    destruct (decide (id = i)) as [<-|Hne].
    + rewrite lookup_insert_eq in Hi. injection Hi as <-.
      rewrite Hpid in Hpar. destruct (Hparent p Hpar) as (prow & Hprow & HLp).
      split; [apply Hsome; eauto|]. right. eauto.
    + rewrite lookup_insert_ne in Hi by done. split; [|left; eauto].
      apply Hsome. pose proof (HI2 i t' Hi) as Hit. simpl in Hit.
      rewrite Hpar in Hit. destruct Hit as (tp & ? & _). eauto.
Qed.

Lemma updateTodo_parentsInList (fuel : nat) (id : Z) (p : Patch) (s s' : Store)
    (row : TodoRow) :
  parentsInList (todos s) →
  updateTodo fuel id p s = (Ret row, s') →
  parentsInList (todos s').
Proof.
  intros HI2 H.
  apply updateTodo_Ret in H as (t & Ht & _ & _ & _ & _ & [Hd|Hd] & Hvalid);
    rewrite Hd; [done|].
  set (target := match p_parentId p with Some v => v | None => parentId t end) in *.
  apply (parentsInList_update (todos s)); [done| |].
  - intros i t0 t' Ht0. destruct (decide (id = i)) as [<-|Hne].
    + rewrite lookup_alter_eq, Ht. intros [= <-]. rewrite patched_listId. congruence.
    + rewrite lookup_alter_ne by done. congruence.
  - intros i t' q Hi Hq.
    assert (∀ x, is_Some (todos s !! x) →
                 is_Some (alter (patched p target) id (todos s) !! x)) as Hsome.
    { intros x. rewrite lookup_alter. case_decide; [subst; rewrite fmap_is_Some|]; done. }
    destruct (decide (id = i)) as [<-|Hne].
    + rewrite lookup_alter_eq, Ht in Hi. injection Hi as <-.
      unfold target in Hq. rewrite patched_parentId in Hq.
      destruct (Hvalid q Hq) as (_ & pr & Hpr & HL).
      split; [apply Hsome; eauto|]. right. exists pr. by rewrite patched_listId.
    + rewrite lookup_alter_ne in Hi by done. split; [|left; eauto].
      apply Hsome. pose proof (HI2 i t' Hi) as Hit. simpl in Hit.
      rewrite Hq in Hit. destruct Hit as (tp & ? & _). eauto.
Qed.

Lemma updateTodoPositions_parentsInList (fuel : nat) (updates : list Update) (s s' : Store)
    (r : BulkResult) :
  parentsInList (todos s) →
  updateTodoPositions fuel updates s = (Ret r, s') →
  parentsInList (todos s').
Proof.
  intros HI2 H. destruct (decide (updates = [])) as [->|Hne].
  { simpl in H. by apply ret_Ret in H as [_ ->]. }
  apply updateTodoPositions_Ret in H as (r0 & t0 & _ & _ & Hok & Hvalid & _ & ->); [|done].
  set (L := listId t0) in *. set (proposed := proposedOf updates []) in *.
  apply validateProposed_Ret in Hvalid.
  assert (∀ i pos pid, (i, (pos, pid)) ∈ proposed →
            (∃ t, todos s !! i = Some t ∧ listId t = L)
            ∧ ∀ p, pid = Some p → ∃ meta, todos s !! p = Some meta ∧ listId meta = L)
    as Hentries.
  { intros i pos pid Hin. split.
    - apply elem_of_proposedOf in Hin as [?%elem_of_nil|(r' & Hr' & Heq)]; [done|].
      rewrite Forall_forall in Hok. destruct (Hok r' Hr') as [Hex _].
      injection Heq as -> _ _. done.
    - rewrite Forall_forall in Hvalid. destruct (Hvalid _ Hin) as [Hp _]. exact Hp. }
  assert (∀ i, is_Some (todos s !! i) → is_Some (applyProposed proposed (todos s) !! i))
    as Hdom.
  { intros i Hi. destruct (applyProposed_lookup proposed (todos s) i)
      as [[_ ->]|(pos & pid & _ & ->)]; [done|]. by rewrite fmap_is_Some. }
  cbn [todos setTodos]. apply compactPositions_parentsInList.
  apply (parentsInList_update (todos s)); [done| |].
  - intros i t t' Ht. destruct (applyProposed_lookup proposed (todos s) i)
      as [[_ ->]|(pos & pid & _ & ->)]; rewrite Ht; [congruence|]. by intros [= <-].
  - intros i t' p. destruct (applyProposed_lookup proposed (todos s) i)
      as [[_ ->]|(pos & pid & Hin & ->)].
    + intros Ht' Hp. split; [|left; eauto]. apply Hdom.
      pose proof (HI2 i t' Ht') as Hit. simpl in Hit. rewrite Hp in Hit.
      destruct Hit as (tp & ? & _). eauto.
    + destruct (Hentries i pos pid Hin) as [(t & Ht & HL) Hparent].
      rewrite Ht. intros [= <-] Hp. simpl in Hp. subst pid.
      destruct (Hparent p eq_refl) as (meta & Hmeta & HLm).
      split; [apply Hdom; eauto|]. right. exists meta. split; [done|].
      simpl. congruence.
Qed.

Lemma deleteTodo_parentsInList (fuel : nat) (id : Z) (opts : option bool) (s s' : Store)
    (r : DeleteResult) :
  parentsInList (todos s) →
  deleteTodo fuel id opts s = (Ret r, s') →
  parentsInList (todos s').
Proof.
  intros HI2 H.
  destruct (deleteTodo_Ret fuel id opts s r s' H) as (t & rows & Ht & Hrows).
  rewrite (deleteTodo_eval fuel id opts s t rows Ht Hrows) in H. simpl in H.
  destruct (cascadeOf opts); injection H as _ <-; cbn [todos setTodos].
  - by apply compactPositions_parentsInList, deleteRows_parentsInList.
  - by apply compactPositions_parentsInList, deleteRows_parentsInList, lift_parentsInList.
Qed.

Lemma perform_parentsInList (fuel : nat) (op : Operation) (s s' : Store) (r : Response) :
  parentsInList (todos s) →
  perform fuel op s = (Ret r, s') →
  parentsInList (todos s').
Proof.
  intros HI2 H. destruct op as [payload|id p|updates|body|id opts|id]; simpl in H; txn_inv.
  - by eapply createTodo_parentsInList.
  - by eapply updateTodo_parentsInList.
  - by eapply updateTodoPositions_parentsInList.
  - match goal with H : patchTodosPositions _ _ _ = _ |- _ =>
      apply patchTodosPositions_Ret in H as (_ & _ & _ & H) end.
    by eapply updateTodoPositions_parentsInList.
  - by eapply deleteTodo_parentsInList.
  - match goal with H : deleteList _ _ = _ |- _ => apply deleteList_Ret in H as [_ ->] end.
    unfold deleteListRow. cbn [todos]. by apply deleteRows_parentsInList.
Qed.

End keeps_parents.

(** ** The rows after a call *)

Section rows.

Lemma rowOk_kept (s : Store) (i : Z) (t t' : Todo) :
  todos s !! i = Some t →
  listId t' = listId t → parentId t' = parentId t → isIndented t' = isIndented t →
  rowOk s i t'.
Proof. intros Ht ???. unfold rowOk. rewrite Ht. auto. Qed.

Lemma rowOk_same (s : Store) (i : Z) (t : Todo) : todos s !! i = Some t → rowOk s i t.
Proof. intros Ht. by apply (rowOk_kept s i t t). Qed.

Lemma rowOk_otherColumns (s : Store) (i : Z) (t t' : Todo) :
  otherColumns t' = otherColumns t → rowOk s i t → rowOk s i t'.
Proof.
  intros Hcols. unfold rowOk.
  rewrite (otherColumns_listId _ _ Hcols), (otherColumns_parentId _ _ Hcols),
    (otherColumns_isIndented _ _ Hcols). done.
Qed.

Lemma patched_indent (p : Patch) (t : Todo) :
  let t' := patched p (default (parentId t) (p_parentId p)) t in
  (parentId t' = parentId t ∧ isIndented t' = isIndented t)
  ∨ isIndented t' = bool_decide (parentId t' ≠ None).
Proof.
  unfold patched, applyOpt.
  destruct (p_text p), (p_completed p), (p_isEmpty p), (p_parentId p) as [[?|]|],
    (p_isIndented p), (p_position p) as [[|[|n]]|]; simpl; auto.
Qed.

(** The rows of the recursive query are closed under children. *)
Lemma cteRows_children (d : gmap Z Todo) (fuel : nat) (tid : Z) (rows : list Z) (p x : Z) :
  cteRows fuel d [tid] = Some rows → p ∈ rows → parentOf d x = Some p → x ∈ rows.
Proof.
  intros Hrows Hp Hx. apply (cteRows_elem d _ _ _ _ Hrows).
  apply (cteRows_elem d _ _ _ p Hrows) in Hp as (k & w & Hw & Hk).
  exists (S k), w. split; [done|]. by rewrite nthParent_S, Hx.
Qed.

Lemma createTodo_rows (payload : CreatePayload) (s s' : Store) (row : TodoRow) :
  createTodo payload s = (Ret row, s') →
  ∀ i t', todos s' !! i = Some t' → rowOk s i t'.
Proof.
  intros (-> & -> & Hl)%createTodo_Ret_row i t'. cbn [todos setTodos].
  pose proof (nextRowid_fresh (todos s)) as Hfresh.
  destruct (decide (nextRowid (todos s) = i)) as [<-|Hne].
  - rewrite lookup_insert_eq. intros [= <-]. unfold rowOk. rewrite Hfresh. done.
  - rewrite lookup_insert_ne by done. apply rowOk_same.
Qed.

Lemma updateTodo_rows (fuel : nat) (id : Z) (p : Patch) (s s' : Store) (row : TodoRow) :
  updateTodo fuel id p s = (Ret row, s') →
  ∀ i t', todos s' !! i = Some t' → rowOk s i t'.
Proof.
  intros (t & Ht & _ & _ & [-> | ->] & _)%updateTodo_Ret_walk i t';
    [apply rowOk_same|].
  destruct (decide (id = i)) as [<-|Hne].
  - rewrite lookup_alter_eq, Ht. intros [= <-]. unfold rowOk. rewrite Ht.
    split; [apply patched_listId|apply patched_indent].
  - rewrite lookup_alter_ne by done. apply rowOk_same.
Qed.

Lemma updateTodoPositions_rows (fuel : nat) (updates : list Update) (s s' : Store)
    (r : BulkResult) :
  updateTodoPositions fuel updates s = (Ret r, s') →
  ∀ i t', todos s' !! i = Some t' → rowOk s i t'.
Proof.
  intros H. destruct (decide (updates = [])) as [->|Hne].
  { simpl in H. apply ret_Ret in H as [_ ->]. intros i t'. apply rowOk_same. }
  apply updateTodoPositions_Ret in H as (r0 & t0 & _ & _ & _ & _ & _ & ->); [|done].
  intros i t' (t1 & Ht1 & Hcols)%compactPositions_row.
  apply (rowOk_otherColumns s i t1 t' Hcols).
  destruct (applyProposed_lookup (proposedOf updates []) (todos s) i)
    as [[_ Hi]|(pos & pid & _ & Hi)]; rewrite Hi in Ht1; [by apply rowOk_same|].
  destruct (todos s !! i) as [t|] eqn:Ht; [|done]. injection Ht1 as <-.
  unfold rowOk. rewrite Ht. split; [done|]. by right.
Qed.

Lemma deleteTodo_rows (fuel : nat) (id : Z) (opts : option bool) (s s' : Store)
    (r : DeleteResult) :
  deleteTodo fuel id opts s = (Ret r, s') →
  ∀ i t', todos s' !! i = Some t' → rowOk s i t'.
Proof.
  intros H.
  destruct (deleteTodo_Ret fuel id opts s r s' H) as (t & rows & Ht & Hrows).
  rewrite (deleteTodo_eval fuel id opts s t rows Ht Hrows) in H. simpl in H.
  destruct (cascadeOf opts); injection H as _ <-; cbn [todos setTodos];
    intros i t' (t1 & Ht1 & Hcols)%compactPositions_row;
    apply (rowOk_otherColumns s i t1 t' Hcols);
    apply deleteRows_row in Ht1 as (Hi & t2 & Ht2 & ->).
  - rewrite fkSetNull_other; [by apply rowOk_same|].
    intros p Hp [_ Hin]%list_elem_of_filter. apply Hi.
    apply (cteRows_children (todos s) fuel id rows p i Hrows Hin).
    unfold parentOf. by rewrite Ht2.
  - rewrite lift_lookup in Ht2.
    destruct (todos s !! i) as [ti|] eqn:Hti; [|done]. simpl in Ht2. injection Ht2 as <-.
    destruct (decide (i ∈ filter (λ i, i ≠ id) rows)) as [Hin|Hout].
    + unfold rowOk. rewrite Hti. unfold fkSetNull. simpl. split; [done|]. by right.
    + rewrite fkSetNull_other; [by apply rowOk_same|].
      intros p Hp [_ ->%list_elem_of_singleton]%list_elem_of_filter.
      apply Hout, list_elem_of_filter. split.
      * intros ->. apply Hi. left.
      * apply (cteRows_children (todos s) fuel id rows id i Hrows).
        -- apply (cteRows_elem (todos s) _ _ _ _ Hrows). exists O, id. split; [left|done].
        -- unfold parentOf. by rewrite Hti.
Qed.

Lemma deleteListRow_rows (lid : Z) (s : Store) :
  parentsInList (todos s) →
  ∀ i t', todos (deleteListRow lid s) !! i = Some t' →
    todos s !! i = Some t' ∧ listId t' ≠ lid.
Proof.
  intros HI2 i t'. unfold deleteListRow. cbn [todos].
  intros (Hi & t & Ht & ->)%deleteRows_row.
  assert (listId t ≠ lid) as HL.
  { intros HL. apply Hi. apply list_elem_of_fmap. exists (i, t). split; [done|].
    by apply elem_of_map_to_list, map_lookup_filter_Some. }
  rewrite fkSetNull_other; [done|].
  intros p Hp [_ ([p' tp] & -> & Hin)%list_elem_of_fmap]%list_elem_of_filter.
  apply elem_of_map_to_list, map_lookup_filter_Some in Hin as [Htp HLp]. simpl in *.
  pose proof (HI2 i t Ht) as Hit. simpl in Hit. rewrite Hp in Hit.
  destruct Hit as (tp' & Htp' & HL'). congruence.
Qed.

Lemma perform_rows (fuel : nat) (op : Operation) (s s' : Store) (r : Response) :
  parentsInList (todos s) →
  perform fuel op s = (Ret r, s') →
  ∀ i t', todos s' !! i = Some t' → rowOk s i t'.
Proof.
  intros HI2 H. destruct op as [payload|id p|updates|body|id opts|id]; simpl in H; txn_inv.
  - by eapply createTodo_rows.
  - by eapply updateTodo_rows.
  - by eapply updateTodoPositions_rows.
  - match goal with H : patchTodosPositions _ _ _ = _ |- _ =>
      apply patchTodosPositions_Ret in H as (_ & _ & _ & H) end.
    by eapply updateTodoPositions_rows.
  - by eapply deleteTodo_rows.
  - match goal with H : deleteList _ _ = _ |- _ => apply deleteList_Ret in H as [_ ->] end.
    intros i t' [Ht _]%deleteListRow_rows; [|done]. by apply rowOk_same.
Qed.

(** The calls of the engine other than [deleteList] leave lists and settings
    alone. *)
Lemma perform_frame (fuel : nat) (op : Operation) (s s' : Store) (r : Response) :
  (∀ id, op ≠ DeleteList id) →
  perform fuel op s = (Ret r, s') →
  lists s' = lists s ∧ settings s' = settings s.
Proof.
  intros Hop H. destruct op as [payload|id p|updates|body|id opts|id]; simpl in H; txn_inv.
  - match goal with H : createTodo _ _ = _ |- _ =>
      by apply createTodo_Ret_row in H as (_ & -> & _) end.
  - match goal with H : updateTodo _ _ _ _ = _ |- _ =>
      by apply updateTodo_Ret_walk in H as (t & _ & ? & ? & _) end.
  - match goal with H : updateTodoPositions _ _ _ = _ |- _ => rename H into Hrun end.
    destruct (decide (updates = [])) as [->|Hne].
    { simpl in Hrun. by apply ret_Ret in Hrun as [_ ->]. }
    by apply updateTodoPositions_Ret in Hrun as (? & ? & _ & _ & _ & _ & _ & ->).
  - match goal with H : patchTodosPositions _ _ _ = _ |- _ =>
      apply patchTodosPositions_Ret in H as (Hne & _ & _ & Hrun) end.
    by apply updateTodoPositions_Ret in Hrun as (? & ? & _ & _ & _ & _ & _ & ->).
  - match goal with H : deleteTodo _ _ _ _ = _ |- _ => rename H into Hrun end.
    destruct (deleteTodo_Ret fuel id opts s _ _ Hrun) as (t & rows & Ht & Hrows).
    rewrite (deleteTodo_eval fuel id opts s t rows Ht Hrows) in Hrun. simpl in Hrun.
    by destruct (cascadeOf opts); injection Hrun as _ <-.
  - by destruct (Hop id).
Qed.

End rows.

(** X10. Invariant I4. From a store in which [isIndented] says, for every
    item, whether the item has a parent, and in which every parent is an item
    of the same list, every call that returns leads to a store in which
    [isIndented] again says whether the item has a parent: the deletions
    never leave an indented item whose parent is gone. *)
Theorem call_keeps_indent (fuel : nat) (c : Call) (s s' : Store) :
  parentsInList (todos s) →
  indentOk (todos s) →
  call fuel c s = (Ret tt, s') →
  indentOk (todos s').
Proof.
  intros HI2 HI4 H.
  destruct c as [op| | | | | | | | | |];
    [|apply call_other_todos in H as ->; [done|by intros ? ?]..].
  simpl in H. txn_inv. intros i t' Hi.
  match goal with H : perform _ _ _ = _ |- _ =>
    pose proof (perform_rows fuel op s _ _ HI2 H i t' Hi) as Hrow end.
  unfold rowOk in Hrow. destruct (todos s !! i) as [t|] eqn:Ht; [|by destruct Hrow].
  destruct Hrow as [_ [[Hp Hind]|Hind]]; [|done].
  rewrite Hp, Hind. by apply (HI4 i t).
Qed.

Lemma call_keeps_indent_witness :
  parentsInList (todos threeItems)
  ∧ indentOk (todos threeItems)
  ∧ call 4 (Engine (DeleteTodo 1 (Some false))) threeItems
    = (Ret tt, storeOf [(2, item "B" None 1); (3, item "C" None 2)])
  ∧ indentOk (todos (storeOf [(2, item "B" None 1); (3, item "C" None 2)])).
Proof.
  assert (parentsInList (todos threeItems)) as HI2.
  { apply (bool_decide_unpack _). vm_compute. exact I. }
  assert (indentOk (todos threeItems)) as HI4.
  { apply (bool_decide_unpack _). vm_compute. exact I. }
  assert (call 4 (Engine (DeleteTodo 1 (Some false))) threeItems
          = (Ret tt, storeOf [(2, item "B" None 1); (3, item "C" None 2)])) as Hrun.
  { vm_compute. reflexivity. }
  split; [exact HI2|]. split; [exact HI4|]. split; [exact Hrun|].
  exact (call_keeps_indent 4 _ threeItems _ HI2 HI4 Hrun).
Defined.

(** X11. Referential integrity. From a store in which every parent is an
    item of the list of its child (I2), the list of every item exists (I6)
    and the current list, if there is one, exists, every call of an exported
    function that returns leads to such a store. *)
Theorem call_keeps_references (fuel : nat) (c : Call) (s s' : Store) :
  references s →
  call fuel c s = (Ret tt, s') →
  references s'.
Proof.
  intros (HI2 & HI6 & Hcur) H. destruct c as [op| | | | | | | | | |].
  - simpl in H. txn_inv.
    match goal with H : perform _ _ _ = _ |- _ => rename H into Hrun end.
    split; [by eapply perform_parentsInList|].
    assert ((∀ id, op ≠ DeleteList id) ∨ ∃ lid, op = DeleteList lid) as [Hop|[lid ->]].
    { destruct op; [left; by intros ? ?..|right; eauto]. }
    + destruct (perform_frame fuel op s _ _ Hop Hrun) as [Hl Hs].
      split; [|unfold currentListOk; by rewrite Hl, Hs].
      intros i t' Hi. simpl. rewrite Hl.
      pose proof (perform_rows fuel op s _ _ HI2 Hrun i t' Hi) as Hrow.
      unfold rowOk in Hrow. destruct (todos s !! i) as [t|] eqn:Ht; [|by destruct Hrow].
      destruct Hrow as [-> _]. by apply (HI6 i t).
    + simpl in Hrun. txn_inv.
      match goal with H : deleteList _ _ = _ |- _ => apply deleteList_Ret in H as [_ ->] end.
      split.
      * intros i t' [Ht HL]%deleteListRow_rows; [|done]. simpl.
        unfold deleteListRow. cbn [lists]. rewrite lookup_delete_ne by done.
        by apply (HI6 i t').
      * intros l. unfold deleteListRow. cbn [settings current_list_id lists].
        case_bool_decide as Hc; [done|]. intros Hl.
        rewrite lookup_delete_ne by congruence. by apply Hcur.
  - simpl in H. unfold getSettingsRow in H. by store_inv.
  - simpl in H. unfold setTitle in H. by store_inv.
  - simpl in H. unfold setDarkMode in H. by store_inv.
  - simpl in H. unfold getSettings, getSettingsRow in H. by store_inv.
  - simpl in H. unfold getCurrentListId in H. by store_inv.
  - simpl in H. unfold setCurrentList in H. store_inv.
    split; [done|]. split; [done|]. intros l [= <-]. simpl. eauto.
  - simpl in H. unfold listTodosForList in H. by store_inv.
  - simpl in H. unfold listLists in H. by store_inv.
  - simpl in H. unfold createList in H. store_inv.
    split; [done|]. split.
    + intros i t Hi. simpl. apply lookup_insert_is_Some'. right. by apply (HI6 i t).
    + intros l [= <-]. simpl. rewrite lookup_insert_eq. eauto.
  - simpl in H. unfold renameList in H. store_inv.
    split; [done|]. split.
    + intros i t Hi. simpl. rewrite lookup_alter_is_Some. by apply (HI6 i t).
    + intros l Hl. simpl. rewrite lookup_alter_is_Some. by apply Hcur.
Qed.

Lemma call_keeps_references_witness :
  references threeItems
  ∧ call 4 (Engine (DeleteList 1)) threeItems
    = (Ret tt, mkStore ∅ ∅ (mkSettings "My Todo List" false None))
  ∧ references (mkStore ∅ ∅ (mkSettings "My Todo List" false None)).
Proof.
  assert (references threeItems) as Hs.
  { apply (bool_decide_unpack _). vm_compute. exact I. }
  assert (call 4 (Engine (DeleteList 1)) threeItems
          = (Ret tt, mkStore ∅ ∅ (mkSettings "My Todo List" false None))) as Hrun.
  { vm_compute. reflexivity. }
  split; [exact Hs|]. split; [exact Hrun|].
  exact (call_keeps_references 4 _ threeItems _ Hs Hrun).
Defined.

(** * The bulk update, row by row *)

Section order_kept.

Lemma StronglySorted_lookup_lt {A} (R : relation A) (l : list A) (a b : nat) (x y : A) :
  StronglySorted R l → l !! a = Some x → l !! b = Some y → (a < b)%nat → R x y.
Proof.
  intros Hl Ha Hb Hab. rewrite <- (take_drop b l) in Hl.
  apply (StronglySorted_app_1_elem_of R _ _ x y Hl).
  - apply (list_elem_of_lookup_2 _ a). by rewrite lookup_take_lt.
  - apply (list_elem_of_lookup_2 _ 0). by rewrite lookup_drop, Nat.add_0_r.
Qed.


End order_kept.



(** * Lists and settings *)

Section lists.

Global Instance idLe_total : Total idLe.
Proof. intros a b. unfold idLe. lia. Qed.

Global Instance idLe_trans : Transitive idLe.
Proof. intros a b c. unfold idLe. lia. Qed.

Lemma nextListId_above (ls : gmap Z ListRow) (k : Z) :
  is_Some (ls !! k) → k < nextListId ls.
Proof.
  intros [r Hk].
  assert (k ∈ (map_to_list ls).*1) as Hin.
  { apply list_elem_of_fmap. exists (k, r). split; [done|]. by apply elem_of_map_to_list. }
  unfold nextListId. destruct ((map_to_list ls).*1) as [|k0 ks]; [by apply elem_of_nil in Hin|].
  apply foldr_Zmax_ge in Hin. lia.
Qed.

Lemma nextListId_fresh (ls : gmap Z ListRow) : ls !! nextListId ls = None.
Proof.
  destruct (ls !! nextListId ls) as [r|] eqn:Hr; [|done].
  pose proof (nextListId_above ls (nextListId ls)) as H. rewrite Hr in H.
  specialize (H ltac:(eauto)). lia.
Qed.

Lemma elem_of_listing (ls : gmap Z ListRow) (k : Z) (r : ListRow) :
  (k, r) ∈ merge_sort idLe (map_to_list ls) ↔ ls !! k = Some r.
Proof. rewrite merge_sort_Permutation. apply elem_of_map_to_list. Qed.


End lists.


(** ** deleteList *)

Section deleteList.

Lemma deleteList_eval (id : Z) (s : Store) :
  deleteList id s
  = match lists s !! id with
    | Some _ => (Ret tt, deleteListRow id s)
    | None => (Throw ListNotFound, s)
    end.
Proof.
  unfold deleteList, transaction, bind, deleteFromLists, guard, gets, ret, throw.
  destruct (lists s !! id) as [l|]; [|done]. cbn [bool_decide decide_rel].
  rewrite (bool_decide_eq_false_2 (1%nat = 0%nat)) by done.
  rewrite bool_decide_eq_false_2; [done|].
  unfold deleteListRow. cbv zeta. cbn [settings current_list_id].
  destruct (decide (current_list_id (settings s) = Some id)) as [E|E];
    [by rewrite bool_decide_eq_true_2|by rewrite bool_decide_eq_false_2].
Qed.

Lemma deleteRows_nil (d : gmap Z Todo) : deleteRows [] d = d.
Proof.
  apply map_eq. intros i. rewrite deleteRows_lookup.
  rewrite decide_False by by intros ?%elem_of_nil.
  destruct (d !! i) as [t|]; [|done]. simpl. f_equal. apply fkSetNull_other.
  intros p _ [_ ?%elem_of_nil]%list_elem_of_filter. done.
Qed.

(** Under I2 the cascade of [deleteList] removes the rows of the list and
    changes no other row. *)
Lemma deleteListRow_todos (lid : Z) (s : Store) :
  parentsInList (todos s) →
  todos (deleteListRow lid s) = filter (λ r : TodoRow, listId r.2 ≠ lid) (todos s).
Proof.
  intros HI2. apply map_eq. intros i. rewrite map_lookup_filter.
  destruct (todos (deleteListRow lid s) !! i) as [t'|] eqn:Hi.
  - apply deleteListRow_rows in Hi as [-> HL]; [|done]. simpl.
    by rewrite option_guard_True.
  - destruct (todos s !! i) as [t|] eqn:Ht; [|done]. simpl.
    destruct (decide (listId t = lid)) as [HL|HL]; [by rewrite option_guard_False by tauto|].
    exfalso. revert Hi. unfold deleteListRow. cbn [todos].
    rewrite deleteRows_lookup, Ht. rewrite decide_False; [done|].
    intros ([i' t0] & -> & Hin)%list_elem_of_fmap.
    apply elem_of_map_to_list, map_lookup_filter_Some in Hin as [Ht0 HL0]. simpl in *.
    congruence.
Qed.

End deleteList.

(** X14. [deleteList] on a list that does not exist throws 'List not found'
    and changes nothing. On a list that exists it returns; the list is gone,
    and with it exactly the todos of the list, every other row being left as
    it was (the store having every parent in the list of its child); the
    title and the dark mode stay. The current list is never re-assigned: when
    the deleted list was the current one, [current_list_id] is null
    afterwards, whatever lists remain, and otherwise it is unchanged. *)
Theorem deleteList_outcome (id : Z) (s : Store) :
  parentsInList (todos s) →
  match lists s !! id with
  | None => deleteList id s = (Throw ListNotFound, s)
  | Some _ =>
      ∃ s', deleteList id s = (Ret tt, s')
        ∧ lists s' = delete id (lists s)
        ∧ todos s' = filter (λ r : TodoRow, listId r.2 ≠ id) (todos s)
        ∧ current_list_id (settings s')
          = (if bool_decide (current_list_id (settings s) = Some id) then None
             else current_list_id (settings s))
        ∧ title (settings s') = title (settings s)
        ∧ dark_mode (settings s') = dark_mode (settings s)
  end.
Proof.
  intros HI2. rewrite deleteList_eval. destruct (lists s !! id) as [l|]; [|done].
  eexists. split; [done|]. split; [done|]. split; [by apply deleteListRow_todos|done].
Qed.

(** Two lists, the second one current, and a todo in each: deleting the
    second list leaves the first list and its todo, and no current list. *)
Lemma deleteList_outcome_witness :
  let s := mkStore {[ 1 := item "A" None 1;
                      2 := mkTodo "B" false false None false (Int 1) 2 ]}
             {[ 1 := mkListRow "one" 0 0; 2 := mkListRow "two" 0 0 ]}
             (mkSettings "My Todo List" false (Some 2)) in
  parentsInList (todos s)
  ∧ deleteList 2 s
    = (Ret tt, mkStore {[ 1 := item "A" None 1 ]} {[ 1 := mkListRow "one" 0 0 ]}
                 (mkSettings "My Todo List" false None))
  ∧ match lists s !! 2 with
    | None => deleteList 2 s = (Throw ListNotFound, s)
    | Some _ =>
        ∃ s', deleteList 2 s = (Ret tt, s')
          ∧ lists s' = delete 2 (lists s)
          ∧ todos s' = filter (λ r : TodoRow, listId r.2 ≠ 2) (todos s)
          ∧ current_list_id (settings s')
            = (if bool_decide (current_list_id (settings s) = Some 2) then None
               else current_list_id (settings s))
          ∧ title (settings s') = title (settings s)
          ∧ dark_mode (settings s') = dark_mode (settings s)
    end.
Proof.
  intros s.
  assert (parentsInList (todos s)) as HI2.
  { apply (bool_decide_unpack _). vm_compute. exact I. }
  split; [exact HI2|]. split; [vm_compute; reflexivity|].
  exact (deleteList_outcome 2 s HI2).
Defined.

(** X15. Creating a list and deleting it again gives back the lists and the
    todos as they were (in a store where the list of every item exists), but
    not the current list: no list is current afterwards. *)
Theorem createList_deleteList (now : Z) (name : string) (s : Store) :
  listsExist s →
  ∃ id row s1 s2,
    createList now name s = (Ret (Some (id, row)), s1)
    ∧ deleteList id s1 = (Ret tt, s2)
    ∧ lists s2 = lists s
    ∧ todos s2 = todos s
    ∧ current_list_id (settings s2) = None
    ∧ title (settings s2) = title (settings s)
    ∧ dark_mode (settings s2) = dark_mode (settings s).
Proof.
  intros HI6. pose proof (nextListId_fresh (lists s)) as Hfresh.
  set (id := nextListId (lists s)) in *.
  exists id, (mkListRow (listName name) now now). eexists _, _.
  split.
  { unfold createList, transaction, bind, gets, modifyLists, modifySettings.
    cbn [lists]. fold id. rewrite lookup_insert_eq. reflexivity. }
  rewrite deleteList_eval. cbn [lists]. rewrite lookup_insert_eq.
  split; [done|]. unfold deleteListRow. cbv zeta. cbn [todos lists settings].
  split; [by rewrite delete_insert_id|]. split.
  - assert (filter (λ r : TodoRow, listId r.2 = id) (todos s) = ∅) as ->.
    { apply map_empty_filter. intros i t Ht HL. simpl in HL.
      pose proof (HI6 i t Ht) as Hl. simpl in Hl. rewrite HL, Hfresh in Hl. by destruct Hl. }
    rewrite map_to_list_empty. apply deleteRows_nil.
  - cbn [title dark_mode current_list_id].
    by rewrite bool_decide_eq_true_2.
Qed.

Lemma createList_deleteList_witness :
  listsExist threeItems
  ∧ ∃ id row s1 s2,
      createList 7 "Work" threeItems = (Ret (Some (id, row)), s1)
      ∧ deleteList id s1 = (Ret tt, s2)
      ∧ lists s2 = lists threeItems
      ∧ todos s2 = todos threeItems
      ∧ current_list_id (settings s2) = None
      ∧ title (settings s2) = title (settings threeItems)
      ∧ dark_mode (settings s2) = dark_mode (settings threeItems).
Proof.
  assert (listsExist threeItems) as HI6.
  { apply (bool_decide_unpack _). vm_compute. exact I. }
  split; [exact HI6|]. exact (createList_deleteList 7 "Work" threeItems HI6).
Defined.

(** ** getDb *)

Section getDb.

Lemma foldr_Zmin_le (x : Z) (l : list Z) (k : Z) : k ∈ x :: l → foldr Z.min x l ≤ k.
Proof.
  induction l as [|y l IH]; simpl.
  - intros ->%list_elem_of_singleton. lia.
  - intros [->|[->|Hk]%elem_of_cons]%elem_of_cons.
    + etrans; [|apply IH; left]. lia.
    + lia.
    + etrans; [|apply IH; by right]. lia.
Qed.

Lemma foldr_Zmin_elem (x : Z) (l : list Z) : foldr Z.min x l ∈ x :: l.
Proof.
  induction l as [|y l IH]; simpl; [left|].
  destruct (Z.min_spec y (foldr Z.min x l)) as [[_ ->]|[_ ->]].
  - right. left.
  - apply elem_of_cons in IH as [->|?]; [left|right; by right].
Qed.

Lemma selectFirstList_Some (ls : gmap Z ListRow) (k : Z) :
  selectFirstList ls = Some k →
  is_Some (ls !! k) ∧ ∀ k', is_Some (ls !! k') → k ≤ k'.
Proof.
  unfold selectFirstList.
  assert (∀ i, i ∈ (map_to_list ls).*1 ↔ is_Some (ls !! i)) as Hkeys.
  { intros i. rewrite list_elem_of_fmap. split.
    - intros ([i' r] & -> & Hin). apply elem_of_map_to_list in Hin. eauto.
    - intros [r Hr]. exists (i, r). split; [done|]. by apply elem_of_map_to_list. }
  destruct ((map_to_list ls).*1) as [|k0 ks]; [done|]. intros [= <-]. split.
  - apply Hkeys, foldr_Zmin_elem.
  - intros k' Hk'. by apply foldr_Zmin_le, Hkeys.
Qed.

Lemma selectFirstList_None (ls : gmap Z ListRow) : selectFirstList ls = None → ls = ∅.
Proof.
  unfold selectFirstList. destruct (map_to_list ls) as [|[k r] l] eqn:Hl; [|done].
  intros _. by apply map_to_list_empty_iff.
Qed.

End getDb.

(** X16. [getDb] on a store whose current list, if any, exists: afterwards
    there is a current list and it exists. A store without lists gets the
    list 'My Todo List' under the id 1. In a store with lists the lists stay
    as they are, and a current list stays current; when none was current,
    the list with the lowest id becomes current. The todos, the title and
    the dark mode are not touched, and a second run changes nothing. *)
Theorem getDb_current (now : Z) (s : Store) :
  currentListOk s →
  let s' := getDb now s in
  (∃ l, current_list_id (settings s') = Some l ∧ is_Some (lists s' !! l))
  ∧ todos s' = todos s
  ∧ title (settings s') = title (settings s)
  ∧ dark_mode (settings s') = dark_mode (settings s)
  ∧ (lists s = ∅ →
       lists s' = {[ 1 := mkListRow "My Todo List" now now ]}
       ∧ current_list_id (settings s') = Some 1)
  ∧ (lists s ≠ ∅ →
       lists s' = lists s
       ∧ match current_list_id (settings s) with
         | Some c => current_list_id (settings s') = Some c
         | None =>
             ∃ l, current_list_id (settings s') = Some l
                  ∧ ∀ k, is_Some (lists s !! k) → l ≤ k
         end)
  ∧ ∀ now', getDb now' s' = s'.
Proof.
  intros Hcur. cbv zeta.
  assert (∀ s1 l, current_list_id (settings s1) = Some l → is_Some (lists s1 !! l) →
            ∀ now', getDb now' s1 = s1) as Hagain.
  { intros s1 l Hl Hsome now'. unfold getDb. cbv zeta. rewrite decide_False, Hl; [done|].
    intros Hsize%map_size_empty_iff. rewrite Hsize in Hsome. by destruct Hsome. }
  destruct (decide (lists s = ∅)) as [Hempty|Hne].
  - assert (getDb now s
            = mkStore (todos s) {[ 1 := mkListRow "My Todo List" now now ]}
                (mkSettings (title (settings s)) (dark_mode (settings s)) (Some 1))) as ->.
    { unfold getDb. cbv zeta. rewrite decide_True by by apply map_size_empty_iff.
      unfold nextListId. by rewrite Hempty, map_to_list_empty. }
    cbn [todos lists settings current_list_id title dark_mode].
    assert (is_Some (({[1 := mkListRow "My Todo List" now now]} : gmap Z ListRow) !! 1))
      as Hone by by rewrite lookup_singleton_eq.
    split; [eauto|]. repeat split; try done; by apply (Hagain _ 1).
  - assert (size (lists s) ≠ 0%nat) as Hsize by (by intros ?%map_size_empty_iff).
    destruct (current_list_id (settings s)) as [c|] eqn:Hc.
    + assert (getDb now s = s) as ->.
      { unfold getDb. cbv zeta. by rewrite decide_False, Hc. }
      rewrite Hc.
      split; [exists c; split; [done|by apply Hcur]|]. repeat split; try done;
        apply (Hagain s c Hc); by apply Hcur.
    + destruct (selectFirstList (lists s)) as [any|] eqn:Hany.
      * assert (getDb now s = setCurrentListId (Some any) s) as ->.
        { unfold getDb. cbv zeta. by rewrite decide_False, Hc, Hany. }
        apply selectFirstList_Some in Hany as [Hsome Hmin].
        unfold setCurrentListId. cbn [todos lists settings current_list_id title dark_mode].
        split; [eauto|]. repeat split; try done; try (by eauto);
          by apply (Hagain _ any).
      * by apply selectFirstList_None in Hany.
Qed.

(** The first run on a database without lists. *)
Lemma getDb_current_witness :
  currentListOk emptyStore
  ∧ getDb 5 emptyStore
    = mkStore ∅ {[ 1 := mkListRow "My Todo List" 5 5 ]}
        (mkSettings "My Todo List" false (Some 1))
  ∧ let s' := getDb 5 emptyStore in
    (∃ l, current_list_id (settings s') = Some l ∧ is_Some (lists s' !! l))
    ∧ todos s' = todos emptyStore
    ∧ title (settings s') = title (settings emptyStore)
    ∧ dark_mode (settings s') = dark_mode (settings emptyStore)
    ∧ (lists emptyStore = ∅ →
         lists s' = {[ 1 := mkListRow "My Todo List" 5 5 ]}
         ∧ current_list_id (settings s') = Some 1)
    ∧ (lists emptyStore ≠ ∅ →
         lists s' = lists emptyStore
         ∧ match current_list_id (settings emptyStore) with
           | Some c => current_list_id (settings s') = Some c
           | None =>
               ∃ l, current_list_id (settings s') = Some l
                    ∧ ∀ k, is_Some (lists emptyStore !! k) → l ≤ k
           end)
    ∧ ∀ now', getDb now' s' = s'.
Proof.
  assert (currentListOk emptyStore) as Hcur by (by intros l [=]).
  split; [exact Hcur|]. split; [vm_compute; reflexivity|].
  exact (getDb_current 5 emptyStore Hcur).
Defined.

(** ** renameList *)

Lemma listing_alter (ls : gmap Z ListRow) (f : ListRow → ListRow) (id : Z) :
  merge_sort idLe (map_to_list (alter f id ls))
  = (λ r : Z * ListRow, if decide (r.1 = id) then (r.1, f r.2) else r)
      <$> merge_sort idLe (map_to_list ls).
Proof.
  set (g := λ r : Z * ListRow, if decide (r.1 = id) then (r.1, f r.2) else r).
  assert (∀ r, (g r).1 = r.1) as Hg1 by (intros r; unfold g; by case_decide).
  assert (∀ k r, (k, r) ∈ g <$> merge_sort idLe (map_to_list ls)
                 ↔ alter f id ls !! k = Some r) as Helem.
  { intros k r. rewrite list_elem_of_fmap. split.
    - intros ([k0 r0] & Heq & Hin%elem_of_listing). unfold g in Heq. simpl in Heq.
      case_decide as Hk; injection Heq as -> ->.
      + subst. by rewrite lookup_alter_eq, Hin.
      + by rewrite lookup_alter_ne.
    - destruct (decide (k = id)) as [->|Hne].
      + rewrite lookup_alter_eq. destruct (ls !! id) as [r0|] eqn:Hr0; [|done].
        intros [= <-]. exists (id, r0). split; [|by apply elem_of_listing].
        unfold g. simpl. by rewrite decide_True.
      + rewrite lookup_alter_ne by done. intros Hr. exists (k, r).
        split; [|by apply elem_of_listing]. unfold g. simpl. by rewrite decide_False. }
  apply (StronglySorted_unique_strong idLe).
  - intros [k1 r1] [k2 r2] H1%elem_of_listing H2%Helem H12 H21.
    unfold idLe in *. simpl in *. assert (k1 = k2) as -> by lia. congruence.
  - apply StronglySorted_merge_sort; apply _.
  - apply (StronglySorted_fmap _ idLe).
    + intros x y. unfold idLe. by rewrite !Hg1.
    + apply StronglySorted_merge_sort; apply _.
  - apply NoDup_Permutation.
    + rewrite merge_sort_Permutation. apply NoDup_map_to_list.
    + apply (NoDup_fmap_1 fst). rewrite <- list_fmap_compose.
      rewrite (list_fmap_ext (fst ∘ g) fst _) by (intros; apply Hg1).
      rewrite merge_sort_Permutation. apply NoDup_fst_map_to_list.
    + intros [k r]. by rewrite elem_of_listing, Helem.
Qed.

(** X17. [renameList] on a list that does not exist throws 'List not found'
    and changes nothing. On a list that exists it returns the row of the
    list with the name as given (an empty name too) and [now] as
    [updated_at]; [listLists] afterwards shows the same lists in the same
    order, with that one row changed and its [created_at] kept; todos and
    settings are not touched. *)
Theorem renameList_outcome (now id : Z) (name : string) (s : Store) :
  match lists s !! id with
  | None => renameList now id name s = (Throw ListNotFound, s)
  | Some r =>
      ∃ s', renameList now id name s
            = (Ret (Some (id, mkListRow name (created_at r) now)), s')
        ∧ (∃ before, listLists s = (Ret before, s)
             ∧ listLists s'
               = (Ret ((λ l : Z * ListRow,
                          if decide (l.1 = id)
                          then (l.1, mkListRow name (created_at l.2) now) else l)
                       <$> before), s'))
        ∧ todos s' = todos s ∧ settings s' = settings s
  end.
Proof.
  unfold renameList, transaction, bind, gets, expect, modifyLists, ret, throw.
  destruct (lists s !! id) as [r|] eqn:Hr; [|done].
  eexists. split.
  { cbn [lists]. rewrite lookup_alter_eq, Hr. reflexivity. }
  split; [|done]. eexists. split; [done|].
  unfold listLists, gets. cbn [lists]. by rewrite listing_alter.
Qed.

(** ** What the calls leave alone *)

(** X18. Lists and settings after a call that returns. The table of lists is
    changed by [createList] (one new row), [renameList] (one row) and
    [deleteList] (one row less) and by no other call; the title only by
    [setTitle], the dark mode only by [setDarkMode]; the current list only
    by [setCurrentList] and [createList], which make their list current, and
    by [deleteList], which sets it to null when it deletes the current
    list. *)
Theorem call_lists_settings (fuel : nat) (c : Call) (s s' : Store) :
  call fuel c s = (Ret tt, s') →
  lists s'
  = match c with
    | CreateList now n =>
        <[nextListId (lists s) := mkListRow (listName n) now now]> (lists s)
    | RenameList now id n => alter (λ r, mkListRow n (created_at r) now) id (lists s)
    | Engine (DeleteList id) => delete id (lists s)
    | _ => lists s
    end
  ∧ title (settings s')
    = match c with SetTitle t => t | _ => title (settings s) end
  ∧ dark_mode (settings s')
    = match c with SetDarkMode flag => flag | _ => dark_mode (settings s) end
  ∧ current_list_id (settings s')
    = match c with
      | SetCurrentList id => Some id
      | CreateList _ _ => Some (nextListId (lists s))
      | Engine (DeleteList id) =>
          if bool_decide (current_list_id (settings s) = Some id) then None
          else current_list_id (settings s)
      | _ => current_list_id (settings s)
      end.
Proof.
  intros H. destruct c as [op| | | | | | | | | |].
  - simpl in H. txn_inv.
    match goal with H : perform _ _ _ = _ |- _ => rename H into Hrun end.
    assert ((∀ id, op ≠ DeleteList id) ∨ ∃ lid, op = DeleteList lid) as [Hop|[lid ->]].
    { destruct op; [left; by intros ? ?..|right; eauto]. }
    + destruct (perform_frame fuel op s _ _ Hop Hrun) as [-> ->].
      by destruct op as [| | | | |lid]; [..|destruct (Hop lid)].
    + simpl in Hrun. txn_inv.
      match goal with H : deleteList _ _ = _ |- _ => apply deleteList_Ret in H as [_ ->] end.
      done.
  - simpl in H. unfold getSettingsRow in H. by store_inv.
  - simpl in H. unfold setTitle in H. by store_inv.
  - simpl in H. unfold setDarkMode in H. by store_inv.
  - simpl in H. unfold getSettings, getSettingsRow in H. by store_inv.
  - simpl in H. unfold getCurrentListId in H. by store_inv.
  - simpl in H. unfold setCurrentList in H. by store_inv.
  - simpl in H. unfold listTodosForList in H. by store_inv.
  - simpl in H. unfold listLists in H. by store_inv.
  - simpl in H. unfold createList in H. by store_inv.
  - simpl in H. unfold renameList in H. by store_inv.
Qed.

Lemma call_lists_settings_witness :
  let s' := mkStore (todos threeItems) (lists threeItems)
              (mkSettings "Groceries" false (Some 1)) in
  call 4 (SetTitle "Groceries") threeItems = (Ret tt, s')
  ∧ lists s' = lists threeItems
  ∧ title (settings s') = "Groceries"
  ∧ dark_mode (settings s') = dark_mode (settings threeItems)
  ∧ current_list_id (settings s') = current_list_id (settings threeItems).
Proof.
  intros s'.
  assert (call 4 (SetTitle "Groceries") threeItems = (Ret tt, s')) as Hrun by reflexivity.
  split; [exact Hrun|].
  exact (call_lists_settings 4 (SetTitle "Groceries") threeItems s' Hrun).
Defined.

Section content.

Lemma otherColumns_content (t t' : Todo) :
  otherColumns t' = otherColumns t → content t' = content t.
Proof. unfold otherColumns, setPosition, content. by injection 1 as -> -> -> _ _ ->. Qed.

Lemma fkSetNull_content (gone : list Z) (t : Todo) : content (fkSetNull gone t) = content t.
Proof. unfold fkSetNull. destruct (parentId t); [case_decide|]; done. Qed.

Lemma perform_content (fuel : nat) (op : Operation) (s s' : Store) (r : Response)
    (i : Z) (t t' : Todo) :
  perform fuel op s = (Ret r, s') →
  todos s !! i = Some t → todos s' !! i = Some t' →
  listId t' = listId t ∧ ((∀ p, op ≠ UpdateTodo i p) → content t' = content t).
Proof.
  intros H Ht Ht'.
  cut ((∀ p, op ≠ UpdateTodo i p) → content t' = content t).
  { intros Hc. split; [|done].
    destruct op as [payload|id p|updates|body|id opts|id];
      try (assert (content t' = content t) as [= _ _ _ ?] by (by apply Hc); done).
    simpl in H. txn_inv.
    match goal with H : updateTodo _ _ _ _ = _ |- _ =>
      pose proof (updateTodo_rows fuel id p s _ _ H i t' Ht') as Hrow end.
    unfold rowOk in Hrow. rewrite Ht in Hrow. by destruct Hrow. }
  intros Hop. destruct op as [payload|id p|updates|body|id opts|id]; simpl in H; txn_inv.
  - match goal with H : createTodo _ _ = _ |- _ =>
      apply createTodo_Ret_row in H as (_ & -> & _) end.
    cbn [todos setTodos] in Ht'. rewrite lookup_insert_ne in Ht'; [congruence|].
    intros <-. by rewrite nextRowid_fresh in Ht.
  - match goal with H : updateTodo _ _ _ _ = _ |- _ =>
      apply updateTodo_Ret_walk in H as (t0 & _ & _ & _ & [Hd|Hd] & _) end;
      rewrite Hd in Ht'; [congruence|].
    rewrite lookup_alter_ne in Ht'; [congruence|]. intros ->. by destruct (Hop p).
  - match goal with H : updateTodoPositions _ _ _ = _ |- _ => rename H into Hrun end.
    destruct (decide (updates = [])) as [->|Hne].
    { simpl in Hrun. apply ret_Ret in Hrun as [_ ->]. congruence. }
    apply updateTodoPositions_Ret in Hrun as (? & ? & _ & _ & _ & _ & _ & ->); [|done].
    cbn [todos setTodos] in Ht'.
    apply compactPositions_row in Ht' as (t1 & Ht1 & ->%otherColumns_content).
    destruct (applyProposed_lookup (proposedOf updates []) (todos s) i)
      as [[_ Hi]|(pos & pid & _ & Hi)]; rewrite Hi, Ht in Ht1; by injection Ht1 as <-.
  - match goal with H : patchTodosPositions _ _ _ = _ |- _ =>
      apply patchTodosPositions_Ret in H as (Hne & _ & _ & Hrun) end.
    apply updateTodoPositions_Ret in Hrun as (? & ? & _ & _ & _ & _ & _ & ->); [|done].
    cbn [todos setTodos] in Ht'.
    apply compactPositions_row in Ht' as (t1 & Ht1 & ->%otherColumns_content).
    destruct (applyProposed_lookup (proposedOf body []) (todos s) i)
      as [[_ Hi]|(pos & pid & _ & Hi)]; rewrite Hi, Ht in Ht1; by injection Ht1 as <-.
  - match goal with H : deleteTodo _ _ _ _ = _ |- _ => rename H into Hrun end.
    destruct (deleteTodo_Ret fuel id opts s _ _ Hrun) as (t0 & rows & Ht0 & Hrows).
    rewrite (deleteTodo_eval fuel id opts s t0 rows Ht0 Hrows) in Hrun. simpl in Hrun.
    destruct (cascadeOf opts); injection Hrun as _ <-; cbn [todos setTodos] in Ht';
      apply compactPositions_row in Ht' as (t1 & Ht1 & ->%otherColumns_content);
      apply deleteRows_row in Ht1 as (_ & t2 & Ht2 & ->); rewrite fkSetNull_content.
    + congruence.
    + rewrite lift_lookup, Ht in Ht2. injection Ht2 as <-. by case_decide.
  - match goal with H : deleteList _ _ = _ |- _ => apply deleteList_Ret in H as [_ ->] end.
    unfold deleteListRow in Ht'. cbn [todos] in Ht'.
    apply deleteRows_row in Ht' as (_ & t2 & Ht2 & ->). rewrite fkSetNull_content.
    congruence.
Qed.

End content.

(** X19. No call moves an item to another list, and no call other than
    [updateTodo] on the item itself changes the text, the completed flag or
    the [isEmpty] flag of an item: an item that is there before and after a
    call that returns has kept them. *)
Theorem call_keeps_content (fuel : nat) (c : Call) (s s' : Store) (i : Z) (t t' : Todo) :
  call fuel c s = (Ret tt, s') →
  todos s !! i = Some t →
  todos s' !! i = Some t' →
  listId t' = listId t
  ∧ ((∀ p, c ≠ Engine (UpdateTodo i p)) →
     text t' = text t ∧ completed t' = completed t ∧ isEmpty t' = isEmpty t).
Proof.
  intros H Ht Ht'.
  destruct c as [op| | | | | | | | | |];
    [|apply call_other_todos in H; [|by intros ? ?];
      rewrite H, Ht in Ht'; by injection Ht' as <-..].
  simpl in H. txn_inv.
  match goal with H : perform _ _ _ = _ |- _ =>
    destruct (perform_content fuel op s _ _ i t t' H Ht Ht') as [HL Hc] end.
  split; [done|]. intros Hop.
  assert (content t' = content t) as [= ? ? ? _]; [|done].
  apply Hc. intros p ->. by apply (Hop p).
Qed.

(** Lifting B when A is deleted leaves the text and the flags of B. *)
Lemma call_keeps_content_witness :
  let s' := storeOf [(2, item "B" None 1); (3, item "C" None 2)] in
  call 4 (Engine (DeleteTodo 1 (Some false))) threeItems = (Ret tt, s')
  ∧ todos threeItems !! 2 = Some (item "B" (Some 1) 2)
  ∧ todos s' !! 2 = Some (item "B" None 1)
  ∧ listId (item "B" None 1) = listId (item "B" (Some 1) 2)
  ∧ text (item "B" None 1) = text (item "B" (Some 1) 2)
  ∧ completed (item "B" None 1) = completed (item "B" (Some 1) 2)
  ∧ isEmpty (item "B" None 1) = isEmpty (item "B" (Some 1) 2).
Proof.
  intros s'.
  assert (call 4 (Engine (DeleteTodo 1 (Some false))) threeItems = (Ret tt, s')) as Hrun
    by (vm_compute; reflexivity).
  split; [exact Hrun|]. split; [reflexivity|]. split; [reflexivity|].
  destruct (call_keeps_content 4 _ threeItems s' 2 _ _ Hrun eq_refl eq_refl) as [HL Hc].
  split; [exact HL|]. apply Hc. intros p. discriminate.
Defined.

(** ** The error handling of the routes *)

Section literals.

Lemma lower_app (a b : string) : lower (a +:+ b) = lower a +:+ lower b.
Proof. induction a as [|c a IH]; simpl; [done|by rewrite IH]. Qed.

Lemma occurs_app (c : Ascii.ascii) (a b : string) :
  occurs c (a +:+ b) = occurs c a || occurs c b.
Proof. induction a as [|d a IH]; simpl; [done|]. by rewrite IH, orb_assoc. Qed.

Lemma prefix_occurs (c : Ascii.ascii) (pat s : string) :
  String.prefix pat s = true → occurs c pat = true → occurs c s = true.
Proof.
  revert s. induction pat as [|d pat IH]; intros [|d' s]; simpl; try done.
  destruct (Ascii.ascii_dec d d') as [->|_]; [|done]. intros Hp.
  destruct (bool_decide (d' = c)); [done|]. simpl. by apply IH.
Qed.

Lemma contains_occurs (c : Ascii.ascii) (pat s : string) :
  contains pat s = true → occurs c pat = true → occurs c s = true.
Proof.
  induction s as [|d s IH]; cbn [contains].
  - rewrite orb_false_r. apply prefix_occurs.
  - intros [Hp|Hc]%orb_true_iff Hpat.
    + by apply (prefix_occurs c) in Hp.
    + cbn [occurs]. rewrite (IH Hc Hpat). apply orb_true_r.
Qed.

(** A literal with a character that the subject does not have is not
    found. *)
Lemma contains_lacks (c : Ascii.ascii) (pat s : string) :
  occurs c pat = true → occurs c s = false → contains pat s = false.
Proof.
  intros Hpat Hs. destruct (contains pat s) eqn:Hc; [|done].
  by rewrite (contains_occurs c pat s Hc Hpat) in Hs.
Qed.

Lemma contains_app_r (pat a b : string) :
  contains pat b = true → contains pat (a +:+ b) = true.
Proof.
  intros Hb. induction a as [|d a IH]; [done|].
  change (String d a +:+ b) with (String d (a +:+ b)). cbn [contains].
  rewrite IH. apply orb_true_r.
Qed.

(** The digits and the sign of a number are no letters. *)
Lemma occurs_showZ (c : Ascii.ascii) (z : Z) :
  (58 ≤ Ascii.nat_of_ascii c)%nat → occurs c (lower (showZ z)) = false.
Proof.
  intros Hc.
  assert (∀ d, occurs c (lower (NilEmpty.string_of_uint d)) = false) as Hd.
  { induction d as [|d IH|d IH|d IH|d IH|d IH|d IH|d IH|d IH|d IH|d IH]; [done|..];
      cbn [NilEmpty.string_of_uint lower occurs]; rewrite IH, orb_false_r;
      apply bool_decide_eq_false_2; intros <-; vm_compute in Hc; lia. }
  unfold showZ. destruct (Z.to_int z) as [d|d]; cbn [NilZero.string_of_int].
  - destruct d; [|apply Hd..]. simpl. rewrite orb_false_r.
    apply bool_decide_eq_false_2. intros <-. vm_compute in Hc. lia.
  - cbn [lower occurs]. rewrite orb_false_iff. split.
    + apply bool_decide_eq_false_2. intros <-. vm_compute in Hc. lia.
    + destruct d; [|apply Hd..]. simpl. rewrite orb_false_r.
      apply bool_decide_eq_false_2. intros <-. vm_compute in Hc. lia.
Qed.

End literals.

(** The classification of a message with a number in it. *)
Ltac lacks c :=
  apply (contains_lacks c); [reflexivity|];
  rewrite ?lower_app, ?occurs_app, ?occurs_showZ by (vm_compute; lia); reflexivity.

Lemma classifyDbError_thrownOf (e : Error) :
  classifyDbError (thrownOf e)
  = match e with
    | TodoNotFound | FirstTodoNotFound | TodoIdNotFound _ | ParentIdNotFound _
    | ParentTodoNotFound | ListNotFound => (404, messageOf e)
    | SqliteConstraint => (409, "Constraint violation")
    | _ => (500, messageOf e)
    end.
Proof.
  destruct e as [| |id| | |pid| | | | | | | | | |id|pos]; try reflexivity.
  - unfold classifyDbError, testI. cbn [thrownOf msgOf codeOf messageOf].
    destruct (decide _) as [?|_]; [done|].
    replace (contains "constraint" _) with false by (symmetry; lacks (Ascii.ascii_of_nat 99)).
    replace (contains "database is locked" _) with false by (symmetry; lacks (Ascii.ascii_of_nat 98)).
    replace (contains "busy" _) with false by (symmetry; lacks (Ascii.ascii_of_nat 98)).
    replace (contains "not found" _) with true; [done|].
    symmetry. rewrite !lower_app. by do 2 apply contains_app_r.
  - unfold classifyDbError, testI. cbn [thrownOf msgOf codeOf messageOf].
    destruct (decide _) as [?|_]; [done|].
    replace (contains "constraint" _) with false by (symmetry; lacks (Ascii.ascii_of_nat 99)).
    replace (contains "database is locked" _) with false by (symmetry; lacks (Ascii.ascii_of_nat 98)).
    replace (contains "busy" _) with false by (symmetry; lacks (Ascii.ascii_of_nat 98)).
    replace (contains "not found" _) with true; [done|].
    symmetry. rewrite !lower_app. by do 2 apply contains_app_r.
  - unfold classifyDbError, testI. cbn [thrownOf msgOf codeOf messageOf].
    destruct (decide _) as [?|_]; [done|].
    replace (contains "constraint" _) with false by (symmetry; lacks (Ascii.ascii_of_nat 114)).
    replace (contains "database is locked" _) with false by (symmetry; lacks (Ascii.ascii_of_nat 98)).
    replace (contains "busy" _) with false by (symmetry; lacks (Ascii.ascii_of_nat 98)).
    replace (contains "not found" _) with false by (symmetry; lacks (Ascii.ascii_of_nat 102)).
    done.
  - unfold classifyDbError, testI. cbn [thrownOf msgOf codeOf messageOf].
    destruct (decide _) as [?|_]; [done|].
    replace (contains "constraint" _) with false by (symmetry; lacks (Ascii.ascii_of_nat 114)).
    replace (contains "database is locked" _) with false by (symmetry; lacks (Ascii.ascii_of_nat 98)).
    replace (contains "busy" _) with false by (symmetry; lacks (Ascii.ascii_of_nat 98)).
    replace (contains "not found" _) with false by (symmetry; lacks (Ascii.ascii_of_nat 102)).
    done.
Qed.

Section withRetries.

Context {St A : Type}.
Implicit Types (fn : St → Result A * St) (s : St).

Lemma retryLoop_runs fn (attempts baseDelay : Z) (rounds : nat) (i : Z) s (slept : list Z) :
  0 ≤ i →
  (0 < rounds)%nat →
  i + Z.of_nat rounds = attempts →
  let next := λ x, (fn x).2 in
  ∃ k : nat,
    (k < rounds)%nat
    ∧ (∀ j, (j < k)%nat →
         ∃ e, (fn (Nat.iter j next s)).1 = Raised e ∧ (classifyDbError e).1 = 503)
    ∧ retryLoop fn attempts baseDelay rounds i s slept
      = ((fn (Nat.iter k next s)).1, (fn (Nat.iter k next s)).2,
         slept ++ ((λ j, baseDelay * 2 ^ (i + Z.of_nat j)) <$> seq 0 k))
    ∧ (S k = rounds
       ∨ ∀ e, (fn (Nat.iter k next s)).1 = Raised e → (classifyDbError e).1 ≠ 503).
Proof.
  intros Hi Hr Ha next. revert i s slept Hi Hr Ha.
  induction rounds as [|rounds IH]; intros i s slept Hi Hr Ha; [lia|].
  cbn [retryLoop]. destruct (fn s) as [[a|e|] s1] eqn:Hfn.
  - exists 0%nat. simpl. rewrite Hfn, app_nil_r.
    split; [lia|]. split; [intros j ?; lia|]. split; [done|]. right. by intros e.
  - destruct (decide ((classifyDbError e).1 = 503)) as [H503|H503].
    + rewrite (bool_decide_eq_true_2 _ H503). cbn [andb].
      destruct (decide (i < attempts - 1)) as [Hlt|Hlt].
      * rewrite (bool_decide_eq_true_2 _ Hlt).
        destruct (IH (i + 1) s1 (slept ++ [baseDelay * 2 ^ i])) as (k & Hk & Hbusy & Hrun & Hlast);
          [lia..|].
        assert (s1 = next s) as Hs1 by (unfold next; by rewrite Hfn).
        exists (S k). rewrite !Nat.iter_succ_r, <- Hs1.
        split; [lia|]. split; [|split].
        -- intros [|j] Hj.
           ++ exists e. simpl. by rewrite Hfn.
           ++ rewrite Nat.iter_succ_r, <- Hs1. apply Hbusy. lia.
        -- rewrite Hrun. f_equal. rewrite <- app_assoc. f_equal.
           cbn [seq fmap list_fmap app]. rewrite Z.add_0_r. f_equal.
           rewrite <- fmap_S_seq, <- list_fmap_compose. apply list_fmap_ext.
           intros _ j _. simpl. do 2 f_equal. lia.
        -- destruct Hlast as [Hlast|Hlast]; [left; lia|by right].
      * rewrite (bool_decide_eq_false_2 _ Hlt).
        exists 0%nat. simpl. rewrite Hfn, app_nil_r.
        split; [lia|]. split; [intros j ?; lia|]. split; [done|]. left. lia.
    + rewrite (bool_decide_eq_false_2 _ H503). cbn [andb].
      exists 0%nat. simpl. rewrite Hfn, app_nil_r.
      split; [lia|]. split; [intros j ?; lia|]. split; [done|].
      right. by intros e' [= <-].
  - exists 0%nat. simpl. rewrite Hfn, app_nil_r.
    split; [lia|]. split; [intros j ?; lia|]. split; [done|]. right. by intros e.
Qed.

End withRetries.

(** X20. [classifyDbError] on the errors of the engine: the errors that say
    'not found' (of a todo, a parent or a list, with or without an id in
    the message) get the status 404 and keep their message; a violated
    constraint gets 409 and the message 'Constraint violation'; every other
    error of the engine (a parent in another list, a cycle, an item as its
    own parent, indenting the first item, a batch over two lists) gets 500
    with its message. None is classified as busy (503). *)
Theorem classifyDbError_engine (e : Error) :
  classifyDbError (thrownOf e)
  = (match e with
     | TodoNotFound | FirstTodoNotFound | TodoIdNotFound _ | ParentIdNotFound _
     | ParentTodoNotFound | ListNotFound => 404
     | SqliteConstraint => 409
     | _ => 500
     end,
     match e with
     | SqliteConstraint => "Constraint violation"
     | _ => messageOf e
     end)
  ∧ (classifyDbError (thrownOf e)).1 ≠ 503.
Proof.
  rewrite classifyDbError_thrownOf. by destruct e.
Qed.

(** X21. [withRetries] with an integer [attempts]. When [attempts] is not
    positive, [fn] is not called at all and [undefined] is thrown. Otherwise
    [fn] is called [k + 1] times for some [k < attempts], each call on the
    state that the call before left: the first [k] calls threw errors that
    [classifyDbError] gives the status 503; the outcome is that of the last
    call, which either returned, or threw another kind of error, or was call
    number [attempts]; and between the calls the delays were [baseDelay],
    [2 baseDelay], ..., [2^(k-1) baseDelay]. *)
Theorem withRetries_runs {St A : Type} (fn : St → Result A * St) (attempts baseDelay : Z)
    (s : St) :
  let next := λ x, (fn x).2 in
  (attempts ≤ 0 → withRetries fn attempts baseDelay s = (Raised Undefined, s, []))
  ∧ (0 < attempts →
     ∃ k : nat,
       Z.of_nat k < attempts
       ∧ (∀ j, (j < k)%nat →
            ∃ e, (fn (Nat.iter j next s)).1 = Raised e ∧ (classifyDbError e).1 = 503)
       ∧ withRetries fn attempts baseDelay s
         = ((fn (Nat.iter k next s)).1, (fn (Nat.iter k next s)).2,
            (λ j, baseDelay * 2 ^ Z.of_nat j) <$> seq 0 k)
       ∧ (Z.of_nat k = attempts - 1
          ∨ ∀ e, (fn (Nat.iter k next s)).1 = Raised e → (classifyDbError e).1 ≠ 503)).
Proof.
  intros next. split.
  - intros Ha. unfold withRetries. by replace (Z.to_nat attempts) with 0%nat by lia.
  - intros Ha. unfold withRetries.
    destruct (retryLoop_runs fn attempts baseDelay (Z.to_nat attempts) 0 s [])
      as (k & Hk & Hbusy & Hrun & Hlast); [lia..|].
    exists k. split; [lia|]. split; [done|]. split; [done|].
    destruct Hlast as [Hlast|Hlast]; [left; lia|by right].
Qed.

Lemma withRetries_runs_witness :
  withRetries busyTwice 3 50 0%nat = (Returned 2%nat, 3%nat, [50; 100])
  ∧ ∃ k : nat,
      Z.of_nat k < 3
      ∧ (∀ j, (j < k)%nat →
           ∃ e, (busyTwice (Nat.iter j (λ x, (busyTwice x).2) 0%nat)).1 = Raised e
                ∧ (classifyDbError e).1 = 503)
      ∧ withRetries busyTwice 3 50 0%nat
        = ((busyTwice (Nat.iter k (λ x, (busyTwice x).2) 0%nat)).1,
           (busyTwice (Nat.iter k (λ x, (busyTwice x).2) 0%nat)).2,
           (λ j, 50 * 2 ^ Z.of_nat j) <$> seq 0 k)
      ∧ (Z.of_nat k = 3 - 1
         ∨ ∀ e, (busyTwice (Nat.iter k (λ x, (busyTwice x).2) 0%nat)).1 = Raised e →
                (classifyDbError e).1 ≠ 503).
Proof.
  split; [vm_compute; reflexivity|].
  apply (proj2 (withRetries_runs busyTwice 3 50 0%nat)). lia.
Defined.

(** ** The errors of each function *)

Lemma ancestorWalk_error (fuel : nat) (d : gmap Z Todo) (tid : Z) (cur : option Todo)
    (e : Error) :
  ancestorWalk fuel d tid cur = Throw e → e = CyclicParent.
Proof.
  revert cur. induction fuel as [|fuel IH]; intros [c|]; simpl; try done.
  - destruct (parentId c); [|done]. case_decide; [by intros [= <-]|done].
  - destruct (parentId c); [|done]. case_decide; [by intros [= <-]|apply IH].
Qed.

Section bulk_errors.

Context (fuel : nat) (s : Store).

(** The errors of the first loop of [updateTodoPositions], with the row
    that they are about. *)
Lemma buildProposed_Throw (L : Z) (rows : list Update) (acc : Proposed) (e : Error)
    (s' : Store) :
  buildProposed L rows acc s = (Throw e, s') →
  ∃ u, u ∈ rows
    ∧ ((e = TodoIdNotFound (upd_id u) ∧ todos s !! upd_id u = None)
       ∨ (e = UpdatesSameList ∧ ∃ t, todos s !! upd_id u = Some t ∧ listId t ≠ L)
       ∨ (e = OwnParent ∧ upd_parentId u = Some (upd_id u))).
Proof.
  revert acc. induction rows as [|r rows IH]; intros acc; [done|].
  cbn [buildProposed]. unfold bind, selectTodo, gets, expect, guard, ret, throw.
  destruct (todos s !! upd_id r) as [t|] eqn:Ht.
  - case_bool_decide as HL.
    { intros [= <- _]. exists r. split; [left|]. right. left. eauto. }
    case_bool_decide as Hself.
    { intros [= <- _]. exists r. split; [left|]. by right; right. }
    intros (u & Hu & Hcase)%IH. exists u. split; [by right|done].
  - intros [= <- _]. exists r. split; [left|]. by left.
Qed.

(** The errors of the second loop. *)
Lemma validateProposed_error (L : Z) (d : gmap Z Todo) (proposed entries : Proposed)
    (e : Error) :
  validateProposed fuel L d proposed entries = Throw e →
  (∃ en p, en ∈ entries ∧ en.2.2 = Some p ∧ e = ParentIdNotFound p ∧ d !! p = None)
  ∨ (e = ParentSameList
     ∧ ∃ en p meta, en ∈ entries ∧ en.2.2 = Some p ∧ d !! p = Some meta ∧ listId meta ≠ L)
  ∨ e = ParentCycle.
Proof.
  induction entries as [|[id [pos pid]] entries IH]; [done|].
  cbn [validateProposed].
  assert (validateProposed fuel L d proposed entries = Throw e →
    (∃ en p, en ∈ (id, (pos, pid)) :: entries ∧ en.2.2 = Some p
             ∧ e = ParentIdNotFound p ∧ d !! p = None)
    ∨ (e = ParentSameList
       ∧ ∃ en p meta, en ∈ (id, (pos, pid)) :: entries ∧ en.2.2 = Some p
                      ∧ d !! p = Some meta ∧ listId meta ≠ L)
    ∨ e = ParentCycle) as Hrest.
  { intros [(en & p & Hen & ?)|[[-> (en & p & meta & Hen & ?)]| ->]]%IH.
    - left. exists en, p. split; [by right|done].
    - right. left. split; [done|]. exists en, p, meta. split; [by right|done].
    - by right; right. }
  destruct pid as [p|]; [|done].
  destruct (d !! p) as [meta|] eqn:Hp.
  - case_bool_decide as HL.
    + intros [= <-]. right. left. split; [done|].
      exists (id, (pos, Some p)), p, meta. split; [left|done].
    + destruct (cycleCheck _ _ _ _) as [[]|e'|] eqn:Hc; [done| |done].
      intros [= <-]. right. right. by eapply cycleCheck_error.
  - intros [= <-]. left. exists (id, (pos, Some p)), p. split; [left|done].
Qed.

(** The errors of [updateTodoPositions], each with its cause. *)
Lemma updateTodoPositions_Throw (updates : list Update) (e : Error) (s' : Store) :
  updateTodoPositions fuel updates s = (Throw e, s') →
  match e with
  | FirstTodoNotFound => ∃ u, head updates = Some u ∧ todos s !! upd_id u = None
  | TodoIdNotFound id => id ∈ upd_id <$> updates ∧ todos s !! id = None
  | ParentIdNotFound p => Some p ∈ upd_parentId <$> updates ∧ todos s !! p = None
  | UpdatesSameList =>
      ∃ u0 u t0 t, head updates = Some u0 ∧ u ∈ updates
                   ∧ todos s !! upd_id u0 = Some t0 ∧ todos s !! upd_id u = Some t
                   ∧ listId t ≠ listId t0
  | OwnParent => ∃ u, u ∈ updates ∧ upd_parentId u = Some (upd_id u)
  | ParentSameList =>
      ∃ u0 u p t0 meta, head updates = Some u0 ∧ u ∈ updates ∧ upd_parentId u = Some p
                        ∧ todos s !! upd_id u0 = Some t0 ∧ todos s !! p = Some meta
                        ∧ listId meta ≠ listId t0
  | ParentCycle => True
  | _ => False
  end.
Proof.
  destruct updates as [|r0 rest]; [done|].
  unfold updateTodoPositions, withTxn, transaction.
  destruct (bind _ _ s) as [[r|e'|] s1] eqn:Hbody; [done| |done].
  intros [= <- _]. revert Hbody.
  unfold bind at 1. unfold selectTodo, gets at 1. cbv beta iota.
  unfold bind at 1, expect.
  destruct (todos s !! upd_id r0) as [t0|] eqn:Ht0;
    [|unfold throw; intros [= <- _]; by exists r0].
  unfold ret at 1. cbv beta iota. unfold bind at 1.
  destruct (buildProposed (listId t0) (r0 :: rest) [] s) as [[proposed|e1|] s2] eqn:Hb;
    [| |done].
  - apply buildProposed_Ret in Hb as (-> & -> & _).
    unfold bind at 1, gets at 1. cbv beta iota. unfold bind at 1, liftOutcome.
    destruct (validateProposed _ _ _ _ _) as [[]|e1|] eqn:Hv; [|intros [= <- _]|done].
    { unfold bind, modifyTodos, compactPositionsTx, ret. done. }
    apply validateProposed_error in Hv
      as [(en & p & Hen & Hpid & -> & Hp)|[[-> (en & p & meta & Hen & Hpid & Hp & HL)]| ->]];
      [| |done].
    + split; [|done]. apply elem_of_proposedOf in Hen as [[]%elem_of_nil|(u & Hu & ->)].
      apply list_elem_of_fmap. exists u. by split.
    + apply elem_of_proposedOf in Hen as [[]%elem_of_nil|(u & Hu & ->)].
      exists r0, u, p, t0, meta. done.
  - intros [= <- _].
    apply buildProposed_Throw in Hb
      as (u & Hu & [[-> Hnone]|[[-> (t & Ht & HL)]|[-> Hself]]]).
    + split; [|done]. apply list_elem_of_fmap. by exists u.
    + exists r0, u, t0, t. done.
    + by exists u.
Qed.

End bulk_errors.

Lemma shallowCheck_Some (body : list Update) (ids positions : list Z) (e : Error) :
  shallowCheck body ids positions = Some e →
  (∃ id, e = DuplicateId id) ∨ (∃ pos, e = DuplicatePosition pos).
Proof.
  revert ids positions. induction body as [|r body IH]; intros ids positions; [done|].
  cbn [shallowCheck]. case_decide; [intros [= <-]; eauto|].
  case_decide; [intros [= <-]; eauto|]. apply IH.
Qed.

(** ** The statements of the engine *)

Section exec.

Lemma exec_pbind {A B : Type} (p : Prog A) (f : A → Prog B) (s : Store) :
  exec (pbind p f) s = bind (exec p) (λ a, exec (f a)) s.
Proof.
  revert s. induction p as [a|e| |C run next IH]; intros s; try done.
  cbn [pbind exec]. rewrite IH. done.
Qed.

Lemma setTodos_todos (s : Store) : setTodos (todos s) s = s.
Proof. by destruct s. Qed.

Lemma exec_renumberProg (rows : list Z) (pos : Z) (s : Store) :
  exec (renumberProg pos rows) s = (Ret tt, setTodos (renumber pos rows (todos s)) s).
Proof.
  revert pos s. induction rows as [|id rows IH]; intros pos s.
  - simpl. by rewrite setTodos_todos.
  - cbn [renumberProg]. rewrite exec_pbind. unfold bind. cbn [exec write fst snd ret].
    rewrite IH. done.
Qed.

Lemma exec_compactPositionsProg (L : Z) (s : Store) :
  exec (compactPositionsProg L) s = compactPositionsTx L s.
Proof.
  unfold compactPositionsProg. rewrite exec_pbind. unfold bind. cbn [exec read fst snd ret].
  by rewrite exec_renumberProg.
Qed.

Lemma exec_liftProg (descendants : list Z) (s : Store) :
  exec (liftProg descendants) s
  = (Ret tt, setTodos (foldl (λ d did, liftRow did d) (todos s) descendants) s).
Proof.
  revert s. induction descendants as [|did rest IH]; intros s.
  - simpl. by rewrite setTodos_todos.
  - cbn [liftProg]. rewrite exec_pbind. unfold bind. cbn [exec write fst snd ret].
    rewrite IH. done.
Qed.

Lemma exec_applyProposedProg (proposed : Proposed) (s : Store) :
  exec (applyProposedProg proposed) s
  = (Ret tt, setTodos (applyProposed proposed (todos s)) s).
Proof.
  unfold applyProposed. revert s. induction proposed as [|e rest IH]; intros s.
  - simpl. by rewrite setTodos_todos.
  - cbn [applyProposedProg]. rewrite exec_pbind. unfold bind. cbn [exec write fst snd ret].
    rewrite IH. done.
Qed.

End exec.

(** *** The statements of a call give the call *)

Ltac prog_step :=
  cbn [exec pbind read write demand refuse ofOutcome from_option fst snd fmap option_fmap
       option_map].

Section programs.

Context (fuel : nat) (s : Store).

Lemma exec_deleteTodoProg (id : Z) (opts : option bool) :
  transaction (exec (deleteTodoProg fuel id opts)) s = deleteTodo fuel id opts s.
Proof.
  unfold transaction, deleteTodoProg.
  destruct (todos s !! id) as [t|] eqn:Ht.
  - destruct (cteRows fuel (todos s) [id]) as [rows|] eqn:Hrows.
    + rewrite (deleteTodo_eval fuel id opts s t rows Ht Hrows).
      prog_step. rewrite Ht. prog_step. rewrite Hrows. prog_step.
      destruct (cascadeOf opts).
      * prog_step. rewrite Hrows. prog_step.
        rewrite exec_pbind. unfold bind. rewrite exec_compactPositionsProg.
        done.
      * rewrite !exec_pbind. unfold bind at 1. rewrite exec_pbind. unfold bind at 1.
        rewrite exec_liftProg. prog_step. cbn [ret].
        rewrite exec_pbind. unfold bind. rewrite exec_compactPositionsProg. done.
    + rewrite (deleteTodo_endless id opts s fuel t Ht Hrows).
      prog_step. rewrite Ht. prog_step. rewrite Hrows. done.
  - rewrite (deleteTodo_missing id opts s fuel Ht).
    prog_step. rewrite Ht. done.
Qed.

Lemma exec_updateTodoPositionsProg (r0 : Update) (rest : list Update) :
  transaction (exec (updateTodoPositionsProg fuel r0 (r0 :: rest))) s
  = updateTodoPositions fuel (r0 :: rest) s.
Proof.
  unfold updateTodoPositions, withTxn, transaction, updateTodoPositionsProg.
  unfold bind at 1. unfold selectTodo, gets at 1. cbv beta iota.
  unfold bind at 1, expect. prog_step.
  destruct (todos s !! upd_id r0) as [t0|] eqn:Ht0; [|done].
  prog_step. unfold ret at 1. cbv beta iota. unfold bind at 1.
  destruct (buildProposed (listId t0) (r0 :: rest) [] s) as [[proposed|e1|] s2] eqn:Hb;
    [|done..].
  apply buildProposed_Ret in Hb as (-> & -> & _).
  prog_step. unfold bind at 1, gets at 1. cbv beta iota. unfold bind at 1, liftOutcome.
  destruct (validateProposed _ _ _ _ _) as [[]|e1|] eqn:Hv; [|done..].
  prog_step. rewrite exec_pbind. unfold bind at 1. rewrite exec_applyProposedProg.
  rewrite exec_pbind. unfold bind at 1. rewrite exec_compactPositionsProg.
  unfold bind, modifyTodos, compactPositionsTx, ret. done.
Qed.

Lemma exec_resolveListProg (payload : CreatePayload) :
  exec (resolveListProg payload) s
  = (Ret (resolveListId (new_listId payload) (current_list_id (settings s))), s).
Proof.
  unfold resolveListProg, resolveListId.
  destruct (new_listId payload) as [l|]; [case_decide|]; done.
Qed.

Lemma exec_checkNewParentProg (L : Z) (pid : option Z) :
  exec (checkNewParentProg L pid) s = checkNewParent L pid s.
Proof.
  unfold checkNewParentProg, checkNewParent, bind, selectTodo, gets, expect, guard.
  destruct pid as [p|]; [|done]. prog_step.
  destruct (todos s !! p) as [prow|]; [|done]. prog_step. unfold ret at 1. cbv beta iota.
  by destruct (bool_decide _).
Qed.

Lemma checkNewParent_store (L : Z) (pid : option Z) (u : unit) (s' : Store) :
  checkNewParent L pid s = (Ret u, s') → s' = s.
Proof.
  unfold checkNewParent, bind, selectTodo, gets, expect, guard, ret, throw.
  destruct pid as [p|]; [|by intros [= _ <-]].
  destruct (todos s !! p) as [prow|]; [|done].
  destruct (bool_decide _); [done|by intros [= _ <-]].
Qed.

Lemma exec_resolvePositionProg (payload : CreatePayload) (L : Z) :
  exec (resolvePositionProg payload L) s
  = (Ret (resolvePosition (toNumber (new_position payload)) (selectMaxPos L (todos s))), s).
Proof.
  unfold resolvePositionProg, resolvePosition.
  destruct (toNumber (new_position payload)) as [|n]; [done|].
  by destruct (_ || _).
Qed.

Lemma exec_createTodoProg (payload : CreatePayload) :
  transaction (exec (createTodoProg payload)) s = createTodo payload s.
Proof.
  unfold createTodo, createTodoProg, transaction.
  rewrite exec_pbind. unfold bind at 1. rewrite exec_resolveListProg.
  unfold bind at 1. unfold gets at 1. cbv beta iota zeta.
  set (L := resolveListId (new_listId payload) (current_list_id (settings s))).
  rewrite exec_pbind. unfold bind at 1. rewrite exec_checkNewParentProg.
  unfold bind at 1.
  destruct (checkNewParent L (new_parentId payload) s) as [[[]|e|] s1] eqn:Hcheck;
    [|done..].
  apply checkNewParent_store in Hcheck as ->.
  rewrite exec_pbind. unfold bind at 1. rewrite exec_resolvePositionProg.
  unfold bind at 1. unfold gets at 1. cbv beta iota.
  unfold bind at 1. unfold bind at 1. unfold guard.
  destruct (_ && _); prog_step; [done|]. unfold ret at 1. cbv beta iota.
  unfold bind, gets, expect, modifyTodos, selectTodo, ret, throw.
  destruct (lists s !! L); prog_step; [|done].
  unfold gets. cbn [todos setTodos]. by rewrite lookup_insert_eq.
Qed.

Lemma exec_deleteListProg (id : Z) :
  transaction (exec (deleteListProg id)) s = deleteList id s.
Proof.
  unfold deleteList, deleteListProg, transaction, bind, deleteFromLists, guard, gets, ret,
    throw.
  prog_step. destruct (lists s !! id) as [l|]; prog_step; [|done].
  cbn [bool_decide decide_rel].
  rewrite (bool_decide_eq_false_2 (1%nat = 0%nat)) by done. prog_step.
  by destruct (bool_decide (current_list_id (settings (deleteListRow id s)) = Some id)).
Qed.

Lemma exec_checkParentProg (id : Z) (row : Todo) (target : option Z) :
  exec (checkParentProg fuel id row target) s = checkParent fuel id row target s.
Proof.
  unfold checkParentProg, checkParent, bind, guard, selectTodo, gets, expect, liftOutcome,
    ret, throw.
  destruct target as [tp|]; prog_step; [|done].
  destruct (bool_decide (tp = id)); prog_step; [done|].
  destruct (todos s !! tp) as [pr|]; prog_step; [|done].
  destruct (bool_decide (listId pr ≠ listId row)); prog_step; [done|].
  by destruct (ancestorWalk fuel (todos s) id (Some pr)) as [[]| |].
Qed.

Lemma exec_selectRowProg (id : Z) (s0 : Store) :
  exec (selectRowProg id) s0
  = (let! sel := selectTodo id in
     match sel with Some t => ret (id, t) | None => throw TodoNotFound end) s0.
Proof.
  unfold selectRowProg, bind, selectTodo, gets. prog_step. by destruct (todos s0 !! id).
Qed.

Lemma exec_updateTodoProg (id : Z) (p : Patch) :
  transaction (exec (updateTodoProg fuel id p)) s = updateTodo fuel id p s.
Proof.
  unfold updateTodo, updateTodoProg, transaction.
  unfold bind at 1. unfold selectTodo, gets at 1. cbv beta iota.
  unfold bind at 1, expect. prog_step.
  destruct (todos s !! id) as [row|] eqn:Hrow; [|done].
  prog_step. unfold ret at 1. cbv beta iota zeta.
  rewrite exec_pbind. unfold bind at 1. rewrite exec_checkParentProg. unfold bind at 1.
  destruct (checkParent fuel id row _ s) as [[[]|e|] s1] eqn:Hcheck; [|done..].
  apply checkParent_Ret in Hcheck as [-> _].
  unfold bind at 1, guard.
  destruct (_ && _); prog_step; [done|]. unfold ret at 1. cbv beta iota.
  destruct (_ && _).
  { by rewrite exec_selectRowProg. }
  unfold bind at 1, guard. prog_step.
  destruct (bool_decide (_ = Some NaN)); prog_step; [done|].
  unfold ret at 1. cbv beta iota. unfold bind at 1, modifyTodos.
  by rewrite exec_selectRowProg.
Qed.

End programs.

(** ** The failing driver *)

Lemma execFaulty_None {A : Type} (err : Thrown) (p : Prog A) (s : Store) :
  execFaulty err p None s = (resultOf (exec p s).1, (exec p s).2, None).
Proof.
  revert s. induction p as [a|e| |B run next IH]; intros s; [done..|].
  cbn [execFaulty exec fmap option_fmap option_map]. apply IH.
Qed.

Lemma transactionFaulty_None {A : Type} (err : Thrown) (p : Prog A) (s : Store) :
  transactionFaulty err p None s
  = (resultOf (transaction (exec p) s).1, (transaction (exec p) s).2, None).
Proof.
  unfold transactionFaulty, transaction. cbn [fmap option_fmap option_map].
  rewrite execFaulty_None. by destruct (exec p s) as [[a|e|] s1].
Qed.

(** A statement that fails raises the error of the driver; the other errors
    are those that the engine throws. *)
Lemma execFaulty_Raised {A : Type} (err : Thrown) (p : Prog A) (k : option nat)
    (s s' : Store) (e : Thrown) (k' : option nat) :
  execFaulty err p k s = (Raised e, s', k') →
  (e = err ∧ k ≠ None ∧ k' = None) ∨ (∃ e0, e = thrownOf e0).
Proof.
  revert k s. induction p as [a|e0| |B run next IH]; intros k s; [done| |done|].
  - intros [= <- _ _]. right. by exists e0.
  - cbn [execFaulty]. destruct k as [[|k]|].
    + intros [= <- _ <-]. by left.
    + intros [(? & _ & ?)|?]%IH; [by left|by right].
    + intros [(? & ? & ?)|?]%IH; [done|by right].
Qed.

Lemma transactionFaulty_Raised {A : Type} (err : Thrown) (p : Prog A) (k : option nat)
    (s s' : Store) (e : Thrown) (k' : option nat) :
  transactionFaulty err p k s = (Raised e, s', k') →
  s' = s ∧ ((e = err ∧ k ≠ None ∧ k' = None) ∨ (∃ e0, e = thrownOf e0)).
Proof.
  unfold transactionFaulty. destruct k as [[|k]|].
  - intros [= <- <- <-]. split; [done|by left].
  - cbn [fmap option_fmap option_map pred].
    destruct (execFaulty err p (Some k) s) as [[[a|e1|] s1] k1] eqn:Hrun.
    + destruct k1 as [[|k1]|]; [|done..]. intros [= <- <- <-]. split; [done|by left].
    + intros [= <- <- <-]. split; [done|].
      apply execFaulty_Raised in Hrun as [(? & _ & ?)|?]; [by left|by right].
    + done.
  - cbn [fmap option_fmap option_map].
    destruct (execFaulty err p None s) as [[[a|e1|] s1] k1] eqn:Hrun.
    + rewrite execFaulty_None in Hrun. injection Hrun as _ _ <-. done.
    + intros [= <- <- _]. split; [done|].
      apply execFaulty_Raised in Hrun as [(_ & ? & _)|?]; [done|by right].
    + done.
Qed.

Lemma transactionFaulty_Hangs {A : Type} (err : Thrown) (p : Prog A) (k : option nat)
    (s s' : Store) (k' : option nat) :
  transactionFaulty err p k s = (Hangs, s', k') → s' = s.
Proof.
  unfold transactionFaulty. destruct k as [[|k]|]; [done| |].
  - destruct (execFaulty err p _ s) as [[[a|e1|] s1] k1]; [|done|by intros [= <- _]].
    by destruct k1 as [[|k1]|].
  - destruct (execFaulty err p _ s) as [[[a|e1|] s1] k1]; [|done|by intros [= <- _]].
    by destruct k1 as [[|k1]|].
Qed.

Lemma mapResult_Raised {A B : Type} (f : A → B) (x : Result A * Store * option nat)
    (e : Thrown) (s' : Store) (k' : option nat) :
  mapResult f x = (Raised e, s', k') → x = (Raised e, s', k').
Proof.
  destruct x as [[[a|e1|] s1] k1]; unfold mapResult; cbn [fst snd]; [done| |done].
  by intros [= <- <- <-].
Qed.

Lemma mapResult_resultOf {A B : Type} (f : A → B) (m : Txn A) (s : Store) :
  mapResult f (resultOf (m s).1, (m s).2, None)
  = (resultOf ((let! a := m in ret (f a)) s).1, ((let! a := m in ret (f a)) s).2, None).
Proof. unfold mapResult, bind, ret. by destruct (m s) as [[a|e|] s1]. Qed.

Lemma patchTodosPositionsFaulty_Raised (err : Thrown) (fuel : nat) (body : list Update)
    (k : option nat) (s s' : Store) (e : Thrown) (k' : option nat) :
  patchTodosPositionsFaulty err fuel body k s = (Raised e, s', k') → s' = s.
Proof.
  assert (updateTodoPositionsFaulty err fuel body k s = (Raised e, s', k') → s' = s)
    as Hengine.
  { unfold updateTodoPositionsFaulty. destruct body as [|r0 rest]; [done|].
    by intros [? _]%transactionFaulty_Raised. }
  unfold patchTodosPositionsFaulty. destruct body as [|r0 rest]; [by intros [= _ <- _]|].
  destruct (shallowCheck _ _ _); [by intros [= _ <- _]|].
  destruct (findTop _); [|done]. case_bool_decide; [by intros [= _ <- _]|done].
Qed.

Lemma updateTodoPositionsFaulty_None (err : Thrown) (fuel : nat) (updates : list Update)
    (s : Store) :
  updateTodoPositionsFaulty err fuel updates None s
  = (resultOf (updateTodoPositions fuel updates s).1, (updateTodoPositions fuel updates s).2,
     None).
Proof.
  unfold updateTodoPositionsFaulty. destruct updates as [|r0 rest]; [done|].
  by rewrite transactionFaulty_None, exec_updateTodoPositionsProg.
Qed.

Lemma patchTodosPositionsFaulty_None (err : Thrown) (fuel : nat) (body : list Update)
    (s : Store) :
  patchTodosPositionsFaulty err fuel body None s
  = (resultOf (patchTodosPositions fuel body s).1, (patchTodosPositions fuel body s).2, None).
Proof.
  unfold patchTodosPositionsFaulty, patchTodosPositions.
  destruct body as [|r0 rest]; [done|].
  destruct (shallowCheck _ _ _); [done|].
  destruct (findTop _); [|apply updateTodoPositionsFaulty_None].
  case_bool_decide; [done|apply updateTodoPositionsFaulty_None].
Qed.

(** On a driver that does not fail, the calls of the engine are those of
    [perform]. *)
Lemma performFaulty_None (err : Thrown) (fuel : nat) (op : Operation) (s : Store) :
  performFaulty err fuel op None s
  = (resultOf (perform fuel op s).1, (perform fuel op s).2, None).
Proof.
  destruct op as [payload|id patch|updates|body|id opts|id]; cbn [performFaulty perform].
  - unfold createTodoFaulty. rewrite transactionFaulty_None, exec_createTodoProg.
    apply mapResult_resultOf.
  - unfold updateTodoFaulty. rewrite transactionFaulty_None, exec_updateTodoProg.
    apply mapResult_resultOf.
  - rewrite updateTodoPositionsFaulty_None. apply mapResult_resultOf.
  - rewrite patchTodosPositionsFaulty_None. apply mapResult_resultOf.
  - unfold deleteTodoFaulty. rewrite transactionFaulty_None, exec_deleteTodoProg.
    apply mapResult_resultOf.
  - unfold deleteListFaulty. rewrite transactionFaulty_None, exec_deleteListProg.
    apply mapResult_resultOf.
Qed.

(** C6. Every structural operation of the engine is atomic, on a driver
    that can fail: when the call raises an error, whether the engine threw
    it (a validation, an item or a list that is not found) or a statement
    of the call failed on the driver, at any place of the call and with any
    error (busy, full, input or output), BEGIN and COMMIT included, the
    store after the call is the store before it. When no statement fails,
    the call is the one of [perform]. *)
Theorem perform_atomic (err : Thrown) (fuel : nat) (op : Operation) (s : Store) :
  performFaulty err fuel op None s
  = (resultOf (perform fuel op s).1, (perform fuel op s).2, None)
  ∧ ∀ (k : option nat) (e : Thrown) (s' : Store) (k' : option nat),
      performFaulty err fuel op k s = (Raised e, s', k') → s' = s.
Proof.
  split; [apply performFaulty_None|].
  intros k e s' k'.
  destruct op as [payload|id patch|updates|body|id opts|id]; cbn [performFaulty];
    intros H%mapResult_Raised.
  - by apply transactionFaulty_Raised in H as [? _].
  - by apply transactionFaulty_Raised in H as [? _].
  - unfold updateTodoPositionsFaulty in H. destruct updates as [|r0 rest]; [done|].
    by apply transactionFaulty_Raised in H as [? _].
  - by apply patchTodosPositionsFaulty_Raised in H.
  - by apply transactionFaulty_Raised in H as [? _].
  - by apply transactionFaulty_Raised in H as [? _].
Qed.

(** The disk is full when the DELETE of a delete without cascade runs: the
    statements before it have lifted the child B, and the call leaves the
    store as it was. Without the transaction the lifted B would stay. *)
Lemma perform_atomic_witness :
  performFaulty diskFull 4 (DeleteTodo 1 (Some false)) (Some 4%nat) threeItems
  = (Raised diskFull, threeItems, None)
  ∧ execFaulty diskFull (deleteTodoProg 4 1 (Some false)) (Some 3%nat) threeItems
    = (Raised diskFull,
       storeOf [(1, item "A" None 1); (2, mkTodo "B" false false None false (Int 2) 1);
                (3, item "C" None 3)],
       None)
  ∧ threeItems = threeItems.
Proof.
  assert (performFaulty diskFull 4 (DeleteTodo 1 (Some false)) (Some 4%nat) threeItems
          = (Raised diskFull, threeItems, None)) as Hrun by (vm_compute; reflexivity).
  split; [exact Hrun|]. split; [vm_compute; reflexivity|].
  exact (proj2 (perform_atomic diskFull 4 (DeleteTodo 1 (Some false)) threeItems)
           (Some 4%nat) diskFull threeItems None Hrun).
Defined.

(** ** The replies of the routes *)

Lemma busy_thrownOf {A : Type} (e : Error) : busy (A := A) (Raised (thrownOf e)) = false.
Proof.
  unfold busy. apply bool_decide_eq_false_2. rewrite classifyDbError_thrownOf. by destruct e.
Qed.

(** The three rounds of [withRetries] with its default options, on a call
    that leaves the store as it was when it raises. *)
Lemma viaRetries_rounds {A : Type}
    (call : option nat → Store → Result A * Store * option nat)
    (sched : list (option nat)) (s : Store) :
  (∀ k e s' k', call k s = (Raised e, s', k') → s' = s) →
  viaRetries call sched s
  = (if busy (call (default None (sched !! 0%nat)) s).1.1 then
       if busy (call (default None (sched !! 1%nat)) s).1.1 then
         (replyOf (call (default None (sched !! 2%nat)) s).1.1,
          (call (default None (sched !! 2%nat)) s).1.2, [50; 100])
       else
         (replyOf (call (default None (sched !! 1%nat)) s).1.1,
          (call (default None (sched !! 1%nat)) s).1.2, [50])
     else
       (replyOf (call (default None (sched !! 0%nat)) s).1.1,
        (call (default None (sched !! 0%nat)) s).1.2, [])).
Proof.
  intros Hatomic. unfold viaRetries, withRetries. change (Z.to_nat 3) with 3%nat.
  assert (∀ l : list (option nat), default None (head l) = default None (l !! 0%nat)) as Hhead.
  { by intros [|]. }
  assert (default None (sched !! 1%nat) = default None (tail sched !! 0%nat)) as ->.
  { by destruct sched. }
  assert (default None (sched !! 2%nat) = default None (tail (tail sched) !! 0%nat)) as ->.
  { by destruct sched as [|? []]. }
  rewrite <- !Hhead. cbn [retryLoop fst snd].
  destruct (call (default None (head sched)) s) as [[[a|e|] s1] k1] eqn:H0;
    cbn [fst snd busy]; [done| |done].
  apply Hatomic in H0 as ->.
  case_bool_decide as H503; cbn [andb]; [|done].
  rewrite (bool_decide_eq_true_2 (0 < 3 - 1)) by lia.
  destruct (call (default None (head (tail sched))) s) as [[[a|e1|] s1] k2] eqn:H1;
    cbn [fst snd busy]; [done| |done].
  apply Hatomic in H1 as ->.
  case_bool_decide as H503'; cbn [andb]; [|done].
  rewrite (bool_decide_eq_true_2 (0 + 1 < 3 - 1)) by lia.
  destruct (call (default None (head (tail (tail sched)))) s) as [[[a|e2|] s1] k3] eqn:H2;
    cbn [fst snd busy]; [done| |done].
  rewrite (bool_decide_eq_false_2 (0 + 1 + 1 < 3 - 1)) by lia. by rewrite andb_false_r.
Qed.

(** X22. A route that calls a function of the engine through [withRetries]
    with the default options, on a driver where a statement of a call can
    fail. A call that raises leaves the store as it was, so every call of
    the request runs on the store of the first. The first call is made
    again, 50 ms later, when it raised an error that [classifyDbError]
    takes for busy, and the second 100 ms later; what the third call ends
    in is final. The reply is that of the last call made. A call is made
    again only when a statement of it failed on the driver with an error
    taken for busy: no error that the engine throws is. When no statement
    of the first call fails, the call is made once, and the reply is 200
    with the result when it returns, and otherwise the status and the
    message that [classifyDbError] makes of the error of the engine. *)
Theorem viaRetries_retries {A : Type} (err : Thrown) (body : Prog A)
    (sched : list (option nat)) (s : Store) :
  let call := transactionFaulty err body in
  let run := λ i : nat, call (default None (sched !! i)) s in
  viaRetries call sched s
  = (if busy (run 0%nat).1.1 then
       if busy (run 1%nat).1.1 then (replyOf (run 2%nat).1.1, (run 2%nat).1.2, [50; 100])
       else (replyOf (run 1%nat).1.1, (run 1%nat).1.2, [50])
     else (replyOf (run 0%nat).1.1, (run 0%nat).1.2, []))
  ∧ (∀ i : nat, busy (run i).1.1 = true →
       (∃ k : nat, sched !! i = Some (Some k))
       ∧ run i = (Raised err, s, None)
       ∧ (classifyDbError err).1 = 503)
  ∧ (default None (sched !! 0%nat) = None →
     viaRetries call sched s
     = (match (transaction (exec body) s).1 with
        | Ret a => Some (Json200 a)
        | Throw e =>
            Some (JsonError
                    (match e with
                     | TodoNotFound | FirstTodoNotFound | TodoIdNotFound _
                     | ParentIdNotFound _ | ParentTodoNotFound | ListNotFound => 404
                     | SqliteConstraint => 409
                     | _ => 500
                     end)
                    (match e with
                     | SqliteConstraint => "Constraint violation"
                     | _ => messageOf e
                     end))
        | Diverge => None
        end, (transaction (exec body) s).2, [])).
Proof.
  intros call run.
  assert (viaRetries call sched s
          = (if busy (run 0%nat).1.1 then
               if busy (run 1%nat).1.1
               then (replyOf (run 2%nat).1.1, (run 2%nat).1.2, [50; 100])
               else (replyOf (run 1%nat).1.1, (run 1%nat).1.2, [50])
             else (replyOf (run 0%nat).1.1, (run 0%nat).1.2, []))) as Hrounds.
  { apply viaRetries_rounds. intros k e s' k' H.
    by apply transactionFaulty_Raised in H as [? _]. }
  split; [exact Hrounds|]. split.
  - intros i Hbusy. unfold run in *.
    destruct (call (default None (sched !! i)) s) as [[[a|e|] s1] k1] eqn:Hrun;
      cbn [fst snd busy] in Hbusy; [done| |done].
    apply transactionFaulty_Raised in Hrun as [-> [(-> & Hk & ->)|[e0 ->]]].
    + split; [|split; [done|by apply bool_decide_eq_true_1 in Hbusy]].
      destruct (sched !! i) as [[k|]|]; [by exists k|done..].
    + change (busy (A := A) (Raised (thrownOf e0)) = true) in Hbusy.
      by rewrite busy_thrownOf in Hbusy.
  - intros Hclean. rewrite Hrounds. unfold run, call. rewrite Hclean.
    rewrite transactionFaulty_None. cbn [fst snd].
    destruct (transaction (exec body) s) as [[a|e|] s1]; cbn [fst snd resultOf busy replyOf];
      [done| |done].
    assert (bool_decide ((classifyDbError (thrownOf e)).1 = 503) = false) as ->.
    { apply (busy_thrownOf (A := A) e). }
    rewrite classifyDbError_thrownOf. by destruct e.
Qed.

(** The database is locked when the DELETE of the first call runs, and
    again at the BEGIN of the second call; the third call goes through. *)
Lemma viaRetries_retries_witness :
  viaRetries (transactionFaulty busyError (deleteTodoProg 4 1 (Some false)))
             [Some 4%nat; Some 0%nat] threeItems
  = (Some (Json200 (mkDeleteResult [1] false 1 [2])),
     storeOf [(2, item "B" None 1); (3, item "C" None 2)], [50; 100])
  ∧ (∃ k : nat, [Some 4%nat; Some 0%nat] !! 0%nat = Some (Some k))
  ∧ transactionFaulty busyError (deleteTodoProg 4 1 (Some false)) (Some 4%nat) threeItems
    = (Raised busyError, threeItems, None)
  ∧ (classifyDbError busyError).1 = 503.
Proof.
  split; [vm_compute; reflexivity|].
  exact (proj1 (proj2 (viaRetries_retries busyError (deleteTodoProg 4 1 (Some false))
                         [Some 4%nat; Some 0%nat] threeItems))
           0%nat ltac:(vm_compute; reflexivity)).
Defined.

(** X23. The reply of PATCH /api/todos/positions to a body of rows whose
    numbers are safe integers, when no statement of the call of the engine
    fails on the driver: 200 with the result of the engine when the batch
    is accepted; 400 when the shallow validation of the route refuses it
    (an empty array, an id or a position twice, a parent for the row with
    position 1); 404 when the first item, an item or a parent of the batch
    does not exist; and 500 for the other refusals of the engine (a batch
    over two lists, an item as its own parent, a parent in another list, a
    cycle). It is then never 409 or 503, and the engine is called at most
    once. *)
Theorem patchPositionsRoute_reply (err : Thrown) (fuel : nat) (body : list Update)
    (sched : list (option nat)) (s : Store) :
  Forall safeRow body →
  default None (sched !! 0%nat) = None →
  patchPositionsRoute err fuel body sched s
  = (match (patchTodosPositions fuel body s).1 with
     | Ret r => Some (Json200 r)
     | Throw e =>
         Some (JsonError
                 (match e with
                  | ArrayEmpty | DuplicateId _ | DuplicatePosition _ | CannotIndentFirst => 400
                  | FirstTodoNotFound | TodoIdNotFound _ | ParentIdNotFound _ => 404
                  | _ => 500
                  end) (messageOf e))
     | Diverge => None
     end,
     (patchTodosPositions fuel body s).2, []).
Proof.
  intros _ Hclean.
  assert (viaRetries (updateTodoPositionsFaulty err fuel body) sched s
          = (match (updateTodoPositions fuel body s).1 with
             | Ret r => Some (Json200 r)
             | Throw e =>
                 Some (JsonError
                         (match e with
                          | ArrayEmpty | DuplicateId _ | DuplicatePosition _
                          | CannotIndentFirst => 400
                          | FirstTodoNotFound | TodoIdNotFound _ | ParentIdNotFound _ => 404
                          | _ => 500
                          end) (messageOf e))
             | Diverge => None
             end, (updateTodoPositions fuel body s).2, [])) as Hengine.
  { rewrite viaRetries_rounds.
    2:{ intros k e s' k'. unfold updateTodoPositionsFaulty.
        destruct body as [|r0 rest]; [done|]. by intros [? _]%transactionFaulty_Raised. }
    rewrite Hclean, updateTodoPositionsFaulty_None. cbn [fst snd].
    destruct (updateTodoPositions fuel body s) as [[r|e|] s1] eqn:Hrun;
      cbn [fst snd resultOf busy replyOf]; [done| |done].
    apply updateTodoPositions_Throw in Hrun.
    assert (bool_decide ((classifyDbError (thrownOf e)).1 = 503) = false) as ->.
    { apply (busy_thrownOf (A := BulkResult) e). }
    rewrite classifyDbError_thrownOf. by destruct e. }
  destruct body as [|r0 rest]; [done|].
  rewrite patchTodosPositions_cons. unfold patchPositionsRoute.
  destruct (shallowCheck (r0 :: rest) [] []) as [e|] eqn:Hshallow.
  { by apply shallowCheck_Some in Hshallow as [[id ->]|[pos ->]]. }
  destruct (findTop (r0 :: rest)) as [top|]; [|done].
  by case_bool_decide.
Qed.

(** A batch that names an item that does not exist: 404. *)
Lemma patchPositionsRoute_reply_witness :
  Forall safeRow [mkUpdate 1 1 None; mkUpdate 7 2 None]
  ∧ default None ([@None nat] !! 0%nat) = None
  ∧ patchPositionsRoute busyError 4 [mkUpdate 1 1 None; mkUpdate 7 2 None] [None] twoItems
    = (Some (JsonError 404 "Todo 7 not found"), twoItems, []).
Proof.
  assert (Forall safeRow [mkUpdate 1 1 None; mkUpdate 7 2 None]) as Hsafe.
  { repeat constructor; cbn; unfold safeInteger; lia. }
  split; [exact Hsafe|]. split; [reflexivity|].
  rewrite (patchPositionsRoute_reply busyError 4 [mkUpdate 1 1 None; mkUpdate 7 2 None]
             [None] twoItems Hsafe eq_refl).
  vm_compute. reflexivity.
Defined.

(** X24. A bulk update that [updateTodoPositions] refuses, with the cause
    of each error: the store is left as it was; 'First todo not found' is
    for a missing item of the first row; '... not found' with an id is for a
    row whose item, or whose parent, does not exist; 'All updates must be
    within the same list' and 'Parent must be in the same list' are for an
    item, or a parent, outside the list of the first row; 'A todo cannot be
    its own parent' is for a row whose parent is its own item; the only
    other error is 'Parent cycle detected'. *)
Theorem updateTodoPositions_errors (fuel : nat) (updates : list Update) (s s' : Store)
    (e : Error) :
  updateTodoPositions fuel updates s = (Throw e, s') →
  s' = s
  ∧ match e with
    | FirstTodoNotFound => ∃ u, head updates = Some u ∧ todos s !! upd_id u = None
    | TodoIdNotFound id => id ∈ upd_id <$> updates ∧ todos s !! id = None
    | ParentIdNotFound p => Some p ∈ upd_parentId <$> updates ∧ todos s !! p = None
    | UpdatesSameList =>
        ∃ u0 u t0 t, head updates = Some u0 ∧ u ∈ updates
                     ∧ todos s !! upd_id u0 = Some t0 ∧ todos s !! upd_id u = Some t
                     ∧ listId t ≠ listId t0
    | OwnParent => ∃ u, u ∈ updates ∧ upd_parentId u = Some (upd_id u)
    | ParentSameList =>
        ∃ u0 u p t0 meta, head updates = Some u0 ∧ u ∈ updates ∧ upd_parentId u = Some p
                          ∧ todos s !! upd_id u0 = Some t0 ∧ todos s !! p = Some meta
                          ∧ listId meta ≠ listId t0
    | ParentCycle => True
    | _ => False
    end.
Proof.
  intros Hrun. split; [|by eapply updateTodoPositions_Throw].
  destruct updates as [|r0 rest]; [done|]. by apply transaction_rollback in Hrun.
Qed.

Lemma updateTodoPositions_errors_witness :
  updateTodoPositions 4 [mkUpdate 1 1 None; mkUpdate 2 2 (Some 7)] twoItems
  = (Throw (ParentIdNotFound 7), twoItems)
  ∧ twoItems = twoItems
  ∧ Some 7 ∈ upd_parentId <$> [mkUpdate 1 1 None; mkUpdate 2 2 (Some 7)]
  ∧ todos twoItems !! 7 = None.
Proof.
  assert (updateTodoPositions 4 [mkUpdate 1 1 None; mkUpdate 2 2 (Some 7)] twoItems
          = (Throw (ParentIdNotFound 7), twoItems)) as Hrun by (vm_compute; reflexivity).
  split; [exact Hrun|].
  exact (updateTodoPositions_errors 4 _ twoItems twoItems (ParentIdNotFound 7) Hrun).
Defined.

(** ** The errors of updateTodo *)

Lemma bind_Throw {A B : Type} (m : Txn A) (k : A → Txn B) (s s' : Store) (e : Error) :
  bind m k s = (Throw e, s') →
  m s = (Throw e, s') ∨ ∃ a s1, m s = (Ret a, s1) ∧ k a s1 = (Throw e, s').
Proof.
  unfold bind. destruct (m s) as [[a|e1|] s1].
  - intros H. right. eauto.
  - intros [= -> ->]. by left.
  - done.
Qed.

Lemma ancestorWalk_Throw (d : gmap Z Todo) (tid : Z) (fuel : nat) (p : Z) (e : Error) :
  ancestorWalk fuel d tid (d !! p) = Throw e →
  ∃ k, nthParent d (S k) p = Some tid.
Proof.
  revert p. induction fuel as [|fuel IH]; intros p H;
    destruct (d !! p) as [c|] eqn:Hp; try done; simpl in H;
    destruct (parentId c) as [q|] eqn:Hq; try done;
    assert (parentOf d p = Some q) as Hpq by (unfold parentOf; by rewrite Hp);
    case_decide as Hqt; try done.
  - exists O. by rewrite follow_1, Hpq, Hqt.
  - exists O. by rewrite follow_1, Hpq, Hqt.
  - apply IH in H as [k Hk]. exists (S k). by rewrite nthParent_S, Hpq.
Qed.

Lemma checkParent_Throw (fuel : nat) (id : Z) (t : Todo) (target : option Z)
    (s s' : Store) (e : Error) :
  checkParent fuel id t target s = (Throw e, s') →
  match e with
  | ParentSelf => target = Some id
  | ParentTodoNotFound => ∃ tp, target = Some tp ∧ todos s !! tp = None
  | ParentSameList =>
      ∃ tp pr, target = Some tp ∧ todos s !! tp = Some pr ∧ listId pr ≠ listId t
  | CyclicParent => ∃ tp k, target = Some tp ∧ nthParent (todos s) (S k) tp = Some id
  | _ => False
  end.
Proof.
  destruct target as [tp|]; [|done].
  unfold checkParent, bind, guard, selectTodo, gets, expect, ret, throw, liftOutcome.
  case_bool_decide as Hself; [intros [= <- _]; by subst|].
  destruct (todos s !! tp) as [pr|] eqn:Hpr; [|intros [= <- _]; eauto].
  case_bool_decide as HL; [intros [= <- _]; eauto|].
  destruct (ancestorWalk _ _ _ _) as [[]|e1|] eqn:Hwalk; [done| |done].
  intros [= <- _]. rewrite <- Hpr in Hwalk.
  pose proof (ancestorWalk_error _ _ _ _ _ Hwalk) as ->.
  apply ancestorWalk_Throw in Hwalk as [k Hk]. eauto.
Qed.

(** X25. A call of [updateTodo] that throws, with the cause of each error;
    the store is left as it was. 'Todo not found' is for an item that does
    not exist. The other errors are about the target parent, which is the
    parent of the patch or, when the patch has none, the parent that the
    item has: 'Cannot set parent to self' when it is the item; 'Parent todo
    not found' when it does not exist; 'Parent must be in the same list'
    when it is in another list; 'Cannot create cyclic parent relationship'
    when the item is among its ancestors; 'Cannot indent the first item in
    the list' when there is a target parent and the target position (of the
    patch, else of the item) is 1; and a constraint error only for a
    position that is NaN. *)
Theorem updateTodo_throws (fuel : nat) (id : Z) (p : Patch) (s s' : Store) (e : Error) :
  updateTodo fuel id p s = (Throw e, s') →
  s' = s
  ∧ match e with
    | TodoNotFound => todos s !! id = None
    | _ =>
        ∃ t, todos s !! id = Some t
          ∧ let target := default (parentId t) (p_parentId p) in
            match e with
            | ParentSelf => target = Some id
            | ParentTodoNotFound => ∃ tp, target = Some tp ∧ todos s !! tp = None
            | ParentSameList =>
                ∃ tp pr, target = Some tp ∧ todos s !! tp = Some pr
                         ∧ listId pr ≠ listId t
            | CyclicParent =>
                ∃ tp k, target = Some tp ∧ nthParent (todos s) (S k) tp = Some id
            | CannotIndentFirst =>
                target ≠ None
                ∧ match p_position p with
                  | Some v => toNumber (Some v)
                  | None => Num (position t)
                  end = Num (Int 1)
            | SqliteConstraint => p_position p = Some (JNumber NaN)
            | _ => False
            end
    end.
Proof.
  intros Hrun. split; [by apply transaction_rollback in Hrun|].
  unfold updateTodo, transaction in Hrun.
  destruct (bind _ _ s) as [[r|e1|] s1] eqn:Hbody; [done| |done].
  injection Hrun as -> _. clear s'.
  apply bind_Throw in Hbody as [Hbody|(row0 & s2 & Hsel & Hbody)]; [done|].
  apply selectTodo_Ret in Hsel as [-> ->].
  apply bind_Throw in Hbody as [Hbody|(t & s2 & Hex & Hbody)].
  { destruct (todos s !! id); [done|]. by injection Hbody as <- _. }
  apply expect_Ret in Hex as [Ht ->].
  assert (match p_parentId p with Some v => v | None => parentId t end
          = default (parentId t) (p_parentId p)) as Htarget by (by destruct (p_parentId p)).
  rewrite Htarget in Hbody.
  cut (match e with
       | ParentSelf => default (parentId t) (p_parentId p) = Some id
       | ParentTodoNotFound =>
           ∃ tp, default (parentId t) (p_parentId p) = Some tp ∧ todos s !! tp = None
       | ParentSameList =>
           ∃ tp pr, default (parentId t) (p_parentId p) = Some tp
                    ∧ todos s !! tp = Some pr ∧ listId pr ≠ listId t
       | CyclicParent =>
           ∃ tp k, default (parentId t) (p_parentId p) = Some tp
                   ∧ nthParent (todos s) (S k) tp = Some id
       | CannotIndentFirst =>
           default (parentId t) (p_parentId p) ≠ None
           ∧ match p_position p with
             | Some v => toNumber (Some v)
             | None => Num (position t)
             end = Num (Int 1)
       | SqliteConstraint => p_position p = Some (JNumber NaN)
       | _ => False
       end).
  { intros Hcause. destruct e; try done; eauto. }
  apply bind_Throw in Hbody as [Hbody|([] & s2 & Hcheck & Hbody)].
  { apply checkParent_Throw in Hbody. by destruct e. }
  apply checkParent_Ret in Hcheck as [-> _].
  apply bind_Throw in Hbody as [Hbody|([] & s2 & Hguard & Hbody)].
  { unfold guard in Hbody. destruct (_ && _) eqn:Hb; [|done].
    injection Hbody as <- _. apply andb_true_iff in Hb as [H1 H2].
    by apply bool_decide_eq_true in H1, H2. }
  apply guard_Ret in Hguard as [_ ->].
  assert (∀ s0, todos s0 !! id ≠ None →
            (let! sel := selectTodo id in
             match sel with Some t => ret (id, t) | None => throw TodoNotFound end) s0
            ≠ (Throw e, s1)) as Hdead.
  { intros s0 Hs0. unfold bind, selectTodo, gets, ret, throw.
    by destruct (todos s0 !! id). }
  destruct (_ && _); [by apply Hdead in Hbody; [|rewrite Ht]|].
  apply bind_Throw in Hbody as [Hbody|([] & s2 & Hguard & Hbody)].
  { unfold guard in Hbody. case_bool_decide as Hnan; [|done].
    injection Hbody as <- _.
    by destruct (p_position p) as [[|[]]|]. }
  apply guard_Ret in Hguard as [_ ->].
  apply bind_Throw in Hbody as [Hbody|([] & s2 & Hmod & Hbody)]; [done|].
  apply modifyTodos_Ret in Hmod as ->.
  apply Hdead in Hbody; [done|].
  cbn [todos setTodos]. rewrite lookup_alter_eq, Ht. done.
Qed.

(** 'Cannot indent the first item' for a patch that only ticks an item
    off. *)
Lemma updateTodo_throws_witness :
  let p := mkPatch None (Some true) None None None None None in
  updateTodo 4 2 p firstIndented = (Throw CannotIndentFirst, firstIndented)
  ∧ firstIndented = firstIndented
  ∧ ∃ t, todos firstIndented !! 2 = Some t
      ∧ default (parentId t) (p_parentId p) ≠ None
      ∧ match p_position p with
        | Some v => toNumber (Some v)
        | None => Num (position t)
        end = Num (Int 1).
Proof.
  intros p.
  assert (updateTodo 4 2 p firstIndented = (Throw CannotIndentFirst, firstIndented)) as Hrun
    by (vm_compute; reflexivity).
  split; [exact Hrun|].
  exact (updateTodo_throws 4 2 p firstIndented firstIndented CannotIndentFirst Hrun).
Defined.

(** ** The fallback of the client: collectDescendants *)

Section collect.

Context (arr : list TodoRow).

Lemma foldl_pushNew (children result queue : list Z) :
  ∃ new,
    foldl pushNew (result, queue) children = (result ++ new, queue ++ new)
    ∧ NoDup new
    ∧ ∀ x, x ∈ new ↔ x ∈ children ∧ x ∉ result.
Proof.
  revert result queue. induction children as [|c cs IH]; intros result queue.
  - exists []. rewrite !app_nil_r. split; [done|]. split; [constructor|].
    intros x. split; [by intros ?%elem_of_nil|by intros [?%elem_of_nil _]].
  - cbn [foldl]. unfold pushNew at 2. cbn [fst snd].
    destruct (decide (c ∈ result)) as [Hc|Hc].
    + destruct (IH result queue) as (new & -> & Hnd & Hnew).
      exists new. split; [done|]. split; [done|].
      intros x. rewrite Hnew, elem_of_cons. split; [tauto|].
      intros [[->|?] ?]; tauto.
    + destruct (IH (result ++ [c]) (queue ++ [c])) as (new & -> & Hnd & Hnew).
      exists (c :: new). rewrite <- !app_assoc. split; [done|]. split.
      * constructor; [|done]. rewrite Hnew, elem_of_app, list_elem_of_singleton. tauto.
      * intros x. rewrite !elem_of_cons, Hnew, elem_of_app, list_elem_of_singleton.
        destruct (decide (x = c)) as [->|]; tauto.
Qed.

Lemma elem_of_childIds (pid c : Z) :
  c ∈ (filter (λ t : TodoRow, parentId t.2 = Some pid) arr).*1 ↔ childIn arr pid c.
Proof.
  unfold childIn. rewrite list_elem_of_fmap. split.
  - intros (t & -> & [Hp Ht]%list_elem_of_filter). eauto.
  - intros (t & Ht & Hp & <-). exists t. split; [done|]. by apply list_elem_of_filter.
Qed.

Lemma childIn_id (p c : Z) : childIn arr p c → c ∈ arr.*1.
Proof. intros (t & Ht & _ & <-). apply list_elem_of_fmap. eauto. Qed.

(** The loop, from a state in which [result] holds only objects that are
    reached from [init], the queue holds only ids of [init] and of [result],
    and every id of [init] and of [result] is in the queue or has all its
    children in [result]. *)
Lemma collectLoop_spec (init : list Z) (fuel : nat) (result queue : list Z) :
  NoDup result →
  (∀ x, x ∈ result → x ∈ arr.*1) →
  (length queue + length arr ≤ fuel + length result)%nat →
  (∀ x, x ∈ result → ∃ w, w ∈ init ∧ reaches arr w x) →
  (∀ q, q ∈ queue → q ∈ init ∨ q ∈ result) →
  (∀ x, x ∈ init ∨ x ∈ result → x ∈ queue ∨ ∀ c, childIn arr x c → c ∈ result) →
  ∃ out,
    collectLoop fuel arr result queue = Some out
    ∧ NoDup out
    ∧ ∀ x, x ∈ out ↔ ∃ w, w ∈ init ∧ reaches arr w x.
Proof.
  revert result queue.
  induction fuel as [|fuel IH]; intros result queue Hnd Hids Hfuel Hsound Hqueue Hdone.
  - assert (length result ≤ length arr)%nat as Hlen.
    { rewrite <- (length_fmap fst arr). by apply submseteq_length, NoDup_submseteq. }
    destruct queue as [|pid rest]; [|simpl in Hfuel; lia].
    exists result. split; [done|]. split; [done|].
    intros x. split; [apply Hsound|].
    intros (w & Hw & Hreach).
    assert (w ∈ init ∨ w ∈ result) as Hw' by (by left). clear Hw.
    induction Hreach as [p c Hc|p c x Hc _ IHr].
    + destruct (Hdone p Hw') as [[]%elem_of_nil|Hp]. by apply Hp.
    + apply IHr. right. destruct (Hdone p Hw') as [[]%elem_of_nil|Hp]. by apply Hp.
  - assert (length result ≤ length arr)%nat as Hlen.
    { rewrite <- (length_fmap fst arr). by apply submseteq_length, NoDup_submseteq. }
    destruct queue as [|pid rest].
    { exists result. split; [done|]. split; [done|].
      intros x. split; [apply Hsound|].
      intros (w & Hw & Hreach).
      assert (w ∈ init ∨ w ∈ result) as Hw' by (by left). clear Hw.
      induction Hreach as [p c Hc|p c x Hc _ IHr].
      + destruct (Hdone p Hw') as [[]%elem_of_nil|Hp]. by apply Hp.
      + apply IHr. right. destruct (Hdone p Hw') as [[]%elem_of_nil|Hp]. by apply Hp. }
    cbn [collectLoop].
    destruct (foldl_pushNew (filter (λ t : TodoRow, parentId t.2 = Some pid) arr).*1
                result rest) as (new & -> & Hnew_nd & Hnew).
    cbn [fst snd].
    assert (∀ x, x ∈ new ↔ childIn arr pid x ∧ x ∉ result) as Hnew'.
    { intros x. by rewrite Hnew, elem_of_childIds. }
    apply IH.
    + apply NoDup_app. split; [done|]. split; [|done].
      intros x Hx Hx'. apply Hnew' in Hx'. tauto.
    + intros x [Hx|Hx]%elem_of_app; [by apply Hids|].
      apply Hnew' in Hx as [Hx _]. by eapply childIn_id.
    + rewrite !length_app. simpl in Hfuel. lia.
    + intros x [Hx|Hx]%elem_of_app; [by apply Hsound|].
      apply Hnew' in Hx as [Hx _].
      destruct (Hqueue pid) as [Hp|Hp]; [left|..].
      * exists pid. split; [done|]. by constructor.
      * destruct (Hsound pid Hp) as (w & Hw & Hwp). exists w. split; [done|].
        clear -Hwp Hx. induction Hwp as [p c Hc|p c y Hc _ IHr].
        -- eapply reaches_step; [done|]. by constructor.
        -- eapply reaches_step; [done|]. by apply IHr.
    + intros q [Hq|Hq]%elem_of_app.
      * destruct (Hqueue q) as [?|?]; [by right|by left|].
        right. apply elem_of_app. by left.
      * right. apply elem_of_app. by right.
    + assert (∀ c, childIn arr pid c → c ∈ result ++ new) as Hpid.
      { intros c Hc. apply elem_of_app.
        destruct (decide (c ∈ result)); [by left|right]. by apply Hnew'. }
      intros x Hx.
      destruct (decide (x ∈ new)) as [Hxn|Hxn].
      { left. apply elem_of_app. by right. }
      assert (x ∈ init ∨ x ∈ result) as Hx'.
      { destruct Hx as [?|[?|?]%elem_of_app]; [by left|by right|done]. }
      destruct (Hdone x Hx') as [[->|Hq]%elem_of_cons|Hc].
      * by right.
      * left. apply elem_of_app. by left.
      * right. intros c Hcx. apply elem_of_app. left. by apply Hc.
Qed.

End collect.

Lemma collectDescendants_returns (fuel : nat) (arr : list TodoRow) (parentIds : list Z) :
  (length parentIds + length arr ≤ fuel)%nat →
  ∃ result,
    collectDescendants fuel arr parentIds = Some result
    ∧ NoDup result
    ∧ ∀ x, x ∈ result ↔ ∃ w, w ∈ parentIds ∧ reaches arr w x.
Proof.
  intros Hfuel. unfold collectDescendants.
  apply collectLoop_spec.
  - constructor.
  - by intros x ?%elem_of_nil.
  - simpl. lia.
  - by intros x ?%elem_of_nil.
  - intros q Hq. by left.
  - intros x [Hx|[]%elem_of_nil]. by left.
Qed.

(** X26. [collectDescendants] of the fallback always ends, also when the
    parent links run in a cycle (where the recursive query of the server
    does not end): the loop makes at most as many rounds as there are ids to
    start from and objects in the array. The result has every id once, and
    holds exactly the ids that are reached from one of the ids to start from
    through one or more links from a parent to a child. *)
Theorem collectDescendants_ends (fuel : nat) (arr : list TodoRow) (parentIds : list Z) :
  (length parentIds + length arr ≤ fuel)%nat →
  ∃ result,
    collectDescendants fuel arr parentIds = Some result
    ∧ NoDup result
    ∧ ∀ x, x ∈ result ↔ ∃ w, w ∈ parentIds ∧ reaches arr w x.
Proof. apply collectDescendants_returns. Qed.

(** A and B are each other's parent. *)
Lemma collectDescendants_ends_witness :
  let arr := map_to_list (todos cyclicStore) in
  collectDescendants 4 arr [1] = Some [2; 1]
  ∧ ∃ result,
      collectDescendants 4 arr [1] = Some result
      ∧ NoDup result
      ∧ ∀ x, x ∈ result ↔ ∃ w, w ∈ [1] ∧ reaches arr w x.
Proof.
  intros arr. split; [vm_compute; reflexivity|].
  apply (collectDescendants_ends 4 arr [1]). vm_compute. lia.
Defined.

(** ** The fallback of the client: compactPositions *)

Section stableSort.

Context {A : Type} (le : relation A) `{!RelDecision le}.

Lemma insertBy_perm (x : A) (l : list A) : insertBy le x l ≡ₚ x :: l.
Proof.
  induction l as [|y l IH]; simpl; [done|]. case_decide; [done|].
  rewrite IH. apply perm_swap.
Qed.

Lemma stableSort_perm (l : list A) : stableSort le l ≡ₚ l.
Proof.
  induction l as [|x l IH]; [done|]. unfold stableSort in *. cbn [foldr].
  by rewrite insertBy_perm, IH.
Qed.

Lemma StronglySorted_filter (R : relation A) (P : A → Prop) `{!∀ x, Decision (P x)}
    (l : list A) :
  StronglySorted R l → StronglySorted R (filter P l).
Proof.
  induction 1 as [|x l Hl IH Hx]; [constructor|].
  rewrite filter_cons. case_decide; [|done]. constructor; [done|].
  apply Forall_forall. intros y [_ Hy]%list_elem_of_filter.
  by eapply Forall_forall in Hx.
Qed.

End stableSort.

Section numbering.

Implicit Types (arr : list TodoRow) (l : list (nat * TodoRow)).

Lemma insertBy_numbered (x : nat * TodoRow) l :
  StronglySorted numberedBefore l →
  Forall (λ y, (x.1 < y.1)%nat) l →
  StronglySorted numberedBefore (insertBy byPosition x l).
Proof.
  induction 1 as [|y l Hl IH Hy]; intros Hx; [repeat constructor|].
  apply Forall_cons in Hx as [Hxy Hx]. cbn [insertBy]. case_decide as Hle.
  - unfold byPosition, positionLe in Hle. apply num_le_lt_eq in Hle.
    assert (numberedBefore x y) as Hbefore.
    { destruct Hle as [?|?]; [by left|right]. split; [done|lia]. }
    constructor; [by constructor|]. constructor; [done|].
    apply Forall_forall. intros z Hz.
    eapply Forall_forall in Hy; [|done]. eapply Forall_forall in Hx; [|done].
    destruct Hle as [Hlt|Heq], Hy as [Hlt'|[Heq' _]].
    + left. by eapply num_lt_trans.
    + left. by rewrite <- Heq'.
    + left. by rewrite Heq.
    + right. split; [congruence|]. simpl in Hx. lia.
  - assert (num_lt (position y.2.2) (position x.2.2)) as Hlt.
    { unfold byPosition, positionLe in Hle. rewrite num_le_lt_eq in Hle.
      destruct (num_trichotomy (position x.2.2) (position y.2.2)) as [?|[?|?]]; tauto. }
    constructor; [by apply IH|].
    rewrite insertBy_perm. constructor; [by left|done].
Qed.

Lemma stableSort_numbered l :
  StronglySorted (λ a b, (a.1 < b.1)%nat) l →
  StronglySorted numberedBefore (stableSort byPosition l).
Proof.
  induction 1 as [|x l Hl IH Hx]; [constructor|].
  unfold stableSort in *. cbn [foldr]. apply insertBy_numbered; [done|].
  change (foldr (insertBy byPosition) [] l) with (stableSort byPosition l).
  by rewrite stableSort_perm.
Qed.

Lemma imap_pair_sorted arr (n : nat) :
  StronglySorted (λ a b : nat * TodoRow, (a.1 < b.1)%nat)
    (imap (λ i x, ((n + i)%nat, x)) arr).
Proof.
  revert n. induction arr as [|x arr IH]; intros n; [constructor|].
  rewrite imap_cons. constructor.
  - rewrite (imap_ext _ (λ i x, ((S n + i)%nat, x))); [apply IH|].
    intros i y _. simpl. f_equal. lia.
  - apply Forall_forall. intros y (i & z & -> & _)%elem_of_lookup_imap. simpl. lia.
Qed.

(** The objects of a list with their indexes, in the order in which they
    are numbered. *)
Lemma listTodos_sorted (L : Z) arr :
  StronglySorted numberedBefore
    (stableSort byPosition (filter (λ it : nat * TodoRow, inList L it.2) (imap pair arr))).
Proof. apply stableSort_numbered, StronglySorted_filter, (imap_pair_sorted arr 0). Qed.

Lemma elem_of_listTodos (L : Z) arr (it : nat * TodoRow) :
  it ∈ stableSort byPosition (filter (λ it : nat * TodoRow, inList L it.2) (imap pair arr))
  ↔ arr !! it.1 = Some it.2 ∧ listId it.2.2 = L.
Proof.
  rewrite stableSort_perm, list_elem_of_filter, elem_of_lookup_imap. unfold inList.
  destruct it as [i t]. simpl. split.
  - by intros [HL (j & y & [= -> ->] & Hy)].
  - intros [Hi HL]. split; [done|]. by exists i, t.
Qed.

Lemma listTodos_NoDup (L : Z) arr :
  NoDup (stableSort byPosition
           (filter (λ it : nat * TodoRow, inList L it.2) (imap pair arr))).*1.
Proof.
  rewrite stableSort_perm.
  assert (StronglySorted lt
            (filter (λ it : nat * TodoRow, inList L it.2) (imap pair arr)).*1) as Hs.
  { apply (StronglySorted_fmap fst (λ a b : nat * TodoRow, (a.1 < b.1)%nat) lt); [done|].
    apply StronglySorted_filter, (imap_pair_sorted arr 0). }
  revert Hs. generalize ((filter (λ it : nat * TodoRow, inList L it.2) (imap pair arr)).*1).
  induction 1 as [|x l Hl IH Hx]; constructor; [|done].
  intros Hin. eapply Forall_forall in Hx; [|done]. lia.
Qed.

Lemma renumberAt_length (rows : list nat) (idx : Z) arr :
  length (renumberAt idx rows arr) = length arr.
Proof.
  revert idx arr. induction rows as [|i rows IH]; intros idx arr; simpl; [done|].
  by rewrite IH, length_alter.
Qed.

Lemma renumberAt_notin (rows : list nat) (idx : Z) arr (i : nat) :
  i ∉ rows → renumberAt idx rows arr !! i = arr !! i.
Proof.
  revert idx arr. induction rows as [|r rows IH]; intros idx arr Hi; simpl; [done|].
  apply not_elem_of_cons in Hi as [Hne Hi].
  rewrite IH by done. by rewrite list_lookup_alter_ne.
Qed.

Lemma renumberAt_in (rows : list nat) (idx : Z) arr (k i : nat) :
  NoDup rows → rows !! k = Some i →
  renumberAt idx rows arr !! i
  = (λ t : TodoRow, (t.1, setPosition (Int (idx + Z.of_nat k)) t.2)) <$> arr !! i.
Proof.
  revert idx arr k. induction rows as [|r rows IH]; intros idx arr k Hnd Hk; [done|].
  apply NoDup_cons in Hnd as [Hr Hnd]. destruct k as [|k]; simpl in Hk |- *.
  - injection Hk as ->. rewrite renumberAt_notin by done.
    rewrite list_lookup_alter_eq. by rewrite Z.add_0_r.
  - rewrite (IH _ _ k) by done.
    assert (r ≠ i) as Hne by (intros ->; by apply list_elem_of_lookup_2 in Hk).
    rewrite list_lookup_alter_ne by done.
    destruct (arr !! i); [|done]. simpl. do 4 f_equal. lia.
Qed.

(** The row at an index after the compaction. *)
Lemma compactPositionsLocal_lookup (L : Z) arr (i : nat) (t : TodoRow) :
  arr !! i = Some t →
  let listTodos :=
    stableSort byPosition (filter (λ it : nat * TodoRow, inList L it.2) (imap pair arr)) in
  (listId t.2 ≠ L ∧ compactPositionsLocal L arr !! i = Some t)
  ∨ (listId t.2 = L
     ∧ ∃ k, listTodos !! k = Some (i, t)
            ∧ compactPositionsLocal L arr !! i
              = Some (t.1, setPosition (Int (1 + Z.of_nat k)) t.2)).
Proof.
  intros Hi listTodos. unfold compactPositionsLocal. fold listTodos.
  destruct (decide (listId t.2 = L)) as [HL|HL].
  - right. split; [done|].
    assert ((i, t) ∈ listTodos) as [k Hk]%list_elem_of_lookup_1
      by (by apply elem_of_listTodos).
    exists k. split; [done|].
    rewrite (renumberAt_in _ _ _ k i); [by rewrite Hi|apply listTodos_NoDup|].
    by rewrite list_lookup_fmap, Hk.
  - left. split; [done|]. rewrite renumberAt_notin; [done|].
    intros ([j t'] & -> & [Ht' HL']%elem_of_listTodos)%list_elem_of_fmap.
    cbn [fst snd] in *. congruence.
Qed.

Lemma length_filter_imap (P : TodoRow → Prop) `{!∀ t, Decision (P t)} arr
    (g : nat → nat) :
  length (filter (λ it : nat * TodoRow, P it.2) (imap (λ i x, (g i, x)) arr))
  = length (filter P arr).
Proof.
  revert g. induction arr as [|x arr IH]; intros g; [done|].
  rewrite imap_cons, !filter_cons. cbn [snd].
  specialize (IH (g ∘ S)). unfold compose in IH |- *.
  destruct (decide (P x)); simpl; by rewrite IH.
Qed.

Lemma length_listTodos (L : Z) arr :
  length (stableSort byPosition
            (filter (λ it : nat * TodoRow, inList L it.2) (imap pair arr)))
  = length (todosOf L arr).
Proof.
  rewrite stableSort_perm. apply (length_filter_imap (inList L) arr (λ i, i)).
Qed.

Lemma length_filter_same (P : TodoRow → Prop) `{!∀ t, Decision (P t)} arr arr' :
  Forall2 (λ t t', P t ↔ P t') arr arr' →
  length (filter P arr) = length (filter P arr').
Proof.
  induction 1 as [|t t' arr arr' Ht _ IH]; [done|].
  rewrite !filter_cons. destruct (decide (P t)), (decide (P t')); simpl; tauto || lia.
Qed.

(** What the compaction of the client does to the array. *)
Lemma compactPositionsLocal_rows (L : Z) arr :
  let arr' := compactPositionsLocal L arr in
  length arr' = length arr
  ∧ (∀ i t, arr !! i = Some t →
       ∃ t', arr' !! i = Some t' ∧ t'.1 = t.1 ∧ otherColumns t'.2 = otherColumns t.2
             ∧ (listId t.2 ≠ L → t' = t))
  ∧ contiguousLocal L arr'
  ∧ (∀ i j ti tj ti' tj',
       arr !! i = Some ti → arr !! j = Some tj → listId ti.2 = L → listId tj.2 = L →
       arr' !! i = Some ti' → arr' !! j = Some tj' →
       num_lt (position ti.2) (position tj.2)
       ∨ (position ti.2 = position tj.2 ∧ (i < j)%nat) →
       num_lt (position ti'.2) (position tj'.2)).
Proof.
  intros arr'.
  assert (length arr' = length arr) as Hlen by apply renumberAt_length.
  assert (∀ i t, arr !! i = Some t →
            ∃ t', arr' !! i = Some t' ∧ t'.1 = t.1 ∧ otherColumns t'.2 = otherColumns t.2
                  ∧ (listId t.2 ≠ L → t' = t)) as Hrows.
  { intros i t Hi.
    destruct (compactPositionsLocal_lookup L arr i t Hi)
      as [[HL Hi']|[HL (k & Hk & Hi')]].
    - exists t. done.
    - eexists. split; [exact Hi'|]. done. }
  assert (∀ i t', arr' !! i = Some t' → ∃ t, arr !! i = Some t) as Hback.
  { intros i t' Hi'. apply lookup_lt_Some in Hi'. rewrite Hlen in Hi'.
    by apply lookup_lt_is_Some_2 in Hi'. }
  assert (∀ i t t', arr !! i = Some t → arr' !! i = Some t' → listId t'.2 = listId t.2)
    as HlistId.
  { intros i t t' Hi Hi'. destruct (Hrows i t Hi) as (t'' & Hi'' & _ & Hcols & _).
    assert (t'' = t') as -> by congruence.
    by apply (f_equal listId) in Hcols. }
  assert (length (todosOf L arr') = length (todosOf L arr)) as Hcount.
  { symmetry. apply (length_filter_same (inList L)).
    apply Forall2_same_length_lookup_2; [done|].
    intros i t t' Hi Hi'. unfold inList. by rewrite (HlistId i t t'). }
  split; [done|]. split; [done|]. split; [split|].
  - intros i t' Hi' HL'. destruct (Hback i t' Hi') as [t Hi].
    destruct (compactPositionsLocal_lookup L arr i t Hi)
      as [[HL Hi'']|[HL (k & Hk & Hi'')]].
    { rewrite (HlistId i t t' Hi Hi') in HL'. done. }
    fold arr' in Hi''. assert (t' = (t.1, setPosition (Int (1 + Z.of_nat k)) t.2)) as ->
      by congruence.
    exists (1 + Z.of_nat k). split; [done|].
    apply lookup_lt_Some in Hk. rewrite length_listTodos in Hk.
    rewrite Hcount. lia.
  - intros i j ti' tj' Hi' Hj' HLi HLj Hij.
    destruct (Hback i ti' Hi') as [ti Hi], (Hback j tj' Hj') as [tj Hj].
    rewrite (HlistId i ti ti' Hi Hi') in HLi. rewrite (HlistId j tj tj' Hj Hj') in HLj.
    destruct (compactPositionsLocal_lookup L arr i ti Hi)
      as [[? _]|[_ (ki & Hki & Hi'')]]; [done|].
    destruct (compactPositionsLocal_lookup L arr j tj Hj)
      as [[? _]|[_ (kj & Hkj & Hj'')]]; [done|].
    fold arr' in Hi'', Hj''.
    assert (ti' = (ti.1, setPosition (Int (1 + Z.of_nat ki)) ti.2)) as -> by congruence.
    assert (tj' = (tj.1, setPosition (Int (1 + Z.of_nat kj)) tj.2)) as -> by congruence.
    simpl. intros [= Heq]. assert (ki = kj) as -> by lia. congruence.
  - intros i j ti tj ti' tj' Hi Hj HLi HLj Hi' Hj' Horder.
    destruct (compactPositionsLocal_lookup L arr i ti Hi)
      as [[? _]|[_ (ki & Hki & Hi'')]]; [done|].
    destruct (compactPositionsLocal_lookup L arr j tj Hj)
      as [[? _]|[_ (kj & Hkj & Hj'')]]; [done|].
    fold arr' in Hi'', Hj''.
    assert (ti' = (ti.1, setPosition (Int (1 + Z.of_nat ki)) ti.2)) as -> by congruence.
    assert (tj' = (tj.1, setPosition (Int (1 + Z.of_nat kj)) tj.2)) as -> by congruence.
    simpl. apply num_lt_Int.
    destruct (decide (ki < kj)%nat) as [Hlt|Hge]; [lia|exfalso].
    destruct (decide (ki = kj)) as [->|Hne].
    { assert (i = j ∧ ti = tj) as [-> ->] by (split; congruence).
      destruct Horder as [?%num_lt_irrefl|[_ ?]]; [done|lia]. }
    assert (numberedBefore (j, tj) (i, ti)) as Hbefore.
    { eapply (StronglySorted_lookup_lt numberedBefore _ kj ki);
        [apply (listTodos_sorted L arr)|done..|lia]. }
    destruct Horder as [Hlt|[Heq Hlt]], Hbefore as [Hlt'|[Heq' Hle']]; simpl in *.
    + by eapply num_lt_asym.
    + rewrite Heq' in Hlt. by apply num_lt_irrefl in Hlt.
    + rewrite Heq in Hlt'. by apply num_lt_irrefl in Hlt'.
    + lia.
Qed.

End numbering.

(** X27. [compactPositions] of the client on the array: the array keeps its
    length and its order, and every object keeps its id and all its fields
    but [position]; the objects of other lists are not touched. Afterwards
    the positions of the objects of the list are the numbers 1 to N, each
    once, in the order of the positions before; the objects that had the
    same position are numbered in the order of the array. *)
Theorem compactPositionsLocal_numbers (L : Z) (arr : list TodoRow) :
  let arr' := compactPositionsLocal L arr in
  length arr' = length arr
  ∧ (∀ i t, arr !! i = Some t →
       ∃ t', arr' !! i = Some t' ∧ t'.1 = t.1 ∧ otherColumns t'.2 = otherColumns t.2
             ∧ (listId t.2 ≠ L → t' = t))
  ∧ contiguousLocal L arr'
  ∧ (∀ i j ti tj ti' tj',
       arr !! i = Some ti → arr !! j = Some tj → listId ti.2 = L → listId tj.2 = L →
       arr' !! i = Some ti' → arr' !! j = Some tj' →
       num_lt (position ti.2) (position tj.2)
       ∨ (position ti.2 = position tj.2 ∧ (i < j)%nat) →
       num_lt (position ti'.2) (position tj'.2)).
Proof. apply compactPositionsLocal_rows. Qed.

(** ** The fallback of the client: deleteTodo and deleteList *)

Lemma compactPositionsLocal_columns (L : Z) (arr : list TodoRow) :
  (λ t : TodoRow, (t.1, otherColumns t.2)) <$> compactPositionsLocal L arr
  = (λ t : TodoRow, (t.1, otherColumns t.2)) <$> arr.
Proof.
  destruct (compactPositionsLocal_rows L arr) as (Hlen & Hrows & _).
  apply list_eq. intros i. rewrite !list_lookup_fmap.
  destruct (arr !! i) as [t|] eqn:Hi.
  - destruct (Hrows i t Hi) as (t' & -> & Hid & Hcols & _). simpl. by rewrite Hid, Hcols.
  - apply lookup_ge_None in Hi. rewrite <- Hlen in Hi.
    apply lookup_ge_None in Hi. by rewrite Hi.
Qed.



(** X29. The fallback of [deleteList] in the client. For an id that no
    list has it throws 'List not found' and changes nothing. Otherwise it
    returns: the lists with the id are gone; when no list is left, the list
    'My Todo List' with the id 1 is made; the first of the lists is the
    current list afterwards, whatever list was current before; the objects
    of the deleted list are removed from [todos], the others keep their
    order, their ids and their fields other than [position]; and the
    positions of the current list are 1..N. *)
Theorem deleteListFallback_outcome (now id : Z) (st : Local) :
  if decide (id ∈ (localLists st).*1) then
    ∃ first rest arr',
      deleteListFallback now id st
      = (Returned first.1, mkLocal arr' (first :: rest) first.1)
      ∧ first :: rest
        = match filter (λ l : Z * ListRow, l.1 ≠ id) (localLists st) with
          | [] => [(1, mkListRow "My Todo List" now now)]
          | ls => ls
          end
      ∧ (λ t : TodoRow, (t.1, otherColumns t.2)) <$> arr'
        = (λ t : TodoRow, (t.1, otherColumns t.2))
            <$> filter (λ t : TodoRow, listId t.2 ≠ id) (localTodos st)
      ∧ contiguousLocal first.1 arr'
  else deleteListFallback now id st = (Raised (notFound "List not found"), st).
Proof.
  unfold deleteListFallback. case_decide as Hid; [|done].
  destruct (filter (λ l : Z * ListRow, l.1 ≠ id) (localLists st)) as [|first rest] eqn:Hls.
  - eexists _, [], _. split; [done|]. split; [done|].
    split; [apply compactPositionsLocal_columns|apply compactPositionsLocal_rows].
  - eexists first, rest, _. split; [done|]. split; [done|].
    split; [apply compactPositionsLocal_columns|apply compactPositionsLocal_rows].
Qed.

(** ** The fallback of the client: the lists *)

Lemma newLocalListId_above (ls : list (Z * ListRow)) (l : Z * ListRow) :
  l ∈ ls → l.1 < newLocalListId ls.
Proof.
  unfold newLocalListId.
  assert (∀ m, m ≤ foldl (λ m l, Z.max m l.1) m ls
               ∧ ∀ l, l ∈ ls → l.1 ≤ foldl (λ m l, Z.max m l.1) m ls) as Hmax.
  { induction ls as [|x ls IH]; intros m.
    - split; [done|]. by intros ? ?%elem_of_nil.
    - cbn [foldl]. destruct (IH (Z.max m x.1)) as [Hm Hls]. split; [lia|].
      intros y [->|Hy]%elem_of_cons; [lia|by apply Hls]. }
  intros Hl. destruct (Hmax 0) as [_ Hls]. specialize (Hls l Hl). lia.
Qed.

(** X30. The fallbacks of the calls on lists in the client
    ([setCurrentListId], [createList], [renameList], [deleteList]) keep the
    lists in order: from a state in which no two lists have the same id and
    the current list is one of the lists, every call, whether it returns or
    throws, leaves such a state. *)
Theorem afterListCall_listsOk (c : ListCall) (st : Local) :
  listsOk st → listsOk (afterListCall c st).
Proof.
  intros [Hnd Hcur]. destruct c as [id|now name|now id name|now id]; unfold afterListCall.
  - unfold setCurrentListIdFallback. by case_decide.
  - unfold createListFallback, listsOk. cbn [snd localLists currentListId].
    rewrite fmap_app. cbn [fmap list_fmap fst]. split.
    + apply NoDup_app. split; [done|]. split; [|apply NoDup_singleton].
      intros x (l & Hx & Hl)%list_elem_of_fmap Hnew%list_elem_of_singleton.
      apply newLocalListId_above in Hl. lia.
    + apply elem_of_app. right. by apply list_elem_of_singleton.
  - unfold renameListFallback.
    destruct (list_find _ _) as [[i l]|] eqn:Hfind; [|done].
    apply list_find_Some in Hfind as (Hi & _ & _).
    unfold listsOk. cbn [snd localLists currentListId].
    rewrite list_fmap_insert. cbn [fst].
    rewrite list_insert_id; [done|]. by rewrite list_lookup_fmap, Hi.
  - unfold deleteListFallback. case_decide as Hid; [|done].
    destruct (filter (λ l : Z * ListRow, l.1 ≠ id) (localLists st)) as [|first rest] eqn:Hls.
    + unfold listsOk. cbn [snd localLists currentListId fmap list_fmap fst].
      split; [apply NoDup_singleton|by apply list_elem_of_singleton].
    + unfold listsOk. cbn [snd localLists currentListId]. split.
      * rewrite <- Hls. eapply sublist_NoDup; [exact Hnd|].
        apply fmap_sublist, sublist_filter.
      * cbn [fmap list_fmap fst]. left.
Qed.

Lemma afterListCall_listsOk_witness :
  let st := mkLocal [] [(1, mkListRow "A" 0 0); (2, mkListRow "B" 0 0)] 2 in
  listsOk st
  ∧ afterListCall (DeleteListFallback 5 2) st = mkLocal [] [(1, mkListRow "A" 0 0)] 1
  ∧ listsOk (afterListCall (DeleteListFallback 5 2) st).
Proof.
  intros st.
  assert (listsOk st) as Hst.
  { split; [|by right; left]. apply (bool_decide_unpack _). vm_compute. exact I. }
  split; [exact Hst|]. split; [vm_compute; reflexivity|].
  exact (afterListCall_listsOk (DeleteListFallback 5 2) st Hst).
Defined.
